(** * FedDES: the FedAvg driver and the FedCompass scheduler

    A shallow embedding of [simulation/algorithm/FedAvg.cpp] and
    [simulation/algorithm/FedCompass.cpp].

    Conventions of the embedding.
    - A C++ [int] or [long] is a [Z]; where the source narrows a JSON
      integer to [int] the wrap-around is written out ([to_int]).
    - A C++ [double] is an exact rational [Q].  Rounding of binary64 is not
      represented; infinities and NaN have no counterpart, so an operation
      whose C++ value would be one of them (a division by zero that is then
      converted to [int], an empty minimum) is a failure of the model.
    - Undefined behaviour of the source (null dereference, [erase] of
      [end()], a [double] outside the range of [int] in a conversion) makes
      the modelled operation return [None].
    - [xbt_assert] failures and uncaught JSON exceptions are [Abort d] for a
      diagnostic [d].
    - The simulated clock is part of the state; [execute (x * host_speed)]
      advances it by [x] seconds plus a non-negative slowdown chosen by the
      environment, [put] and [get] by a non-negative time chosen by the
      environment. *)

From Stdlib Require Import ZArith QArith Qround Qpower Lia Lqa Permutation String Bool.
From stdpp Require Import base gmap sets list.

Open Scope Z_scope.

(** ** Numbers *)

Module Num.

Definition INT_MIN : Z := - 2 ^ 31.
Definition INT_MAX : Z := 2 ^ 31 - 1.

Definition in_int (n : Z) : bool := (INT_MIN <=? n) && (n <=? INT_MAX).

(** Narrowing of a 64-bit JSON integer to [int] (two's complement). *)
Definition to_int (n : Z) : Z := (n + 2 ^ 31) mod 2 ^ 32 - 2 ^ 31.

(** Truncation toward zero, the value of a [double] to [int] conversion. *)
Definition Qtrunc (x : Q) : Z := Z.quot (Qnum x) (Zpos (Qden x)).

(** [static_cast<int>(x)]: undefined when the truncated value does not fit. *)
Definition static_cast_int (x : Q) : option Z :=
  let n := Qtrunc x in if in_int n then Some n else None.

(** [static_cast<int>(a / b)] for doubles: [a / 0.0] is infinite or NaN. *)
Definition div_to_int (a b : Q) : option Z :=
  if Qeq_bool b 0 then None else static_cast_int (a / b).

Definition Qltb (a b : Q) : bool := negb (Qle_bool b a).

End Num.

Export Num.

(** ** The JSON values the programs read (nlohmann::json) *)

Module Json.

#[warnings="-register-all"]
Inductive json : Type :=
| JNull
| JBool (b : bool)
| JInt (n : Z)
| JFloat (x : Q)
| JString (s : string)
| JArray (xs : list json)
| JObject (kv : list (string * json)).

Definition is_null (j : json) : bool := match j with JNull => true | _ => false end.
Definition is_array (j : json) : bool := match j with JArray _ => true | _ => false end.
Definition is_object (j : json) : bool := match j with JObject _ => true | _ => false end.
Definition is_number_integer (j : json) : bool :=
  match j with JInt _ => true | _ => false end.

Fixpoint assoc (kv : list (string * json)) (k : string) : option json :=
  match kv with
  | [] => None
  | (k', v) :: kv' => if String.eqb k' k then Some v else assoc kv' k
  end.

(** [j.contains(k)]: false when [j] is not an object. *)
Definition contains (j : json) (k : string) : bool :=
  match j with
  | JObject kv => match assoc kv k with Some _ => true | None => false end
  | _ => false
  end.

(** [j[k]] on a const object; the callers test [contains] first. *)
Definition at_key (j : json) (k : string) : option json :=
  match j with JObject kv => assoc kv k | _ => None end.

(** [j[i]] on a const array. *)
Definition at_index (j : json) (i : nat) : option json :=
  match j with JArray xs => xs !! i | _ => None end.

Definition size (j : json) : nat :=
  match j with
  | JNull => 0
  | JArray xs => length xs
  | JObject kv => length kv
  | _ => 1
  end.

(** [j.get<double>()]: numbers and booleans convert, anything else throws. *)
Definition get_double (j : json) : option Q :=
  match j with
  | JInt n => Some (inject_Z n)
  | JFloat x => Some x
  | JBool b => Some (if b then 1%Q else 0%Q)
  | _ => None
  end.

(** [j.get<int>()] where [j.is_number_integer()] holds. *)
Definition get_int (j : json) : option Z :=
  match j with JInt n => Some (to_int n) | _ => None end.

End Json.

Export Json.

(** ** Straggler rules: [parse_client_effects] (the same text in both programs) *)

Module Stragglers.

Inductive diagnostic : Type :=
| NotAnArray            (* Straggler configuration must be a JSON array *)
| MissingEffect         (* Each straggler rule must define an effect *)
| TypeError             (* nlohmann type_error, uncaught *)
| EffectNotPositive     (* Straggler effect must be positive *)
| InvalidClient (c : Z) (* Invalid straggler client c *)
| ClientNotInteger      (* client must be an integer *)
| ClientsNotArray       (* clients must be an array of integers *)
| ClientsEntryNotInteger(* Each entry in clients must be an integer *)
| RangeArraySize        (* range array must contain exactly two integers *)
| RangeEntriesNotInteger(* range entries must be integers *)
| RangeNotObject        (* range must be an object or a two-value array *)
| RangeMissingBounds    (* range object must contain start and end *)
| RangeBoundsNotInteger (* start and end must be integers *)
| RangeOrder            (* range start must be <= end *)
| NoTarget.             (* Straggler rule must target at least one client *)

Inductive outcome (A : Type) : Type :=
| Done (a : A)
| Abort (d : diagnostic).
Arguments Done {A} a.
Arguments Abort {A} d.

Definition bind {A B} (f : A -> outcome B) (m : outcome A) : outcome B :=
  match m with Done a => f a | Abort d => Abort d end.

#[global] Instance outcome_bind : MBind outcome := @bind.
#[global] Instance outcome_ret : MRet outcome := @Done.

Definition xbt_assert (b : bool) (d : diagnostic) : outcome unit :=
  if b then Done tt else Abort d.

Definition or_throw {A} (o : option A) : outcome A :=
  match o with Some a => Done a | None => Abort TypeError end.

(** The local state of one loop iteration: the [applied] flag and the map. *)
Definition acc : Type := bool * gmap Z Q.

(** The lambda [apply_to_client]. *)
Definition apply_to_client (total_clients : Z) (effect : Q) (st : acc) (client_id : Z)
  : outcome acc :=
  xbt_assert ((0 <=? client_id) && (client_id <? total_clients))
         (InvalidClient client_id);;
  let effects := snd st in
  match effects !! client_id with
  | None => Done (true, <[client_id := effect]> effects)
  | Some old => Done (true, <[client_id := (old * effect)%Q]> effects)
  end.

(** [for (const auto &client_val : rule["clients"])]. *)
Fixpoint apply_clients (total_clients : Z) (effect : Q) (vals : list json) (st : acc)
  : outcome acc :=
  match vals with
  | [] => Done st
  | client_val :: vals' =>
      xbt_assert (is_number_integer client_val) ClientsEntryNotInteger;;
      id ← or_throw (get_int client_val);
      st' ← apply_to_client total_clients effect st id;
      apply_clients total_clients effect vals' st'
  end.

(** [for (int client = start_client; client <= end_client; ++client)], with
    [n] the number of iterations left.  The increment cannot overflow: the
    body aborts on any [client >= total_clients]. *)
Fixpoint apply_range (total_clients : Z) (effect : Q) (n : nat) (client : Z) (st : acc)
  : outcome acc :=
  match n with
  | O => Done st
  | S n' =>
      st' ← apply_to_client total_clients effect st client;
      apply_range total_clients effect n' (client + 1) st'
  end.

Definition range_bounds (range_val : json) : outcome (Z * Z) :=
  if is_array range_val then
    xbt_assert (Nat.eqb (size range_val) 2) RangeArraySize;;
    match at_index range_val 0, at_index range_val 1 with
    | Some a, Some b =>
        xbt_assert (is_number_integer a && is_number_integer b)
               RangeEntriesNotInteger;;
        s ← or_throw (get_int a);
        e ← or_throw (get_int b);
        Done (s, e)
    | _, _ => Abort RangeArraySize
    end
  else
    xbt_assert (is_object range_val) RangeNotObject;;
    xbt_assert (contains range_val "start" && contains range_val "end")
           RangeMissingBounds;;
    match at_key range_val "start", at_key range_val "end" with
    | Some a, Some b =>
        xbt_assert (is_number_integer a && is_number_integer b)
               RangeBoundsNotInteger;;
        s ← or_throw (get_int a);
        e ← or_throw (get_int b);
        Done (s, e)
    | _, _ => Abort RangeMissingBounds
    end.

(** The body of [for (const auto &rule : rules)]. *)
Definition apply_rule (total_clients : Z) (effects : gmap Z Q) (rule : json)
  : outcome (gmap Z Q) :=
  xbt_assert (contains rule "effect") MissingEffect;;
  effect ← or_throw (match at_key rule "effect" with
                      | Some e => get_double e | None => None end);
  xbt_assert (Qltb 0 effect) EffectNotPositive;;
  let st0 : acc := (false, effects) in
  st1 ← (if contains rule "client" then
            match at_key rule "client" with
            | Some c =>
                xbt_assert (is_number_integer c) ClientNotInteger;;
                id ← or_throw (get_int c);
                apply_to_client total_clients effect st0 id
            | None => Abort TypeError
            end
          else Done st0);
  st2 ← (if contains rule "clients" then
            match at_key rule "clients" with
            | Some (JArray vals) => apply_clients total_clients effect vals st1
            | _ => Abort ClientsNotArray
            end
          else Done st1);
  st3 ← (if contains rule "range" then
            match at_key rule "range" with
            | Some range_val =>
                '(start_client, end_client) ← range_bounds range_val;
                xbt_assert (start_client <=? end_client) RangeOrder;;
                apply_range total_clients effect
                  (Z.to_nat (end_client - start_client + 1)) start_client st2
            | None => Abort TypeError
            end
          else Done st2);
  xbt_assert (fst st3) NoTarget;;
  Done (snd st3).

Fixpoint apply_rules (total_clients : Z) (rules : list json) (effects : gmap Z Q)
  : outcome (gmap Z Q) :=
  match rules with
  | [] => Done effects
  | rule :: rules' =>
      effects' ← apply_rule total_clients effects rule;
      apply_rules total_clients rules' effects'
  end.

Definition parse_client_effects (rules : json) (total_clients : Z)
  : outcome (gmap Z Q) :=
  if is_null rules then Done ∅
  else match rules with
       | JArray rs => apply_rules total_clients rs ∅
       | _ => Abort NotAnArray
       end.

(** The lambda [client_multiplier] of [main]. *)
Definition client_multiplier (client_effects : gmap Z Q) (client_id : Z) : Q :=
  match client_effects !! client_id with
  | None => 1%Q
  | Some e => e
  end.

End Stragglers.

Export Stragglers.

(** ** Deployment: the tail of [main] in both programs *)

Module Deploy.

(** The six strings of [client_args], before [std::to_string]; the third is
    [nepochs] in FedAvg and [max_local_steps] in FedCompass. *)
Record client_args : Type := mk_client_args {
  a_client_id : Z;
  a_num_clients : Z;
  a_rounds : Z;
  a_dataloader_cost : Q;
  a_training_cost : Q;
  a_control : Z
}.

(** [Actor::create(name, Host::by_name("Node-" + to_string(node)), client, args)]. *)
Record spawn : Type := mk_spawn { sp_node : Z; sp_args : client_args }.

(** [for (int i = 0; i < limit && client_id < num_clients; ++i, ++client_id)]
    with [n] iterations of [i] left; returns the actors created and the
    [client_id] reached. *)
Fixpoint fill_node (mk : Z -> client_args) (node : Z) (num_clients : Z)
    (n : nat) (client_id : Z) : list spawn * Z :=
  match n with
  | O => ([], client_id)
  | S n' =>
      if client_id <? num_clients then
        let '(l, c) := fill_node mk node num_clients n' (client_id + 1) in
        (mk_spawn node (mk client_id) :: l, c)
      else ([], client_id)
  end.

(** [while (client_id < num_clients) { for ...; ++node_index; }].  With
    [clients_per_node <= 0] the loop never advances; [fuel] bounds the number
    of rounds and [None] stands for that divergence. *)
Fixpoint fill_rest (mk : Z -> client_args) (clients_per_node num_clients : Z)
    (fuel : nat) (node_index client_id : Z) : option (list spawn) :=
  if client_id <? num_clients then
    match fuel with
    | O => None
    | S fuel' =>
        let '(l, c) := fill_node mk node_index num_clients
                         (Z.to_nat clients_per_node) client_id in
        rest ← fill_rest mk clients_per_node num_clients fuel' (node_index + 1) c;
        Some (l ++ rest)
    end
  else Some [].

Definition distribute (mk_node1 mk_other : Z -> client_args)
    (clients_per_node num_clients : Z) : option (list spawn) :=
  let '(l, c) := fill_node mk_node1 1 num_clients
                   (Z.to_nat (clients_per_node - 1)) 0 in
  rest ← fill_rest mk_other clients_per_node num_clients
           (Z.to_nat num_clients) 2 c;
  Some (l ++ rest).

(** The configuration values [main] reads (the keys common to both programs
    and the FedCompass ones). *)
Record config : Type := mk_config {
  num_nodes : Z;
  clients_per_node : Z;
  cfg_epochs : Z;
  cfg_dataloader_cost : Q;
  cfg_aggregation_cost : Q;
  cfg_training_cost : Q;
  cfg_comm_cost : Q;
  cfg_control : Z;
  cfg_max_local_steps : Z;
  cfg_q_ratio : Q;
  cfg_lambda : Q;
  cfg_validation_cost : Q;
  cfg_validation_flag : Z;
  cfg_model_size : Q;
  cfg_stragglers : json
}.

Definition total_clients (cfg : config) : Z :=
  num_nodes cfg * clients_per_node cfg - 1.

(** FedAvg.cpp, [main]: clients of Node-1, then of Node-2, Node-3, ... *)
Definition fedavg_clients (cfg : config) : outcome (option (list spawn)) :=
  let nclients := total_clients cfg in
  client_effects ← parse_client_effects (cfg_stragglers cfg) nclients;
  let node1 client_id :=
    let multiplier := client_multiplier client_effects client_id in
    let node_dataloader_cost := (cfg_dataloader_cost cfg * multiplier)%Q in
    let node_training_cost := (cfg_training_cost cfg * (8 # 10) * multiplier)%Q in
    mk_client_args client_id nclients (cfg_epochs cfg) node_dataloader_cost
      node_training_cost (cfg_control cfg) in
  let other client_id :=
    let multiplier := client_multiplier client_effects client_id in
    let node_dataloader_cost := (cfg_dataloader_cost cfg * multiplier)%Q in
    let node_training_cost := (cfg_training_cost cfg * multiplier)%Q in
    mk_client_args client_id nclients (cfg_epochs cfg) node_dataloader_cost
      node_training_cost (cfg_control cfg) in
  Done (distribute node1 other (clients_per_node cfg) nclients).

(** FedCompass.cpp, [main]: both loops build the same arguments. *)
Definition fedcompass_clients (cfg : config) : outcome (option (list spawn)) :=
  let num_clients := total_clients cfg in
  client_effects ← parse_client_effects (cfg_stragglers cfg) num_clients;
  let args client_id :=
    let multiplier := client_multiplier client_effects client_id in
    mk_client_args client_id num_clients (cfg_max_local_steps cfg)
      (cfg_dataloader_cost cfg * multiplier)%Q
      (cfg_training_cost cfg * multiplier)%Q (cfg_control cfg) in
  Done (distribute args args (clients_per_node cfg) num_clients).

(** Scenario S1 of the specification (2 nodes, 2 clients per node, every
    cost 1, no straggler), with the FedCompass keys at their defaults and
    [max_local_steps = 10]. *)
Definition s1_config : config :=
  mk_config 2 2 2 1 1 1 1 0 10 (2 # 10) (15 # 10) 0 0 1 (JArray []).

(** The training costs handed to the clients created on [node]. *)
Definition training_costs_on (node : Z) (r : outcome (option (list spawn))) : list Q :=
  match r with
  | Done (Some l) =>
      map (fun sp => a_training_cost (sp_args sp))
        (filter (fun sp => sp_node sp = node) l)
  | _ => []
  end.

End Deploy.

Export Deploy.

(** ** What an actor does, as seen by the simulation kernel *)

Module Sim.

Inductive payload : Type :=
| PInt (n : Z)
| PDouble (x : Q).

Inductive action : Type :=
| Execute (flops : Q)                          (* this_actor::execute *)
| Get (mailbox : Z) (p : payload)              (* mailbox->get, with the value got *)
| Put (mailbox : Z) (p : payload) (bytes : Q). (* mailbox->put *)

(** How the run of an actor function ends: it returns, or it waits for ever
    in a [get] that no [put] matches. *)
Inductive status : Type := Returned | Blocked.

(** The payloads put into [mailbox], oldest first. *)
Fixpoint puts_to (mailbox : Z) (tr : list action) : list payload :=
  match tr with
  | [] => []
  | Put m p _ :: tr' =>
      if m =? mailbox then p :: puts_to mailbox tr' else puts_to mailbox tr'
  | _ :: tr' => puts_to mailbox tr'
  end.

Fixpoint count_puts (tr : list action) : nat :=
  match tr with
  | [] => 0
  | Put _ _ _ :: tr' => S (count_puts tr')
  | _ :: tr' => count_puts tr'
  end.

Fixpoint count_gets (tr : list action) : nat :=
  match tr with
  | [] => 0
  | Get _ _ :: tr' => S (count_gets tr')
  | _ :: tr' => count_gets tr'
  end.

(** [speed = host->get_speed(); if (control == 2) speed *= dist(gen);]
    where [x] is the value drawn from [normal_distribution<double>(0, 0.12)]. *)
Definition perturbed_speed (control : Z) (host_speed x : Q) : Q :=
  if control =? 2 then (host_speed * x)%Q else host_speed.

End Sim.

Export Sim.

(** ** FedAvg.cpp *)

Module FedAvg.

Section Client.
(** [args], the speed of the host, and the successive values of [dist(gen)]. *)
Variable args : client_args.
Variable host_speed : Q.
Variable X : nat -> Q.

Let client_id := a_client_id args.
Let client_count := a_num_clients args.
Let num_epochs := a_rounds args.
Let dataloader_cost := a_dataloader_cost args.
Let training_cost := a_training_cost args.
Let control := a_control args.

(** The number of draws made before the loop. *)
Definition draws_at_start : nat := if control =? 2 then 1 else 0.
Definition speed : Q := perturbed_speed control host_speed (X 0).

(** [for (int i = 0; i < num_epochs + 1; i++)] with [n] iterations left,
      [k] draws made so far and [inbox] the messages that will reach
      [my_mailbox]. *)
Fixpoint client_loop (comm_cost : Q) (n k : nat) (inbox : list payload)
    : list action * status :=
    match n with
    | O => ([], Returned)
    | S n' =>
        match inbox with
        | [] => ([], Blocked)
        | m :: inbox' =>
            let '(work, k') :=
              if control =? 0 then (Execute (training_cost * speed), k)
              else (Execute (training_cost * speed * X k), S k) in
            let '(tr, st) := client_loop comm_cost n' k' inbox' in
            (Get client_id m :: work
               :: Put client_count (PInt client_id) (comm_cost * 32) :: tr, st)
        end
    end.

Definition client (inbox : list payload) : list action * status :=
    let load := Execute (dataloader_cost * speed) in
    match inbox with
    | PDouble comm_cost :: inbox' =>
        let '(tr, st) := client_loop comm_cost (Z.to_nat (num_epochs + 1))
                           draws_at_start inbox' in
        (load :: Get client_id (PDouble comm_cost) :: tr, st)
    | _ => ([load], Blocked)
    end.
End Client.

Section Server.
Variables client_count epoch_count : Z.
Variables dataloader_cost aggregation_cost comm_cost : Q.
Variable speed : Q.

(** [for (size_t i = 0; i < client_count; i++) mailboxes[i]->put(new double(comm_cost), 4)]. *)
Definition bootstrap : list action :=
    map (fun i => Put (Z.of_nat i) (PDouble comm_cost) 4) (seq 0 (Z.to_nat client_count)).

(** The sends of one round. *)
Definition broadcast : list action :=
    flat_map (fun i => [Put (Z.of_nat i) (PDouble 1) (comm_cost * 8);
                        Execute ((5 # 100) * speed)])
      (seq 0 (Z.to_nat client_count)).

(** [while (arrival_client_count < client_count)] with [n] arrivals missing. *)
Fixpoint collect (n : nat) (inbox : list Z) : list action * option (list Z) :=
    match n with
    | O => ([], Some inbox)
    | S n' =>
        match inbox with
        | [] => ([], None)
        | client_id :: inbox' =>
            let '(tr, r) := collect n' inbox' in
            (Get client_count (PInt client_id) :: Execute ((17 # 100) * speed) :: tr, r)
        end
    end.

(** [for (int round = 0; round < epoch_count; round++)] with [n] rounds left. *)
Fixpoint rounds (n : nat) (inbox : list Z) : list action * status :=
    match n with
    | O => ([], Returned)
    | S n' =>
        match collect (Z.to_nat client_count) inbox with
        | (tr, Some inbox') =>
            let '(tr', st) := rounds n' inbox' in (broadcast ++ tr ++ tr', st)
        | (tr, None) => (broadcast ++ tr, Blocked)
        end
    end.

(** [server]; [inbox] lists the client ids that will reach the server's
      mailbox.  A negative [client_count] indexes [mailboxes] out of range. *)
Definition server (inbox : list Z) : option (list action * status) :=
    if client_count <? 0 then None
    else
      let '(tr, st) := rounds (Z.to_nat epoch_count) inbox in
      Some (Execute (dataloader_cost * speed) :: bootstrap ++ tr, st).
End Server.

End FedAvg.

(** ** FedCompass.cpp *)

Module FedCompass.

(** *** Data *)

Record ClientInfo : Type := mk_ClientInfo {
  step : Z;
  local_steps : Z;
  goa : Z;
  total_steps : Z;
  speed : Q;
  start_time : Q
}.

(** [ClientInfo()]. *)
Definition new_ClientInfo : ClientInfo := mk_ClientInfo (-1) (-1) (-1) (-1) (-1) 0.

Record GOA : Type := mk_GOA {
  clients : list Z;
  arrived_clients : list Z;
  expected_arrival_time : Q;
  latest_arrival_time : Q
}.

(** [GOA()]. *)
Definition new_GOA : GOA := mk_GOA [] [] 0 0.

(** [ServerFedCompass]; the members [counter] and [step] are never used. *)
Record ServerFedCompass : Type := mk_Server {
  global_step : Z;
  general_buffer_size : Z;
  group_pseudo_grad : gmap Z Z
}.

(** [std::map<int, GOA*>]: iteration is in increasing key order, which
    [_join_group] depends on, so the map is a list of bindings sorted by key. *)
Definition groups : Type := list (Z * GOA).

Fixpoint find_group (m : groups) (k : Z) : option GOA :=
  match m with
  | [] => None
  | (k', g) :: m' => if k' =? k then Some g else find_group m' k
  end.

(** [m[k] = g]. *)
Fixpoint put_group (k : Z) (g : GOA) (m : groups) : groups :=
  match m with
  | [] => [(k, g)]
  | (k', g') :: m' =>
      if k <? k' then (k, g) :: m
      else if k =? k' then (k, g) :: m'
      else (k', g') :: put_group k g m'
  end.

(** An assignment through the pointer [m[k]]. *)
Fixpoint alter_group (f : GOA -> GOA) (k : Z) (m : groups) : groups :=
  match m with
  | [] => []
  | (k', g) :: m' =>
      if k' =? k then (k', f g) :: m' else (k', g) :: alter_group f k m'
  end.

(** [m.erase(k)]. *)
Fixpoint erase_group (k : Z) (m : groups) : groups :=
  match m with
  | [] => []
  | (k', g) :: m' => if k' =? k then m' else (k', g) :: erase_group k m'
  end.

(** [v.erase(std::remove(v.begin(), v.end(), x))], the one-iterator [erase].
    When [x] is absent [std::remove] returns [end()] and erasing it is
    undefined.  Otherwise the elements different from [x] are moved to the
    front and the single element after them is erased; what follows it (only
    when [x] occurs more than once) are the values left in place. *)
Definition erase_remove (v : list Z) (x : Z) : option (list Z) :=
  let kept := filter (fun y => y ≠ x) v in
  if decide (x ∈ v) then Some (kept ++ drop (S (length kept)) v) else None.

(** A sleeping [group_aggregation_actor]: which lambda it runs, and the
    arguments it hands to [delayed_action].  The lambda captures [curr_time];
    it reads [group_counter] and the group's [latest_arrival_time] when it
    starts, which is in the scheduling round of its creation, before the
    creating actor resumes and increments [group_counter]. *)
Inductive origin : Type := in_assign_group | in_create_group.

Record sleeper : Type := mk_sleeper {
  s_origin : origin;
  s_group : Z;
  s_curr_time : Q;
  s_delay : Q
}.

(** The arguments of the [SchedulerCompass] constructor and the speed of the
    server's host. *)
Record params : Type := mk_params {
  max_local_steps : Z;
  num_clients : Z;
  num_global_epochs : Z;
  model_size : Q;
  q_ratio : Q;
  lambda_val : Q;
  host_speed : Q
}.

Definition min_local_steps (P : params) : Z :=
  Z.max (Qtrunc (q_ratio P * inject_Z (max_local_steps P))) 1.
Definition max_local_steps_bound (P : params) : Z :=
  Qtrunc ((12 # 10) * inject_Z (max_local_steps P)).
Definition SPEED_MOMENTUM : Q := 9 # 10.
Definition LATEST_TIME_FACTOR (P : params) : Q := lambda_val P.

(** The mutable members of [SchedulerCompass] (with the [pending_clients]
    set it shares with [server]) and the part of the simulation it acts on:
    - [clock] is [Engine::get_clock() - start_time];
    - [slack] holds the times the environment adds at the coming suspension
      points (none left means none added);
    - [trace] is what the actor has done so far, oldest first;
    - [sleepers] are the delayed aggregation actors that have not woken. *)
Record state : Type := mk_state {
  iter : Z;
  group_counter : Z;
  server : ServerFedCompass;
  client_info : list (option ClientInfo);
  group_of_arrival : groups;
  pending_clients : gset Z;
  clock : Q;
  slack : list Q;
  trace : list action;
  sleepers : list sleeper
}.

Definition set_iter (x : Z) (s : state) : state :=
  mk_state x (group_counter s) (server s) (client_info s) (group_of_arrival s)
    (pending_clients s) (clock s) (slack s) (trace s) (sleepers s).
Definition set_group_counter (x : Z) (s : state) : state :=
  mk_state (iter s) x (server s) (client_info s) (group_of_arrival s)
    (pending_clients s) (clock s) (slack s) (trace s) (sleepers s).
Definition set_server (x : ServerFedCompass) (s : state) : state :=
  mk_state (iter s) (group_counter s) x (client_info s) (group_of_arrival s)
    (pending_clients s) (clock s) (slack s) (trace s) (sleepers s).
Definition set_client_info (x : list (option ClientInfo)) (s : state) : state :=
  mk_state (iter s) (group_counter s) (server s) x (group_of_arrival s)
    (pending_clients s) (clock s) (slack s) (trace s) (sleepers s).
Definition set_group_of_arrival (x : groups) (s : state) : state :=
  mk_state (iter s) (group_counter s) (server s) (client_info s) x
    (pending_clients s) (clock s) (slack s) (trace s) (sleepers s).
Definition set_pending_clients (x : gset Z) (s : state) : state :=
  mk_state (iter s) (group_counter s) (server s) (client_info s) (group_of_arrival s)
    x (clock s) (slack s) (trace s) (sleepers s).
Definition set_clock (x : Q) (s : state) : state :=
  mk_state (iter s) (group_counter s) (server s) (client_info s) (group_of_arrival s)
    (pending_clients s) x (slack s) (trace s) (sleepers s).
Definition set_slack (x : list Q) (s : state) : state :=
  mk_state (iter s) (group_counter s) (server s) (client_info s) (group_of_arrival s)
    (pending_clients s) (clock s) x (trace s) (sleepers s).
Definition set_trace (x : list action) (s : state) : state :=
  mk_state (iter s) (group_counter s) (server s) (client_info s) (group_of_arrival s)
    (pending_clients s) (clock s) (slack s) x (sleepers s).
Definition set_sleepers (x : list sleeper) (s : state) : state :=
  mk_state (iter s) (group_counter s) (server s) (client_info s) (group_of_arrival s)
    (pending_clients s) (clock s) (slack s) (trace s) x.

(** [client_info[c]], a [ClientInfo*]: [None] outside the vector. *)
Definition slot (s : state) (c : Z) : option (option ClientInfo) :=
  if c <? 0 then None else client_info s !! Z.to_nat c.

(** [client_info[c]->...]: undefined on a null pointer. *)
Definition deref (s : state) (c : Z) : option ClientInfo :=
  mjoin (slot s c).

(** An assignment through [client_info[c]]. *)
Definition store (c : Z) (ci : ClientInfo) (s : state) : state :=
  set_client_info (<[Z.to_nat c := Some ci]> (client_info s)) s.

(** *** The simulation primitives *)

(** A suspension point: the clock advances by [base] plus the next slack. *)
Definition suspend (base : Q) (s : state) : state :=
  match slack s with
  | [] => set_clock (clock s + base)%Q s
  | extra :: rest => set_slack rest (set_clock (clock s + base + extra)%Q s)
  end.

Definition log (a : action) (s : state) : state := set_trace (trace s ++ [a]) s.

(** [this_actor::execute(x * host_speed)]: [x] seconds on an idle host. *)
Definition execute (P : params) (x : Q) (s : state) : state :=
  suspend x (log (Execute (x * host_speed P)) s).

(** [mailboxes[mailbox]->put(new int(n), bytes)]. *)
Definition put (mailbox n : Z) (bytes : Q) (s : state) : state :=
  suspend 0 (log (Put mailbox (PInt n) bytes) s).

(** [mailboxes[num_clients]->get<int>()] returning [n]. *)
Definition get (P : params) (n : Z) (s : state) : state :=
  suspend 0 (log (Get (num_clients P) (PInt n)) s).

(** *** [ServerFedCompass] *)

Section Scheduler.
Variable P : params.

Definition with_server (f : ServerFedCompass -> ServerFedCompass) (s : state) : state :=
    set_server (f (server s)) s.

(** [ServerFedCompass::update]. *)
Definition server_update (s : state) : state :=
    with_server (fun sv => mk_Server (global_step sv + 1) (general_buffer_size sv)
                             (group_pseudo_grad sv))
      (execute P (3 # 100) s).

(** [ServerFedCompass::buffer]: a present counter is reset, then counted up. *)
Definition server_buffer (group_idx : Z) (s : state) : state :=
    let reset (sv : ServerFedCompass) :=
      match group_pseudo_grad sv !! group_idx with
      | Some _ => mk_Server (global_step sv) (general_buffer_size sv)
                    (<[group_idx := 0]> (group_pseudo_grad sv))
      | None => sv
      end in
    let count (sv : ServerFedCompass) :=
      mk_Server (global_step sv) (general_buffer_size sv)
        (<[group_idx := default 0 (group_pseudo_grad sv !! group_idx) + 1]>
           (group_pseudo_grad sv)) in
    with_server count (execute P (1 # 100) (with_server reset s)).

(** [ServerFedCompass::single_buffer]. *)
Definition server_single_buffer (s : state) : state :=
    with_server (fun sv => mk_Server (global_step sv) (general_buffer_size sv + 1)
                             (group_pseudo_grad sv))
      (execute P (1 # 100) s).

(** [ServerFedCompass::update_group]: acts when the group has no counter. *)
Definition server_update_group (group_idx : Z) (s : state) : state :=
    match group_pseudo_grad (server s) !! group_idx with
    | None =>
        with_server (fun sv => mk_Server (global_step sv + 1) 0
                                 (delete group_idx (group_pseudo_grad sv)))
          (execute P (1 # 100) s)
    | Some _ => s
    end.

(** [ServerFedCompass::update_all]. *)
Definition server_update_all (s : state) : state :=
    with_server (fun sv => mk_Server (global_step sv + 1) (general_buffer_size sv)
                             (group_pseudo_grad sv))
      (execute P 0 s).

(** *** [SchedulerCompass] *)

(** The members after the constructor has run, [pending] being the set the
      caller passes by reference and [tr] what the caller has done so far.
      The conversions to [int] (of [model_size], a [double] in the caller, and
      of the two bounds) are undefined outside its range. *)
Definition SchedulerCompass (pending : gset Z) (tr : list action) : option state :=
    static_cast_int (model_size P);;
    static_cast_int (q_ratio P * inject_Z (max_local_steps P));;
    static_cast_int ((12 # 10) * inject_Z (max_local_steps P));;
    Some (mk_state 0 0 (mk_Server 0 0 ∅)
            (replicate (Z.to_nat (num_clients P)) None) [] pending 0 [] tr []).

Definition _record_info (client_idx : Z) (s : state) : option state :=
    let curr_time := clock s in
    p ← slot s client_idx;
    let local_start_time := match p with None => 0%Q | Some ci => start_time ci end in
    let local_update_time := (curr_time - local_start_time)%Q in
    let local_steps := match p with None => max_local_steps P | Some ci => local_steps ci end in
    (* a zero divisor gives an infinite or NaN speed *)
    guard (local_steps ≠ 0);;
    let local_speed := (local_update_time / inject_Z local_steps)%Q in
    match p with
    | None =>
        Some (store client_idx
                (mk_ClientInfo 0 (-1) (-1) (min_local_steps P) local_speed 0) s)
    | Some ci =>
        Some (store client_idx
                (mk_ClientInfo (step ci) (FedCompass.local_steps ci) (goa ci)
                   (total_steps ci)
                   ((1 - SPEED_MOMENTUM) * speed ci + SPEED_MOMENTUM * local_speed)%Q
                   (start_time ci)) s)
    end.

Definition _recv_local_model_from_client (client_idx : Z) (s : state) : state :=
    let s := get P client_idx s in
    let s := execute P (15 # 100) s in
    set_pending_clients (pending_clients s ∖ {[client_idx]}) s.

(** The loop of [_join_group]: [assigned] is the pair
      [(assigned_group, assigned_steps)]. *)
Fixpoint join_scan (s : state) (client_idx : Z) (curr_time : Q) (gs : groups)
      (assigned : Z * Z) : option (Z * Z) :=
    match gs with
    | [] => Some assigned
    | (key, group) :: gs' =>
        let remaining_time := (expected_arrival_time group - curr_time)%Q in
        ci ← deref s client_idx;
        local_steps ← div_to_int remaining_time (speed ci);
        if (local_steps <? min_local_steps P) || (local_steps <? snd assigned)
           || (local_steps >? max_local_steps_bound P)
        then join_scan s client_idx curr_time gs' assigned
        else join_scan s client_idx curr_time gs' (key, local_steps)
    end.

Definition push_client (client_idx : Z) (g : GOA) : GOA :=
    mk_GOA (clients g ++ [client_idx]) (arrived_clients g)
      (expected_arrival_time g) (latest_arrival_time g).

Definition _join_group (client_idx : Z) (s : state) : option (bool * state) :=
    let curr_time := clock s in
    '(assigned_group, assigned_steps) ←
      join_scan s client_idx curr_time (group_of_arrival s) (-1, -1);
    if negb (assigned_group =? -1) then
      ci ← deref s client_idx;
      let s := store client_idx
                 (mk_ClientInfo (step ci) assigned_steps assigned_group
                    (total_steps ci) (speed ci) curr_time) s in
      find_group (group_of_arrival s) assigned_group;;
      Some (true, set_group_of_arrival
                    (alter_group (push_client client_idx) assigned_group
                       (group_of_arrival s)) s)
    else Some (false, s).

(** [std::min] over the speeds of [cs], starting from [acc]; [None] is
      [infinity]. *)
Fixpoint fastest (s : state) (cs : list Z) (acc : option Q) : option (option Q) :=
    match cs with
    | [] => Some acc
    | client :: cs' =>
        ci ← deref s client;
        let m := match acc with
                 | None => speed ci
                 | Some a => if Qltb (speed ci) a then speed ci else a
                 end in
        fastest s cs' (Some m)
    end.

(** The loop of [_create_group]. *)
Fixpoint create_scan (s : state) (curr_time client_speed : Q) (gs : groups)
      (assigned_steps : Z) : option Z :=
    match gs with
    | [] => Some assigned_steps
    | (_, group) :: gs' =>
        if Qltb curr_time (latest_arrival_time group) then
          let group_clients := clients group ++ arrived_clients group in
          f ← fastest s group_clients None;
          (* an empty group leaves [fastest_speed] infinite *)
          fastest_speed ← f;
          let est_arrival_time :=
            (latest_arrival_time group + fastest_speed * inject_Z (max_local_steps P))%Q in
          n ← static_cast_int (est_arrival_time - curr_time);
          local_steps ← div_to_int (inject_Z n) client_speed;
          if local_steps <=? max_local_steps P
          then create_scan s curr_time client_speed gs' (Z.max assigned_steps local_steps)
          else create_scan s curr_time client_speed gs' assigned_steps
        else create_scan s curr_time client_speed gs' assigned_steps
    end.

(** [Actor::create("group_aggregation_actor_...", ..., lambda)]. *)
Definition spawn_aggregation (o : origin) (curr_time : Q) (s : state) : option state :=
    g ← find_group (group_of_arrival s) (group_counter s);
    Some (set_sleepers
            (sleepers s ++ [mk_sleeper o (group_counter s) curr_time
                              (latest_arrival_time g - curr_time)]) s).

Definition _create_group (client_idx : Z) (s : state) : option state :=
    let curr_time := clock s in
    ci ← deref s client_idx;
    assigned_steps ← create_scan s curr_time (speed ci) (group_of_arrival s) (-1);
    let assigned_steps :=
      if (0 <=? assigned_steps) && (assigned_steps <? min_local_steps P)
      then min_local_steps P else assigned_steps in
    let assigned_steps :=
      if assigned_steps <? 0 then max_local_steps P else assigned_steps in
    let g := mk_GOA [client_idx] []
               (curr_time + inject_Z assigned_steps * speed ci)
               (curr_time + inject_Z assigned_steps * speed ci * LATEST_TIME_FACTOR P) in
    let s := set_group_of_arrival (put_group (group_counter s) g (group_of_arrival s)) s in
    s ← spawn_aggregation in_create_group curr_time s;
    let s := store client_idx
               (mk_ClientInfo (step ci) assigned_steps (group_counter s)
                  (total_steps ci) (speed ci) curr_time) s in
    Some (set_group_counter (group_counter s + 1) s).

Definition _send_global_model_to_client (client_idx client_steps : Z) (s : state)
    : state :=
    let s := put client_idx client_steps (inject_Z (Qtrunc (model_size P))) s in
    let s := execute P (47 # 1000) s in
    set_pending_clients (pending_clients s ∪ {[client_idx]}) s.

Definition _send_model (client_idx : Z) (s : state) : option state :=
    ci ← deref s client_idx;
    let s := store client_idx
               (mk_ClientInfo (step ci) (local_steps ci) (goa ci)
                  (total_steps ci + local_steps ci) (speed ci) (start_time ci)) s in
    Some (_send_global_model_to_client client_idx (local_steps ci) s).

Definition _assign_group (client_idx : Z) (s : state) : option state :=
    let curr_time := clock s in
    if Nat.eqb (length (group_of_arrival s)) 0 then
      ci ← deref s client_idx;
      let g := mk_GOA [client_idx] []
                 (curr_time + inject_Z (max_local_steps P) * speed ci)
                 (curr_time + speed ci * LATEST_TIME_FACTOR P) in
      let s := set_group_of_arrival (put_group (group_counter s) g (group_of_arrival s)) s in
      s ← spawn_aggregation in_assign_group curr_time s;
      let s := store client_idx
                 (mk_ClientInfo (step ci) (max_local_steps P) (group_counter s)
                    (total_steps ci) (speed ci) curr_time) s in
      Some (set_group_counter (group_counter s + 1) s)
    else
      match _join_group client_idx s with
      | Some (true, s') => Some s'
      | Some (false, s') => _create_group client_idx s'
      | None => None
      end.

(** The first loop of [_group_aggregation]: stamp the arrived clients and
      collect [(client, speed)]. *)
Fixpoint stamp_arrived (cs : list Z) (acc : list (Z * Q)) (s : state)
    : option (list (Z * Q) * state) :=
    match cs with
    | [] => Some (acc, s)
    | client :: cs' =>
        ci ← deref s client;
        let s := store client
                   (mk_ClientInfo (global_step (server s)) (local_steps ci) (goa ci)
                      (total_steps ci) (speed ci) (start_time ci)) s in
        stamp_arrived cs' (acc ++ [(client, speed ci)]) s
    end.

(** [std::sort] with the comparator [a.second < b.second].  The order it
      leaves among equal speeds is unspecified; this is the stable one. *)
Fixpoint insert_by_speed (x : Z * Q) (l : list (Z * Q)) : list (Z * Q) :=
    match l with
    | [] => [x]
    | y :: l' => if Qltb (snd y) (snd x) then y :: insert_by_speed x l' else x :: l
    end.

Definition sort_by_speed (l : list (Z * Q)) : list (Z * Q) :=
    foldr insert_by_speed [] l.

Fixpoint assign_all (cs : list (Z * Q)) (s : state) : option state :=
    match cs with
    | [] => Some s
    | client :: cs' => s' ← _assign_group client.1 s; assign_all cs' s'
    end.

Fixpoint send_all (cs : list (Z * Q)) (s : state) : option state :=
    match cs with
    | [] => Some s
    | client :: cs' => s' ← _send_model client.1 s; send_all cs' s'
    end.

Definition close_group (g : GOA) : GOA :=
    mk_GOA (clients g) (arrived_clients g) 0 0.

Definition _group_aggregation (group_idx : Z) (s : state) : option state :=
    match find_group (group_of_arrival s) group_idx with
    | None => Some s
    | Some g =>
        let s := server_update_group group_idx s in
        '(client_speed, s) ← stamp_arrived (arrived_clients g) [] s;
        let client_speed := sort_by_speed client_speed in
        let s := set_group_of_arrival
                   (alter_group close_group group_idx (group_of_arrival s)) s in
        s ← assign_all client_speed s;
        g' ← find_group (group_of_arrival s) group_idx;
        let s := if Nat.eqb (length (clients g')) 0
                 then set_group_of_arrival (erase_group group_idx (group_of_arrival s)) s
                 else s in
        if iter s <? num_global_epochs P then send_all client_speed s
        else Some (server_update_all s)
    end.

Definition _single_update (client_idx : Z) (buffer : bool) (s : state) : option state :=
    let s := if buffer then server_single_buffer s else server_update s in
    ci ← deref s client_idx;
    let s := store client_idx
               (mk_ClientInfo (global_step (server s)) (local_steps ci) (goa ci)
                  (total_steps ci) (speed ci) (start_time ci)) s in
    s ← _assign_group client_idx s;
    if iter s <? num_global_epochs P then _send_model client_idx s
    else Some (server_update_all s).

Definition _group_update (client_idx group_idx : Z) (s : state) : option state :=
    let curr_time := clock s in
    g ← find_group (group_of_arrival s) group_idx;
    if Qle_bool (latest_arrival_time g) curr_time then
      v ← erase_remove (clients g) client_idx;
      let leave (g : GOA) :=
        mk_GOA v (arrived_clients g) (expected_arrival_time g) (latest_arrival_time g) in
      let s := set_group_of_arrival (alter_group leave group_idx (group_of_arrival s)) s in
      let s := if Nat.eqb (length v) 0
               then set_group_of_arrival (erase_group group_idx (group_of_arrival s)) s
               else s in
      _single_update client_idx true s
    else
      v ← erase_remove (clients g) client_idx;
      let arrive (g : GOA) :=
        mk_GOA v (arrived_clients g ++ [client_idx])
          (expected_arrival_time g) (latest_arrival_time g) in
      let s := set_group_of_arrival (alter_group arrive group_idx (group_of_arrival s)) s in
      let s := server_buffer group_idx s in
      if Nat.eqb (length v) 0 then _group_aggregation group_idx s else Some s.

Definition _update (client_idx : Z) (s : state) : option state :=
    let s := set_iter (iter s + 1) s in
    ci ← deref s client_idx;
    let group_idx := goa ci in
    if group_idx =? -1 then _single_update client_idx false s
    else _group_update client_idx group_idx s.

(** [update], where the blocking [get] returns [client_idx]. *)
Definition update (client_idx : Z) (s : state) : option state :=
    let s := _recv_local_model_from_client client_idx s in
    s ← _record_info client_idx s;
    _update client_idx s.

(** *** The actors *)

(** What the environment does next: a client's reply reaches the server's
      mailbox, or the [n]-th sleeping aggregation actor wakes up.  Each comes
      with the slack of the suspension points that follow. *)
Inductive event : Type :=
  | Reply (client_idx : Z) (sl : list Q)
  | Wake (n : nat) (sl : list Q).

(** [delayed_action] once its [sleep_for] is over.  An actor that is due
      while another one is between two events runs after it. *)
Definition wake (n : nat) (sl : list Q) (s : state) : option state :=
    z ← sleepers s !! n;
    let due := (s_curr_time z + s_delay z)%Q in
    let now := if Qle_bool (clock s) due then due else clock s in
    let s := set_slack sl (set_clock now (set_sleepers (delete n (sleepers s)) s)) in
    _group_aggregation (s_group z) s.

(** One event, and a sequence of them, on the scheduler alone. *)
Definition handle (ev : event) (s : state) : option state :=
  match ev with
  | Reply client_idx sl => update client_idx (set_slack sl s)
  | Wake n sl => wake n sl s
  end.

Fixpoint exec (evs : list event) (s : state) : option state :=
  match evs with
  | [] => Some s
  | ev :: evs' => s' ← handle ev s; exec evs' s'
  end.

(** The value of [f] after each event of a sequence, up to the first event
    that is undefined. *)
Fixpoint observe {A} (f : state -> A) (evs : list event) (s : state) : list A :=
  match evs with
  | [] => []
  | ev :: evs' =>
      match handle ev s with
      | Some s' => f s' :: observe f evs' s'
      | None => []
      end
  end.

(** The slack of an event: the environment only ever adds time. *)
Definition event_slack (ev : event) : list Q :=
  match ev with Reply _ sl | Wake _ sl => sl end.

Definition valid_event (ev : event) : Prop := Forall (Qle 0) (event_slack ev).

Section Server.
Variable dataloader_cost : Q.
Variable validation_flag : bool.

(** The broadcast loop of [server], from client [i] on. *)
Definition broadcast_from (i : nat) (n : nat) : list action :=
      flat_map (fun i => [Put (Z.of_nat i) (PInt (Qtrunc (model_size P))) 4;
                          Put (Z.of_nat i) (PInt (max_local_steps P)) (model_size P);
                          Execute ((47 # 1000) * host_speed P)])
        (seq i n).

(** [while (true) { scheduler->update(); global_step++; ... }]; the
        events are consumed until the loop breaks.  No event left means the
        server waits for ever. *)
Fixpoint server_loop (evs : list event) (global_step : Z) (s : state)
      : option (list event * state) :=
      match evs with
      | [] => None
      | Wake n sl :: evs' =>
          s' ← wake n sl s; server_loop evs' global_step s'
      | Reply client_idx sl :: evs' =>
          s' ← update client_idx (set_slack sl s);
          let global_step := global_step + 1 in
          let s' := if validation_flag || (global_step =? num_global_epochs P)
                    then execute P (1 # 10) s' else s' in
          if global_step =? num_global_epochs P then Some (evs', s')
          else server_loop evs' global_step s'
      end.

(** [while (!pending_clients.empty())]. *)
Fixpoint drain (evs : list event) (s : state) : option (list event * state) :=
      if decide (pending_clients s = ∅) then Some (evs, s)
      else match evs with
           | [] => None
           | Wake n sl :: evs' => s' ← wake n sl s; drain evs' s'
           | Reply client_id sl :: evs' =>
               let s := get P client_id (set_slack sl s) in
               let s := execute P (15 # 100) s in
               drain evs' (set_pending_clients (pending_clients s ∖ {[client_id]}) s)
           end.

(** [for (int i = 0; i < num_clients; i++)], from [i] on. *)
Fixpoint stop_all (n : nat) (i : Z) (s : state) : state :=
      match n with
      | O => s
      | S n' => stop_all n' (i + 1) (execute P (3 # 100) (put i (-1) 0 s))
      end.

(** [server]. *)
Definition server_main (evs : list event) : option (list event * state) :=
      guard (0 ≤ num_clients P);;
      let n := Z.to_nat (num_clients P) in
      let tr := Execute (dataloader_cost * host_speed P) :: broadcast_from 0 n in
      let pending : gset Z := list_to_set (map Z.of_nat (seq 0 n)) in
      s ← SchedulerCompass pending tr;
      '(evs, s) ← server_loop evs 0 s;
      '(evs, s) ← drain evs s;
      Some (evs, stop_all n 0 s).
End Server.

End Scheduler.

(** Scenario S6 of the specification: one client, one local step per round,
    and replies timed so that the samples are 2, 4 and 4 seconds per step. *)
Definition s6_params : params := mk_params 1 1 10 8 (2 # 10) (15 # 10) 1.
Definition s6_events : list event :=
  [Reply 0 [185 # 100]; Reply 0 [3803 # 1000]; Reply 0 [3803 # 1000]]%Q.

(** The speed recorded for client [c], reduced to lowest terms. *)
Definition speed_of (c : Z) (s : state) : option Q :=
  ci ← deref s c; Some (Qred (speed ci)).

(** [client]: [X] gives the successive values of [dist(gen)], [inbox] the
    integers that will reach the client's mailbox. *)
Section Client.
Variable args : client_args.
Variable client_host_speed : Q.
Variable X : nat -> Q.

Let client_id := a_client_id args.
Let num_clients' := a_num_clients args.
Let dataloader_cost := a_dataloader_cost args.
Let per_step_training_cost := a_training_cost args.
Let control := a_control args.

Definition draws_at_start : nat := if control =? 2 then 1 else 0.
Definition client_speed : Q := perturbed_speed control client_host_speed (X 0).

(** [while (true)] of [client], with [k] draws made so far. *)
Fixpoint client_loop (model_size : Z) (k : nat) (inbox : list Z)
    : list action * status :=
    match inbox with
    | [] => ([], Blocked)
    | num_local_steps :: inbox' =>
        if num_local_steps <? 0 then
          ([Get client_id (PInt num_local_steps)], Returned)
        else
          let local_training :=
            (per_step_training_cost * inject_Z num_local_steps * client_speed)%Q in
          let '(local_training, k') :=
            if control =? 0 then (local_training, k)
            else ((local_training * X k)%Q, S k) in
          let '(tr, st) := client_loop model_size k' inbox' in
          (Get client_id (PInt num_local_steps) :: Execute local_training
             :: Put num_clients' (PInt client_id) (inject_Z model_size) :: tr, st)
    end.

Definition client (inbox : list Z) : list action * status :=
    let load := Execute (dataloader_cost * client_speed) in
    match inbox with
    | [] => ([load], Blocked)
    | model_size :: inbox' =>
        let '(tr, st) := client_loop model_size draws_at_start inbox' in
        (load :: Get client_id (PInt model_size) :: tr, st)
    end.
End Client.

End FedCompass.

(** ** Straggler rules as the configuration format describes them

    A rule that is well typed: an [effect] and any of the three selectors.
    These definitions follow the description of the format, not the parser;
    the theorems below relate the two. *)

Module StragglerSpec.

Inductive range_view : Type :=
| RangePair (s e : Z)      (* [s, e] *)
| RangeRecord (s e : Z).   (* {start: s, end: e} *)

Record rule_view : Type := mk_rule {
  rv_effect : Q;
  rv_client : option Z;
  rv_clients : option (list Z);
  rv_range : option range_view
}.

Definition field (k : string) (v : json) : string * json := (k, v).

Definition range_json (r : range_view) : json :=
  match r with
  | RangePair s e => JArray [JInt s; JInt e]
  | RangeRecord s e => JObject [field "start" (JInt s); field "end" (JInt e)]
  end.

(** The JSON object of a rule. *)
Definition rule_json (r : rule_view) : json :=
  JObject
    ([field "effect" (JFloat (rv_effect r))]
     ++ match rv_client r with Some c => [field "client" (JInt c)] | None => [] end
     ++ match rv_clients r with
        | Some cs => [field "clients" (JArray (map JInt cs))]
        | None => []
        end
     ++ match rv_range r with
        | Some rg => [field "range" (range_json rg)]
        | None => []
        end).

Definition rules_json (rs : list rule_view) : json := JArray (map rule_json rs).

Definition range_start (r : range_view) : Z :=
  match r with RangePair s _ | RangeRecord s _ => to_int s end.
Definition range_end (r : range_view) : Z :=
  match r with RangePair _ e | RangeRecord _ e => to_int e end.

(** The ids of an inclusive range. *)
Definition range_ids (r : range_view) : list Z :=
  map (fun i => range_start r + Z.of_nat i)
    (seq 0 (Z.to_nat (range_end r - range_start r + 1))).

(** How many selectors a rule carries. *)
Definition selectors (r : rule_view) : nat :=
  (match rv_client r with Some _ => 1 | None => 0 end)
  + (match rv_clients r with Some _ => 1 | None => 0 end)
  + (match rv_range r with Some _ => 1 | None => 0 end).

(** The client ids a rule names, one entry per mention. *)
Definition targets (r : rule_view) : list Z :=
  match rv_client r with Some c => [to_int c] | None => [] end
  ++ match rv_clients r with Some cs => map to_int cs | None => [] end
  ++ match rv_range r with Some rg => range_ids rg | None => [] end.

Definition range_ordered (r : rule_view) : Prop :=
  match rv_range r with Some rg => range_start rg <= range_end rg | None => True end.

(** A rule the parser is expected to accept for [total_clients] clients. *)
Definition rule_valid (total_clients : Z) (r : rule_view) : Prop :=
  (0 < rv_effect r)%Q
  /\ range_ordered r
  /\ Forall (fun c => 0 <= c < total_clients) (targets r)
  /\ targets r <> [].

(** How often a rule names [c]. *)
Definition mentions (c : Z) (r : rule_view) : nat :=
  length (filter (fun x => x = c) (targets r)).

(** The product of the effects of the rules naming [c], one factor per mention. *)
Definition composed (c : Z) (rs : list rule_view) : Q :=
  foldr (fun r acc => (rv_effect r ^ Z.of_nat (mentions c r) * acc)%Q) 1%Q rs.

(** The product of the effects of the rules matching [c], one factor per rule. *)
Definition product_of_matching (c : Z) (rs : list rule_view) : Q :=
  foldr (fun r acc => if decide (c ∈ targets r) then (rv_effect r * acc)%Q else acc)
    1%Q rs.

(** The acceptance rule as the specification words it: a positive effect and
    exactly one selector. *)
Definition claimed_rule_acceptance (total_clients : Z) (r : rule_view) : Prop :=
  (exists effects, apply_rule total_clients ∅ (rule_json r) = Done effects)
  <-> ((0 < rv_effect r)%Q /\ selectors r = 1%nat).

(** The composition law as the specification words it: one factor per
    matching rule. *)
Definition claimed_composition (total_clients : Z) (rs : list rule_view) : Prop :=
  forall effects,
    parse_client_effects (rules_json rs) total_clients = Done effects ->
    forall c, (client_multiplier effects c == product_of_matching c rs)%Q.

(** Scenario S3 of the specification. *)
Definition s3_rules : list rule_view :=
  [ mk_rule 2 None None (Some (RangePair 0 4));
    mk_rule 3 None (Some [2; 3]) None ].

(** One call of [apply_to_client] per id of [ids]. *)
Fixpoint apply_ids (total_clients : Z) (effect : Q) (ids : list Z) (st : acc)
  : outcome acc :=
  match ids with
  | [] => Done st
  | id :: ids' =>
      st' ← apply_to_client total_clients effect st id;
      apply_ids total_clients effect ids' st'
  end.

(** How often [c] occurs in [ids]. *)
Definition times (c : Z) (ids : list Z) : nat := length (filter (fun x => x = c) ids).

End StragglerSpec.

(** ** Notions the statements about the scheduler use *)

Module CompassSpec.
Import FedCompass.

(** The integers put into the clients' mailboxes, oldest first. *)
Fixpoint dispatched (tr : list action) : list Z :=
  match tr with
  | [] => []
  | Put _ (PInt n) _ :: tr' => n :: dispatched tr'
  | _ :: tr' => dispatched tr'
  end.

(** The step counts [_assign_group] can leave in [local_steps]: what
    [_join_group] accepts, [max_local_steps] (first group, or no open group),
    and what the clamps of [_create_group] produce. *)
Definition assigned_ok (P : params) (n : Z) : Prop :=
  (min_local_steps P <= n <= max_local_steps_bound P)
  \/ n = max_local_steps P
  \/ n = min_local_steps P
  \/ (min_local_steps P <= n <= max_local_steps P).

(** Client [c] has been assigned its steps. *)
Definition ready (P : params) (s : state) (c : Z) : Prop :=
  exists ci, deref s c = Some ci /\ assigned_ok P (local_steps ci).

(** [s'] continues [s]: the trace grows by dispatches of assigned step
    counts, and the clients that were ready stay so. *)
Definition continues (P : params) (s s' : state) : Prop :=
  (exists tr, trace s' = trace s ++ tr /\ Forall (assigned_ok P) (dispatched tr))
  /\ (forall c, ready P s c -> ready P s' c).

(** A group is closed once [_group_aggregation] has zeroed its two times. *)
Definition is_closed (g : GOA) : bool :=
  Qeq_bool (expected_arrival_time g) 0 && Qeq_bool (latest_arrival_time g) 0.

Definition count (c : Z) (l : list Z) : nat := count_occ Z.eq_dec l c.

(** How often client [c] is listed by a group: among the clients it waits
    for, or, while the group is open, among those that have arrived. *)
Definition cell (c : Z) (g : GOA) : nat :=
  count c (clients g) + (if is_closed g then 0 else count c (arrived_clients g)).

Fixpoint occupancy (c : Z) (gs : groups) : nat :=
  match gs with
  | [] => 0
  | (_, g) :: gs' => cell c g + occupancy c gs'
  end.

Definition keys (gs : groups) : list Z := map fst gs.
Definition sleeper_ids (s : state) : list Z := map s_group (sleepers s).

(** P1 as far as the code keeps it: within a live group no client is both
    awaited and arrived, and no client is awaited by two live groups. *)
Definition client_exclusivity (s : state) : Prop :=
  (forall k g c, find_group (group_of_arrival s) k = Some g ->
     c ∈ clients g -> c ∉ arrived_clients g)
  /\ (forall k1 g1 k2 g2 c,
        find_group (group_of_arrival s) k1 = Some g1 ->
        find_group (group_of_arrival s) k2 = Some g2 -> k1 <> k2 ->
        c ∈ clients g1 -> c ∉ clients g2).

(** The rest of P1 as the specification states it: a client awaited by one
    live group is not listed as arrived by another. *)
Definition no_stale_arrival (s : state) : Prop :=
  forall k1 g1 k2 g2 c,
    find_group (group_of_arrival s) k1 = Some g1 ->
    find_group (group_of_arrival s) k2 = Some g2 -> k1 <> k2 ->
    c ∈ arrived_clients g1 -> c ∉ clients g2.

(** P2 as the specification states it, over the runs from [s0]: a group
    whose aggregation actor is seen sleeping (it captured the creation time
    of the group) has, whenever it is live afterwards, expected <= latest and
    both at least that creation time. *)
Definition deadlines_as_claimed (P : params) (s0 : state) : Prop :=
  forall evs1 evs2 s1 s2 z g,
    exec P evs1 s0 = Some s1 -> exec P evs2 s1 = Some s2 ->
    z ∈ sleepers s1 ->
    find_group (group_of_arrival s2) (s_group z) = Some g ->
    (expected_arrival_time g <= latest_arrival_time g
     /\ s_curr_time z <= expected_arrival_time g
     /\ s_curr_time z <= latest_arrival_time g)%Q.

(** What the code keeps of P2: a live group either has been aggregated, and
    then both its times are 0, or its aggregation actor still sleeps, and
    then both times are at least the creation time the actor captured and,
    for a group made by [_create_group], the expected time is at most the
    latest. *)
Definition deadline_ok (s : state) (k : Z) (g : GOA) : Prop :=
  (expected_arrival_time g = 0%Q /\ latest_arrival_time g = 0%Q)
  \/ exists z, z ∈ sleepers s /\ s_group z = k
       /\ (s_curr_time z <= expected_arrival_time g)%Q
       /\ (s_curr_time z <= latest_arrival_time g)%Q
       /\ (s_origin z = in_create_group ->
           (expected_arrival_time g <= latest_arrival_time g)%Q).

Definition deadlines_kept (s : state) : Prop :=
  forall k g, find_group (group_of_arrival s) k = Some g -> deadline_ok s k g.

(** Client [c], if it has a record, has been assigned a group and steps. *)
Definition settled (s : state) (c : Z) : Prop :=
  forall ci, deref s c = Some ci ->
    0 <= goa ci /\ 1 <= local_steps ci /\ (start_time ci <= clock s)%Q.

(** The invariant of the scheduler between two suspension points; [x] is the
    group being aggregated, if any (-1 otherwise). *)
Record core (x : Z) (s : state) : Prop := mk_core {
  core_counter : 0 <= group_counter s;
  core_keys : NoDup (keys (group_of_arrival s));
  core_fresh : Forall (fun k => 0 <= k < group_counter s) (keys (group_of_arrival s));
  core_busy : forall c, (occupancy c (group_of_arrival s) <= 1)%nat;
  core_local : Forall (fun kg => forall c, c ∈ clients kg.2 -> c ∉ arrived_clients kg.2)
                 (group_of_arrival s);
  core_listed : forall c, (0 < occupancy c (group_of_arrival s))%nat -> is_Some (deref s c);
  core_speed : forall c ci, deref s c = Some ci -> (0 < speed ci)%Q;
  core_clock : (0 <= clock s)%Q;
  core_ids : NoDup (sleeper_ids s);
  core_ids_fresh : Forall (fun k => k < group_counter s) (sleeper_ids s);
  core_timers : Forall (fun kg => is_closed kg.2 = true ->
                                  kg.1 = x \/ kg.1 ∉ sleeper_ids s)
                  (group_of_arrival s);
  core_deadlines : Forall (fun kg => kg.1 = x \/ deadline_ok s kg.1 kg.2)
                     (group_of_arrival s);
  core_slack : Forall (Qle 0) (slack s)
}.

(** Two records of a client that differ at most in [step] and [total_steps]. *)
Definition same_assignment (o o' : option ClientInfo) : Prop :=
  match o, o' with
  | Some ci, Some ci' =>
      speed ci' = speed ci /\ goa ci' = goa ci
      /\ local_steps ci' = local_steps ci /\ start_time ci' = start_time ci
  | None, None => True
  | _, _ => False
  end.

(** [s'] differs from [s] in nothing the invariant looks at, except that the
    clock may have advanced. *)
Record frame (s s' : state) : Prop := mk_frame {
  frame_groups : group_of_arrival s' = group_of_arrival s;
  frame_sleepers : sleepers s' = sleepers s;
  frame_counter : group_counter s' = group_counter s;
  frame_clock : (clock s <= clock s')%Q;
  frame_slack : Forall (Qle 0) (slack s');
  frame_info : forall c, same_assignment (deref s c) (deref s' c)
}.

(** The two ways [_assign_group] changes the state: client [c] founds a
    group (the first-group branch and [_create_group]), or joins group [j]. *)
Definition founded (o : origin) (c : Z) (ci' : ClientInfo) (g : GOA) (s : state) : state :=
  set_group_counter (group_counter s + 1)
    (store c ci'
       (set_sleepers
          (sleepers s ++ [mk_sleeper o (group_counter s) (clock s)
                            (latest_arrival_time g - clock s)])
          (set_group_of_arrival (put_group (group_counter s) g (group_of_arrival s)) s))).

Definition joined (j c : Z) (ci' : ClientInfo) (s : state) : state :=
  set_group_of_arrival (alter_group (push_client c) j (group_of_arrival s))
    (store c ci' s).

(** The integers put into [mailbox], oldest first: what the client reading
    it will receive. *)
Fixpoint inbox_of (mailbox : Z) (tr : list action) : list Z :=
  match tr with
  | [] => []
  | Put m (PInt n) _ :: tr' =>
      if m =? mailbox then n :: inbox_of mailbox tr' else inbox_of mailbox tr'
  | _ :: tr' => inbox_of mailbox tr'
  end.

(** The number of replies among some events. *)
Fixpoint replies (evs : list event) : Z :=
  match evs with
  | [] => 0
  | Reply _ _ :: evs' => 1 + replies evs'
  | Wake _ _ :: evs' => replies evs'
  end.

(** Scenario S5 of the specification: one epoch, two clients.  Client 0
    replies first; the loop ends; the reply of client 1 is received in the
    cleanup. *)
Definition s5_params : params := mk_params 10 2 1 8 (2 # 10) (15 # 10) 1.
Definition s5_events : list event := [Reply 0 [985 # 100]; Reply 1 [2]]%Q.

(** A run with a straggler: two clients, [max_local_steps = 10], the
    defaults [q_ratio = 0.2] and [lambda = 1.5].  Client 0 replies at 10 s
    and founds group 0, whose deadline (11.53 s) passes before anybody can
    arrive; client 1 replies at 12 s and founds group 1; client 0 replies at
    20.09 s, late for group 0, and joins group 1 for 3 steps; it arrives at
    23.25 s; client 1 has not replied when the deadline of group 1 (30.03 s)
    passes. *)
Definition straggler_params : params := mk_params 10 2 10 8 (2 # 10) (15 # 10) 1.
Definition straggler_events : list event :=
  [Reply 0 [985 # 100]; Wake 0 []; Reply 1 [31 # 100]; Reply 0 [7863 # 1000];
   Reply 0 [2943 # 1000]; Wake 0 []]%Q.

(** The state the constructor leaves when the broadcast of [server] is over. *)
Definition straggler_start : option state :=
  SchedulerCompass straggler_params {[0; 1]} [].

End CompassSpec.

(** ** Further readings of the scheduler's state *)

Module CompassFacts.
Import FedCompass CompassSpec.

(** The clients a group counts: those it waits for and, until
    [_group_aggregation] has zeroed its times, those that have arrived. *)
Definition members (g : GOA) : list Z :=
  clients g ++ (if is_closed g then [] else arrived_clients g).

(** Every counter of [group_pseudo_grad] is 1. *)
Definition counters_one (sv : ServerFedCompass) : Prop :=
  forall g n, group_pseudo_grad sv !! g = Some n -> n = 1.

(** From [a] to [b] the model server keeps its group counters, keeps them
    at 1 if they were, and does not lower [global_step]. *)
Definition server_grows (a b : ServerFedCompass) : Prop :=
  global_step a <= global_step b
  /\ (forall g, is_Some (group_pseudo_grad a !! g) -> is_Some (group_pseudo_grad b !! g))
  /\ (counters_one a -> counters_one b).

(** From [s] to [s'] the scheduler has counted no reply, the model server
    has grown, and the trace has been extended, by no [put] when
    [iter >= num_global_epochs]. *)
Record ledger (P : params) (s s' : state) : Prop := mk_ledger {
  ledger_iter : iter s' = iter s;
  ledger_server : server_grows (server s) (server s');
  ledger_trace : exists tr, trace s' = trace s ++ tr
                   /\ (num_global_epochs P <= iter s -> count_puts tr = 0%nat)
}.

(** 1 when the first of [evs] is a reply, 0 otherwise. *)
Definition head_replies (evs : list event) : Z :=
  match evs with Reply _ _ :: _ => 1 | _ => 0 end.

(** A run with one client and one step per round (the parameters of
    scenario S6): the state after the first reply, the state in which the
    second reply is handled, and the state after it.  [no_state] stands for
    an undefined run. *)
Definition no_state : state := mk_state 0 0 (mk_Server 0 0 ∅) [] [] ∅ 0 [] [] [].
Definition s6_after_first : state :=
  default no_state
    (s0 ← SchedulerCompass s6_params {[0]} [];
     update s6_params 0 (set_slack [185 # 100]%Q s0)).
Definition s6_second : state := set_slack [1]%Q s6_after_first.
Definition s6_after_second : state := default no_state (update s6_params 0 s6_second).

(** The run with a straggler just before the deadline of group 1 passes,
    and after the aggregation at that deadline. *)
Definition straggler_before_deadline : state :=
  default no_state
    (s0 ← straggler_start; exec straggler_params (take 5 straggler_events) s0).
Definition straggler_after_deadline : state :=
  default no_state (wake straggler_params 0 [] straggler_before_deadline).

(** The run with a straggler after its first three events: group 0 has
    been aggregated and still awaits client 0, group 1 awaits client 1. *)
Definition straggler_two_groups : state :=
  default no_state
    (s0 ← straggler_start; exec straggler_params (take 3 straggler_events) s0).

(** The steps client [ci] could do until group [g] is expected, at time [t]:
    the value [_join_group] computes for the group. *)
Definition steps_until (t : Q) (ci : ClientInfo) (g : GOA) : option Z :=
  div_to_int (expected_arrival_time g - t) (speed ci).

(** The step counts [_join_group] accepts. *)
Definition admissible (P : params) (n : Z) : Prop :=
  min_local_steps P <= n <= max_local_steps_bound P.

(** The minimum [_create_group] takes for group [k]. *)
Definition fastest_of_group (s : state) (k : Z) : option (option Q) :=
  g ← find_group (group_of_arrival s) k;
  fastest s (clients g ++ arrived_clients g) None.

(** The time at which a sleeping aggregation actor wakes. *)
Definition due (z : sleeper) : Q := (s_curr_time z + s_delay z)%Q.

(** What the scheduler keeps of its groups and timers; [x] is the group
    being emptied or aggregated, if any (-1 otherwise): ids are below
    [group_counter], every group but [x] awaits a client, and a sleeping
    actor is due at the latest arrival time of its group while that group is
    open. *)
Record tidy (x : Z) (s : state) : Prop := mk_tidy {
  tidy_start : 0 <= group_counter s;
  tidy_fresh : Forall (fun k => 0 <= k < group_counter s) (keys (group_of_arrival s));
  tidy_keys : NoDup (keys (group_of_arrival s));
  tidy_ids : Forall (fun k => k < group_counter s) (sleeper_ids s);
  tidy_awaits : Forall (fun kg => kg.1 = x \/ clients kg.2 <> []) (group_of_arrival s);
  tidy_due : forall z g, z ∈ sleepers s ->
               find_group (group_of_arrival s) (s_group z) = Some g ->
               is_closed g = false -> (due z == latest_arrival_time g)%Q
}.

End CompassFacts.

(** ** The layout the deployment loops of [main] produce *)

Module DeploySpec.

(** The node of client [c]: the first [clients_per_node - 1] clients are on
    Node-1, the next [clients_per_node] on Node-2, and so on. *)
Definition node_of (clients_per_node c : Z) : Z :=
  if c <? clients_per_node - 1 then 1
  else 2 + (c - (clients_per_node - 1)) / clients_per_node.

(** The actor created for client [c]. *)
Definition placed (mk_node1 mk_other : Z -> client_args) (clients_per_node c : Z)
  : spawn :=
  mk_spawn (node_of clients_per_node c)
    ((if c <? clients_per_node - 1 then mk_node1 else mk_other) c).

(** [clients_per_node - 1] times Node-1, then [clients_per_node] times each
    of Node-2, ..., Node-[num_nodes]. *)
Definition full_nodes (num_nodes clients_per_node : Z) : list Z :=
  replicate (Z.to_nat (clients_per_node - 1)) 1
  ++ mjoin ((fun k => replicate (Z.to_nat clients_per_node) k) <$> seqZ 2 (num_nodes - 1)).

End DeploySpec.

(** ** Clients *)

Module ClientSpec.

(** [args] with another value of [control]. *)
Definition with_control (control : Z) (args : client_args) : client_args :=
  mk_client_args (a_client_id args) (a_num_clients args) (a_rounds args)
    (a_dataloader_cost args) (a_training_cost args) control.

End ClientSpec.

(** ** The configuration [main] reads (nlohmann::json accessors) *)

Module Settings.

(** The exceptions of the accessors; [main] catches none of them. *)
Inductive json_exception : Type :=
| out_of_range (key : string)  (* at(): key not found *)
| type_error.                  (* at() or value() on a non-object, get<T>() on a non-number *)

(** Reading ends in a value, in an uncaught exception, or in undefined
    behaviour (a [double] outside the range of the integer type it is
    converted to). *)
Inductive reading (A : Type) : Type :=
| Read (a : A)
| Throws (e : json_exception)
| Undefined.
Arguments Read {A} a.
Arguments Throws {A} e.
Arguments Undefined {A}.

Definition reading_bind {A B} (f : A -> reading B) (m : reading A) : reading B :=
  match m with Read a => f a | Throws e => Throws e | Undefined => Undefined end.

Definition is_read {A} (m : reading A) : bool :=
  match m with Read _ => true | _ => false end.

#[global] Instance reading_mbind : MBind reading := @reading_bind.

(** [j.at(key)]. *)
Definition at_ (j : json) (key : string) : reading json :=
  match j with
  | JObject kv => match assoc kv key with Some v => Read v | None => Throws (out_of_range key) end
  | _ => Throws type_error
  end.

(** Narrowing of a JSON integer to [long] (64 bits, two's complement). *)
Definition to_long (n : Z) : Z := (n + 2 ^ 63) mod 2 ^ 64 - 2 ^ 63.

(** [j.get<int>()]: integers are narrowed, floating-point numbers
    truncated, booleans are 0 or 1. *)
Definition get_int_of (j : json) : reading Z :=
  match j with
  | JInt n => Read (to_int n)
  | JFloat x => match static_cast_int x with Some n => Read n | None => Undefined end
  | JBool b => Read (if b then 1 else 0)
  | _ => Throws type_error
  end.

Definition in_long (n : Z) : bool := (- 2 ^ 63 <=? n) && (n <? 2 ^ 63).

(** [j.get<long>()] and [j.get<double>()]: [long] and [double] are the
    library's own number types (LP64), for which only numbers convert. *)
Definition get_long_of (j : json) : reading Z :=
  match j with
  | JInt n => Read (to_long n)
  | JFloat x => let n := Qtrunc x in if in_long n then Read n else Undefined
  | _ => Throws type_error
  end.

Definition get_double_of (j : json) : reading Q :=
  match j with
  | JInt n => Read (inject_Z n)
  | JFloat x => Read x
  | _ => Throws type_error
  end.

(** [j.value(key, default_value)] for an [int] and for a [double] default. *)
Definition value_int (j : json) (key : string) (default_value : Z) : reading Z :=
  match j with
  | JObject kv =>
      match assoc kv key with Some v => get_int_of v | None => Read default_value end
  | _ => Throws type_error
  end.

Definition value_double (j : json) (key : string) (default_value : Q) : reading Q :=
  match j with
  | JObject kv =>
      match assoc kv key with Some v => get_double_of v | None => Read default_value end
  | _ => Throws type_error
  end.

(** [config.contains("stragglers") ? config["stragglers"] : json::array()]. *)
Definition straggler_rules (config : json) : json :=
  if contains config "stragglers"
  then default (JArray []) (at_key config "stragglers")
  else JArray [].

(** The local variables of [main] in FedAvg.cpp, in the order it reads them. *)
Record fedavg_settings : Type := mk_fedavg_settings {
  fa_num_nodes : Z;
  fa_nclients_pernode : Z;
  fa_control : Z;
  fa_nepochs : Z;
  fa_dataloader_cost : Q;
  fa_aggregation_cost : Q;
  fa_training_cost : Q;
  fa_comm_cost : Q;
  fa_straggler_rules : json
}.

Definition fedavg_read (config : json) : reading fedavg_settings :=
  num_nodes ← at_ config "num_nodes" ≫= get_int_of;
  nclients_pernode ← at_ config "clients_per_node" ≫= get_int_of;
  control ← value_int config "control" 0;
  nepochs ← at_ config "epochs" ≫= get_int_of;
  dataloader_cost ← at_ config "dataloader_cost" ≫= get_double_of;
  aggregation_cost ← at_ config "aggregation_cost" ≫= get_double_of;
  training_cost ← at_ config "training_cost" ≫= get_double_of;
  comm_cost ← at_ config "comm_cost" ≫= get_double_of;
  Read (mk_fedavg_settings num_nodes nclients_pernode control nepochs dataloader_cost
          aggregation_cost training_cost comm_cost (straggler_rules config)).

(** The local variables of [main] in FedCompass.cpp, in the order it reads
    them. *)
Record fedcompass_settings : Type := mk_fedcompass_settings {
  fc_num_nodes : Z;
  fc_num_clients_per_node : Z;
  fc_max_local_steps : Z;
  fc_num_epochs : Z;
  fc_q_ratio : Q;
  fc_lambda_val : Q;
  fc_dataloader_cost : Q;
  fc_aggregation_cost : Q;
  fc_validation_cost : Q;
  fc_per_step_training_cost : Q;
  fc_model_size : Q;
  fc_validation_flag : Z;
  fc_control : Z;
  fc_straggler_rules : json
}.

Definition fedcompass_read (config : json) : reading fedcompass_settings :=
  num_nodes ← at_ config "num_nodes" ≫= get_int_of;
  num_clients_per_node ← at_ config "clients_per_node" ≫= get_int_of;
  max_local_steps ← at_ config "max_local_steps" ≫= get_int_of;
  num_epochs ← at_ config "epochs" ≫= get_long_of;
  q_ratio ← value_double config "q_ratio" (2 # 10);
  lambda_val ← value_double config "lambda" (15 # 10);
  dataloader_cost ← at_ config "dataloader_cost" ≫= get_double_of;
  aggregation_cost ← at_ config "aggregation_cost" ≫= get_double_of;
  validation_cost ← value_double config "validation_cost" 0;
  per_step_training_cost ← at_ config "training_cost" ≫= get_double_of;
  model_size ← at_ config "model_size" ≫= get_double_of;
  validation_flag ← value_int config "validation_flag" 0;
  control ← value_int config "control" 0;
  Read (mk_fedcompass_settings num_nodes num_clients_per_node max_local_steps num_epochs
          q_ratio lambda_val dataloader_cost aggregation_cost validation_cost
          per_step_training_cost model_size validation_flag control
          (straggler_rules config)).

(** *** Configuration objects, to state what is read back *)

Definition entry (k : string) (v : json) : string * json := (k, v).

(** The keys FedCompass requires, with the values of [c]. *)
Definition fedcompass_required (c : fedcompass_settings) : list (string * json) :=
  [ entry "num_nodes" (JInt (fc_num_nodes c));
    entry "clients_per_node" (JInt (fc_num_clients_per_node c));
    entry "max_local_steps" (JInt (fc_max_local_steps c));
    entry "epochs" (JInt (fc_num_epochs c));
    entry "dataloader_cost" (JFloat (fc_dataloader_cost c));
    entry "aggregation_cost" (JFloat (fc_aggregation_cost c));
    entry "training_cost" (JFloat (fc_per_step_training_cost c));
    entry "model_size" (JFloat (fc_model_size c)) ].

(** The keys FedCompass reads if they are there. *)
Definition fedcompass_optional (c : fedcompass_settings) : list (string * json) :=
  [ entry "q_ratio" (JFloat (fc_q_ratio c));
    entry "lambda" (JFloat (fc_lambda_val c));
    entry "validation_cost" (JFloat (fc_validation_cost c));
    entry "validation_flag" (JInt (fc_validation_flag c));
    entry "control" (JInt (fc_control c));
    entry "stragglers" (fc_straggler_rules c) ].

(** [c] with the optional settings at their defaults. *)
Definition fedcompass_defaults (c : fedcompass_settings) : fedcompass_settings :=
  mk_fedcompass_settings (fc_num_nodes c) (fc_num_clients_per_node c)
    (fc_max_local_steps c) (fc_num_epochs c) (2 # 10) (15 # 10) (fc_dataloader_cost c)
    (fc_aggregation_cost c) 0 (fc_per_step_training_cost c) (fc_model_size c) 0 0
    (JArray []).

Definition fedavg_required (c : fedavg_settings) : list (string * json) :=
  [ entry "num_nodes" (JInt (fa_num_nodes c));
    entry "clients_per_node" (JInt (fa_nclients_pernode c));
    entry "epochs" (JInt (fa_nepochs c));
    entry "dataloader_cost" (JFloat (fa_dataloader_cost c));
    entry "aggregation_cost" (JFloat (fa_aggregation_cost c));
    entry "training_cost" (JFloat (fa_training_cost c));
    entry "comm_cost" (JFloat (fa_comm_cost c)) ].

Definition fedavg_optional (c : fedavg_settings) : list (string * json) :=
  [ entry "control" (JInt (fa_control c));
    entry "stragglers" (fa_straggler_rules c) ].

Definition fedavg_defaults (c : fedavg_settings) : fedavg_settings :=
  mk_fedavg_settings (fa_num_nodes c) (fa_nclients_pernode c) 0 (fa_nepochs c)
    (fa_dataloader_cost c) (fa_aggregation_cost c) (fa_training_cost c) (fa_comm_cost c)
    (JArray []).

Definition fedcompass_required_keys : list string :=
  [ "num_nodes"%string; "clients_per_node"%string; "max_local_steps"%string; "epochs"%string; "dataloader_cost"%string;
    "aggregation_cost"%string; "training_cost"%string; "model_size"%string ].

Definition fedavg_required_keys : list string :=
  [ "num_nodes"%string; "clients_per_node"%string; "epochs"%string; "dataloader_cost"%string; "aggregation_cost"%string;
    "training_cost"%string; "comm_cost"%string ].

(** The object [kv] holds the entry [e]; it has no entry under the key of [e]. *)
Definition holds (kv : list (string * json)) (e : string * json) : Prop :=
  assoc kv e.1 = Some e.2.

Definition lacks (kv : list (string * json)) (e : string * json) : Prop :=
  assoc kv e.1 = None.

(** Settings to run the statements on: no check would pass all of them. *)
Definition fedcompass_example : fedcompass_settings :=
  mk_fedcompass_settings (-2) 3 0 (-10) (17 # 10) (5 # 10) 1 (-1) (3 # 2) 0 (50 # 1) 7 5
    (JArray []).

Definition fedavg_example : fedavg_settings :=
  mk_fedavg_settings 0 (-3) 9 (-1) (-1) 0 (5 # 2) (-4) JNull.

End Settings.

(** ** The scheduler with its suspension points

    [update] and [_group_aggregation] suspend in [execute], [put], [get] and
    [Actor::create]; the server and the aggregation actors share the
    scheduler, and whatever is ready runs while one of them is suspended.
    Here each function that can suspend is a task: run on a state it ends,
    is undefined, or stops at a suspension point with the state it leaves
    and what it does when it is resumed on the state it then finds.

    Every arithmetic operation on a [double] yields [fl] of the exact
    result: [fl] is the rounding of the machine ([round64] below for
    binary64, the identity for exact arithmetic). *)

Module Actors.
Import FedCompass.

Inductive wait : Type :=
| WExecute (x : Q)       (* [this_actor::execute]: at least [x] seconds *)
| WPut (mailbox : Z)     (* [put], until the receiver has the message *)
| WGet                   (* [get] on the server's mailbox *)
| WCreate.               (* [Actor::create] *)

Inductive run (A : Type) : Type :=
| Ret (a : A) (s : state)
| Stuck
| Yield (w : wait) (s : state) (k : Z -> state -> run A).
Arguments Ret {A} a s.
Arguments Stuck {A}.
Arguments Yield {A} w s k.

Definition task (A : Type) : Type := state -> run A.

Fixpoint run_bind {A B} (f : A -> task B) (r : run A) : run B :=
  match r with
  | Ret a s => f a s
  | Stuck => Stuck
  | Yield w s k => Yield w s (fun v s' => run_bind f (k v s'))
  end.

Definition task_bind {A B} (f : A -> task B) (m : task A) : task B :=
  fun s => run_bind f (m s).

#[global] Instance task_mbind : MBind task := @task_bind.
#[global] Instance task_mret : MRet task := fun A a s => Ret a s.

(** A step without suspension, a test that is undefined when it fails, and
    a suspension point, which hands back the value a [get] receives. *)
Definition modify (f : state -> state) : task unit := fun s => Ret tt (f s).
Definition attempt (f : state -> option state) : task unit :=
  fun s => match f s with Some s' => Ret tt s' | None => Stuck end.
Definition inspect {A} (f : state -> option A) : task A :=
  fun s => match f s with Some a => Ret a s | None => Stuck end.
Definition pause (w : wait) : task Z := fun s => Yield w s (fun v s' => Ret v s').
(** A choice made on the state at hand. *)
Definition branch {A} (f : state -> task A) : task A := fun s => f s s.

(** *** Rounding to binary64

    Round to nearest, ties to even, with a 53-bit significand; the exponent
    is not bounded (no overflow to infinity, no subnormal numbers). *)

(** [p / q] rounded to the nearest integer, ties to even ([0 <= p], [0 < q]). *)
Definition round_half_even (p q : Z) : Z :=
  let f := p / q in
  let r := p mod q in
  if 2 * r <? q then f
  else if q <? 2 * r then f + 1
  else if Z.even f then f else f + 1.

(** [n / d * 2 ^ k], as a fraction ([k] of either sign). *)
Definition scaled (n d k : Z) : Z * Z :=
  if 0 <=? k then (n * 2 ^ k, d) else (n, d * 2 ^ (- k)).

(** The integer part of the binary logarithm of [n / d] ([0 < n], [0 < d]). *)
Definition ilog2 (n d : Z) : Z :=
  let k := Z.log2 n - Z.log2 d in
  let '(p, q) := scaled n d (- k) in
  if q <=? p then k else k - 1.

Definition round64 (x : Q) : Q :=
  let n := Z.abs (Qnum x) in
  let d := Zpos (Qden x) in
  if n =? 0 then 0%Q
  else
    let e := ilog2 n d - 52 in
    let '(p, q) := scaled n d (- e) in
    let m := Z.sgn (Qnum x) * round_half_even p q in
    Qred (if 0 <=? e then inject_Z (m * 2 ^ e) else Qmake m (Z.to_pos (2 ^ (- e)))).

Section Scheduler.
Variable P : params.
Variable fl : Q -> Q.

Definition fadd (a b : Q) : Q := fl (a + b).
Definition fsub (a b : Q) : Q := fl (a - b).
Definition fmul (a b : Q) : Q := fl (a * b).
Definition fdiv (a b : Q) : Q := fl (a / b).

(** [static_cast<int>(a / b)] for doubles. *)
Definition fdiv_to_int (a b : Q) : option Z :=
  if Qeq_bool b 0 then None else static_cast_int (fdiv a b).

(** The two bounds as the constructor computes them. *)
Definition min_local_steps : Z :=
  Z.max (Qtrunc (fmul (q_ratio P) (inject_Z (max_local_steps P)))) 1.
Definition max_local_steps_bound : Z :=
  Qtrunc (fmul (fl (12 # 10)) (inject_Z (max_local_steps P))).

(** [this_actor::execute(x * host_speed)]. *)
Definition execute (x : Q) : task unit :=
  modify (log (Execute (x * host_speed P)));; pause (WExecute x);; mret tt.

Definition server_update : task unit :=
  execute (3 # 100);;
  modify (with_server (fun sv => mk_Server (global_step sv + 1) (general_buffer_size sv)
                                   (group_pseudo_grad sv))).

Definition server_buffer (group_idx : Z) : task unit :=
  modify (with_server (fun sv =>
            match group_pseudo_grad sv !! group_idx with
            | Some _ => mk_Server (global_step sv) (general_buffer_size sv)
                          (<[group_idx := 0]> (group_pseudo_grad sv))
            | None => sv
            end));;
  execute (1 # 100);;
  modify (with_server (fun sv =>
            mk_Server (global_step sv) (general_buffer_size sv)
              (<[group_idx := default 0 (group_pseudo_grad sv !! group_idx) + 1]>
                 (group_pseudo_grad sv)))).

Definition server_single_buffer : task unit :=
  execute (1 # 100);;
  modify (with_server (fun sv => mk_Server (global_step sv) (general_buffer_size sv + 1)
                                   (group_pseudo_grad sv))).

Definition server_update_group (group_idx : Z) : task unit :=
  fun s =>
    match group_pseudo_grad (server s) !! group_idx with
    | None =>
        (execute (1 # 100);;
         modify (with_server (fun sv => mk_Server (global_step sv + 1) 0
                                          (delete group_idx (group_pseudo_grad sv))))
         : task unit) s
    | Some _ => Ret tt s
    end.

Definition server_update_all : task unit :=
  execute 0;;
  modify (with_server (fun sv => mk_Server (global_step sv + 1) (general_buffer_size sv)
                                   (group_pseudo_grad sv))).

(** *** [SchedulerCompass] *)

(** The constructor; the conversions to [int] are undefined out of range. *)
Definition SchedulerCompass (pending : gset Z) (tr : list action) : option state :=
  static_cast_int (model_size P);;
  static_cast_int (fmul (q_ratio P) (inject_Z (max_local_steps P)));;
  static_cast_int (fmul (fl (12 # 10)) (inject_Z (max_local_steps P)));;
  Some (mk_state 0 0 (mk_Server 0 0 ∅)
          (replicate (Z.to_nat (num_clients P)) None) [] pending 0 [] tr []).

Definition _record_info (client_idx : Z) (s : state) : option state :=
  let curr_time := clock s in
  p ← slot s client_idx;
  let local_start_time := match p with None => 0%Q | Some ci => start_time ci end in
  let local_update_time := fsub curr_time local_start_time in
  let local_steps := match p with None => max_local_steps P | Some ci => local_steps ci end in
  guard (local_steps ≠ 0);;
  let local_speed := fdiv local_update_time (inject_Z local_steps) in
  match p with
  | None =>
      Some (store client_idx
              (mk_ClientInfo 0 (-1) (-1) min_local_steps local_speed 0) s)
  | Some ci =>
      Some (store client_idx
              (mk_ClientInfo (step ci) (FedCompass.local_steps ci) (goa ci)
                 (total_steps ci)
                 (fadd (fmul (fsub 1 (fl (9 # 10))) (speed ci))
                    (fmul (fl (9 # 10)) local_speed))
                 (start_time ci)) s)
  end.

(** [_recv_local_model_from_client]. *)
Definition _recv_local_model_from_client : task Z :=
  client_idx ← pause WGet;
  modify (log (Get (num_clients P) (PInt client_idx)));;
  execute (15 # 100);;
  modify (fun s => set_pending_clients (pending_clients s ∖ {[client_idx]}) s);;
  mret client_idx.

Fixpoint join_scan (s : state) (client_idx : Z) (curr_time : Q) (gs : groups)
    (assigned : Z * Z) : option (Z * Z) :=
  match gs with
  | [] => Some assigned
  | (key, group) :: gs' =>
      let remaining_time := fsub (expected_arrival_time group) curr_time in
      ci ← deref s client_idx;
      local_steps ← fdiv_to_int remaining_time (speed ci);
      if (local_steps <? min_local_steps) || (local_steps <? snd assigned)
         || (local_steps >? max_local_steps_bound)
      then join_scan s client_idx curr_time gs' assigned
      else join_scan s client_idx curr_time gs' (key, local_steps)
  end.

Definition _join_group (client_idx : Z) (s : state) : option (bool * state) :=
  let curr_time := clock s in
  '(assigned_group, assigned_steps) ←
    join_scan s client_idx curr_time (group_of_arrival s) (-1, -1);
  if negb (assigned_group =? -1) then
    ci ← deref s client_idx;
    let s := store client_idx
               (mk_ClientInfo (step ci) assigned_steps assigned_group
                  (total_steps ci) (speed ci) curr_time) s in
    find_group (group_of_arrival s) assigned_group;;
    Some (true, set_group_of_arrival
                  (alter_group (push_client client_idx) assigned_group
                     (group_of_arrival s)) s)
  else Some (false, s).

Fixpoint create_scan (s : state) (curr_time client_speed : Q) (gs : groups)
    (assigned_steps : Z) : option Z :=
  match gs with
  | [] => Some assigned_steps
  | (_, group) :: gs' =>
      if Qltb curr_time (latest_arrival_time group) then
        let group_clients := clients group ++ arrived_clients group in
        f ← fastest s group_clients None;
        fastest_speed ← f;
        let est_arrival_time :=
          fadd (latest_arrival_time group)
            (fmul fastest_speed (inject_Z (max_local_steps P))) in
        n ← static_cast_int (fsub est_arrival_time curr_time);
        local_steps ← fdiv_to_int (inject_Z n) client_speed;
        if local_steps <=? max_local_steps P
        then create_scan s curr_time client_speed gs' (Z.max assigned_steps local_steps)
        else create_scan s curr_time client_speed gs' assigned_steps
      else create_scan s curr_time client_speed gs' assigned_steps
  end.

(** The new actor starts in the scheduling round of its creation: it reads
    [group_counter] and the group's [latest_arrival_time] and sleeps. *)
Definition spawn_aggregation (o : origin) (curr_time : Q) (s : state) : option state :=
  g ← find_group (group_of_arrival s) (group_counter s);
  Some (set_sleepers
          (sleepers s ++ [mk_sleeper o (group_counter s) curr_time
                            (fsub (latest_arrival_time g) curr_time)]) s).

(** What [_assign_group] and [_create_group] share: the group is put under
    [group_counter], its actor is created, and when the creator is resumed
    it fills the client's record and increments [group_counter]. *)
Definition found (o : origin) (client_idx assigned_steps : Z) (curr_time : Q) (g : GOA)
  : task unit :=
  modify (fun s => set_group_of_arrival
                     (put_group (group_counter s) g (group_of_arrival s)) s);;
  attempt (spawn_aggregation o curr_time);;
  pause WCreate;;
  ci ← inspect (fun s => deref s client_idx);
  modify (fun s => store client_idx
                     (mk_ClientInfo (step ci) assigned_steps (group_counter s)
                        (total_steps ci) (speed ci) curr_time) s);;
  modify (fun s => set_group_counter (group_counter s + 1) s).

Definition _create_group (client_idx : Z) : task unit :=
  fun s =>
    let curr_time := clock s in
    match (ci ← deref s client_idx;
           a ← create_scan s curr_time (speed ci) (group_of_arrival s) (-1);
           Some (ci, a)) with
    | None => Stuck
    | Some (ci, assigned_steps) =>
        let assigned_steps :=
          if (0 <=? assigned_steps) && (assigned_steps <? min_local_steps)
          then min_local_steps else assigned_steps in
        let assigned_steps :=
          if assigned_steps <? 0 then max_local_steps P else assigned_steps in
        let g := mk_GOA [client_idx] []
                   (fadd curr_time (fmul (inject_Z assigned_steps) (speed ci)))
                   (fadd curr_time
                      (fmul (fmul (inject_Z assigned_steps) (speed ci))
                         (LATEST_TIME_FACTOR P))) in
        found in_create_group client_idx assigned_steps curr_time g s
    end.

Definition _send_global_model_to_client (client_idx client_steps : Z) : task unit :=
  modify (log (Put client_idx (PInt client_steps) (inject_Z (Qtrunc (model_size P)))));;
  pause (WPut client_idx);;
  execute (47 # 1000);;
  modify (fun s => set_pending_clients (pending_clients s ∪ {[client_idx]}) s).

Definition _send_model (client_idx : Z) : task unit :=
  ci ← inspect (fun s => deref s client_idx);
  modify (store client_idx
            (mk_ClientInfo (step ci) (local_steps ci) (goa ci)
               (total_steps ci + local_steps ci) (speed ci) (start_time ci)));;
  _send_global_model_to_client client_idx (local_steps ci).

Definition _assign_group (client_idx : Z) : task unit :=
  fun s =>
    let curr_time := clock s in
    if Nat.eqb (length (group_of_arrival s)) 0 then
      match deref s client_idx with
      | None => Stuck
      | Some ci =>
          let g := mk_GOA [client_idx] []
                     (fadd curr_time (fmul (inject_Z (max_local_steps P)) (speed ci)))
                     (fadd curr_time (fmul (speed ci) (LATEST_TIME_FACTOR P))) in
          found in_assign_group client_idx (max_local_steps P) curr_time g s
      end
    else
      match _join_group client_idx s with
      | Some (true, s') => Ret tt s'
      | Some (false, s') => _create_group client_idx s'
      | None => Stuck
      end.

Definition stamp (cs : list Z) : task (list (Z * Q)) :=
  fun s => match stamp_arrived cs [] s with
           | Some (l, s') => Ret l s'
           | None => Stuck
           end.

Fixpoint assign_all (cs : list (Z * Q)) : task unit :=
  match cs with
  | [] => mret tt
  | client :: cs' => _assign_group client.1;; assign_all cs'
  end.

Fixpoint send_all (cs : list (Z * Q)) : task unit :=
  match cs with
  | [] => mret tt
  | client :: cs' => _send_model client.1;; send_all cs'
  end.

(** [_group_aggregation].  After [update_group], which can suspend, the
    group is looked up again through [group_of_arrival[group_idx]]: if it
    was erased meanwhile the pointer is null. *)
Definition _group_aggregation (group_idx : Z) : task unit :=
  fun s =>
    match find_group (group_of_arrival s) group_idx with
    | None => Ret tt s
    | Some _ =>
        (server_update_group group_idx;;
         g ← inspect (fun s => find_group (group_of_arrival s) group_idx);
         client_speed ← stamp (arrived_clients g);
         let client_speed := sort_by_speed client_speed in
         modify (fun s => set_group_of_arrival
                            (alter_group close_group group_idx (group_of_arrival s)) s);;
         assign_all client_speed;;
         g' ← inspect (fun s => find_group (group_of_arrival s) group_idx);
         modify (fun s => if Nat.eqb (length (clients g')) 0
                          then set_group_of_arrival
                                 (erase_group group_idx (group_of_arrival s)) s
                          else s);;
         branch (fun s => if iter s <? num_global_epochs P then send_all client_speed
                          else server_update_all) : task unit) s
    end.

Definition _single_update (client_idx : Z) (buffer : bool) : task unit :=
  (if buffer then server_single_buffer else server_update);;
  ci ← inspect (fun s => deref s client_idx);
  modify (fun s => store client_idx
                     (mk_ClientInfo (global_step (server s)) (local_steps ci) (goa ci)
                        (total_steps ci) (speed ci) (start_time ci)) s);;
  _assign_group client_idx;;
  branch (fun s => if iter s <? num_global_epochs P then _send_model client_idx
                   else server_update_all).

(** [_group_update].  After [buffer], which suspends, the size of the
    group's [clients] is read again. *)
Definition _group_update (client_idx group_idx : Z) : task unit :=
  fun s =>
    let curr_time := clock s in
    match find_group (group_of_arrival s) group_idx with
    | None => Stuck
    | Some g =>
        match erase_remove (clients g) client_idx with
        | None => Stuck
        | Some v =>
            if Qle_bool (latest_arrival_time g) curr_time then
              let leave (g : GOA) :=
                mk_GOA v (arrived_clients g) (expected_arrival_time g)
                  (latest_arrival_time g) in
              let s := set_group_of_arrival
                         (alter_group leave group_idx (group_of_arrival s)) s in
              let s := if Nat.eqb (length v) 0
                       then set_group_of_arrival
                              (erase_group group_idx (group_of_arrival s)) s
                       else s in
              _single_update client_idx true s
            else
              let arrive (g : GOA) :=
                mk_GOA v (arrived_clients g ++ [client_idx])
                  (expected_arrival_time g) (latest_arrival_time g) in
              let s := set_group_of_arrival
                         (alter_group arrive group_idx (group_of_arrival s)) s in
              (server_buffer group_idx;;
               g' ← inspect (fun s => find_group (group_of_arrival s) group_idx);
               if Nat.eqb (length (clients g')) 0 then _group_aggregation group_idx
               else mret tt : task unit) s
        end
    end.

Definition _update (client_idx : Z) : task unit :=
  modify (fun s => set_iter (iter s + 1) s);;
  ci ← inspect (fun s => deref s client_idx);
  if goa ci =? -1 then _single_update client_idx false
  else _group_update client_idx (goa ci).

Definition update : task unit :=
  client_idx ← _recv_local_model_from_client;
  attempt (_record_info client_idx);;
  _update client_idx.

(** *** The actors and the kernel *)

(** An actor stopped at a suspension point: what it waits for, since when,
    and how it goes on. *)
Record suspended : Type := mk_suspended {
  sp_wait : wait;
  sp_since : Q;
  sp_resume : Z -> state -> run unit
}.

(** Where [server] is once the scheduler is constructed: in its loop with
    [global_step] updates counted, in the cleanup, or sending the
    termination message to client [i]. *)
Inductive phase : Type :=
| PLoop (global_step : Z)
| PDrain
| PStop (i : Z)
| PEnd.

Variable validation_flag : bool.

(** One turn of the code of a phase, and the phase that follows when the
    turn ends on [s]. *)
Definition turn (ph : phase) : task unit :=
  match ph with
  | PLoop global_step =>
      update;;
      if validation_flag || (global_step + 1 =? num_global_epochs P)
      then execute (1 # 10) else mret tt
  | PDrain =>
      client_id ← pause WGet;
      modify (log (Get (num_clients P) (PInt client_id)));;
      execute (15 # 100);;
      modify (fun s => set_pending_clients (pending_clients s ∖ {[client_id]}) s)
  | PStop i =>
      modify (log (Put i (PInt (-1)) 0));;
      pause (WPut i);;
      execute (3 # 100)
  | PEnd => mret tt
  end.

Definition after_drain (s : state) : phase :=
  if decide (pending_clients s = ∅)
  then (if 0 <? num_clients P then PStop 0 else PEnd)
  else PDrain.

Definition next (ph : phase) (s : state) : phase :=
  match ph with
  | PLoop global_step =>
      if global_step + 1 =? num_global_epochs P then after_drain s
      else PLoop (global_step + 1)
  | PDrain => after_drain s
  | PStop i => if i + 1 <? num_clients P then PStop (i + 1) else PEnd
  | PEnd => PEnd
  end.

(** The scheduler, the server and the aggregation actors that have woken
    up and not finished; those still asleep are the [sleepers] of the
    state. *)
Record config : Type := mk_config {
  shared : state;
  server_at : option (phase * suspended);
  workers : list suspended
}.

(** What the kernel does next: it resumes the server at time [t] (with [v]
    for a [get]), resumes the [i]-th aggregation actor at time [t], or lets
    the [n]-th sleeper wake up. *)
Inductive label : Type :=
| LServer (t : Q) (v : Z)
| LWorker (i : nat) (t : Q)
| LWake (n : nat).

(** When [sleep_for] is over; a delay that is not positive is no sleep. *)
Definition due (z : sleeper) : Q := fadd (s_curr_time z) (s_delay z).
Definition Qmax (a b : Q) : Q := if Qle_bool a b then b else a.

(** The clock never passes a timer: nothing happens at [t] while a sleeper
    is due before. *)
Definition timely (t : Q) (s : state) : bool :=
  Qle_bool (clock s) t
  && forallb (fun z => Qle_bool t (Qmax (clock s) (due z))) (sleepers s).

Definition may_resume (sp : suspended) (t : Q) : bool :=
  match sp_wait sp with
  | WExecute x => Qle_bool (sp_since sp + x) t
  | _ => Qle_bool (sp_since sp) t
  end.

(** The server starts the turn of phase [ph] on [s]. *)
Definition enter (ph : phase) (s : state) : option (state * option (phase * suspended)) :=
  match ph with
  | PEnd => Some (s, None)
  | _ =>
      match turn ph s with
      | Yield w s' k => Some (s', Some (ph, mk_suspended w (clock s') k))
      | _ => None
      end
  end.

Definition fire (l : label) (c : config) : option config :=
  match l with
  | LServer t v =>
      '(ph, sp) ← server_at c;
      guard (timely t (shared c) && may_resume sp t = true);;
      match sp_resume sp v (set_clock t (shared c)) with
      | Ret _ s =>
          '(s', sv) ← enter (next ph s) s;
          Some (mk_config s' sv (workers c))
      | Yield w s k =>
          Some (mk_config s (Some (ph, mk_suspended w (clock s) k)) (workers c))
      | Stuck => None
      end
  | LWorker i t =>
      sp ← workers c !! i;
      guard (timely t (shared c) && may_resume sp t = true);;
      match sp_resume sp 0 (set_clock t (shared c)) with
      | Ret _ s => Some (mk_config s (server_at c) (delete i (workers c)))
      | Yield w s k =>
          Some (mk_config s (server_at c)
                  (<[i := mk_suspended w (clock s) k]> (workers c)))
      | Stuck => None
      end
  | LWake n =>
      z ← sleepers (shared c) !! n;
      let now := Qmax (clock (shared c)) (due z) in
      guard (timely now (shared c) = true);;
      let s := set_clock now (set_sleepers (delete n (sleepers (shared c))) (shared c)) in
      match _group_aggregation (s_group z) s with
      | Ret _ s => Some (mk_config s (server_at c) (workers c))
      | Yield w s k =>
          Some (mk_config s (server_at c) (workers c ++ [mk_suspended w (clock s) k]))
      | Stuck => None
      end
  end.

Fixpoint play (ls : list label) (c : config) : option config :=
  match ls with
  | [] => Some c
  | l :: ls' => c' ← fire l c; play ls' c'
  end.

(** The server has constructed the scheduler ([pending] and [tr] being what
    its broadcast left) and calls [update] for the first time. *)
Definition boot (pending : gset Z) (tr : list action) : option config :=
  s ← SchedulerCompass pending tr;
  '(s', sv) ← enter (PLoop 0) s;
  Some (mk_config s' sv []).

End Scheduler.
End Actors.

(** ** Notions the statements about the actors use *)

Module ActorFacts.
Import FedCompass Actors.

(** A task seen from another actor.  [sat G R Q s r]: what the task does
    from [s] on, [r], changes the state by [G] up to each suspension point
    and up to its end, where [Q] holds, provided the state it finds when it
    is resumed differs by [R] from the one it left. *)
Inductive sat {A} (G R : state -> state -> Prop) (Q : A -> state -> Prop)
  : state -> run A -> Prop :=
| sat_ret s a s1 : G s s1 -> Q a s1 -> sat G R Q s (Ret a s1)
| sat_stuck s : sat G R Q s Stuck
| sat_yield s w s1 k :
    G s s1 -> (forall v s', R s1 s' -> sat G R Q s' (k v s')) ->
    sat G R Q s (Yield w s1 k).

Section Dispatch.
Variable P : params.
Variable fl : Q -> Q.

Definition in_bounds (n : Z) : Prop :=
  min_local_steps P fl <= n <= max_local_steps_bound P fl.

(** An action of the scheduler: a put carries a step count within bounds. *)
Definition good (a : action) : Prop :=
  match a with Put _ (PInt n) _ => in_bounds n | _ => True end.

(** A termination message of [server]. *)
Definition is_stop (a : action) : bool :=
  match a with Put _ (PInt n) _ => n =? -1 | _ => false end.

(** Client [c] has a record with an assigned step count. *)
Definition assigned (s : state) (c : Z) : Prop :=
  exists ci, deref s c = Some ci /\ in_bounds (local_steps ci).

(** What the scheduler's code does to the state between two suspension
    points, and what an actor can find changed when it is resumed. *)
Definition grows (ok : action -> Prop) (s s' : state) : Prop :=
  (exists tr, trace s' = trace s ++ tr /\ Forall ok tr)
  /\ (forall c, assigned s c -> assigned s' c).

Definition guarantee : state -> state -> Prop := grows good.
Definition rely : state -> state -> Prop := grows (fun a => good a \/ is_stop a = true).

(** The termination messages [server] has sent when it is at [sv]. *)
Definition stops (sv : option (phase * suspended)) : nat :=
  match sv with
  | Some (PStop i, _) => Z.to_nat (i + 1)
  | Some _ => 0
  | None => Z.to_nat (num_clients P)
  end.

(** A suspended actor that, resumed on whatever the others have made of
    [s], goes on as the scheduler's code does. *)
Definition patient (sp : suspended) (s : state) : Prop :=
  forall v s', rely s s' ->
    sat guarantee rely (fun _ _ => True) s' (sp_resume sp v s').

(** What holds of every configuration reached from a scheduler started
    with the trace [tr0]. *)
Record dispatching (tr0 : list action) (c : config) : Prop := mk_dispatching {
  dispatching_trace :
    exists tr, trace (shared c) = tr0 ++ tr
      /\ Forall (fun a => good a \/ is_stop a = true) tr
      /\ length (List.filter is_stop tr) = stops (server_at c);
  dispatching_server :
    forall ph sp, server_at c = Some (ph, sp) ->
      patient sp (shared c)
      /\ match ph with
         | PStop i => 0 <= i < num_clients P
         | PEnd => False
         | _ => True
         end;
  dispatching_workers : Forall (fun sp => patient sp (shared c)) (workers c)
}.

End Dispatch.

(** *** The speed estimates *)

Section Speeds.
Variable P : params.
Variable fl : Q -> Q.

(** The record of a client before and after: no record either time, or the
    same speed. *)
Definition keeps_speed (o o' : option ClientInfo) : Prop :=
  match o, o' with
  | None, None => True
  | Some ci, Some ci' => speed ci' = speed ci
  | _, _ => False
  end.

(** Between two suspension points: nothing but the clock is looked at and
    the records are left alone; the speeds are kept; the speeds are kept
    but for one call of [_record_info], made on the records as they were. *)
Definition untouched (s s' : state) : Prop :=
  clock s' = clock s /\ client_info s' = client_info s.

Definition speeds_kept (s s' : state) : Prop :=
  clock s' = clock s /\ forall c, keeps_speed (deref s c) (deref s' c).

Definition recorded (c : Z) (s s' : state) : Prop :=
  exists s1 s2, untouched s s1 /\ Actors._record_info P fl c s1 = Some s2
    /\ speeds_kept s2 s'.

Definition recorded_once (s s' : state) : Prop :=
  speeds_kept s s' \/ exists c, recorded c s s'.

Definition anyhow : state -> state -> Prop := fun _ _ => True.

(** Every suspended actor goes on keeping the speeds, the server but for
    the calls of [_record_info]. *)
Record steady (c : config) : Prop := mk_steady {
  steady_server :
    forall ph sp, server_at c = Some (ph, sp) ->
      forall v s, sat recorded_once anyhow (fun _ _ => True) s (sp_resume sp v s);
  steady_workers :
    Forall (fun sp => forall v s,
              sat speeds_kept anyhow (fun _ _ => True) s (sp_resume sp v s))
      (workers c)
}.

End Speeds.

(** P3 as the specification states it: the bounds are the floors of the
    exact products, [q_ratio] being the number of the configuration. *)
Definition claimed_min_local_steps (q_ratio : Q) (max_local_steps : Z) : Z :=
  Z.max (Qfloor (q_ratio * inject_Z max_local_steps)) 1.
Definition claimed_max_local_steps_bound (max_local_steps : Z) : Z :=
  Qfloor ((12 # 10) * inject_Z max_local_steps).

Definition steps_as_claimed (q_ratio : Q) (max_local_steps : Z) (sent : list Z) : Prop :=
  Forall (fun n => claimed_min_local_steps q_ratio max_local_steps <= n
                   <= claimed_max_local_steps_bound max_local_steps) sent.

Definition no_state : state := mk_state 0 0 (mk_Server 0 0 ∅) [] [] ∅ 0 [] [] [].
Definition no_config : config := mk_config no_state None [].

Definition defined {A} (o : option A) : bool :=
  match o with Some _ => true | None => false end.

(** Two clients, [max_local_steps = 50], and [q_ratio = 0.58] as [main]
    reads it: the nearest binary64 number.  Client 0 replies at 10 s and
    founds group 0, whose deadline passes; client 1 replies at 12 s and
    founds group 1; client 0 replies at 18.875 s, late for group 0, and at
    19 s joins group 1 for the steps that fit before its expected arrival. *)
Definition p58_params : params :=
  mk_params 50 2 10 8 (round64 (58 # 100)) (15 # 10) 1.

Definition p58_labels : list label :=
  [LServer (19 # 2) 0; LServer 10 0; LServer (81 # 8) 0; LServer (81 # 8) 0;
   LServer (81 # 8) 0; LServer (41 # 4) 0;
   LWake 0; LWorker 0 (21 # 2);
   LServer (23 # 2) 1; LServer 12 0; LServer (97 # 8) 0; LServer (97 # 8) 0;
   LServer (97 # 8) 0; LServer (49 # 4) 0;
   LServer (37 # 2) 0; LServer (151 # 8) 0; LServer 19 0; LServer 19 0;
   LServer (153 # 8) 0]%Q.

Definition p58_start : config :=
  default no_config (boot p58_params round64 false {[0; 1]} []).
Definition p58_end : config :=
  default no_config (play p58_params round64 false p58_labels p58_start).

End ActorFacts.

(** * Properties *)

(** ** Numbers *)

Lemma Qltb_lt (a b : Q) : Qltb a b = true <-> (a < b)%Q.
Proof.
  unfold Qltb. rewrite negb_true_iff. split.
  - intros H. apply Qnot_le_lt. intros Hle. apply Qle_bool_iff in Hle. congruence.
  - intros H. destruct (Qle_bool b a) eqn:E; [|reflexivity].
    apply Qle_bool_iff in E. apply Qle_not_lt in E. contradiction.
Qed.

Lemma Qltb_ge (a b : Q) : Qltb a b = false <-> (b <= a)%Q.
Proof.
  unfold Qltb. rewrite negb_false_iff. apply Qle_bool_iff.
Qed.

(** ** Straggler rules *)

Import StragglerSpec.

Lemma apply_ids_app N e ids1 ids2 st :
  apply_ids N e (ids1 ++ ids2) st
  = (st' ← apply_ids N e ids1 st; apply_ids N e ids2 st').
Proof.
  revert st. induction ids1 as [|i ids1 IH]; intros st; simpl; [reflexivity|].
  destruct (apply_to_client N e st i) as [st'|d]; simpl; [apply IH|reflexivity].
Qed.

Lemma apply_clients_ids N e cs st :
  apply_clients N e (map JInt cs) st = apply_ids N e (map to_int cs) st.
Proof.
  revert st. induction cs as [|c cs IH]; intros st; simpl; [reflexivity|].
  destruct (apply_to_client N e st (to_int c)) as [st'|d]; simpl; [apply IH|reflexivity].
Qed.

Lemma apply_range_ids N e n start st :
  apply_range N e n start st
  = apply_ids N e (map (fun i => start + Z.of_nat i) (seq 0 n)) st.
Proof.
  revert start st. induction n as [|n IH]; intros start st; simpl; [reflexivity|].
  replace (start + Z.of_nat 0) with start by lia.
  destruct (apply_to_client N e st start) as [st'|d]; simpl; [|reflexivity].
  rewrite IH. f_equal. rewrite <- seq_shift, map_map.
  apply map_ext. intros a. lia.
Qed.

Lemma apply_to_client_done N e st c :
  0 <= c < N ->
  exists m, apply_to_client N e st c = Done (true, m)
    /\ forall x, (client_multiplier m x
                  == client_multiplier (snd st) x * (if decide (x = c) then e else 1))%Q.
Proof.
  intros Hc. unfold apply_to_client.
  replace ((0 <=? c) && (c <? N)) with true by (symmetry; apply andb_true_iff; lia).
  simpl. destruct (st.2 !! c) as [old|] eqn:E.
  - eexists; split; [reflexivity|]. intros x. unfold client_multiplier.
    destruct (decide (x = c)) as [->|Hne].
    + rewrite lookup_insert_eq, E. reflexivity.
    + rewrite lookup_insert_ne by congruence. destruct (st.2 !! x); ring.
  - eexists; split; [reflexivity|]. intros x. unfold client_multiplier.
    destruct (decide (x = c)) as [->|Hne].
    + rewrite lookup_insert_eq, E. ring.
    + rewrite lookup_insert_ne by congruence. destruct (st.2 !! x); ring.
Qed.

Lemma apply_to_client_abort N e st c :
  ~ (0 <= c < N) -> apply_to_client N e st c = Abort (InvalidClient c).
Proof.
  intros Hc. unfold apply_to_client.
  replace ((0 <=? c) && (c <? N)) with false; [reflexivity|].
  symmetry. apply andb_false_iff. lia.
Qed.

Lemma apply_ids_done N e ids st :
  Forall (fun c => 0 <= c < N) ids ->
  exists m, apply_ids N e ids st = Done (fst st || negb (Nat.eqb (length ids) 0), m)
    /\ forall x, (client_multiplier m x
                  == client_multiplier (snd st) x * e ^ Z.of_nat (times x ids))%Q.
Proof.
  revert st. induction ids as [|c ids IH]; intros st Hall.
  - exists (snd st). simpl. rewrite orb_false_r. destruct st; split; [reflexivity|].
    intros x. simpl. ring.
  - inversion Hall as [|? ? Hc Hrest]; subst.
    destruct (apply_to_client_done N e st c Hc) as (m1 & E1 & M1).
    destruct (IH (true, m1) Hrest) as (m2 & E2 & M2).
    exists m2. simpl. rewrite E1. simpl. rewrite E2. simpl. rewrite orb_true_r.
    split; [reflexivity|]. intros x. rewrite M2. simpl snd. rewrite M1.
    unfold times. destruct (decide (x = c)) as [->|Hne].
    + rewrite filter_cons_True by reflexivity. simpl length.
      rewrite Nat2Z.inj_succ, <- Z.add_1_r.
      rewrite Qpower_plus' by lia. simpl (e ^ 1)%Q. ring.
    + rewrite filter_cons_False by congruence. ring.
Qed.

Lemma apply_ids_abort N e ids st :
  ~ Forall (fun c => 0 <= c < N) ids -> exists d, apply_ids N e ids st = Abort d.
Proof.
  revert st. induction ids as [|c ids IH]; intros st Hn.
  - exfalso. apply Hn. constructor.
  - simpl. destruct (decide (0 <= c < N)) as [Hc|Hc].
    + destruct (apply_to_client_done N e st c Hc) as (m1 & E1 & _). rewrite E1. simpl.
      apply IH. intros Hall. apply Hn. constructor; assumption.
    + rewrite (apply_to_client_abort _ _ _ _ Hc). simpl. eauto.
Qed.

Lemma range_bounds_json rg :
  range_bounds (range_json rg) = Done (range_start rg, range_end rg).
Proof. destruct rg; reflexivity. Qed.

Lemma apply_range_view N e rg st :
  apply_range N e (Z.to_nat (range_end rg - range_start rg + 1)) (range_start rg) st
  = apply_ids N e (range_ids rg) st.
Proof. apply apply_range_ids. Qed.

Lemma bind_apply_ids_app {A} N e ids1 ids2 st (k : acc -> outcome A) :
  (apply_ids N e (ids1 ++ ids2) st ≫= k)
  = (apply_ids N e ids1 st ≫= fun st' => apply_ids N e ids2 st' ≫= k).
Proof.
  rewrite apply_ids_app. destruct (apply_ids N e ids1 st); reflexivity.
Qed.

Lemma bind_apply_ids_one {A} N e c st (k : acc -> outcome A) :
  (apply_ids N e [c] st ≫= k) = (apply_to_client N e st c ≫= k).
Proof. simpl. destruct (apply_to_client N e st c); reflexivity. Qed.

Lemma apply_rule_ordered N eff r :
  range_ordered r ->
  apply_rule N eff (rule_json r)
  = if Qltb 0 (rv_effect r) then
      st ← apply_ids N (rv_effect r) (targets r) (false, eff);
      xbt_assert (fst st) NoTarget;; Done (snd st)
    else Abort EffectNotPositive.
Proof.
  destruct r as [e c cs rg]. unfold range_ordered, targets, apply_rule, rule_json.
  cbn [rv_effect rv_client rv_clients rv_range]. intros Hord.
  destruct (Qltb 0 e) eqn:He; destruct c as [c|], cs as [cs|], rg as [rg|];
    cbn -[apply_to_client range_bounds range_json apply_ids]; rewrite ?He;
    cbn -[apply_to_client range_bounds range_json apply_ids]; try reflexivity;
    rewrite ?range_bounds_json;
    cbn -[apply_to_client apply_ids range_ids range_start range_end];
    try (replace (range_start rg <=? range_end rg) with true
           by (symmetry; apply Z.leb_le; exact Hord));
    rewrite ?app_nil_r;
    repeat first
      [ rewrite apply_clients_ids
      | rewrite apply_range_view
      | rewrite bind_apply_ids_app
      | progress cbn -[apply_to_client range_ids range_start range_end]
      | match goal with
        | |- context [apply_to_client ?a ?b ?c ?d] => destruct (apply_to_client a b c d)
        | |- context [apply_ids ?a ?b ?c ?d] => destruct (apply_ids a b c d)
        end ];
    reflexivity.
Qed.

Lemma apply_rule_unordered N eff r :
  ~ range_ordered r -> exists d, apply_rule N eff (rule_json r) = Abort d.
Proof.
  destruct r as [e c cs rg]. unfold range_ordered, apply_rule, rule_json.
  cbn [rv_effect rv_client rv_clients rv_range]. intros Hord.
  destruct rg as [rg|]; [|exfalso; apply Hord; exact I].
  assert (Hlt : (range_start rg <=? range_end rg) = false) by (apply Z.leb_gt; lia).
  destruct (Qltb 0 e) eqn:He; destruct c as [c|], cs as [cs|];
    cbn -[apply_to_client range_bounds range_json apply_ids]; rewrite ?He;
    cbn -[apply_to_client range_bounds range_json apply_ids]; eauto;
    rewrite ?range_bounds_json;
    repeat match goal with
      | |- context [apply_to_client ?a ?b ?c ?d] =>
          destruct (apply_to_client a b c d); cbn -[apply_to_client apply_ids]; eauto
      | |- context [apply_clients ?a ?b ?c ?d] =>
          destruct (apply_clients a b c d); cbn -[apply_to_client apply_ids]; eauto
      end;
    cbn -[apply_to_client apply_ids apply_range]; rewrite ?Hlt; cbn; eauto.
Qed.

(** What [apply_rule] does on a well-typed rule: it accepts exactly the valid
    ones, and an accepted rule scales the multiplier of each client by its
    effect once per mention. *)
Lemma apply_rule_spec N eff r :
  (rule_valid N r /\
   exists eff', apply_rule N eff (rule_json r) = Done eff'
     /\ forall c, (client_multiplier eff' c
                   == client_multiplier eff c * rv_effect r ^ Z.of_nat (mentions c r))%Q)
  \/ (~ rule_valid N r /\ exists d, apply_rule N eff (rule_json r) = Abort d).
Proof.
  assert (Hd : range_ordered r \/ ~ range_ordered r)
    by (unfold range_ordered; destruct (rv_range r); [lia|auto]).
  destruct Hd as [Hord|Hord].
  2:{ right. split; [intros (_ & H & _); contradiction|].
      apply apply_rule_unordered; assumption. }
  rewrite (apply_rule_ordered N eff r Hord).
  destruct (Qltb 0 (rv_effect r)) eqn:He.
  2:{ right. split; [|eauto]. intros (H & _). apply Qltb_lt in H. congruence. }
  apply Qltb_lt in He.
  destruct (decide (Forall (fun c => 0 <= c < N) (targets r))) as [Hall|Hall].
  2:{ right. split; [intros (_ & _ & H & _); contradiction|].
      destruct (apply_ids_abort N (rv_effect r) (targets r) (false, eff) Hall) as [d ->].
      eauto. }
  destruct (apply_ids_done N (rv_effect r) (targets r) (false, eff) Hall)
    as (m & -> & Hm).
  cbn. destruct (targets r) as [|t ts] eqn:Et.
  - right. split; [intros (_ & _ & _ & H); congruence|]. cbn. eauto.
  - left. split; [unfold rule_valid; rewrite Et; repeat split; try assumption; congruence|].
    cbn. exists m. split; [reflexivity|]. intros c. rewrite Hm. cbn [snd].
    unfold mentions. rewrite Et. reflexivity.
Qed.

Lemma composed_nil c : composed c [] = 1%Q.
Proof. reflexivity. Qed.

Lemma composed_cons c r rs :
  composed c (r :: rs) = (rv_effect r ^ Z.of_nat (mentions c r) * composed c rs)%Q.
Proof. reflexivity. Qed.

Lemma apply_rules_spec N rs : forall eff,
  (Forall (rule_valid N) rs /\
   exists eff', apply_rules N (map rule_json rs) eff = Done eff'
     /\ forall c, (client_multiplier eff' c == client_multiplier eff c * composed c rs)%Q)
  \/ (~ Forall (rule_valid N) rs
      /\ exists d, apply_rules N (map rule_json rs) eff = Abort d).
Proof.
  induction rs as [|r rs IH]; intros eff.
  - left. split; [constructor|]. exists eff. split; [reflexivity|].
    intros c. rewrite composed_nil. ring.
  - cbn [map apply_rules].
    destruct (apply_rule_spec N eff r) as [(Hv & m & -> & Hm)|(Hv & d & ->)].
    2:{ right. split; [|cbn; eauto]. intros H. inversion H; contradiction. }
    cbn -[composed]. destruct (IH m) as [(Hvs & m' & -> & Hm')|(Hvs & d & ->)].
    + left. split; [constructor; assumption|]. exists m'. split; [reflexivity|].
      intros c. rewrite Hm', Hm, composed_cons. ring.
    + right. split; [|eauto]. intros H. inversion H; contradiction.
Qed.

Lemma composed_perm c rs rs' :
  Permutation rs rs' -> (composed c rs == composed c rs')%Q.
Proof.
  induction 1 as [|r l l' _ IH|r1 r2 l|l1 l2 l3 _ IH1 _ IH2];
    rewrite ?composed_cons.
  - reflexivity.
  - rewrite IH. reflexivity.
  - ring.
  - rewrite IH1. exact IH2.
Qed.

Lemma composed_once c rs :
  Forall (fun r => (mentions c r <= 1)%nat) rs ->
  (composed c rs == product_of_matching c rs)%Q.
Proof.
  induction 1 as [|r rs Hr _ IH]; [reflexivity|].
  rewrite composed_cons, IH. unfold product_of_matching. cbn [foldr].
  fold (product_of_matching c rs). unfold mentions in *.
  destruct (decide (c ∈ targets r)) as [Hin|Hin].
  - destruct (filter (fun x => x = c) (targets r)) as [|a [|b l]] eqn:E.
    + exfalso. assert (Hc : c ∈ filter (fun x => x = c) (targets r))
        by (apply list_elem_of_filter; auto).
      rewrite E in Hc. inversion Hc.
    + change (rv_effect r ^ Z.of_nat (length [a]))%Q with (rv_effect r). ring.
    + cbn in Hr. lia.
  - destruct (filter (fun x => x = c) (targets r)) as [|a l] eqn:E.
    + change (rv_effect r ^ Z.of_nat (length (@nil Z)))%Q with 1%Q. ring.
    + exfalso. assert (Ha : a ∈ filter (fun x => x = c) (targets r))
        by (rewrite E; left).
      apply list_elem_of_filter in Ha as [-> Ha]. contradiction.
Qed.


Lemma parse_rules_json N rs :
  parse_client_effects (rules_json rs) N = apply_rules N (map rule_json rs) ∅.
Proof. reflexivity. Qed.

Lemma client_multiplier_empty c : client_multiplier ∅ c = 1%Q.
Proof. unfold client_multiplier. rewrite lookup_empty. reflexivity. Qed.

Lemma composed_unmatched c rs :
  Forall (fun r => c ∉ targets r) rs -> (composed c rs == 1)%Q.
Proof.
  intros H. rewrite composed_once.
  - induction H as [|r rs Hr _ IH]; [reflexivity|].
    unfold product_of_matching. cbn [foldr]. rewrite decide_False by exact Hr.
    exact IH.
  - eapply Forall_impl; [exact H|]. intros r Hr. unfold mentions.
    destruct (filter (fun x => x = c) (targets r)) as [|a l] eqn:E; [cbn; lia|].
    exfalso. assert (Ha : a ∈ filter (fun x => x = c) (targets r)) by (rewrite E; left).
    apply list_elem_of_filter in Ha as [-> Ha]. contradiction.
Qed.

(** C9, as stated, fails: a rule with a positive effect and two selectors
    ([client] and [range]) is accepted by [apply_rule], although it does not
    carry exactly one selector. *)
Lemma two_selectors_accepted :
  ~ claimed_rule_acceptance 10 (mk_rule 3 (Some 2) None (Some (RangePair 1 2))).
Proof.
  intros [Hacc _]. destruct Hacc as [_ Hsel]; [|discriminate Hsel].
  eexists. vm_compute. reflexivity.
Qed.

(** C9, amended.  A well-typed straggler rule is accepted exactly when its
    effect is positive, its range (if any) has start <= end, every client id
    named by the selectors it carries (one, two or all three of [client],
    [clients], [range]) lies in [0, total_clients), and at least one id is
    named.  A rule with a positive effect and no selector is refused with the
    diagnostic "must target at least one client". *)
Theorem rule_accepted_iff_valid (total_clients : Z) (effects : gmap Z Q) (r : rule_view) :
  ((exists effects', apply_rule total_clients effects (rule_json r) = Done effects')
   <-> rule_valid total_clients r)
  /\ (selectors r = 0%nat /\ (0 < rv_effect r)%Q
      -> apply_rule total_clients effects (rule_json r) = Abort NoTarget).
Proof.
  split.
  - destruct (apply_rule_spec total_clients effects r)
      as [(Hv & m & E & _)|(Hv & d & E)]; rewrite E.
    + split; [intros _; exact Hv|intros _; eauto].
    + split; [intros [m Hm]; discriminate Hm|intros H; contradiction].
  - intros [Hsel He]. destruct r as [e c cs rg].
    destruct c, cs, rg; try discriminate Hsel.
    cbn in He. apply Qltb_lt in He.
    unfold apply_rule, rule_json. cbn. rewrite He. reflexivity.
Qed.




(** ** Deployment and client start *)

(** C6, the code at the failing input: with [training_cost = 1] and no
    straggler, FedAvg hands the client it places on Node-1 the cost 0.8, and
    FedCompass hands the client it places on Node-1 the cost 1: the factor 0.8
    is absent from FedCompass.cpp. *)
Theorem node1_training_cost :
  training_costs_on 1 (fedavg_clients s1_config) = [((1 * (8 # 10)) * 1)%Q]
  /\ training_costs_on 1 (fedcompass_clients s1_config) = [(1 * 1)%Q]
  /\ ~ (1 * 1 == 1 * (8 # 10) * 1)%Q.
Proof.
  split; [reflexivity|]. split; [reflexivity|]. intros H. vm_compute in H. discriminate H.
Qed.

(** C5, the code at the failing input: with [control == 2] both clients
    multiply the host speed by the value drawn, not by one plus that value; a
    draw of 0, the mean of the distribution, gives the speed 0 where the
    factor [1 + X] would leave the host speed unchanged. *)
Theorem control2_speed_is_scaled_by_draw :
  (forall args host_speed X, a_control args = 2 ->
     FedAvg.speed args host_speed X = (host_speed * X O)%Q
     /\ FedCompass.client_speed args host_speed X = (host_speed * X O)%Q)
  /\ (perturbed_speed 2 1 0 == 0)%Q
  /\ ~ (perturbed_speed 2 1 0 == 1 * (1 + 0))%Q.
Proof.
  split.
  - intros args hs X Hc. unfold FedAvg.speed, FedCompass.client_speed, perturbed_speed.
    rewrite Hc. split; reflexivity.
  - split; [reflexivity|]. intros H. vm_compute in H. discriminate H.
Qed.

(** ** FedAvg *)

Lemma puts_to_app m tr1 tr2 : puts_to m (tr1 ++ tr2) = puts_to m tr1 ++ puts_to m tr2.
Proof.
  induction tr1 as [|a tr1 IH]; [reflexivity|].
  destruct a as [f|mb p|mb p b]; cbn; rewrite ?IH; try reflexivity.
  destruct (mb =? m); cbn; rewrite ?IH; reflexivity.
Qed.

Lemma fedavg_client_loop_spec args hs X cc n : forall k inbox,
  let r := FedAvg.client_loop args hs X cc n k inbox in
  count_puts (fst r) = Nat.min n (length inbox)
  /\ count_gets (fst r) = Nat.min n (length inbox)
  /\ (snd r = Returned <-> (n <= length inbox)%nat).
Proof.
  induction n as [|n IH]; intros k inbox; cbn zeta.
  - cbn. repeat split; try reflexivity; intros; lia.
  - destruct inbox as [|m inbox']; cbn [FedAvg.client_loop].
    + cbn. repeat split; try reflexivity; [discriminate|lia].
    + destruct (a_control args =? 0);
        match goal with
        | |- context [FedAvg.client_loop args hs X cc n ?k' inbox'] =>
            specialize (IH k' inbox'); cbn zeta in IH;
            destruct (FedAvg.client_loop args hs X cc n k' inbox') as [tr st]
        end; cbn in *; destruct IH as (-> & -> & Hst);
        (repeat split; [reflexivity..|intros; apply Hst in H; lia|
                         intros; apply Hst; lia]).
Qed.

Lemma fedavg_broadcast_skip cc speed i n : forall a,
  (i < a)%nat \/ (a + n <= i)%nat ->
  puts_to (Z.of_nat i)
    (flat_map (fun j => [Put (Z.of_nat j) (PDouble 1) (cc * 8);
                         Execute ((5 # 100) * speed)]) (seq a n)) = [].
Proof.
  induction n as [|n IH]; intros a Ha; [reflexivity|].
  cbn. replace (Z.of_nat a =? Z.of_nat i) with false by (symmetry; apply Z.eqb_neq; lia).
  apply IH. lia.
Qed.

Lemma fedavg_broadcast_puts cc speed N i :
  (i < N)%nat ->
  puts_to (Z.of_nat i) (FedAvg.broadcast (Z.of_nat N) cc speed) = [PDouble 1].
Proof.
  intros Hi. unfold FedAvg.broadcast. rewrite Nat2Z.id.
  replace N with (i + S (N - S i))%nat by lia.
  rewrite seq_app, flat_map_app, puts_to_app. cbn [seq flat_map app].
  rewrite fedavg_broadcast_skip by lia.
  cbn. rewrite Z.eqb_refl. rewrite fedavg_broadcast_skip by lia. reflexivity.
Qed.

Lemma fedavg_bootstrap_puts cc N i :
  (i < N)%nat ->
  puts_to (Z.of_nat i) (FedAvg.bootstrap (Z.of_nat N) cc) = [PDouble cc].
Proof.
  intros Hi. unfold FedAvg.bootstrap. rewrite Nat2Z.id.
  assert (Hskip : forall n a, (i < a)%nat \/ (a + n <= i)%nat ->
            puts_to (Z.of_nat i)
              (map (fun j => Put (Z.of_nat j) (PDouble cc) 4) (seq a n)) = []).
  { induction n as [|n IH]; intros a Ha; [reflexivity|].
    cbn. replace (Z.of_nat a =? Z.of_nat i) with false by (symmetry; apply Z.eqb_neq; lia).
    apply IH. lia. }
  replace N with (i + S (N - S i))%nat by lia.
  rewrite seq_app, map_app, puts_to_app. cbn [seq map app].
  rewrite Hskip by lia. cbn. rewrite Z.eqb_refl. rewrite Hskip by lia. reflexivity.
Qed.

Lemma fedavg_collect_puts N speed i n : forall inbox,
  puts_to i (fst (FedAvg.collect N speed n inbox)) = [].
Proof.
  induction n as [|n IH]; intros inbox; [reflexivity|].
  destruct inbox as [|c inbox']; [reflexivity|]. cbn.
  specialize (IH inbox'). destruct (FedAvg.collect N speed n inbox'). exact IH.
Qed.

Lemma fedavg_rounds_puts N cc speed i n : forall inbox,
  (i < N)%nat ->
  let r := FedAvg.rounds (Z.of_nat N) cc speed n inbox in
  exists k, (k <= n)%nat
    /\ puts_to (Z.of_nat i) (fst r) = replicate k (PDouble 1)
    /\ (snd r = Returned -> k = n).
Proof.
  induction n as [|n IH]; intros inbox Hi; cbn zeta.
  - exists 0%nat. cbn. auto.
  - cbn [FedAvg.rounds].
    pose proof (fedavg_collect_puts (Z.of_nat N) speed (Z.of_nat i)
                  (Z.to_nat (Z.of_nat N)) inbox) as Hc.
    destruct (FedAvg.collect (Z.of_nat N) speed (Z.to_nat (Z.of_nat N)) inbox)
      as [tr [inbox'|]]; cbn [fst] in Hc.
    + specialize (IH inbox' Hi). cbn zeta in IH.
      destruct (FedAvg.rounds (Z.of_nat N) cc speed n inbox') as [tr' st].
      destruct IH as (k & Hk & Hp & Hst). exists (S k). cbn [fst snd] in *.
      rewrite !puts_to_app, fedavg_broadcast_puts, Hc, Hp by exact Hi.
      split; [lia|]. split; [reflexivity|]. intros H. rewrite Hst by exact H. reflexivity.
    + exists 1%nat. cbn [fst snd].
      rewrite !puts_to_app, fedavg_broadcast_puts, Hc by exact Hi.
      split; [lia|]. split; [reflexivity|]. discriminate.
Qed.

(** C10.  In FedAvg, for an epoch count [E >= 0] and a client [i] of the
    [N]: in any run of [server] the messages put in mailbox [i] are the
    bootstrap and at most [E] model messages (exactly [E] when the server
    returns), and nothing after them; [client] makes [E + 1] iterations when
    it is given [E + 1] messages after the bootstrap; so against the server it
    completes at most [E] iterations and then waits for ever in the receive
    of the next one. *)
Theorem fedavg_last_receive_unmatched
    (N E : Z) (dataloader_cost comm_cost speed : Q) (inbox : list Z)
    (tr : list action) (st : status) (i : Z)
    (args : client_args) (host_speed : Q) (X : nat -> Q)
    (HE : 0 <= E) (Hi : 0 <= i < N) (Hargs : a_rounds args = E)
    (Hrun : FedAvg.server N E dataloader_cost comm_cost speed inbox = Some (tr, st)) :
  (exists k, (k <= Z.to_nat E)%nat
     /\ puts_to i tr = PDouble comm_cost :: replicate k (PDouble 1)
     /\ (st = Returned -> k = Z.to_nat E))
  /\ (forall inbox', length inbox' = Z.to_nat (E + 1) ->
        exists ctr, FedAvg.client args host_speed X (PDouble comm_cost :: inbox')
                    = (ctr, Returned)
          /\ count_puts ctr = Z.to_nat (E + 1))
  /\ (exists ctr, FedAvg.client args host_speed X (puts_to i tr) = (ctr, Blocked)
        /\ (count_puts ctr <= Z.to_nat E)%nat).
Proof.
  unfold FedAvg.server in Hrun.
  destruct (N <? 0) eqn:HN; [discriminate Hrun|]. apply Z.ltb_ge in HN.
  assert (Hsrv : exists k, (k <= Z.to_nat E)%nat
     /\ puts_to i tr = PDouble comm_cost :: replicate k (PDouble 1)
     /\ (st = Returned -> k = Z.to_nat E)).
  { rewrite <- (Z2Nat.id N) in Hrun by lia. rewrite <- (Z2Nat.id i) by lia.
    pose proof (fedavg_rounds_puts (Z.to_nat N) comm_cost speed (Z.to_nat i)
                  (Z.to_nat E) inbox ltac:(lia)) as Hr. cbn zeta in Hr.
    destruct (FedAvg.rounds (Z.of_nat (Z.to_nat N)) comm_cost speed (Z.to_nat E) inbox)
      as [tr' st'].
    cbn [fst snd] in Hr.
    injection Hrun as <- <-. destruct Hr as (k & Hk & Hp & Hst).
    exists k. split; [exact Hk|]. split; [|exact Hst].
    cbn [puts_to]. rewrite puts_to_app, fedavg_bootstrap_puts, Hp by lia. reflexivity. }
  split; [exact Hsrv|]. split.
  - intros inbox' Hlen. unfold FedAvg.client. rewrite Hargs.
    pose proof (fedavg_client_loop_spec args host_speed X comm_cost (Z.to_nat (E + 1))
                  (FedAvg.draws_at_start args) inbox') as Hl. cbn zeta in Hl.
    destruct (FedAvg.client_loop args host_speed X comm_cost (Z.to_nat (E + 1))
                (FedAvg.draws_at_start args) inbox') as [ctr cst].
    cbn [fst snd] in Hl. destruct Hl as (Hp & _ & Hst).
    exists (Execute (a_dataloader_cost args * FedAvg.speed args host_speed X)
              :: Get (a_client_id args) (PDouble comm_cost) :: ctr).
    split.
    + f_equal. apply Hst. lia.
    + cbn. rewrite Hp. lia.
  - destruct Hsrv as (k & Hk & -> & _). unfold FedAvg.client. rewrite Hargs.
    pose proof (fedavg_client_loop_spec args host_speed X comm_cost (Z.to_nat (E + 1))
                  (FedAvg.draws_at_start args) (replicate k (PDouble 1))) as Hl.
    cbn zeta in Hl.
    destruct (FedAvg.client_loop args host_speed X comm_cost (Z.to_nat (E + 1))
                (FedAvg.draws_at_start args) (replicate k (PDouble 1))) as [ctr cst].
    cbn [fst snd] in Hl. destruct Hl as (Hp & _ & Hst).
    rewrite length_replicate in Hp, Hst.
    exists (Execute (a_dataloader_cost args * FedAvg.speed args host_speed X)
              :: Get (a_client_id args) (PDouble comm_cost) :: ctr).
    split.
    + f_equal. destruct cst; [|reflexivity].
      assert (Z.to_nat (E + 1) <= k)%nat by (apply Hst; reflexivity). lia.
    + cbn. rewrite Hp. lia.
Qed.

(** Scenario S1 (N = 3, E = 2): the server returns after six replies, client 0
    has been sent the bootstrap and two models, and blocks in its third
    receive after two replies. *)
Lemma fedavg_last_receive_unmatched_witness :
  exists ctr,
    FedAvg.client (mk_client_args 0 3 2 1 (8 # 10) 0) 1 (fun _ => 0%Q)
      [PDouble 1; PDouble 1; PDouble 1] = (ctr, Blocked)
    /\ (count_puts ctr <= 2)%nat.
Proof.
  destruct (fedavg_last_receive_unmatched 3 2 1 1 1 [0; 1; 2; 2; 1; 0]
              (Execute 1 :: FedAvg.bootstrap 3 1
                 ++ fst (FedAvg.rounds 3 1 1 2 [0; 1; 2; 2; 1; 0]))
              Returned 0 (mk_client_args 0 3 2 1 (8 # 10) 0) 1 (fun _ => 0%Q))
    as (_ & _ & H); [lia|lia|reflexivity|reflexivity|].
  exact H.
Defined.

(** ** FedCompass: the scheduler *)

Import FedCompass.

Lemma deref_slot s c ci : deref s c = Some ci <-> slot s c = Some (Some ci).
Proof.
  unfold deref. destruct (slot s c) as [[x|]|]; cbn; split; congruence.
Qed.

Lemma slot_nonneg s c x : slot s c = Some x -> 0 <= c.
Proof. unfold slot. destruct (c <? 0) eqn:E; [discriminate|]. intros _. lia. Qed.

Lemma slot_store_eq s c ci x :
  slot s c = Some x -> slot (store c ci s) c = Some (Some ci).
Proof.
  unfold slot, store. destruct (c <? 0); [discriminate|]. cbn. intros H.
  apply list_lookup_insert_eq. eapply lookup_lt_Some. exact H.
Qed.

Lemma slot_store_ne s c c' ci :
  0 <= c -> c <> c' -> slot (store c ci s) c' = slot s c'.
Proof.
  unfold slot, store. intros Hc Hne. destruct (c' <? 0) eqn:E; [reflexivity|]. cbn.
  apply Z.ltb_ge in E. apply list_lookup_insert_ne. lia.
Qed.

Lemma deref_store_eq s c ci x :
  slot s c = Some x -> deref (store c ci s) c = Some ci.
Proof. intros H. apply deref_slot. eapply slot_store_eq. exact H. Qed.

Lemma deref_store_ne s c c' ci :
  0 <= c -> c <> c' -> deref (store c ci s) c' = deref s c'.
Proof. intros Hc Hne. unfold deref. rewrite slot_store_ne by assumption. reflexivity. Qed.


Import CompassSpec.

#[local] Arguments Qplus : simpl never.
#[local] Arguments Qminus : simpl never.
#[local] Arguments Qmult : simpl never.
#[local] Arguments Qdiv : simpl never.
#[local] Arguments Qle_bool : simpl never.
#[local] Arguments Qeq_bool : simpl never.
#[local] Arguments Qltb : simpl never.
#[local] Arguments inject_Z : simpl never.
#[local] Arguments div_to_int : simpl never.
#[local] Arguments static_cast_int : simpl never.
#[local] Arguments Qtrunc : simpl never.
#[local] Arguments store : simpl never.
#[local] Arguments deref : simpl never.
#[local] Arguments slot : simpl never.
#[local] Arguments erase_remove : simpl never.

Lemma dispatched_app tr1 tr2 : dispatched (tr1 ++ tr2) = dispatched tr1 ++ dispatched tr2.
Proof.
  induction tr1 as [|a tr1 IH]; [reflexivity|].
  destruct a as [f|m p|m [n|x] b]; cbn; rewrite ?IH; reflexivity.
Qed.

Section Continues.
Variable P : params.

Lemma continues_refl s : continues P s s.
Proof.
  split; [|auto]. exists []. rewrite app_nil_r. split; [reflexivity|constructor].
Qed.

Lemma continues_trans s1 s2 s3 :
  continues P s1 s2 -> continues P s2 s3 -> continues P s1 s3.
Proof.
  intros [(t1 & E1 & F1) R1] [(t2 & E2 & F2) R2]. split; [|auto].
  exists (t1 ++ t2). rewrite E2, E1, <- app_assoc. split; [reflexivity|].
  rewrite dispatched_app. apply Forall_app. split; assumption.
Qed.

Lemma ready_info s s' c :
  client_info s' = client_info s -> ready P s c -> ready P s' c.
Proof.
  intros E (ci & Hd & Hok). exists ci. split; [|exact Hok].
  unfold deref, slot in *. rewrite E. exact Hd.
Qed.

(** A state change that leaves the client table alone and logs actions that
    dispatch nothing. *)
Lemma continues_quiet s s' tr :
  client_info s' = client_info s -> trace s' = trace s ++ tr -> dispatched tr = [] ->
  continues P s s'.
Proof.
  intros Ei Et Hd. split.
  - exists tr. split; [exact Et|]. rewrite Hd. constructor.
  - intros c. apply ready_info. exact Ei.
Qed.

Lemma continues_suspend base s : continues P s (suspend base s).
Proof.
  unfold suspend. destruct (slack s); eapply continues_quiet with (tr := []);
    cbn; rewrite ?app_nil_r; reflexivity.
Qed.

Lemma continues_execute x s : continues P s (execute P x s).
Proof.
  unfold execute. eapply continues_trans; [|apply continues_suspend].
  eapply continues_quiet with (tr := [_]); cbn; reflexivity.
Qed.

Lemma continues_get n s : continues P s (get P n s).
Proof.
  unfold get. eapply continues_trans; [|apply continues_suspend].
  eapply continues_quiet with (tr := [_]); cbn; reflexivity.
Qed.

Lemma continues_with_server f s : continues P s (with_server f s).
Proof. eapply continues_quiet with (tr := []); cbn; rewrite ?app_nil_r; reflexivity. Qed.

Lemma continues_server_update s : continues P s (server_update P s).
Proof.
  unfold server_update. eapply continues_trans;
    [apply continues_execute|apply continues_with_server].
Qed.

Lemma continues_server_single_buffer s : continues P s (server_single_buffer P s).
Proof.
  unfold server_single_buffer. eapply continues_trans;
    [apply continues_execute|apply continues_with_server].
Qed.

Lemma continues_server_update_all s : continues P s (server_update_all P s).
Proof.
  unfold server_update_all. eapply continues_trans;
    [apply continues_execute|apply continues_with_server].
Qed.

Lemma continues_server_buffer g s : continues P s (server_buffer P g s).
Proof.
  unfold server_buffer.
  eapply continues_trans; [apply continues_with_server|].
  eapply continues_trans; [apply continues_execute|apply continues_with_server].
Qed.

Lemma continues_server_update_group g s : continues P s (server_update_group P g s).
Proof.
  unfold server_update_group. destruct (group_pseudo_grad (server s) !! g).
  - apply continues_refl.
  - eapply continues_trans; [apply continues_execute|apply continues_with_server].
Qed.

Lemma continues_set_group_of_arrival x s : continues P s (set_group_of_arrival x s).
Proof. eapply continues_quiet with (tr := []); cbn; rewrite ?app_nil_r; reflexivity. Qed.

Lemma continues_set_group_counter x s : continues P s (set_group_counter x s).
Proof. eapply continues_quiet with (tr := []); cbn; rewrite ?app_nil_r; reflexivity. Qed.

Lemma continues_set_sleepers x s : continues P s (set_sleepers x s).
Proof. eapply continues_quiet with (tr := []); cbn; rewrite ?app_nil_r; reflexivity. Qed.

Lemma continues_set_pending_clients x s : continues P s (set_pending_clients x s).
Proof. eapply continues_quiet with (tr := []); cbn; rewrite ?app_nil_r; reflexivity. Qed.

Lemma continues_set_iter x s : continues P s (set_iter x s).
Proof. eapply continues_quiet with (tr := []); cbn; rewrite ?app_nil_r; reflexivity. Qed.

Lemma continues_set_slack x s : continues P s (set_slack x s).
Proof. eapply continues_quiet with (tr := []); cbn; rewrite ?app_nil_r; reflexivity. Qed.

Lemma continues_set_clock x s : continues P s (set_clock x s).
Proof. eapply continues_quiet with (tr := []); cbn; rewrite ?app_nil_r; reflexivity. Qed.

(** Storing a record with the same [local_steps]. *)
Lemma continues_store_same c ci ci' s :
  deref s c = Some ci -> local_steps ci' = local_steps ci ->
  continues P s (store c ci' s).
Proof.
  intros Hd Hl. split.
  - exists []. rewrite app_nil_r. split; [reflexivity|constructor].
  - intros c' (cj & Hj & Hok). destruct (decide (c = c')) as [<-|Hne].
    + exists ci'. split; [eapply deref_store_eq; apply deref_slot; exact Hd|].
      rewrite Hl. congruence.
    + exists cj. split; [|exact Hok]. rewrite deref_store_ne; [exact Hj| |exact Hne].
      apply deref_slot in Hd. eapply slot_nonneg. exact Hd.
Qed.

(** Storing a record with assigned steps. *)
Lemma continues_store_ok c ci' s x :
  slot s c = Some x -> assigned_ok P (local_steps ci') ->
  continues P s (store c ci' s) /\ ready P (store c ci' s) c.
Proof.
  intros Hs Hok.
  assert (Hr : ready P (store c ci' s) c).
  { exists ci'. split; [eapply deref_store_eq; exact Hs|exact Hok]. }
  split; [|exact Hr]. split.
  - exists []. rewrite app_nil_r. split; [reflexivity|constructor].
  - intros c' (cj & Hj & Hokj). destruct (decide (c = c')) as [<-|Hne]; [exact Hr|].
    exists cj. split; [|exact Hokj]. rewrite deref_store_ne; [exact Hj| |exact Hne].
    eapply slot_nonneg. exact Hs.
Qed.

End Continues.

Section Assignment.
Variable P : params.

Lemma join_scan_spec s c t gs : forall a r,
  join_scan P s c t gs a = Some r ->
  r = a
  \/ exists G ci,
       (r.1, G) ∈ gs /\ deref s c = Some ci
       /\ div_to_int (expected_arrival_time G - t) (speed ci) = Some r.2
       /\ min_local_steps P <= r.2 <= max_local_steps_bound P.
Proof.
  induction gs as [|[key G] gs IH]; intros a r H; cbn in H.
  - left. congruence.
  - destruct (deref s c) as [ci|] eqn:Hd; [|discriminate H]. cbn in H.
    destruct (div_to_int (expected_arrival_time G - t) (speed ci)) as [k|] eqn:Hk;
      [|discriminate H]. cbn in H.
    destruct ((k <? min_local_steps P) || (k <? a.2) || (k >? max_local_steps_bound P))
      eqn:Hc.
    + destruct (IH _ _ H) as [->|(G' & ci' & Hin & Hd' & Hk' & Hr)]; [left; reflexivity|].
      right. exists G', ci'. split; [right; exact Hin|auto].
    + apply orb_false_iff in Hc as [Hc Hc3]. apply orb_false_iff in Hc as [Hc1 Hc2].
      destruct (IH _ _ H) as [->|(G' & ci' & Hin & Hd' & Hk' & Hr)].
      * right. exists G, ci. cbn. split; [left|]. split; [reflexivity|].
        split; [exact Hk|]. lia.
      * right. exists G', ci'. split; [right; exact Hin|auto].
Qed.

Lemma _join_group_continues c s b s' :
  _join_group P c s = Some (b, s') ->
  continues P s s' /\ (b = true -> ready P s' c) /\ (b = false -> s' = s).
Proof.
  unfold _join_group. intros H.
  destruct (join_scan P s c (clock s) (group_of_arrival s) (-1, -1)) as [[g k]|] eqn:Hj;
    [|discriminate H]. cbn in H.
  destruct (g =? -1) eqn:Hg; cbn in H.
  - injection H as <- <-. split; [apply continues_refl|]. split; [discriminate|reflexivity].
  - destruct (deref s c) as [ci|] eqn:Hd; [|discriminate H]. cbn in H.
    match type of H with context [find_group ?m ?g] => destruct (find_group m g) end;
      [|discriminate H]. cbn in H. injection H as <- <-.
    destruct (join_scan_spec _ _ _ _ _ _ Hj) as [E|(G & ci' & _ & _ & _ & Hr)].
    + injection E as -> ->. discriminate Hg.
    + cbn in Hr. apply deref_slot in Hd.
      destruct (continues_store_ok P c
                  (mk_ClientInfo (step ci) k g (total_steps ci) (speed ci) (clock s)) s _ Hd)
        as [Hc Hrdy]; [left; exact Hr|].
      split; [|split; [|discriminate]].
      * eapply continues_trans; [exact Hc|apply continues_set_group_of_arrival].
      * intros _. eapply ready_info; [|exact Hrdy]. reflexivity.
Qed.

Lemma create_scan_bounds s t v gs : forall a r,
  create_scan P s t v gs a = Some r -> a <= r <= Z.max a (max_local_steps P).
Proof.
  induction gs as [|[key G] gs IH]; intros a r H; cbn in H.
  - injection H as <-. lia.
  - destruct (Qltb t (latest_arrival_time G)); [|apply IH in H; lia].
    destruct (fastest s (clients G ++ arrived_clients G) None) as [[f|]|];
      try discriminate H. cbn in H.
    destruct (static_cast_int _) as [n|]; [|discriminate H]. cbn in H.
    destruct (div_to_int _ _) as [k|]; [|discriminate H]. cbn in H.
    destruct (k <=? max_local_steps P) eqn:Hk; apply IH in H; lia.
Qed.

Lemma spawn_aggregation_continues o t s s' :
  spawn_aggregation o t s = Some s' -> continues P s s'.
Proof.
  unfold spawn_aggregation. intros H.
  destruct (find_group _ _); [|discriminate H]. injection H as <-.
  apply continues_set_sleepers.
Qed.

Lemma spawn_aggregation_info o t s s' :
  spawn_aggregation o t s = Some s' ->
  client_info s' = client_info s /\ group_counter s' = group_counter s.
Proof.
  unfold spawn_aggregation. intros H.
  destruct (find_group _ _); [|discriminate H]. injection H as <-. split; reflexivity.
Qed.

Lemma _create_group_continues c s s' :
  _create_group P c s = Some s' -> continues P s s' /\ ready P s' c.
Proof.
  unfold _create_group. intros H.
  apply bind_Some in H as (ci & Hd & H).
  apply bind_Some in H as (a & Hs & H). cbv zeta in H.
  apply bind_Some in H as (s1 & Hsp & H). injection H as <-.
  apply create_scan_bounds in Hs.
  pose proof (spawn_aggregation_continues _ _ _ _ Hsp) as Hc1.
  destruct (spawn_aggregation_info _ _ _ _ Hsp) as [Hi1 Hg1].
  match goal with |- context [store c ?ci' s1] =>
    destruct (continues_store_ok P c ci' s1 (Some ci)) as [Hc2 Hr2] end.
  { apply deref_slot. unfold deref, slot in *. rewrite Hi1. exact Hd. }
  { cbn [local_steps]. destruct ((0 <=? a) && (a <? min_local_steps P)) eqn:E1.
    - replace (min_local_steps P <? 0) with false
        by (symmetry; apply Z.ltb_ge; unfold min_local_steps; lia).
      right. right. left. reflexivity.
    - destruct (a <? 0) eqn:E2; [right; left; reflexivity|].
      right. right. right. apply andb_false_iff in E1. lia. }
  split.
  - eapply continues_trans; [apply continues_set_group_of_arrival|].
    eapply continues_trans; [exact Hc1|].
    eapply continues_trans; [exact Hc2|apply continues_set_group_counter].
  - eapply ready_info; [|exact Hr2]. reflexivity.
Qed.

Lemma _assign_group_continues c s s' :
  _assign_group P c s = Some s' -> continues P s s' /\ ready P s' c.
Proof.
  unfold _assign_group. intros H.
  destruct (length (group_of_arrival s) =? 0)%nat.
  - apply bind_Some in H as (ci & Hd & H). cbv zeta in H.
    apply bind_Some in H as (s1 & Hsp & H). injection H as <-.
    pose proof (spawn_aggregation_continues _ _ _ _ Hsp) as Hc1.
    destruct (spawn_aggregation_info _ _ _ _ Hsp) as [Hi1 Hg1].
    match goal with |- context [store c ?ci' s1] =>
      destruct (continues_store_ok P c ci' s1 (Some ci)) as [Hc2 Hr2] end.
    { apply deref_slot. unfold deref, slot in *. rewrite Hi1. exact Hd. }
    { right. left. reflexivity. }
    split.
    + eapply continues_trans; [apply continues_set_group_of_arrival|].
      eapply continues_trans; [exact Hc1|].
      eapply continues_trans; [exact Hc2|apply continues_set_group_counter].
    + eapply ready_info; [|exact Hr2]. reflexivity.
  - destruct (_join_group P c s) as [[[|] s1]|] eqn:Hj; [| |discriminate H].
    + injection H as <-. apply _join_group_continues in Hj as (Hc & Hr & _). auto.
    + apply _join_group_continues in Hj as (_ & _ & Hs).
      rewrite (Hs eq_refl) in H. apply _create_group_continues. exact H.
Qed.

Lemma dispatched_put_execute m n b x :
  dispatched [Put m (PInt n) b; Execute x] = [n].
Proof. reflexivity. Qed.

Lemma _send_global_model_to_client_continues c n s :
  assigned_ok P n -> continues P s (_send_global_model_to_client P c n s).
Proof.
  intros Hok. unfold _send_global_model_to_client, put.
  eapply continues_trans; [|apply continues_set_pending_clients].
  eapply continues_trans; [|apply continues_execute].
  eapply continues_trans; [|apply continues_suspend].
  split.
  - eexists [_]. split; [reflexivity|]. cbn. constructor; [exact Hok|constructor].
  - intros c'. apply ready_info. reflexivity.
Qed.

Lemma _send_model_continues c s s' :
  ready P s c -> _send_model P c s = Some s' -> continues P s s'.
Proof.
  intros (ci & Hd & Hok) H. unfold _send_model in H. rewrite Hd in H. cbn in H.
  injection H as <-.
  eapply continues_trans; [|apply _send_global_model_to_client_continues; exact Hok].
  eapply continues_store_same; [exact Hd|reflexivity].
Qed.

Lemma assign_all_continues cs : forall s s',
  assign_all P cs s = Some s' ->
  continues P s s' /\ Forall (fun x => ready P s' x.1) cs.
Proof.
  induction cs as [|x cs IH]; intros s s' H; cbn in H.
  - injection H as <-. split; [apply continues_refl|constructor].
  - apply bind_Some in H as (s1 & H1 & H).
    apply _assign_group_continues in H1 as [Hc1 Hr1].
    apply IH in H as [Hc Hr]. split; [eapply continues_trans; eassumption|].
    constructor; [|exact Hr]. apply Hc. exact Hr1.
Qed.

Lemma send_all_continues cs : forall s s',
  Forall (fun x => ready P s x.1) cs ->
  send_all P cs s = Some s' -> continues P s s'.
Proof.
  induction cs as [|x cs IH]; intros s s' Hr H; cbn in H.
  - injection H as <-. apply continues_refl.
  - apply bind_Some in H as (s1 & H1 & H). inversion Hr as [|? ? Hx Hcs]; subst.
    pose proof (_send_model_continues _ _ _ Hx H1) as Hc1.
    eapply continues_trans; [exact Hc1|]. apply (IH s1); [|exact H].
    eapply Forall_impl; [exact Hcs|]. intros y. apply Hc1.
Qed.

Lemma stamp_arrived_continues cs : forall acc s r,
  stamp_arrived cs acc s = Some r -> continues P s r.2.
Proof.
  induction cs as [|c cs IH]; intros acc s r H; cbn in H.
  - injection H as <-. apply continues_refl.
  - apply bind_Some in H as (ci & Hd & H). apply IH in H.
    eapply continues_trans; [|exact H].
    eapply continues_store_same; [exact Hd|reflexivity].
Qed.

Lemma Forall_sort_by_speed (Q0 : Z * Q -> Prop) l :
  Forall Q0 l -> Forall Q0 (sort_by_speed l).
Proof.
  assert (Hins : forall x l0, Q0 x -> Forall Q0 l0 -> Forall Q0 (insert_by_speed x l0)).
  { intros x l0 Hx. induction 1 as [|y l0 Hy Hl IH]; cbn.
    - constructor; [exact Hx|constructor].
    - destruct (Qltb y.2 x.2); constructor; auto. }
  induction 1 as [|x l Hx Hl IH]; cbn; [constructor|]. apply Hins; assumption.
Qed.

Lemma sort_by_speed_perm l : Permutation (sort_by_speed l) l.
Proof.
  assert (Hins : forall x l0, Permutation (insert_by_speed x l0) (x :: l0)).
  { intros x l0. induction l0 as [|y l0 IH]; cbn; [reflexivity|].
    destruct (Qltb y.2 x.2); [|reflexivity].
    rewrite IH. apply perm_swap. }
  induction l as [|x l IH]; cbn; [reflexivity|].
  rewrite Hins, IH. reflexivity.
Qed.

Lemma _group_aggregation_continues g s s' :
  _group_aggregation P g s = Some s' -> continues P s s'.
Proof.
  unfold _group_aggregation. intros H.
  destruct (find_group (group_of_arrival s) g) as [G|]; [|injection H as <-; apply continues_refl].
  cbv zeta in H.
  apply bind_Some in H as ([cs s1] & Hst & H).
  apply bind_Some in H as (s2 & Has & H).
  apply bind_Some in H as (G' & _ & H).
  apply stamp_arrived_continues in Hst. cbn [snd] in Hst.
  apply assign_all_continues in Has as [Hc2 Hr2].
  eapply continues_trans; [apply continues_server_update_group|].
  eapply continues_trans; [exact Hst|].
  eapply continues_trans; [apply continues_set_group_of_arrival|].
  eapply continues_trans; [exact Hc2|].
  match type of H with context [if ?b then set_group_of_arrival ?x s2 else s2] =>
    set (s3 := if b then set_group_of_arrival x s2 else s2) in * end.
  assert (Hc3 : continues P s2 s3).
  { subst s3. destruct (_ =? _)%nat;
      [apply continues_set_group_of_arrival|apply continues_refl]. }
  eapply continues_trans; [exact Hc3|].
  destruct (iter s3 <? num_global_epochs P).
  - eapply send_all_continues; [|exact H].
    eapply Forall_impl; [exact Hr2|]. intros x. apply Hc3.
  - injection H as <-. apply continues_server_update_all.
Qed.

Lemma _single_update_continues c b s s' :
  _single_update P c b s = Some s' -> continues P s s'.
Proof.
  unfold _single_update. intros H. cbv zeta in H.
  match type of H with context [deref ?s0 c] => set (s1 := s0) in * end.
  assert (Hc1 : continues P s s1).
  { subst s1. destruct b;
      [apply continues_server_single_buffer|apply continues_server_update]. }
  apply bind_Some in H as (ci & Hd & H).
  apply bind_Some in H as (s2 & Ha & H).
  apply _assign_group_continues in Ha as [Hc2 Hr2].
  eapply continues_trans; [exact Hc1|].
  eapply continues_trans; [|eapply continues_trans; [exact Hc2|]].
  - eapply continues_store_same; [exact Hd|reflexivity].
  - destruct (iter s2 <? num_global_epochs P).
    + eapply _send_model_continues; eassumption.
    + injection H as <-. apply continues_server_update_all.
Qed.

Lemma _group_update_continues c g s s' :
  _group_update P c g s = Some s' -> continues P s s'.
Proof.
  unfold _group_update. intros H. cbv zeta in H.
  apply bind_Some in H as (G & _ & H).
  destruct (Qle_bool (latest_arrival_time G) (clock s)).
  - apply bind_Some in H as (v & _ & H).
    apply _single_update_continues in H.
    eapply continues_trans; [|exact H].
    destruct (_ =? _)%nat.
    + eapply continues_trans; apply continues_set_group_of_arrival.
    + apply continues_set_group_of_arrival.
  - apply bind_Some in H as (v & _ & H).
    match type of H with context [server_buffer P g ?s0] =>
      assert (Hc : continues P s (server_buffer P g s0))
        by (eapply continues_trans;
            [apply continues_set_group_of_arrival|apply continues_server_buffer]) end.
    destruct (_ =? _)%nat.
    + apply _group_aggregation_continues in H. eapply continues_trans; eassumption.
    + injection H as <-. exact Hc.
Qed.

Lemma _record_info_continues c s s' :
  _record_info P c s = Some s' -> continues P s s'.
Proof.
  unfold _record_info. intros H. cbv zeta in H.
  apply bind_Some in H as (p & Hp & H).
  apply bind_Some in H as (_ & _ & H).
  destruct p as [ci|]; injection H as <-.
  - eapply continues_store_same; [apply deref_slot; exact Hp|reflexivity].
  - split.
    + exists []. rewrite app_nil_r. split; [reflexivity|constructor].
    + intros c' (cj & Hj & Hok). exists cj. split; [|exact Hok].
      destruct (decide (c = c')) as [<-|Hne].
      * apply deref_slot in Hj. congruence.
      * rewrite deref_store_ne; [exact Hj| |exact Hne]. eapply slot_nonneg. exact Hp.
Qed.

Lemma update_continues c s s' : update P c s = Some s' -> continues P s s'.
Proof.
  unfold update, _recv_local_model_from_client. intros H. cbv zeta in H.
  apply bind_Some in H as (s1 & Hr & H).
  apply _record_info_continues in Hr.
  unfold _update in H. cbv zeta in H.
  apply bind_Some in H as (ci & _ & H).
  eapply continues_trans; [|eapply continues_trans; [exact Hr|]].
  - eapply continues_trans; [apply continues_get|].
    eapply continues_trans; [apply continues_execute|apply continues_set_pending_clients].
  - eapply continues_trans; [apply continues_set_iter|].
    destruct (goa ci =? -1).
    + eapply _single_update_continues. exact H.
    + eapply _group_update_continues. exact H.
Qed.

Lemma wake_continues n sl s s' : wake P n sl s = Some s' -> continues P s s'.
Proof.
  unfold wake. intros H. apply bind_Some in H as (z & _ & H). cbv zeta in H.
  apply _group_aggregation_continues in H. eapply continues_trans; [|exact H].
  eapply continues_trans; [apply continues_set_sleepers|].
  eapply continues_trans; [apply continues_set_clock|apply continues_set_slack].
Qed.

Lemma handle_continues ev s s' : handle P ev s = Some s' -> continues P s s'.
Proof.
  destruct ev as [c sl|n sl]; cbn [handle]; intros H.
  - apply update_continues in H. eapply continues_trans; [|exact H].
    apply continues_set_slack.
  - eapply wake_continues. exact H.
Qed.

Lemma exec_continues evs : forall s s', exec P evs s = Some s' -> continues P s s'.
Proof.
  induction evs as [|ev evs IH]; intros s s' H; cbn [exec] in H.
  - injection H as <-. apply continues_refl.
  - apply bind_Some in H as (s1 & H1 & H). apply handle_continues in H1. apply IH in H.
    eapply continues_trans; eassumption.
Qed.

End Assignment.

(** *** Bounds on the steps dispatched *)

Lemma Qtrunc_le (x : Q) (n : Z) : (x <= inject_Z n)%Q -> 0 <= n -> Qtrunc x <= n.
Proof.
  destruct x as [a b]. unfold Qtrunc, Qle, inject_Z. cbn. intros H Hn.
  rewrite Z.mul_1_r in H.
  destruct (Z.le_gt_cases 0 a) as [Ha|Ha].
  - rewrite Z.quot_div_nonneg by lia. apply Z.lt_succ_r.
    apply Z.div_lt_upper_bound; lia.
  - assert (a ÷ Z.pos b <= 0); [|lia].
    rewrite <- (Z.opp_involutive a), Z.quot_opp_l by lia.
    assert (0 <= (- a) ÷ Z.pos b) by (apply Z.quot_pos; lia). lia.
Qed.

Lemma Qtrunc_ge (x : Q) (n : Z) : (inject_Z n <= x)%Q -> 0 <= n -> n <= Qtrunc x.
Proof.
  destruct x as [a b]. unfold Qtrunc, Qle, inject_Z. cbn. intros H Hn.
  rewrite Z.mul_1_r in H.
  assert (0 <= a) by nia.
  rewrite Z.quot_div_nonneg by lia. apply Z.div_le_lower_bound; lia.
Qed.

Lemma bounds_ordered P :
  1 <= max_local_steps P -> (q_ratio P <= 1)%Q ->
  1 <= min_local_steps P <= max_local_steps P
  /\ max_local_steps P <= max_local_steps_bound P.
Proof.
  intros HM Hq. unfold min_local_steps, max_local_steps_bound.
  assert (H0 : (0 <= inject_Z (max_local_steps P))%Q)
    by (rewrite <- (Zle_Qle 0); lia).
  assert (H1 : Qtrunc (q_ratio P * inject_Z (max_local_steps P)) <= max_local_steps P).
  { apply Qtrunc_le; [|lia]. nra. }
  assert (H2 : max_local_steps P <= Qtrunc ((12 # 10) * inject_Z (max_local_steps P))).
  { apply Qtrunc_ge; [|lia]. nra. }
  lia.
Qed.



(** *** Termination of the server *)

Lemma inbox_of_app m tr1 tr2 : inbox_of m (tr1 ++ tr2) = inbox_of m tr1 ++ inbox_of m tr2.
Proof.
  induction tr1 as [|a tr1 IH]; [reflexivity|].
  destruct a as [f|mb p|mb [n|x] b]; cbn; rewrite ?IH; try reflexivity.
  destruct (mb =? m); cbn; rewrite ?IH; reflexivity.
Qed.

Lemma inbox_of_dispatched (Q0 : Z -> Prop) m tr :
  Forall Q0 (dispatched tr) -> Forall Q0 (inbox_of m tr).
Proof.
  induction tr as [|a tr IH]; cbn; [constructor|].
  destruct a as [f|mb p|mb [n|x] b]; cbn; auto.
  intros H. inversion H; subst. destruct (mb =? m); auto.
Qed.

Section Termination.
Variable P : params.
Variable dataloader_cost : Q.
Variable validation_flag : bool.

Lemma server_loop_spec evs : forall g s rest s',
  server_loop P validation_flag evs g s = Some (rest, s') ->
  continues P s s'
  /\ exists used, evs = used ++ rest /\ g + replies used = num_global_epochs P.
Proof.
  induction evs as [|[c sl|n sl] evs IH]; intros g s rest s' H; cbn [server_loop] in H.
  - discriminate H.
  - apply bind_Some in H as (s1 & Hu & H). cbv zeta in H.
    apply update_continues in Hu.
    assert (Hc1 : continues P s s1)
      by (eapply continues_trans; [apply continues_set_slack|exact Hu]).
    match type of H with context [if ?b then execute P ?x s1 else s1] =>
      set (s2 := if b then execute P x s1 else s1) in * end.
    assert (Hc2 : continues P s s2).
    { subst s2. destruct (_ || _); [|exact Hc1].
      eapply continues_trans; [exact Hc1|apply continues_execute]. }
    destruct (g + 1 =? num_global_epochs P) eqn:Hg.
    + injection H as <- <-. split; [exact Hc2|].
      exists [Reply c sl]. split; [reflexivity|]. apply Z.eqb_eq in Hg. cbn. lia.
    + apply IH in H as (Hc & used & -> & Hn). split.
      * eapply continues_trans; eassumption.
      * exists (Reply c sl :: used). split; [reflexivity|]. cbn [replies]. lia.
  - apply bind_Some in H as (s1 & Hw & H). apply wake_continues in Hw.
    apply IH in H as (Hc & used & -> & Hn). split.
    + eapply continues_trans; eassumption.
    + exists (Wake n sl :: used). split; [reflexivity|]. exact Hn.
Qed.

Lemma drain_spec evs : forall s rest s',
  drain P evs s = Some (rest, s') -> continues P s s' /\ pending_clients s' = ∅.
Proof.
  induction evs as [|[c sl|n sl] evs IH]; intros s rest s' H; cbn [drain] in H;
    destruct (decide (pending_clients s = ∅)) as [He|He];
    try (injection H as <- <-; split; [apply continues_refl|exact He]).
  - discriminate H.
  - cbv zeta in H. apply IH in H as [Hc Hp]. split; [|exact Hp].
    eapply continues_trans; [|exact Hc].
    eapply continues_trans; [apply continues_set_slack|].
    eapply continues_trans; [apply continues_get|].
    eapply continues_trans; [apply continues_execute|apply continues_set_pending_clients].
  - apply bind_Some in H as (s1 & Hw & H). apply wake_continues in Hw.
    apply IH in H as [Hc Hp]. split; [|exact Hp]. eapply continues_trans; eassumption.
Qed.

Lemma trace_suspend base s : trace (suspend base s) = trace s.
Proof. unfold suspend. destruct (slack s); reflexivity. Qed.

Lemma pending_suspend base s : pending_clients (suspend base s) = pending_clients s.
Proof. unfold suspend. destruct (slack s); reflexivity. Qed.

Lemma trace_execute x s : trace (execute P x s) = trace s ++ [Execute (x * host_speed P)].
Proof. unfold execute. rewrite trace_suspend. reflexivity. Qed.

Lemma trace_put m n b s : trace (put m n b s) = trace s ++ [Put m (PInt n) b].
Proof. unfold put. rewrite trace_suspend. reflexivity. Qed.

Lemma pending_execute x s : pending_clients (execute P x s) = pending_clients s.
Proof. unfold execute. rewrite pending_suspend. reflexivity. Qed.

Lemma pending_put m n b s : pending_clients (put m n b s) = pending_clients s.
Proof. unfold put. rewrite pending_suspend. reflexivity. Qed.

Lemma stop_all_spec n : forall i s m,
  pending_clients (stop_all P n i s) = pending_clients s
  /\ inbox_of m (trace (stop_all P n i s))
     = inbox_of m (trace s) ++ (if decide (i <= m < i + Z.of_nat n) then [-1] else []).
Proof.
  induction n as [|n IH]; intros i s m; cbn [stop_all].
  - rewrite decide_False by lia. rewrite app_nil_r. split; reflexivity.
  - destruct (IH (i + 1) (execute P (3 # 100) (put i (-1) 0 s)) m) as [Hp Hi].
    rewrite Hp, Hi, pending_execute, pending_put, trace_execute, trace_put.
    split; [reflexivity|].
    rewrite !inbox_of_app, <- !app_assoc. f_equal. cbn [inbox_of app].
    destruct (i =? m) eqn:E; [apply Z.eqb_eq in E|apply Z.eqb_neq in E].
    + rewrite decide_False by lia. rewrite decide_True by lia. reflexivity.
    + destruct (decide (i + 1 <= m < i + 1 + Z.of_nat n)).
      * rewrite decide_True by lia. reflexivity.
      * rewrite decide_False by lia. reflexivity.
Qed.

Lemma broadcast_from_inbox n : forall i m,
  inbox_of m (broadcast_from P i n)
  = if decide (Z.of_nat i <= m < Z.of_nat i + Z.of_nat n)
    then [Qtrunc (model_size P); max_local_steps P] else [].
Proof.
  unfold broadcast_from.
  induction n as [|n IH]; intros i m; cbn [seq flat_map].
  - rewrite decide_False by lia. reflexivity.
  - cbn [app inbox_of]. rewrite IH.
    destruct (Z.of_nat i =? m) eqn:E; [apply Z.eqb_eq in E|apply Z.eqb_neq in E].
    + rewrite decide_False by lia. rewrite decide_True by lia. reflexivity.
    + destruct (decide (Z.of_nat (S i) <= m < Z.of_nat (S i) + Z.of_nat n)).
      * rewrite decide_True by lia. reflexivity.
      * rewrite decide_False by lia. reflexivity.
Qed.

Lemma client_loop_returns args hs X ms : forall ns k,
  Forall (fun n => 0 <= n) ns ->
  (client_loop args hs X ms k (ns ++ [-1])).2 = Returned.
Proof.
  induction ns as [|n ns IH]; intros k Hns; cbn [app client_loop].
  - reflexivity.
  - inversion Hns; subst. replace (n <? 0) with false by (symmetry; apply Z.ltb_ge; lia).
    destruct (a_control args =? 0);
      match goal with
      | |- context [client_loop args hs X ms ?k' (ns ++ [-1])] =>
          specialize (IH k' ltac:(assumption));
          destruct (client_loop args hs X ms k' (ns ++ [-1]))
      end; exact IH.
Qed.

End Termination.



(** *** The map of groups *)

#[local] Arguments is_closed : simpl never.
#[local] Arguments cell : simpl never.

Section Groups.

Lemma find_group_In gs k G : find_group gs k = Some G -> (k, G) ∈ gs.
Proof.
  induction gs as [|[k' G'] gs IH]; cbn; [discriminate|].
  destruct (k' =? k) eqn:E.
  - apply Z.eqb_eq in E. intros [= <-]. subst. left.
  - intros H. right. auto.
Qed.

Lemma find_group_None gs k : find_group gs k = None <-> k ∉ keys gs.
Proof.
  induction gs as [|[k' G'] gs IH]; cbn.
  - split; [intros _ H; inversion H|reflexivity].
  - destruct (k' =? k) eqn:E.
    + apply Z.eqb_eq in E. subst. split; [discriminate|]. intros H. exfalso. apply H. left.
    + apply Z.eqb_neq in E. rewrite IH. split.
      * intros H Hin. inversion Hin; subst; [congruence|contradiction].
      * intros H Hin. apply H. right. exact Hin.
Qed.

Lemma find_group_key gs k G : find_group gs k = Some G -> k ∈ keys gs.
Proof.
  intros H. destruct (decide (k ∈ keys gs)) as [Hin|Hin]; [exact Hin|].
  apply find_group_None in Hin. congruence.
Qed.

Lemma In_find_group gs k G :
  NoDup (keys gs) -> (k, G) ∈ gs -> find_group gs k = Some G.
Proof.
  induction gs as [|[k' G'] gs IH]; cbn; intros Hnd Hin; [inversion Hin|].
  apply NoDup_cons in Hnd as [Hk Hnd].
  inversion Hin; subst.
  - rewrite Z.eqb_refl. reflexivity.
  - destruct (k' =? k) eqn:E; [|auto].
    apply Z.eqb_eq in E. subst. exfalso. apply Hk.
    apply list_elem_of_fmap. exists (k, G). split; [reflexivity|assumption].
Qed.

Lemma keys_alter f k gs : keys (alter_group f k gs) = keys gs.
Proof.
  induction gs as [|[k' G'] gs IH]; cbn; [reflexivity|].
  destruct (k' =? k); cbn; [reflexivity|]. f_equal. exact IH.
Qed.

Lemma find_alter_eq f k gs G :
  find_group gs k = Some G -> find_group (alter_group f k gs) k = Some (f G).
Proof.
  induction gs as [|[k' G'] gs IH]; cbn; [discriminate|].
  destruct (k' =? k) eqn:E; cbn; rewrite E; [intros [= <-]; reflexivity|exact IH].
Qed.

Lemma find_alter_ne f k k' gs :
  k <> k' -> find_group (alter_group f k gs) k' = find_group gs k'.
Proof.
  intros Hne. induction gs as [|[k0 G0] gs IH]; cbn; [reflexivity|].
  destruct (k0 =? k) eqn:E; cbn.
  - apply Z.eqb_eq in E. subst.
    replace (k =? k') with false by (symmetry; apply Z.eqb_neq; exact Hne). reflexivity.
  - destruct (k0 =? k'); [reflexivity|exact IH].
Qed.

Lemma occupancy_alter f k gs G c :
  find_group gs k = Some G ->
  (occupancy c (alter_group f k gs) + cell c G = occupancy c gs + cell c (f G))%nat.
Proof.
  induction gs as [|[k' G'] gs IH]; cbn; [discriminate|].
  destruct (k' =? k) eqn:E; cbn.
  - intros [= <-]. lia.
  - intros H. specialize (IH H). lia.
Qed.

Lemma Forall_alter (Q0 : Z * GOA -> Prop) f k gs :
  Forall Q0 gs ->
  (forall G, (k, G) ∈ gs -> Q0 (k, G) -> Q0 (k, f G)) ->
  Forall Q0 (alter_group f k gs).
Proof.
  induction 1 as [|[k' G'] gs Hx Hgs IH]; cbn; intros Hf; [constructor|].
  destruct (k' =? k) eqn:E.
  - apply Z.eqb_eq in E. subst. constructor; [|exact Hgs]. apply Hf; [left|exact Hx].
  - constructor; [exact Hx|]. apply IH. intros G Hin. apply Hf. right. exact Hin.
Qed.

Lemma keys_erase k gs : keys (erase_group k gs) ⊆ keys gs.
Proof.
  induction gs as [|[k' G'] gs IH]; cbn; [reflexivity|].
  destruct (k' =? k); cbn.
  - intros x Hx. right. exact Hx.
  - intros x Hx. inversion Hx; subst; [left|right; apply IH; assumption].
Qed.

Lemma NoDup_keys_erase k gs : NoDup (keys gs) -> NoDup (keys (erase_group k gs)).
Proof.
  induction gs as [|[k' G'] gs IH]; cbn; intros H; [constructor|].
  apply NoDup_cons in H as [Hk H]. destruct (k' =? k); cbn; [exact H|].
  apply NoDup_cons. split; [|auto]. intros Hin. apply Hk. eapply keys_erase. exact Hin.
Qed.

Lemma keys_erase_notin k gs : NoDup (keys gs) -> k ∉ keys (erase_group k gs).
Proof.
  induction gs as [|[k' G'] gs IH]; cbn; intros H; [intros Hin; inversion Hin|].
  apply NoDup_cons in H as [Hk H]. destruct (k' =? k) eqn:E; cbn.
  - apply Z.eqb_eq in E. subst. exact Hk.
  - apply Z.eqb_neq in E. intros Hin. inversion Hin; subst; [congruence|].
    eapply IH; eassumption.
Qed.

Lemma find_erase_ne k k' gs :
  k <> k' -> find_group (erase_group k gs) k' = find_group gs k'.
Proof.
  intros Hne. induction gs as [|[k0 G0] gs IH]; cbn; [reflexivity|].
  destruct (k0 =? k) eqn:E; cbn.
  - apply Z.eqb_eq in E. subst.
    replace (k =? k') with false by (symmetry; apply Z.eqb_neq; exact Hne). reflexivity.
  - destruct (k0 =? k'); [reflexivity|exact IH].
Qed.

Lemma occupancy_erase k gs G c :
  find_group gs k = Some G ->
  (occupancy c (erase_group k gs) + cell c G = occupancy c gs)%nat.
Proof.
  induction gs as [|[k' G'] gs IH]; cbn; [discriminate|].
  destruct (k' =? k) eqn:E; cbn.
  - intros [= <-]. lia.
  - intros H. specialize (IH H). lia.
Qed.

Lemma Forall_erase (Q0 : Z * GOA -> Prop) k gs :
  Forall Q0 gs -> Forall Q0 (erase_group k gs).
Proof.
  induction 1 as [|[k' G'] gs Hx Hgs IH]; cbn; [constructor|].
  destruct (k' =? k); [exact Hgs|constructor; assumption].
Qed.

Lemma put_group_fresh k G gs :
  k ∉ keys gs -> put_group k G gs ≡ₚ (k, G) :: gs.
Proof.
  induction gs as [|[k' G'] gs IH]; cbn; intros Hk; [reflexivity|].
  destruct (k <? k'); [reflexivity|].
  destruct (k =? k') eqn:E.
  - apply Z.eqb_eq in E. subst. exfalso. apply Hk. left.
  - rewrite IH; [apply perm_swap|]. intros Hin. apply Hk. right. exact Hin.
Qed.

Lemma occupancy_perm c gs gs' : gs ≡ₚ gs' -> occupancy c gs = occupancy c gs'.
Proof.
  induction 1 as [|[k G] l l' _ IH|[k1 G1] [k2 G2] l|l1 l2 l3 _ IH1 _ IH2]; cbn; lia.
Qed.

Lemma find_put_eq k G gs : find_group (put_group k G gs) k = Some G.
Proof.
  induction gs as [|[k' G'] gs IH]; cbn; [rewrite Z.eqb_refl; reflexivity|].
  destruct (k <? k') eqn:E1; cbn; [rewrite Z.eqb_refl; reflexivity|].
  destruct (k =? k') eqn:E2; cbn; [rewrite Z.eqb_refl; reflexivity|].
  rewrite Z.eqb_sym, E2. exact IH.
Qed.

Lemma find_put_ne k k' G gs :
  k <> k' -> find_group (put_group k G gs) k' = find_group gs k'.
Proof.
  intros Hne. induction gs as [|[k0 G0] gs IH]; cbn.
  - replace (k =? k') with false by (symmetry; apply Z.eqb_neq; exact Hne). reflexivity.
  - destruct (k <? k0) eqn:E1; cbn.
    + replace (k =? k') with false by (symmetry; apply Z.eqb_neq; exact Hne). reflexivity.
    + destruct (k =? k0) eqn:E2; cbn.
      * apply Z.eqb_eq in E2. subst.
        replace (k0 =? k') with false by (symmetry; apply Z.eqb_neq; exact Hne).
        reflexivity.
      * destruct (k0 =? k'); [reflexivity|exact IH].
Qed.

Lemma occupancy_two gs k1 G1 k2 G2 c :
  find_group gs k1 = Some G1 -> find_group gs k2 = Some G2 -> k1 <> k2 ->
  (cell c G1 + cell c G2 <= occupancy c gs)%nat.
Proof.
  intros H1 H2 Hne.
  pose proof (occupancy_erase k1 gs G1 c H1) as E1.
  rewrite <- (find_erase_ne k1 k2 gs Hne) in H2.
  pose proof (occupancy_erase k2 _ G2 c H2) as E2. lia.
Qed.

Lemma occupancy_one gs k G c :
  find_group gs k = Some G -> (cell c G <= occupancy c gs)%nat.
Proof. intros H. pose proof (occupancy_erase k gs G c H). lia. Qed.

Lemma count_pos c l : c ∈ l <-> (0 < count c l)%nat.
Proof.
  unfold count. split; intros H.
  - apply list_elem_of_In in H. apply (count_occ_In Z.eq_dec) in H. lia.
  - apply list_elem_of_In, (count_occ_In Z.eq_dec). lia.
Qed.

Lemma count_zero c l : c ∉ l <-> count c l = 0%nat.
Proof.
  rewrite count_pos. lia.
Qed.

Lemma count_app c l1 l2 : count c (l1 ++ l2) = (count c l1 + count c l2)%nat.
Proof. apply count_occ_app. Qed.

Lemma count_filter_ne c x l :
  count c (filter (fun y => y <> x) l) = if decide (c = x) then 0%nat else count c l.
Proof.
  unfold count. induction l as [|y l IH].
  - destruct (decide (c = x)); reflexivity.
  - destruct (decide (y = x)) as [->|Hy].
    + rewrite filter_cons_False by auto. rewrite IH.
      destruct (decide (c = x)) as [->|Hc]; [reflexivity|].
      cbn. destruct (Z.eq_dec x c); [congruence|reflexivity].
    + rewrite filter_cons_True by auto. cbn. rewrite IH.
      destruct (decide (c = x)) as [->|Hc]; [|reflexivity].
      destruct (Z.eq_dec y x); [congruence|reflexivity].
Qed.

Lemma length_filter_ne x l :
  (length (filter (fun y => y <> x) l) + count x l = length l)%nat.
Proof.
  unfold count. induction l as [|y l IH]; [reflexivity|].
  destruct (decide (y = x)) as [->|Hy].
  - rewrite filter_cons_False by auto. cbn.
    destruct (Z.eq_dec x x); [|congruence]. lia.
  - rewrite filter_cons_True by auto. cbn.
    destruct (Z.eq_dec y x); [congruence|]. lia.
Qed.

(** Under the invariant a client is awaited at most once, and then
    [erase(remove(...))] removes it. *)
Lemma erase_remove_once v x v' :
  (count x v <= 1)%nat -> erase_remove v x = Some v' ->
  count x v = 1%nat /\ v' = filter (fun y => y <> x) v.
Proof.
  unfold erase_remove. intros Hle H.
  destruct (decide (x ∈ v)) as [Hin|Hin]; [|discriminate H].
  apply count_pos in Hin. assert (Hc : count x v = 1%nat) by lia.
  split; [exact Hc|]. injection H as <-.
  pose proof (length_filter_ne x v) as Hl.
  rewrite drop_ge by lia. apply app_nil_r.
Qed.

End Groups.

(** *** Steps that the invariant does not see *)

Section Frame.
Variable P : params.

Lemma same_assignment_refl o : same_assignment o o.
Proof. destruct o; cbn; auto. Qed.

Lemma same_assignment_trans o1 o2 o3 :
  same_assignment o1 o2 -> same_assignment o2 o3 -> same_assignment o1 o3.
Proof.
  destruct o1, o2, o3; cbn; try tauto.
  intros (-> & -> & -> & ->) (-> & -> & -> & ->). auto.
Qed.

Lemma frame_refl s : Forall (Qle 0) (slack s) -> frame s s.
Proof.
  intros H. constructor; try reflexivity; [apply Qle_refl|exact H|].
  intros c. apply same_assignment_refl.
Qed.

Lemma frame_trans s1 s2 s3 : frame s1 s2 -> frame s2 s3 -> frame s1 s3.
Proof.
  intros [G1 S1 C1 K1 W1 I1] [G2 S2 C2 K2 W2 I2]. constructor; try congruence.
  - eapply Qle_trans; eassumption.
  - intros c. eapply same_assignment_trans; [apply I1|apply I2].
Qed.

(** A change of fields the invariant does not mention. *)
Lemma frame_fields s s' :
  group_of_arrival s' = group_of_arrival s -> sleepers s' = sleepers s ->
  group_counter s' = group_counter s -> client_info s' = client_info s ->
  clock s' = clock s -> slack s' = slack s ->
  Forall (Qle 0) (slack s) -> frame s s'.
Proof.
  intros Hg Hs Hc Hi Hk Hw Hsl. constructor; try assumption.
  - rewrite Hk. apply Qle_refl.
  - rewrite Hw. exact Hsl.
  - intros c. unfold deref, slot. rewrite Hi. apply same_assignment_refl.
Qed.

Lemma frame_suspend base s :
  (0 <= base)%Q -> Forall (Qle 0) (slack s) -> frame s (suspend base s).
Proof.
  intros Hb Hsl. unfold suspend. destruct (slack s) as [|extra rest] eqn:E.
  - constructor; try reflexivity; cbn.
    + lra.
    + rewrite E. constructor.
    + intros c. apply same_assignment_refl.
  - inversion Hsl; subst. constructor; try reflexivity; cbn.
    + lra.
    + assumption.
    + intros c. apply same_assignment_refl.
Qed.

Lemma frame_log a s : Forall (Qle 0) (slack s) -> frame s (log a s).
Proof. intros H. apply frame_fields; auto. Qed.

Lemma frame_execute x s :
  (0 <= x)%Q -> Forall (Qle 0) (slack s) -> frame s (execute P x s).
Proof.
  intros Hx Hsl. unfold execute.
  eapply frame_trans; [apply frame_log; exact Hsl|].
  apply frame_suspend; [exact Hx|exact Hsl].
Qed.

Lemma frame_get n s : Forall (Qle 0) (slack s) -> frame s (get P n s).
Proof.
  intros Hsl. unfold get.
  eapply frame_trans; [apply frame_log; exact Hsl|].
  apply frame_suspend; [lra|exact Hsl].
Qed.

Lemma frame_put m n b s : Forall (Qle 0) (slack s) -> frame s (put m n b s).
Proof.
  intros Hsl. unfold put.
  eapply frame_trans; [apply frame_log; exact Hsl|].
  apply frame_suspend; [lra|exact Hsl].
Qed.

Lemma frame_with_server f s : Forall (Qle 0) (slack s) -> frame s (with_server f s).
Proof. intros H. apply frame_fields; auto. Qed.

Lemma frame_set_pending_clients x s :
  Forall (Qle 0) (slack s) -> frame s (set_pending_clients x s).
Proof. intros H. apply frame_fields; auto. Qed.

Lemma frame_set_iter x s : Forall (Qle 0) (slack s) -> frame s (set_iter x s).
Proof. intros H. apply frame_fields; auto. Qed.

Lemma frame_server_update s : Forall (Qle 0) (slack s) -> frame s (server_update P s).
Proof.
  intros H. unfold server_update.
  pose proof (frame_execute (3 # 100) s ltac:(lra) H) as F.
  eapply frame_trans; [exact F|]. apply frame_with_server. apply F.
Qed.

Lemma frame_server_single_buffer s :
  Forall (Qle 0) (slack s) -> frame s (server_single_buffer P s).
Proof.
  intros H. unfold server_single_buffer.
  pose proof (frame_execute (1 # 100) s ltac:(lra) H) as F.
  eapply frame_trans; [exact F|]. apply frame_with_server. apply F.
Qed.

Lemma frame_server_update_all s :
  Forall (Qle 0) (slack s) -> frame s (server_update_all P s).
Proof.
  intros H. unfold server_update_all.
  pose proof (frame_execute 0 s ltac:(lra) H) as F.
  eapply frame_trans; [exact F|]. apply frame_with_server. apply F.
Qed.

Lemma frame_server_buffer g s :
  Forall (Qle 0) (slack s) -> frame s (server_buffer P g s).
Proof.
  intros H. unfold server_buffer.
  pose proof (frame_with_server
                (fun sv => match group_pseudo_grad sv !! g with
                           | Some _ => mk_Server (global_step sv) (general_buffer_size sv)
                                         (<[g := 0]> (group_pseudo_grad sv))
                           | None => sv
                           end) s H) as F1.
  eapply frame_trans; [exact F1|].
  pose proof (frame_execute (1 # 100) _ ltac:(lra) (frame_slack _ _ F1)) as F2.
  eapply frame_trans; [exact F2|]. apply frame_with_server. apply F2.
Qed.

Lemma frame_server_update_group g s :
  Forall (Qle 0) (slack s) -> frame s (server_update_group P g s).
Proof.
  intros H. unfold server_update_group. destruct (group_pseudo_grad (server s) !! g).
  - apply frame_refl. exact H.
  - pose proof (frame_execute (1 # 100) s ltac:(lra) H) as F.
    eapply frame_trans; [exact F|]. apply frame_with_server. apply F.
Qed.

(** Storing a record that differs in [step] or [total_steps] only. *)
Lemma frame_store c ci ci' s :
  deref s c = Some ci ->
  speed ci' = speed ci -> goa ci' = goa ci ->
  local_steps ci' = local_steps ci -> start_time ci' = start_time ci ->
  Forall (Qle 0) (slack s) -> frame s (store c ci' s).
Proof.
  intros Hd H1 H2 H3 H4 Hsl. constructor; try reflexivity; [apply Qle_refl|exact Hsl|].
  intros c'. destruct (decide (c = c')) as [<-|Hne].
  - rewrite Hd. erewrite deref_store_eq by (apply deref_slot; exact Hd). cbn. auto.
  - rewrite deref_store_ne; [apply same_assignment_refl| |exact Hne].
    apply deref_slot in Hd. eapply slot_nonneg. exact Hd.
Qed.

Lemma frame_send_model c s s' :
  Forall (Qle 0) (slack s) -> _send_model P c s = Some s' -> frame s s'.
Proof.
  intros Hsl H. unfold _send_model in H.
  apply bind_Some in H as (ci & Hd & H). cbv zeta in H. injection H as <-.
  unfold _send_global_model_to_client.
  pose proof (frame_store c ci
                (mk_ClientInfo (step ci) (local_steps ci) (goa ci)
                   (total_steps ci + local_steps ci) (speed ci) (start_time ci))
                s Hd eq_refl eq_refl eq_refl eq_refl Hsl) as F1.
  pose proof (frame_put c (local_steps ci) (inject_Z (Qtrunc (model_size P))) _
                (frame_slack _ _ F1)) as F2.
  pose proof (frame_execute (47 # 1000) _ ltac:(lra) (frame_slack _ _ F2)) as F3.
  eapply frame_trans; [exact F1|]. eapply frame_trans; [exact F2|].
  eapply frame_trans; [exact F3|]. apply frame_set_pending_clients. apply F3.
Qed.

Lemma frame_send_all cs : forall s s',
  Forall (Qle 0) (slack s) -> send_all P cs s = Some s' -> frame s s'.
Proof.
  induction cs as [|x cs IH]; intros s s' Hsl H; cbn in H.
  - injection H as <-. apply frame_refl. exact Hsl.
  - apply bind_Some in H as (s1 & H1 & H).
    pose proof (frame_send_model _ _ _ Hsl H1) as F1.
    eapply frame_trans; [exact F1|]. apply (IH s1); [apply F1|exact H].
Qed.

Lemma frame_stamp_arrived cs : forall acc s r,
  Forall (Qle 0) (slack s) -> stamp_arrived cs acc s = Some r ->
  frame s r.2 /\ r.1.*1 = acc.*1 ++ cs.
Proof.
  induction cs as [|c cs IH]; intros acc s r Hsl H; cbn in H.
  - injection H as <-. split; [apply frame_refl; exact Hsl|]. rewrite app_nil_r. reflexivity.
  - apply bind_Some in H as (ci & Hd & H).
    pose proof (frame_store c ci
                  (mk_ClientInfo (global_step (server s)) (local_steps ci) (goa ci)
                     (total_steps ci) (speed ci) (start_time ci))
                  s Hd eq_refl eq_refl eq_refl eq_refl Hsl) as F1.
    apply IH in H as [F2 E]; [|apply F1]. split; [eapply frame_trans; eassumption|].
    rewrite E, fmap_app, <- app_assoc. reflexivity.
Qed.

Lemma deadline_ok_sleepers s s' k g :
  sleepers s' = sleepers s -> deadline_ok s k g -> deadline_ok s' k g.
Proof.
  intros E [H|(z & Hz & H)]; [left; exact H|right].
  exists z. rewrite E. auto.
Qed.

Lemma frame_is_Some s s' c : frame s s' -> is_Some (deref s c) -> is_Some (deref s' c).
Proof.
  intros F [ci H]. pose proof (frame_info _ _ F c) as Hi. rewrite H in Hi.
  destruct (deref s' c); [eauto|contradiction].
Qed.

Lemma core_frame x s s' : core x s -> frame s s' -> core x s'.
Proof.
  intros H F. destruct F as [Hg Hs Hc Hk Hw Hi].
  assert (Hids : sleeper_ids s' = sleeper_ids s) by (unfold sleeper_ids; rewrite Hs; reflexivity).
  destruct H. constructor; rewrite ?Hg, ?Hc, ?Hids; try assumption.
  - intros c Hocc. specialize (core_listed0 c Hocc) as [ci Hd].
    specialize (Hi c). rewrite Hd in Hi. destruct (deref s' c); [eauto|contradiction].
  - intros c ci' Hd. specialize (Hi c). rewrite Hd in Hi.
    destruct (deref s c) as [ci|] eqn:E; [|contradiction].
    destruct Hi as (-> & _). eapply core_speed0. exact E.
  - eapply Qle_trans; eassumption.
  - eapply Forall_impl; [exact core_deadlines0|]. intros [k g] [Hx|Hd]; [left; exact Hx|].
    right. eapply deadline_ok_sleepers; eassumption.
Qed.

Lemma settled_frame s s' c : settled s c -> frame s s' -> settled s' c.
Proof.
  intros H F ci' Hd. pose proof (frame_info _ _ F c) as Hi. rewrite Hd in Hi.
  destruct (deref s c) as [ci|] eqn:E; [|contradiction].
  destruct Hi as (_ & -> & -> & ->). destruct (H ci E) as (H1 & H2 & H3).
  split; [exact H1|]. split; [exact H2|]. eapply Qle_trans; [exact H3|apply F].
Qed.

End Frame.

(** *** What [_assign_group] does *)

Lemma Qtrunc_pos (x : Q) : 1 <= Qtrunc x -> (0 < x)%Q.
Proof.
  intros H. apply Qnot_le_lt. intros Hx.
  assert (Qtrunc x <= 0) by (apply Qtrunc_le; [exact Hx|lia]). lia.
Qed.

Lemma div_to_int_pos (a b : Q) (k : Z) :
  (0 < b)%Q -> div_to_int a b = Some k -> 1 <= k -> (0 < a)%Q.
Proof.
  unfold div_to_int, static_cast_int. intros Hb H Hk.
  destruct (Qeq_bool b 0); [discriminate H|].
  destruct (in_int (Qtrunc (a / b))); [|discriminate H]. injection H as <-.
  apply Qtrunc_pos in Hk.
  assert (E : (a == a / b * b)%Q) by (field; lra).
  rewrite E. apply Qmult_lt_0_compat; assumption.
Qed.

Lemma is_closed_false_expected g : (0 < expected_arrival_time g)%Q -> is_closed g = false.
Proof.
  intros H. unfold is_closed. apply andb_false_iff. left.
  destruct (Qeq_bool (expected_arrival_time g) 0) eqn:E; [|reflexivity].
  apply Qeq_bool_iff in E. lra.
Qed.

Lemma is_closed_false_latest g : (0 < latest_arrival_time g)%Q -> is_closed g = false.
Proof.
  intros H. unfold is_closed. apply andb_false_iff. right.
  destruct (Qeq_bool (latest_arrival_time g) 0) eqn:E; [|reflexivity].
  apply Qeq_bool_iff in E. lra.
Qed.

Section AssignShape.
Variable P : params.
Hypothesis HM : 1 <= max_local_steps P.

Lemma min_local_steps_pos : 1 <= min_local_steps P.
Proof. unfold min_local_steps. lia. Qed.

Lemma _join_group_shape c s s' :
  _join_group P c s = Some (true, s') ->
  exists j G ci k,
    (j, G) ∈ group_of_arrival s /\ deref s c = Some ci
    /\ div_to_int (expected_arrival_time G - clock s) (speed ci) = Some k
    /\ 1 <= k
    /\ s' = joined j c (mk_ClientInfo (step ci) k j (total_steps ci) (speed ci) (clock s)) s.
Proof.
  unfold _join_group. intros H. cbv zeta in H.
  apply bind_Some in H as ([j k] & Hj & H).
  destruct (negb (j =? -1)) eqn:Hneg; [|discriminate H].
  apply bind_Some in H as (ci & Hd & H). cbv zeta in H.
  apply bind_Some in H as (G0 & _ & H). injection H as <-.
  destruct (join_scan_spec _ _ _ _ _ _ _ Hj) as [E|(G & ci' & Hin & Hd' & Hk & Hr)].
  - injection E as -> ->. discriminate Hneg.
  - cbn [fst snd] in *. rewrite Hd in Hd'. injection Hd' as <-.
    exists j, G, ci, k. pose proof min_local_steps_pos.
    split; [exact Hin|]. split; [exact Hd|]. split; [exact Hk|]. split; [lia|reflexivity].
Qed.

Lemma spawn_aggregation_put o t g s :
  spawn_aggregation o t
    (set_group_of_arrival (put_group (group_counter s) g (group_of_arrival s)) s)
  = Some (set_sleepers
            (sleepers s ++ [mk_sleeper o (group_counter s) t (latest_arrival_time g - t)])
            (set_group_of_arrival (put_group (group_counter s) g (group_of_arrival s)) s)).
Proof.
  unfold spawn_aggregation. cbn [group_of_arrival group_counter set_group_of_arrival].
  rewrite find_put_eq. reflexivity.
Qed.

Lemma _create_group_shape c s s' :
  _create_group P c s = Some s' ->
  exists ci n,
    deref s c = Some ci /\ 1 <= n
    /\ s' = founded in_create_group c
              (mk_ClientInfo (step ci) n (group_counter s) (total_steps ci)
                 (speed ci) (clock s))
              (mk_GOA [c] [] (clock s + inject_Z n * speed ci)
                 (clock s + inject_Z n * speed ci * LATEST_TIME_FACTOR P)) s.
Proof.
  unfold _create_group. intros H.
  apply bind_Some in H as (ci & Hd & H).
  apply bind_Some in H as (a & Hs & H). cbv zeta in H.
  rewrite spawn_aggregation_put in H. cbn [mbind option_bind] in H.
  injection H as <-. apply create_scan_bounds in Hs.
  pose proof min_local_steps_pos.
  eexists ci, _. split; [exact Hd|]. split; [|reflexivity].
  destruct ((0 <=? a) && (a <? min_local_steps P)) eqn:E1.
  - replace (min_local_steps P <? 0) with false by (symmetry; apply Z.ltb_ge; lia). lia.
  - destruct (a <? 0) eqn:E2; [lia|].
    apply Z.ltb_ge in E2. apply andb_false_iff in E1. lia.
Qed.

(** [_assign_group] either makes [c] found a group or makes it join one. *)
Lemma _assign_group_shape c s s' :
  _assign_group P c s = Some s' ->
  exists ci n,
    deref s c = Some ci /\ 1 <= n
    /\ ((group_of_arrival s = []
         /\ n = max_local_steps P
         /\ s' = founded in_assign_group c
                   (mk_ClientInfo (step ci) n (group_counter s) (total_steps ci)
                      (speed ci) (clock s))
                   (mk_GOA [c] [] (clock s + inject_Z (max_local_steps P) * speed ci)
                      (clock s + speed ci * LATEST_TIME_FACTOR P)) s)
        \/ s' = founded in_create_group c
                  (mk_ClientInfo (step ci) n (group_counter s) (total_steps ci)
                     (speed ci) (clock s))
                  (mk_GOA [c] [] (clock s + inject_Z n * speed ci)
                     (clock s + inject_Z n * speed ci * LATEST_TIME_FACTOR P)) s
        \/ exists j G,
             (j, G) ∈ group_of_arrival s
             /\ div_to_int (expected_arrival_time G - clock s) (speed ci) = Some n
             /\ s' = joined j c
                       (mk_ClientInfo (step ci) n j (total_steps ci) (speed ci) (clock s)) s).
Proof.
  unfold _assign_group. intros H. cbv zeta in H.
  destruct (length (group_of_arrival s) =? 0)%nat eqn:El.
  - apply bind_Some in H as (ci & Hd & H). cbv zeta in H.
    rewrite spawn_aggregation_put in H. cbn [mbind option_bind] in H.
    injection H as <-. exists ci, (max_local_steps P).
    split; [exact Hd|]. split; [exact HM|]. left.
    split; [|split; reflexivity].
    apply Nat.eqb_eq in El. destruct (group_of_arrival s); [reflexivity|discriminate El].
  - destruct (_join_group P c s) as [[[|] s1]|] eqn:Hj; [| |discriminate H].
    + injection H as <-.
      apply _join_group_shape in Hj as (j & G & ci & k & Hin & Hd & Hk & Hk1 & ->).
      exists ci, k. split; [exact Hd|]. split; [exact Hk1|]. right. right.
      exists j, G. auto.
    + apply _join_group_continues in Hj as (_ & _ & Hs). rewrite (Hs eq_refl) in H.
      apply _create_group_shape in H as (ci & n & Hd & Hn & ->).
      exists ci, n. split; [exact Hd|]. split; [exact Hn|]. right. left. reflexivity.
Qed.

End AssignShape.

Section AssignCore.
Variable P : params.

Lemma deref_info s s' c : client_info s' = client_info s -> deref s' c = deref s c.
Proof. intros E. unfold deref, slot. rewrite E. reflexivity. Qed.

Lemma cell_push c' c G :
  cell c' (push_client c G) = (cell c' G + if decide (c' = c) then 1 else 0)%nat.
Proof.
  unfold cell, push_client, is_closed, count. cbn. rewrite count_occ_app. cbn.
  destruct (Z.eq_dec c c') as [->|Hne].
  - rewrite decide_True by reflexivity. lia.
  - rewrite decide_False by congruence. lia.
Qed.

Lemma cell_single c' c e l :
  (0 < e)%Q -> cell c' (mk_GOA [c] [] e l) = if decide (c' = c) then 1%nat else 0%nat.
Proof.
  intros He. unfold cell. rewrite is_closed_false_expected by exact He.
  unfold count. cbn. destruct (Z.eq_dec c c') as [->|Hne].
  - rewrite decide_True by reflexivity. reflexivity.
  - rewrite decide_False by congruence. reflexivity.
Qed.

Lemma Forall_put_fresh (Q0 : Z * GOA -> Prop) k g gs :
  k ∉ keys gs -> Q0 (k, g) -> Forall Q0 gs -> Forall Q0 (put_group k g gs).
Proof.
  intros Hk Hq Hgs. rewrite put_group_fresh by exact Hk. constructor; assumption.
Qed.

Lemma deadline_ok_more s s' k g :
  sleepers s ⊆ sleepers s' -> deadline_ok s k g -> deadline_ok s' k g.
Proof.
  intros E [H|(z & Hz & H)]; [left; exact H|right]. exists z. split; [apply E; exact Hz|exact H].
Qed.

(** What a client that founds a group leaves. *)
Lemma founded_core x o c ci n e l s :
  let ci' := mk_ClientInfo (step ci) n (group_counter s) (total_steps ci)
               (speed ci) (clock s) in
  let s' := founded o c ci' (mk_GOA [c] [] e l) s in
  core x s -> occupancy c (group_of_arrival s) = 0%nat -> deref s c = Some ci ->
  1 <= n -> (clock s < e)%Q -> (clock s <= l)%Q ->
  (o = in_create_group -> (e <= l)%Q) ->
  core x s' /\ settled s' c
  /\ (forall c', c' <> c -> deref s' c' = deref s c')
  /\ occupancy c (group_of_arrival s') = 1%nat
  /\ (forall c', c' <> c ->
        occupancy c' (group_of_arrival s') = occupancy c' (group_of_arrival s))
  /\ (forall k G, find_group (group_of_arrival s) k = Some G ->
        find_group (group_of_arrival s') k = Some G)
  /\ (forall k, k < group_counter s -> k ∈ sleeper_ids s' -> k ∈ sleeper_ids s)
  /\ group_counter s <= group_counter s' /\ clock s' = clock s /\ slack s' = slack s.
Proof.
  intros ci' s' H Hidle Hd Hn He Hl Hol. destruct H.
  assert (Hc0 : 0 <= c) by (apply deref_slot in Hd; eapply slot_nonneg; exact Hd).
  assert (Hfresh : group_counter s ∉ keys (group_of_arrival s)).
  { intros Hin. eapply Forall_forall in core_fresh0; [|exact Hin]. lia. }
  assert (Hfresh' : group_counter s ∉ sleeper_ids s).
  { intros Hin. eapply Forall_forall in core_ids_fresh0; [|exact Hin]. lia. }
  assert (He0 : (0 < e)%Q) by lra.
  assert (Hgs : group_of_arrival s'
                = put_group (group_counter s) (mk_GOA [c] [] e l) (group_of_arrival s))
    by reflexivity.
  assert (Hids : sleeper_ids s' = sleeper_ids s ++ [group_counter s]).
  { assert (Hsl : sleepers s' = sleepers s ++ [mk_sleeper o (group_counter s) (clock s)
                                                (l - clock s)]) by reflexivity.
    unfold sleeper_ids. rewrite Hsl, map_app. reflexivity. }
  assert (Hdc : deref s' c = Some ci').
  { transitivity (deref (store c ci' s) c); [apply deref_info; reflexivity|].
    eapply deref_store_eq. apply deref_slot. exact Hd. }
  assert (Hdo : forall c', c' <> c -> deref s' c' = deref s c').
  { intros c' Hne. transitivity (deref (store c ci' s) c'); [apply deref_info; reflexivity|].
    apply deref_store_ne; [exact Hc0|congruence]. }
  assert (Hocc : forall c', occupancy c' (group_of_arrival s')
                 = ((if decide (c' = c) then 1 else 0) + occupancy c' (group_of_arrival s))%nat).
  { intros c'. rewrite Hgs, (occupancy_perm _ _ _ (put_group_fresh _ _ _ Hfresh)).
    cbn [occupancy]. rewrite cell_single by exact He0. reflexivity. }
  split; [constructor|].
  - cbn. lia.
  - rewrite Hgs. unfold keys. rewrite (put_group_fresh _ _ _ Hfresh). cbn.
    apply NoDup_cons. split; assumption.
  - rewrite Hgs. unfold keys. rewrite (put_group_fresh _ _ _ Hfresh). cbn.
    constructor; [lia|]. eapply Forall_impl; [exact core_fresh0|]. cbn. intros; lia.
  - intros c'. rewrite Hocc. destruct (decide (c' = c)) as [->|Hne].
    + rewrite Hidle. lia.
    + apply core_busy0.
  - rewrite Hgs. apply Forall_put_fresh; [exact Hfresh| |exact core_local0].
    cbn. intros c' _ Hin. inversion Hin.
  - intros c'. rewrite Hocc. destruct (decide (c' = c)) as [->|Hne].
    + intros _. rewrite Hdc. eauto.
    + intros Ho. rewrite Hdo by exact Hne. apply core_listed0. lia.
  - intros c' cj. destruct (decide (c' = c)) as [->|Hne].
    + rewrite Hdc. intros [= <-]. cbn. eapply core_speed0. exact Hd.
    + rewrite Hdo by exact Hne. apply core_speed0.
  - exact core_clock0.
  - rewrite Hids. apply NoDup_app. split; [exact core_ids0|]. split.
    + intros k Hk Hin. apply list_elem_of_singleton in Hin. subst. contradiction.
    + apply NoDup_singleton.
  - rewrite Hids. apply Forall_app. split.
    + eapply Forall_impl; [exact core_ids_fresh0|]. cbn. intros; lia.
    + constructor; [cbn; lia|constructor].
  - rewrite Hgs. apply Forall_put_fresh; [exact Hfresh| |].
    + cbn. rewrite is_closed_false_expected by exact He0. discriminate.
    + apply Forall_forall. intros [k G] Hin Hcl.
      pose proof (proj1 (Forall_forall _ _) core_timers0 _ Hin Hcl) as [Hx|Hk];
        [left; exact Hx|right].
      rewrite Hids. intros Hin'. apply elem_of_app in Hin' as [Hin'|Hin'];
        [contradiction|]. apply list_elem_of_singleton in Hin'. cbn in Hin'. subst.
      apply Hfresh. apply list_elem_of_fmap. exists (group_counter s, G). auto.
  - rewrite Hgs. apply Forall_put_fresh; [exact Hfresh| |].
    + right. right. exists (mk_sleeper o (group_counter s) (clock s) (l - clock s)).
      split; [|cbn; split; [reflexivity|]].
      * unfold s', founded. cbn. apply elem_of_app. right. left.
      * split; [lra|]. split; [exact Hl|exact Hol].
    + eapply Forall_impl; [exact core_deadlines0|]. intros [k G] [Hx|Hdl];
        [left; exact Hx|right].
      eapply deadline_ok_more; [|exact Hdl]. unfold s', founded. cbn.
      intros z Hz. apply elem_of_app. left. exact Hz.
  - exact core_slack0.
  - split.
    { intros cj. rewrite Hdc. intros [= <-]. cbn. split; [lia|]. split; [exact Hn|].
      apply Qle_refl. }
    split; [exact Hdo|]. split; [rewrite Hocc, decide_True, Hidle by reflexivity; lia|].
    split; [intros c' Hne; rewrite Hocc, decide_False by exact Hne; lia|].
    split.
    { intros k G Hf. rewrite Hgs, find_put_ne; [exact Hf|].
      intros <-. apply Hfresh. eapply find_group_key. exact Hf. }
    split.
    { intros k Hk. rewrite Hids. intros Hin. apply elem_of_app in Hin as [Hin|Hin];
        [exact Hin|]. apply list_elem_of_singleton in Hin. lia. }
    split; [cbn; lia|]. split; reflexivity.
Qed.

Lemma is_closed_push c G : is_closed (push_client c G) = is_closed G.
Proof. reflexivity. Qed.

(** What a client that joins a group leaves. *)
Lemma joined_core x j G c ci n s :
  let ci' := mk_ClientInfo (step ci) n j (total_steps ci) (speed ci) (clock s) in
  let s' := joined j c ci' s in
  core x s -> occupancy c (group_of_arrival s) = 0%nat -> deref s c = Some ci ->
  (j, G) ∈ group_of_arrival s -> 1 <= n -> is_closed G = false ->
  core x s' /\ settled s' c
  /\ (forall c', c' <> c -> deref s' c' = deref s c')
  /\ occupancy c (group_of_arrival s') = 1%nat
  /\ (forall c', c' <> c ->
        occupancy c' (group_of_arrival s') = occupancy c' (group_of_arrival s))
  /\ (forall k G0, find_group (group_of_arrival s) k = Some G0 -> is_closed G0 = true ->
        find_group (group_of_arrival s') k = Some G0)
  /\ sleepers s' = sleepers s
  /\ group_counter s' = group_counter s /\ clock s' = clock s /\ slack s' = slack s.
Proof.
  intros ci' s' H Hidle Hd Hin Hn Hopen. destruct H.
  assert (Hc0 : 0 <= c) by (apply deref_slot in Hd; eapply slot_nonneg; exact Hd).
  assert (Hf : find_group (group_of_arrival s) j = Some G)
    by (apply In_find_group; assumption).
  assert (Hj : 0 <= j).
  { eapply Forall_forall in core_fresh0; [|eapply find_group_key; exact Hf]. lia. }
  assert (Hgs : group_of_arrival s'
                = alter_group (push_client c) j (group_of_arrival s)) by reflexivity.
  assert (Hids : sleeper_ids s' = sleeper_ids s) by reflexivity.
  assert (Hdc : deref s' c = Some ci').
  { transitivity (deref (store c ci' s) c); [apply deref_info; reflexivity|].
    eapply deref_store_eq. apply deref_slot. exact Hd. }
  assert (Hdo : forall c', c' <> c -> deref s' c' = deref s c').
  { intros c' Hne. transitivity (deref (store c ci' s) c'); [apply deref_info; reflexivity|].
    apply deref_store_ne; [exact Hc0|congruence]. }
  assert (Hocc : forall c', occupancy c' (group_of_arrival s')
                 = ((if decide (c' = c) then 1 else 0) + occupancy c' (group_of_arrival s))%nat).
  { intros c'. pose proof (occupancy_alter (push_client c) j _ G c' Hf) as E.
    rewrite cell_push in E. rewrite Hgs. lia. }
  assert (Hcell : cell c G = 0%nat).
  { pose proof (occupancy_one _ _ _ c Hf). lia. }
  split; [constructor|].
  - exact core_counter0.
  - rewrite Hgs, keys_alter. exact core_keys0.
  - rewrite Hgs, keys_alter. exact core_fresh0.
  - intros c'. rewrite Hocc. destruct (decide (c' = c)) as [->|Hne].
    + rewrite Hidle. lia.
    + apply core_busy0.
  - rewrite Hgs. apply Forall_alter; [exact core_local0|].
    intros G0 Hin0 Hl c' Hc'. cbn in *.
    assert (G0 = G).
    { apply In_find_group in Hin0; [|exact core_keys0]. congruence. }
    subst G0. apply elem_of_app in Hc' as [Hc'|Hc']; [apply Hl; exact Hc'|].
    apply list_elem_of_singleton in Hc'. subst c'.
    unfold cell in Hcell. rewrite Hopen in Hcell. apply count_zero. lia.
  - intros c'. rewrite Hocc. destruct (decide (c' = c)) as [->|Hne].
    + intros _. rewrite Hdc. eauto.
    + intros Ho. rewrite Hdo by exact Hne. apply core_listed0. lia.
  - intros c' cj. destruct (decide (c' = c)) as [->|Hne].
    + rewrite Hdc. intros [= <-]. cbn. eapply core_speed0. exact Hd.
    + rewrite Hdo by exact Hne. apply core_speed0.
  - exact core_clock0.
  - exact core_ids0.
  - exact core_ids_fresh0.
  - rewrite Hgs, Hids. apply Forall_alter; [exact core_timers0|].
    intros G0 _ Ht. cbn in *. rewrite is_closed_push. exact Ht.
  - rewrite Hgs. apply Forall_alter.
    + eapply Forall_impl; [exact core_deadlines0|]. intros [k G0] [Hx|Hdl];
        [left; exact Hx|right]. eapply deadline_ok_sleepers; [|exact Hdl]. reflexivity.
    + intros G0 _ [Hx|Hdl]; [left; exact Hx|right].
      destruct Hdl as [Hz|(z & Hz & Hrest)]; [left; exact Hz|right].
      exists z. split; [exact Hz|exact Hrest].
  - exact core_slack0.
  - split.
    { intros cj. rewrite Hdc. intros [= <-]. cbn. split; [exact Hj|]. split; [exact Hn|].
      apply Qle_refl. }
    split; [exact Hdo|]. split; [rewrite Hocc, decide_True, Hidle by reflexivity; lia|].
    split; [intros c' Hne; rewrite Hocc, decide_False by exact Hne; lia|].
    split.
    { intros k G0 Hf0 Hcl. rewrite Hgs, find_alter_ne; [exact Hf0|].
      intros <-. congruence. }
    repeat split; reflexivity.
Qed.

Hypothesis HM : 1 <= max_local_steps P.
Hypothesis Hlam : (1 <= LATEST_TIME_FACTOR P)%Q.

(** [_assign_group] on an idle client keeps the invariant, settles the
    client and lists it once. *)
Lemma _assign_group_core x c s s' :
  core x s -> occupancy c (group_of_arrival s) = 0%nat ->
  _assign_group P c s = Some s' ->
  core x s' /\ settled s' c
  /\ (forall c', c' <> c -> deref s' c' = deref s c')
  /\ occupancy c (group_of_arrival s') = 1%nat
  /\ (forall c', c' <> c ->
        occupancy c' (group_of_arrival s') = occupancy c' (group_of_arrival s))
  /\ (forall k G0, find_group (group_of_arrival s) k = Some G0 -> is_closed G0 = true ->
        find_group (group_of_arrival s') k = Some G0)
  /\ (forall k, k < group_counter s -> k ∈ sleeper_ids s' -> k ∈ sleeper_ids s)
  /\ group_counter s <= group_counter s' /\ clock s' = clock s /\ slack s' = slack s.
Proof.
  intros H Hidle Ha.
  apply (_assign_group_shape P HM) in Ha as (ci & n & Hd & Hn & Hcase).
  pose proof (core_speed _ _ H c ci Hd) as Hsp.
  pose proof (core_clock _ _ H) as Hck.
  assert (Hn0 : (1 <= inject_Z n)%Q) by (rewrite <- (Zle_Qle 1); exact Hn).
  assert (HM0 : (1 <= inject_Z (max_local_steps P))%Q) by (rewrite <- (Zle_Qle 1); exact HM).
  destruct Hcase as [(_ & -> & ->)|[->|(j & G & Hin & Hk & ->)]].
  - destruct (founded_core x in_assign_group c ci (max_local_steps P)
                (clock s + inject_Z (max_local_steps P) * speed ci)
                (clock s + speed ci * LATEST_TIME_FACTOR P) s H Hidle Hd Hn)
      as (H1 & H2 & H3 & H4 & H5 & H6 & H7 & H8 & H9 & H10);
      [nra|nra|discriminate|].
    refine (conj H1 (conj H2 (conj H3 (conj H4 (conj H5 (conj _ (conj H7 (conj H8 (conj H9 H10))))))))).
    intros k G0 Hf _. apply H6. exact Hf.
  - assert (Ht : (0 < inject_Z n * speed ci)%Q) by nra.
    destruct (founded_core x in_create_group c ci n
                (clock s + inject_Z n * speed ci)
                (clock s + inject_Z n * speed ci * LATEST_TIME_FACTOR P) s H Hidle Hd Hn)
      as (H1 & H2 & H3 & H4 & H5 & H6 & H7 & H8 & H9 & H10);
      [lra|nra|intros _; nra|].
    refine (conj H1 (conj H2 (conj H3 (conj H4 (conj H5 (conj _ (conj H7 (conj H8 (conj H9 H10))))))))).
    intros k G0 Hf _. apply H6. exact Hf.
  - assert (Hopen : is_closed G = false).
    { apply is_closed_false_expected.
      pose proof (div_to_int_pos _ _ _ Hsp Hk Hn). lra. }
    destruct (joined_core x j G c ci n s H Hidle Hd Hin Hn Hopen)
      as (H1 & H2 & H3 & H4 & H5 & H6 & H7 & H8 & H9 & H10).
    refine (conj H1 (conj H2 (conj H3 (conj H4 (conj H5 (conj H6 (conj _ (conj _ (conj H9 H10))))))))).
    + intros k _. unfold sleeper_ids. rewrite H7. auto.
    + lia.
Qed.

End AssignCore.

(** *** What an aggregation does *)

Section AggregateCore.
Variable P : params.

Lemma core_exempt x y s :
  core x s -> x ∉ keys (group_of_arrival s) -> core y s.
Proof.
  intros H Hx. destruct H. constructor; try assumption.
  - apply Forall_forall. intros [k G] Hin Hcl. right.
    eapply Forall_forall in core_timers0; [|exact Hin].
    destruct (core_timers0 Hcl) as [E|E]; [|exact E]. cbn in E. subst k.
    exfalso. apply Hx. apply list_elem_of_fmap. exists (x, G). split; [reflexivity|exact Hin].
  - apply Forall_forall. intros [k G] Hin. right.
    eapply Forall_forall in core_deadlines0; [|exact Hin].
    destruct core_deadlines0 as [E|E]; [|exact E]. cbn in E. subst k.
    exfalso. apply Hx. apply list_elem_of_fmap. exists (x, G). split; [reflexivity|exact Hin].
Qed.

Lemma core_weaken x s : core (-1) s -> core x s.
Proof.
  intros H. apply (core_exempt (-1)); [exact H|]. intros Hin.
  eapply Forall_forall in Hin; [|exact (core_fresh _ _ H)]. cbn in Hin. lia.
Qed.

Lemma count_le_NoDup (l : list Z) : (forall c, (count c l <= 1)%nat) -> NoDup l.
Proof. intros H. apply NoDup_ListNoDup, (NoDup_count_occ Z.eq_dec). exact H. Qed.

Lemma cell_close_group c G : cell c (close_group G) = count c (clients G).
Proof.
  unfold cell. replace (is_closed (close_group G)) with true by reflexivity.
  change (clients (close_group G)) with (clients G). lia.
Qed.

(** Zeroing the times of an open group frees the clients that had arrived. *)
Lemma close_core g G s :
  let s' := set_group_of_arrival
              (alter_group close_group g (group_of_arrival s)) s in
  core g s -> find_group (group_of_arrival s) g = Some G -> is_closed G = false ->
  core g s'
  /\ NoDup (arrived_clients G)
  /\ (forall c, c ∈ arrived_clients G -> occupancy c (group_of_arrival s') = 0%nat)
  /\ find_group (group_of_arrival s') g = Some (close_group G).
Proof.
  intros s' H Hf Hopen. destruct H.
  assert (Hgs : group_of_arrival s'
                = alter_group close_group g (group_of_arrival s)) by reflexivity.
  assert (Hocc : forall c, (occupancy c (group_of_arrival s') + count c (arrived_clients G)
                            = occupancy c (group_of_arrival s))%nat).
  { intros c. pose proof (occupancy_alter close_group g _ G c Hf) as E.
    rewrite cell_close_group in E. unfold cell in E. rewrite Hopen in E.
    rewrite Hgs. lia. }
  assert (Hcell : forall c, (count c (clients G) + count c (arrived_clients G)
                             <= occupancy c (group_of_arrival s))%nat).
  { intros c. pose proof (occupancy_one _ _ _ c Hf) as E. unfold cell in E.
    rewrite Hopen in E. exact E. }
  split; [constructor|]; try assumption.
  - rewrite Hgs, keys_alter. exact core_keys0.
  - rewrite Hgs, keys_alter. exact core_fresh0.
  - intros c. specialize (Hocc c). specialize (core_busy0 c). lia.
  - rewrite Hgs. apply Forall_alter; [exact core_local0|]. intros G0 _ Hl. exact Hl.
  - intros c Hc. apply core_listed0. specialize (Hocc c). lia.
  - rewrite Hgs. apply Forall_alter; [exact core_timers0|]. intros G0 _ _ _. left. reflexivity.
  - rewrite Hgs. apply Forall_alter; [exact core_deadlines0|]. intros G0 _ _. left. reflexivity.
  - split.
    { apply count_le_NoDup. intros c. specialize (Hcell c). specialize (core_busy0 c). lia. }
    split.
    { intros c Hc. apply count_pos in Hc. specialize (Hocc c). specialize (core_busy0 c).
      lia. }
    rewrite Hgs. apply find_alter_eq. exact Hf.
Qed.

(** Erasing the group under aggregation ends the exemption. *)
Lemma erase_core g G s :
  core g s -> find_group (group_of_arrival s) g = Some G ->
  core (-1) (set_group_of_arrival (erase_group g (group_of_arrival s)) s).
Proof.
  intros H Hf. apply (core_exempt g); [|apply keys_erase_notin; exact (core_keys _ _ H)].
  destruct H. constructor; try assumption; cbn.
  - apply NoDup_keys_erase. exact core_keys0.
  - apply Forall_forall. intros k Hk. eapply Forall_forall in core_fresh0; [exact core_fresh0|].
    eapply keys_erase. exact Hk.
  - intros c. pose proof (occupancy_erase g _ G c Hf). specialize (core_busy0 c). lia.
  - apply Forall_erase. exact core_local0.
  - intros c Hc. apply core_listed0. pose proof (occupancy_erase g _ G c Hf). lia.
  - apply Forall_erase. exact core_timers0.
  - apply Forall_erase. exact core_deadlines0.
Qed.

(** A zeroed group whose actor is gone needs no exemption. *)
Lemma core_closed g G s :
  core g s -> find_group (group_of_arrival s) g = Some G ->
  expected_arrival_time G = 0%Q -> latest_arrival_time G = 0%Q ->
  g ∉ sleeper_ids s -> core (-1) s.
Proof.
  intros H Hf He Hl Hg. pose proof (core_keys _ _ H) as Hnd. destruct H.
  constructor; try assumption.
  - apply Forall_forall. intros [k G0] Hin Hcl. right.
    eapply Forall_forall in core_timers0; [|exact Hin].
    destruct (core_timers0 Hcl) as [E|E]; [|exact E]. cbn in E. subst k. exact Hg.
  - apply Forall_forall. intros [k G0] Hin. right.
    eapply Forall_forall in core_deadlines0; [|exact Hin].
    destruct core_deadlines0 as [E|E]; [|exact E]. cbn in E. subst k.
    apply In_find_group in Hin; [|exact Hnd]. assert (G0 = G) by congruence. subst G0.
    left. split; assumption.
Qed.

Hypothesis HM : 1 <= max_local_steps P.
Hypothesis Hlam : (1 <= LATEST_TIME_FACTOR P)%Q.

(** The assignment loop of [_group_aggregation]. *)
Lemma assign_all_core g G0 cs : forall s s',
  core g s -> (forall c, settled s c) -> NoDup cs.*1 ->
  (forall c, c ∈ cs.*1 -> occupancy c (group_of_arrival s) = 0%nat) ->
  find_group (group_of_arrival s) g = Some G0 -> is_closed G0 = true ->
  assign_all P cs s = Some s' ->
  core g s' /\ (forall c, settled s' c)
  /\ find_group (group_of_arrival s') g = Some G0
  /\ (g ∈ sleeper_ids s' -> g ∈ sleeper_ids s).
Proof.
  induction cs as [|[c sp] cs IH]; intros s s' H Hs Hnd Hidle Hf Hcl Ha; cbn in Ha.
  - injection Ha as <-. auto.
  - apply bind_Some in Ha as (s1 & Ha1 & Ha). cbn in Ha1, Hnd, Hidle.
    apply NoDup_cons in Hnd as [Hc Hnd].
    destruct (_assign_group_core P HM Hlam g c s s1 H) as
      (H1 & H2 & H3 & H4 & H5 & H6 & H7 & H8 & H9 & H10); [|exact Ha1|].
    { apply Hidle. left. }
    assert (Hg : g < group_counter s).
    { pose proof (core_fresh _ _ H) as Hfr.
      eapply Forall_forall in Hfr; [|eapply find_group_key; exact Hf]. lia. }
    destruct (IH s1 s' H1) as (I1 & I2 & I3 & I4); [| |  | | |exact Ha|].
    + intros c'. destruct (decide (c' = c)) as [->|Hne]; [exact H2|].
      intros ci. rewrite (H3 c' Hne), H9. apply Hs.
    + exact Hnd.
    + intros c' Hc'. assert (c' <> c) by (intros ->; contradiction).
      rewrite H5 by assumption. apply Hidle. right. exact Hc'.
    + apply H6; assumption.
    + exact Hcl.
    + refine (conj I1 (conj I2 (conj I3 _))). intros Hin. apply H7; [exact Hg|].
      apply I4. exact Hin.
Qed.

End AggregateCore.

(** *** What an event does *)

Section UpdateCore.
Variable P : params.
Hypothesis HM : 1 <= max_local_steps P.
Hypothesis Hlam : (1 <= LATEST_TIME_FACTOR P)%Q.

Lemma settled_all_frame s s' : (forall c, settled s c) -> frame s s' -> forall c, settled s' c.
Proof. intros H F c. eapply settled_frame; [apply H|exact F]. Qed.

Lemma settled_groups gs s : (forall c, settled s c) ->
  forall c, settled (set_group_of_arrival gs s) c.
Proof. intros H c. exact (H c). Qed.

(** [_group_aggregation] on an open group that is complete or whose actor
    has woken restores the invariant. *)
Lemma _group_aggregation_core g s s' :
  core g s -> (forall c, settled s c) ->
  (forall G, find_group (group_of_arrival s) g = Some G ->
     is_closed G = false /\ (clients G = [] \/ g ∉ sleeper_ids s)) ->
  _group_aggregation P g s = Some s' ->
  core (-1) s' /\ (forall c, settled s' c).
Proof.
  intros H Hs Hpre Ha. unfold _group_aggregation in Ha.
  destruct (find_group (group_of_arrival s) g) as [G|] eqn:Hf.
  2:{ injection Ha as <-. split; [|exact Hs]. apply (core_exempt g); [exact H|].
      apply find_group_None. exact Hf. }
  destruct (Hpre G eq_refl) as [Hopen Hdone].
  apply bind_Some in Ha as ([cs s2] & Hst & Ha). cbv zeta beta iota in Ha.
  apply bind_Some in Ha as (s4 & Hasg & Ha).
  apply bind_Some in Ha as (g' & Hg' & Ha).
  pose proof (frame_server_update_group P g s (core_slack _ _ H)) as F1.
  destruct (frame_stamp_arrived _ _ _ _ (frame_slack _ _ F1) Hst) as [F2 Hcs].
  cbn in F2, Hcs.
  pose proof (frame_trans _ _ _ F1 F2) as F.
  pose proof (core_frame _ _ _ H F) as H2.
  pose proof (settled_all_frame _ _ Hs F) as Hs2.
  assert (Hf2 : find_group (group_of_arrival s2) g = Some G)
    by (rewrite (frame_groups _ _ F); exact Hf).
  destruct (close_core g G s2 H2 Hf2 Hopen) as (H3 & Hnd & Hidle & Hf3).
  assert (Hperm : (sort_by_speed cs).*1 ≡ₚ arrived_clients G).
  { rewrite <- Hcs. apply fmap_Permutation. apply sort_by_speed_perm. }
  destruct (assign_all_core P HM Hlam g (close_group G) (sort_by_speed cs) _ s4 H3)
    as (H4 & Hs4 & Hf4 & Hids); [| | | | |exact Hasg|].
  { apply settled_groups. exact Hs2. }
  { rewrite Hperm. exact Hnd. }
  { intros c Hc. apply Hidle. rewrite <- Hperm. exact Hc. }
  { exact Hf3. }
  { reflexivity. }
  assert (g' = close_group G) by congruence. subst g'.
  change (clients (close_group G)) with (clients G) in Ha.
  set (s5 := if Nat.eqb (length (clients G)) 0
             then set_group_of_arrival (erase_group g (group_of_arrival s4)) s4
             else s4) in Ha.
  assert (H5 : core (-1) s5 /\ forall c, settled s5 c).
  { subst s5. destruct (Nat.eqb (length (clients G)) 0) eqn:El.
    - split; [eapply erase_core; [exact H4|exact Hf4]|apply settled_groups; exact Hs4].
    - split; [|exact Hs4]. eapply core_closed; [exact H4|exact Hf4|reflexivity|reflexivity|].
      intros Hin. apply Hids in Hin.
      destruct Hdone as [Hnil|Hout].
      + rewrite Hnil in El. discriminate.
      + apply Hout. unfold sleeper_ids in *.
        change (sleepers (set_group_of_arrival
                  (alter_group close_group g (group_of_arrival s2)) s2))
          with (sleepers s2) in Hin.
        rewrite (frame_sleepers _ _ F) in Hin. exact Hin. }
  destruct H5 as [H5 Hs5].
  assert (F5 : frame s5 s').
  { destruct (iter s5 <? num_global_epochs P).
    - eapply frame_send_all; [exact (core_slack _ _ H5)|exact Ha].
    - injection Ha as <-. apply frame_server_update_all. exact (core_slack _ _ H5). }
  split; [eapply core_frame; [exact H5|exact F5]|eapply settled_all_frame; [exact Hs5|exact F5]].
Qed.

Lemma store_core x c ci' o s :
  core x s -> slot s c = Some o -> (0 < speed ci')%Q -> core x (store c ci' s).
Proof.
  intros H Hslot Hsp.
  assert (Hc0 : 0 <= c) by (eapply slot_nonneg; exact Hslot).
  assert (Hdc : deref (store c ci' s) c = Some ci') by (eapply deref_store_eq; exact Hslot).
  assert (Hdo : forall c', c' <> c -> deref (store c ci' s) c' = deref s c').
  { intros c' Hne. apply deref_store_ne; [exact Hc0|congruence]. }
  destruct H. constructor; try assumption.
  - intros c' Ho. destruct (decide (c' = c)) as [->|Hne]; [rewrite Hdc; eauto|].
    rewrite Hdo by exact Hne. apply core_listed0. exact Ho.
  - intros c' cj. destruct (decide (c' = c)) as [->|Hne].
    + rewrite Hdc. intros [= <-]. exact Hsp.
    + rewrite Hdo by exact Hne. apply core_speed0.
Qed.

Lemma core_set_slack x sl s : core x s -> Forall (Qle 0) sl -> core x (set_slack sl s).
Proof. intros H Hsl. destruct H. constructor; assumption. Qed.

Lemma clock_suspend base s :
  Forall (Qle 0) (slack s) -> (clock s + base <= clock (suspend base s))%Q.
Proof.
  intros H. unfold suspend. destruct (slack s) as [|e r] eqn:E; cbn; [apply Qle_refl|].
  inversion H; subst. lra.
Qed.

Lemma _recv_core c s :
  Forall (Qle 0) (slack s) -> (0 <= clock s)%Q ->
  frame s (_recv_local_model_from_client P c s)
  /\ (0 < clock (_recv_local_model_from_client P c s))%Q.
Proof.
  intros Hsl Hck. unfold _recv_local_model_from_client.
  pose proof (frame_get P c s Hsl) as F1.
  pose proof (frame_execute P (15 # 100) _ ltac:(lra) (frame_slack _ _ F1)) as F2.
  pose proof (frame_set_pending_clients
                (pending_clients (execute P (15 # 100) (get P c s)) ∖ {[c]}) _
                (frame_slack _ _ F2)) as F3.
  split; [exact (frame_trans _ _ _ F1 (frame_trans _ _ _ F2 F3))|].
  pose proof (frame_clock _ _ F1) as C1.
  pose proof (clock_suspend (15 # 100) (log (Execute ((15 # 100) * host_speed P)) (get P c s))
                (frame_slack _ _ F1)) as C2.
  change (clock (log (Execute ((15 # 100) * host_speed P)) (get P c s)))
    with (clock (get P c s)) in C2.
  change (clock (set_pending_clients
                   (pending_clients (execute P (15 # 100) (get P c s)) ∖ {[c]})
                   (execute P (15 # 100) (get P c s))))
    with (clock (suspend (15 # 100)
                   (log (Execute ((15 # 100) * host_speed P)) (get P c s)))).
  lra.
Qed.

Lemma settled_store_other c ci' s c' :
  0 <= c -> c' <> c -> settled s c' -> settled (store c ci' s) c'.
Proof.
  intros Hc Hne Hs cj Hd. rewrite deref_store_ne in Hd by (auto; congruence).
  apply Hs. exact Hd.
Qed.

(** [_record_info]: a first reply leaves an unassigned record, a later
    one only changes the speed. *)
Lemma _record_info_core c s s' :
  core (-1) s -> (forall c', settled s c') -> (0 < clock s)%Q ->
  _record_info P c s = Some s' ->
  core (-1) s' /\ (forall c', c' <> c -> settled s' c')
  /\ ((occupancy c (group_of_arrival s') = 0%nat
       /\ exists ci', deref s' c = Some ci' /\ goa ci' = -1)
      \/ (settled s' c /\ exists ci', deref s' c = Some ci' /\ 0 <= goa ci')).
Proof.
  intros H Hs Hck Hr. unfold _record_info in Hr.
  apply bind_Some in Hr as (p & Hslot & Hr). cbv zeta in Hr.
  apply bind_Some in Hr as (Hne0 & _ & Hr).
  assert (Hc0 : 0 <= c) by (eapply slot_nonneg; exact Hslot).
  destruct p as [ci|]; injection Hr as <-.
  - assert (Hd : deref s c = Some ci) by (apply deref_slot; exact Hslot).
    destruct (Hs c ci Hd) as (Hg & Hl & Hst).
    pose proof (core_speed _ _ H c ci Hd) as Hsp.
    assert (Ht : (0 <= (clock s - start_time ci) / inject_Z (local_steps ci))%Q).
    { apply Qle_shift_div_l; [change 0%Q with (inject_Z 0); rewrite <- Zlt_Qlt; lia|lra]. }
    split; [|split].
    + eapply store_core; [exact H|exact Hslot|]. cbn. unfold SPEED_MOMENTUM. lra.
    + intros c' Hne. apply settled_store_other; auto.
    + right. split.
      * intros cj Hdj. erewrite deref_store_eq in Hdj by exact Hslot.
        injection Hdj as <-. cbn. auto.
      * eexists. split; [eapply deref_store_eq; exact Hslot|]. cbn. exact Hg.
  - assert (Hd : deref s c = None) by (unfold deref; rewrite Hslot; reflexivity).
    assert (Ht : (0 < (clock s - 0) / inject_Z (max_local_steps P))%Q).
    { apply Qlt_shift_div_l; [change 0%Q with (inject_Z 0); rewrite <- Zlt_Qlt; lia|lra]. }
    split; [|split].
    + eapply store_core; [exact H|exact Hslot|]. cbn. exact Ht.
    + intros c' Hne. apply settled_store_other; auto.
    + left. split.
      * destruct (occupancy c (group_of_arrival s)) eqn:E; [exact E|].
        destruct (core_listed _ _ H c) as [cj Hcj]; [rewrite E; lia|]. congruence.
      * eexists. split; [eapply deref_store_eq; exact Hslot|]. reflexivity.
Qed.

(** [_single_update] on an idle client. *)
Lemma _single_update_core c b s s' :
  core (-1) s -> (forall c', c' <> c -> settled s c') ->
  occupancy c (group_of_arrival s) = 0%nat ->
  _single_update P c b s = Some s' ->
  core (-1) s' /\ forall c', settled s' c'.
Proof.
  intros H Hs Hidle Hu. unfold _single_update in Hu.
  set (s1 := if b then server_single_buffer P s else server_update P s) in Hu.
  assert (F1 : frame s s1).
  { subst s1. destruct b; [apply frame_server_single_buffer|apply frame_server_update];
      exact (core_slack _ _ H). }
  apply bind_Some in Hu as (ci & Hd & Hu). cbv zeta in Hu.
  apply bind_Some in Hu as (s3 & Ha & Hu).
  match type of Ha with _assign_group _ _ ?t = _ => set (s2 := t) in * end.
  assert (F2 : frame s1 s2).
  { subst s2. eapply frame_store; [exact Hd|reflexivity..|exact (frame_slack _ _ F1)]. }
  pose proof (frame_trans _ _ _ F1 F2) as F.
  pose proof (core_frame _ _ _ H F) as H2.
  destruct (_assign_group_core P HM Hlam (-1) c s2 s3 H2)
    as (H3 & Hc & Ho & _ & _ & _ & _ & _ & Hck & _); [|exact Ha|].
  { rewrite (frame_groups _ _ F). exact Hidle. }
  assert (Hs3 : forall c', settled s3 c').
  { intros c'. destruct (decide (c' = c)) as [->|Hne]; [exact Hc|].
    assert (Hx : settled s2 c') by (eapply settled_frame; [apply Hs; exact Hne|exact F]).
    intros cj. rewrite (Ho c' Hne), Hck. apply Hx. }
  assert (F3 : frame s3 s').
  { destruct (iter s3 <? num_global_epochs P).
    - eapply frame_send_model; [exact (core_slack _ _ H3)|exact Hu].
    - injection Hu as <-. apply frame_server_update_all. exact (core_slack _ _ H3). }
  split; [eapply core_frame; [exact H3|exact F3]
         |eapply settled_all_frame; [exact Hs3|exact F3]].
Qed.

(** A change of one group that lists nobody new and keeps its times. *)
Lemma alter_core x f k G s :
  let s' := set_group_of_arrival (alter_group f k (group_of_arrival s)) s in
  core x s -> find_group (group_of_arrival s) k = Some G ->
  (forall c, (cell c (f G) <= cell c G)%nat) ->
  is_closed (f G) = is_closed G ->
  expected_arrival_time (f G) = expected_arrival_time G ->
  latest_arrival_time (f G) = latest_arrival_time G ->
  (forall c, c ∈ clients (f G) -> c ∉ arrived_clients (f G)) ->
  core x s'.
Proof.
  intros s' H Hf Hcell Hcl He Hl Hloc. pose proof (core_keys _ _ H) as Hnd. destruct H.
  assert (Hgs : group_of_arrival s' = alter_group f k (group_of_arrival s)) by reflexivity.
  assert (HG : forall G0, (k, G0) ∈ group_of_arrival s -> G0 = G).
  { intros G0 Hin. apply In_find_group in Hin; [congruence|exact Hnd]. }
  assert (Hocc : forall c, (occupancy c (alter_group f k (group_of_arrival s))
                            <= occupancy c (group_of_arrival s))%nat).
  { intros c. pose proof (occupancy_alter f k _ G c Hf). specialize (Hcell c). lia. }
  constructor; try assumption.
  - rewrite Hgs, keys_alter. assumption.
  - rewrite Hgs, keys_alter. assumption.
  - intros c. rewrite Hgs. specialize (Hocc c). specialize (core_busy0 c). lia.
  - rewrite Hgs. apply Forall_alter; [assumption|]. intros G0 Hin _.
    rewrite (HG G0 Hin). exact Hloc.
  - intros c Hc. apply core_listed0. rewrite Hgs in Hc. specialize (Hocc c). lia.
  - rewrite Hgs. apply Forall_alter; [assumption|]. intros G0 Hin Ht.
    rewrite (HG G0 Hin) in *. cbn [fst snd] in *. rewrite Hcl. exact Ht.
  - rewrite Hgs. apply Forall_alter; [assumption|]. intros G0 Hin [E|D]; [left; exact E|right].
    rewrite (HG G0 Hin) in *. unfold deadline_ok in *. cbn [fst snd] in *.
    rewrite He, Hl. exact D.
Qed.

Lemma cell_leave c c' G :
  (cell c' (mk_GOA (filter (fun y => y <> c) (clients G)) (arrived_clients G)
              (expected_arrival_time G) (latest_arrival_time G))
   + (if decide (c' = c) then count c (clients G) else 0)
   = cell c' G)%nat.
Proof.
  unfold cell.
  replace (is_closed (mk_GOA (filter (fun y => y <> c) (clients G)) (arrived_clients G)
                        (expected_arrival_time G) (latest_arrival_time G)))
    with (is_closed G) by reflexivity.
  cbn [clients arrived_clients]. rewrite count_filter_ne.
  destruct (decide (c' = c)) as [->|]; lia.
Qed.

Lemma count_single c' c : count c' [c] = if decide (c' = c) then 1%nat else 0%nat.
Proof.
  unfold count. cbn. destruct (Z.eq_dec c c'); destruct (decide (c' = c)); congruence.
Qed.

Lemma cell_arrive c c' G :
  is_closed G = false ->
  (cell c' (mk_GOA (filter (fun y => y <> c) (clients G)) (arrived_clients G ++ [c])
              (expected_arrival_time G) (latest_arrival_time G))
   + (if decide (c' = c) then count c (clients G) else 0)
   = cell c' G + (if decide (c' = c) then 1 else 0))%nat.
Proof.
  intros Hopen. unfold cell.
  replace (is_closed (mk_GOA (filter (fun y => y <> c) (clients G))
                        (arrived_clients G ++ [c])
                        (expected_arrival_time G) (latest_arrival_time G)))
    with (is_closed G) by reflexivity.
  rewrite Hopen. cbn [clients arrived_clients].
  rewrite count_filter_ne, count_app, count_single.
  destruct (decide (c' = c)) as [->|]; lia.
Qed.

(** [_group_update]: the client is late and reassigned alone, or arrives,
    which may complete the group. *)
Lemma _group_update_core c k s s' :
  core (-1) s -> (forall c', settled s c') ->
  _group_update P c k s = Some s' ->
  core (-1) s' /\ forall c', settled s' c'.
Proof.
  intros H Hs Hu. unfold _group_update in Hu.
  apply bind_Some in Hu as (G & Hf & Hu).
  assert (Hcount : (count c (clients G) <= 1)%nat).
  { pose proof (occupancy_one _ _ _ c Hf) as E. pose proof (core_busy _ _ H c).
    unfold cell in E. lia. }
  destruct (Qle_bool (latest_arrival_time G) (clock s)) eqn:Hlate.
  - apply bind_Some in Hu as (v & Hv & Hu). cbv zeta in Hu.
    destruct (erase_remove_once _ _ _ Hcount Hv) as [Hone ->].
    match type of Hu with context [alter_group ?f k _] => set (leave := f) in * end.
    set (sA := set_group_of_arrival (alter_group leave k (group_of_arrival s)) s) in *.
    assert (HA : core (-1) sA).
    { apply alter_core with (G := G); try reflexivity; [exact H|exact Hf| |].
      - intros c'. pose proof (cell_leave c c' G) as E. subst leave. cbv beta. lia.
      - intros c' Hc'. subst leave. cbn [clients arrived_clients] in *.
        apply list_elem_of_filter in Hc' as [_ Hc'].
        pose proof (core_local _ _ H) as Hloc.
        eapply Forall_forall in Hloc; [|apply find_group_In; exact Hf].
        apply Hloc. exact Hc'. }
    assert (HfA : find_group (group_of_arrival sA) k = Some (leave G))
      by (apply find_alter_eq; exact Hf).
    assert (HoA : occupancy c (group_of_arrival sA) = 0%nat).
    { pose proof (occupancy_alter leave k _ G c Hf) as E.
      pose proof (cell_leave c c G) as E'. rewrite decide_True in E' by reflexivity.
      pose proof (core_busy _ _ H c). subst leave. cbv beta in E.
      change (group_of_arrival sA) with
        (alter_group (fun g : GOA => mk_GOA (filter (fun y => y <> c) (clients G))
                        (arrived_clients g) (expected_arrival_time g)
                        (latest_arrival_time g)) k (group_of_arrival s)).
      lia. }
    match type of Hu with _single_update _ _ _ ?t = _ => set (sB := t) in * end.
    assert (HB : core (-1) sB /\ occupancy c (group_of_arrival sB) = 0%nat
                 /\ forall c', settled sB c').
    { subst sB. destruct (Nat.eqb _ 0).
      - split; [|split].
        + eapply erase_core; [apply core_weaken; exact HA|exact HfA].
        + pose proof (occupancy_erase k _ _ c HfA) as E.
          change (group_of_arrival (set_group_of_arrival
                    (erase_group k (group_of_arrival sA)) sA))
            with (erase_group k (group_of_arrival sA)). lia.
        + exact Hs.
      - split; [exact HA|split; [exact HoA|exact Hs]]. }
    destruct HB as (HB & HoB & HsB).
    eapply _single_update_core; [exact HB| |exact HoB|exact Hu].
    intros c' _. apply HsB.
  - assert (Hlt : (clock s < latest_arrival_time G)%Q).
    { apply Qnot_le_lt. intros Hle. apply Qle_bool_iff in Hle. congruence. }
    assert (Hopen : is_closed G = false).
    { apply is_closed_false_latest. pose proof (core_clock _ _ H). lra. }
    apply bind_Some in Hu as (v & Hv & Hu). cbv zeta in Hu.
    destruct (erase_remove_once _ _ _ Hcount Hv) as [Hone ->].
    match type of Hu with context [alter_group ?f k _] => set (arrive := f) in * end.
    set (sA := set_group_of_arrival (alter_group arrive k (group_of_arrival s)) s) in *.
    assert (HA : core (-1) sA).
    { apply alter_core with (G := G); try reflexivity; [exact H|exact Hf| |].
      - intros c'. pose proof (cell_arrive c c' G Hopen) as E. subst arrive. cbv beta.
        destruct (decide (c' = c)); lia.
      - intros c' Hc'. subst arrive. cbn [clients arrived_clients] in *.
        apply list_elem_of_filter in Hc' as [Hne Hc'].
        pose proof (core_local _ _ H) as Hloc.
        eapply Forall_forall in Hloc; [|apply find_group_In; exact Hf].
        intros Hin. apply elem_of_app in Hin as [Hin|Hin].
        + exact (Hloc c' Hc' Hin).
        + apply list_elem_of_singleton in Hin. contradiction. }
    assert (HfA : find_group (group_of_arrival sA) k = Some (arrive G))
      by (apply find_alter_eq; exact Hf).
    pose proof (frame_server_buffer P k sA (core_slack _ _ HA)) as FB.
    pose proof (core_frame _ _ _ HA FB) as HB.
    pose proof (settled_all_frame sA _ Hs FB) as HsB.
    destruct (Nat.eqb (length (filter (fun y => y <> c) (clients G))) 0) eqn:El.
    + eapply _group_aggregation_core; [apply core_weaken; exact HB|exact HsB| |exact Hu].
      intros G0 HG0. rewrite (frame_groups _ _ FB), HfA in HG0. injection HG0 as <-.
      split; [exact Hopen|left].
      apply Nat.eqb_eq in El. subst arrive. cbn [clients].
      apply nil_length_inv. exact El.
    + injection Hu as <-. split; [exact HB|exact HsB].
Qed.

Lemma _update_core c s s' :
  core (-1) s -> (forall c', c' <> c -> settled s c') ->
  (forall ci, deref s c = Some ci ->
     (goa ci = -1 /\ occupancy c (group_of_arrival s) = 0%nat)
     \/ (0 <= goa ci /\ settled s c)) ->
  _update P c s = Some s' -> core (-1) s' /\ forall c', settled s' c'.
Proof.
  intros H Hs Hc Hu. unfold _update in Hu.
  apply bind_Some in Hu as (ci & Hd & Hu). cbv zeta in Hu.
  pose proof (frame_set_iter (iter s + 1) s (core_slack _ _ H)) as F.
  pose proof (core_frame _ _ _ H F) as H1.
  destruct (Hc ci Hd) as [[Hg Hidle]|[Hg Hsc]].
  - rewrite Hg in Hu. cbn in Hu.
    eapply _single_update_core; [exact H1| |exact Hidle|exact Hu].
    intros c' Hne. exact (Hs c' Hne).
  - destruct (goa ci =? -1) eqn:E; [lia|].
    eapply _group_update_core; [exact H1| |exact Hu].
    intros c'. destruct (decide (c' = c)) as [->|Hne]; [exact Hsc|exact (Hs c' Hne)].
Qed.

(** [update] keeps the invariant. *)
Lemma update_core c s s' :
  core (-1) s -> (forall c', settled s c') ->
  update P c s = Some s' -> core (-1) s' /\ forall c', settled s' c'.
Proof.
  intros H Hs Hu. unfold update in Hu.
  apply bind_Some in Hu as (s2 & Hr & Hu).
  destruct (_recv_core c s (core_slack _ _ H) (core_clock _ _ H)) as [F Hck].
  destruct (_record_info_core c _ s2 (core_frame _ _ _ H F) (settled_all_frame _ _ Hs F)
              Hck Hr) as (H2 & Hs2 & Hcase).
  eapply _update_core; [exact H2|exact Hs2| |exact Hu].
  intros ci Hd. destruct Hcase as [[Hidle (ci' & Hd' & Hg)]|[Hsc (ci' & Hd' & Hg)]];
    assert (ci' = ci) by congruence; subst ci'; [left|right]; auto.
Qed.

Lemma delete_notin (l : list Z) n x : NoDup l -> l !! n = Some x -> x ∉ delete n l.
Proof.
  intros Hnd Hl. rewrite delete_take_drop. rewrite <- (take_drop_middle l n x Hl) in Hnd.
  apply NoDup_app in Hnd as (_ & Hd & Hnd'). apply NoDup_cons in Hnd' as [Hx _].
  intros Hin. apply elem_of_app in Hin as [Hin|Hin]; [|contradiction].
  apply (Hd x Hin). left.
Qed.

Lemma delete_other {A} (l : list A) n x y :
  l !! n = Some x -> y ∈ l -> y <> x -> y ∈ delete n l.
Proof.
  intros Hl Hin Hne. rewrite delete_take_drop. rewrite <- (take_drop_middle l n x Hl) in Hin.
  apply elem_of_app in Hin as [Hin|Hin]; apply elem_of_app; [left; exact Hin|].
  apply elem_of_cons in Hin as [->|Hin]; [contradiction|right; exact Hin].
Qed.

(** A deadline actor that wakes finds its group open, and aggregates it. *)
Lemma wake_core n sl s s' :
  core (-1) s -> (forall c, settled s c) -> Forall (Qle 0) sl ->
  wake P n sl s = Some s' -> core (-1) s' /\ forall c, settled s' c.
Proof.
  intros H Hs Hsl Hw. unfold wake in Hw.
  apply bind_Some in Hw as (z & Hz & Hw). cbv zeta in Hw.
  match type of Hw with _group_aggregation _ _ ?t = _ => set (s1 := t) in * end.
  set (g := s_group z) in *.
  assert (Hidz : sleeper_ids s !! n = Some g).
  { unfold sleeper_ids. rewrite list_lookup_fmap, Hz. reflexivity. }
  assert (Hsl1 : sleepers s1 = delete n (sleepers s)) by reflexivity.
  assert (Hids1 : sleeper_ids s1 = delete n (sleeper_ids s)).
  { unfold sleeper_ids. rewrite Hsl1. apply list_fmap_delete. }
  assert (Hout : g ∉ sleeper_ids s1).
  { rewrite Hids1. eapply delete_notin; [exact (core_ids _ _ H)|exact Hidz]. }
  assert (Hck : (clock s <= clock s1)%Q).
  { subst s1. cbn [clock set_slack set_clock].
    destruct (Qle_bool (clock s) (s_curr_time z + s_delay z)) eqn:E;
      [apply Qle_bool_iff in E; exact E|apply Qle_refl]. }
  assert (H1 : core g s1).
  { pose proof (core_weaken g _ H) as Hg. destruct Hg. constructor; try assumption.
    - eapply Qle_trans; [exact core_clock0|exact Hck].
    - rewrite Hids1. eapply sublist_NoDup; [exact core_ids0|apply sublist_delete].
    - rewrite Hids1. apply Forall_forall. intros k Hk.
      eapply Forall_forall in core_ids_fresh0; [exact core_ids_fresh0|].
      eapply elem_of_sublist; [exact Hk|apply sublist_delete].
    - eapply Forall_impl; [exact core_timers0|]. intros [k G] Hi Hcl.
      destruct (Hi Hcl) as [E|E]; [left; exact E|right]. rewrite Hids1. intros Hin.
      apply E. eapply elem_of_sublist; [exact Hin|apply sublist_delete].
    - eapply Forall_impl; [exact core_deadlines0|]. intros [k G] [E|D]; [left; exact E|].
      cbn [fst snd] in *. destruct (decide (k = g)) as [->|Hne]; [left; reflexivity|right].
      destruct D as [D|(z' & Hz' & Hk & D)]; [left; exact D|right].
      exists z'. split; [|split; [exact Hk|exact D]].
      rewrite Hsl1. eapply delete_other; [exact Hz|exact Hz'|].
      intros ->. apply Hne. symmetry. exact Hk. }
  assert (Hs1 : forall c, settled s1 c).
  { intros c ci Hd. destruct (Hs c ci Hd) as (Ha & Hb & Hc).
    split; [exact Ha|split; [exact Hb|]]. eapply Qle_trans; [exact Hc|exact Hck]. }
  eapply _group_aggregation_core; [exact H1|exact Hs1| |exact Hw].
  intros G HG. split; [|right; exact Hout].
  destruct (is_closed G) eqn:Hcl; [|reflexivity]. exfalso.
  pose proof (core_timers _ _ H) as Ht. pose proof (core_fresh _ _ H) as Hfr.
  change (group_of_arrival s1) with (group_of_arrival s) in HG.
  eapply Forall_forall in Ht; [|apply find_group_In; exact HG].
  eapply Forall_forall in Hfr; [|eapply find_group_key; exact HG].
  destruct (Ht Hcl) as [E|E]; cbn [fst] in E; [lia|].
  apply E. eapply list_elem_of_lookup_2. exact Hidz.
Qed.

Lemma handle_core ev s s' :
  core (-1) s -> (forall c, settled s c) -> valid_event ev ->
  handle P ev s = Some s' -> core (-1) s' /\ forall c, settled s' c.
Proof.
  intros H Hs Hv Hh. destruct ev as [c sl|n sl]; cbn [handle] in Hh.
  - eapply update_core; [apply core_set_slack; [exact H|exact Hv]| |exact Hh]. exact Hs.
  - eapply wake_core; [exact H|exact Hs|exact Hv|exact Hh].
Qed.

Lemma exec_core evs : forall s s',
  core (-1) s -> (forall c, settled s c) -> Forall valid_event evs ->
  exec P evs s = Some s' -> core (-1) s' /\ forall c, settled s' c.
Proof.
  induction evs as [|ev evs IH]; intros s s' H Hs Hv He; cbn [exec] in He.
  - injection He as <-. auto.
  - apply bind_Some in He as (s1 & Hh & He). inversion Hv; subst.
    destruct (handle_core ev s s1 H Hs) as [H1 Hs1]; [assumption..|].
    eapply IH; eassumption.
Qed.

Lemma SchedulerCompass_core pending tr s0 :
  SchedulerCompass P pending tr = Some s0 -> core (-1) s0 /\ forall c, settled s0 c.
Proof.
  intros Hnew. unfold SchedulerCompass in Hnew.
  apply bind_Some in Hnew as (_ & _ & Hnew).
  apply bind_Some in Hnew as (_ & _ & Hnew).
  apply bind_Some in Hnew as (_ & _ & Hnew).
  injection Hnew as <-.
  assert (Hd : forall c, deref (mk_state 0 0 (mk_Server 0 0 ∅)
                                 (replicate (Z.to_nat (num_clients P)) None) []
                                 pending 0 [] tr []) c = None).
  { intros c. unfold deref, slot. cbn [client_info]. destruct (c <? 0); [reflexivity|].
    destruct (replicate (Z.to_nat (num_clients P)) (@None ClientInfo) !! Z.to_nat c)
      as [o|] eqn:E; [|reflexivity].
    apply lookup_replicate in E as [-> _]. reflexivity. }
  split.
  - constructor; cbn.
    + lia.
    + constructor.
    + constructor.
    + intros c. lia.
    + constructor.
    + intros c Hc. lia.
    + intros c ci Hc. rewrite Hd in Hc. discriminate.
    + apply Qle_refl.
    + constructor.
    + constructor.
    + constructor.
    + constructor.
    + constructor.
  - intros c ci Hc. rewrite Hd in Hc. discriminate.
Qed.

(** In every run from the constructor's state the invariant holds. *)
Lemma run_core pending tr s0 evs s :
  SchedulerCompass P pending tr = Some s0 -> Forall valid_event evs ->
  exec P evs s0 = Some s -> core (-1) s.
Proof.
  intros Hnew Hv Hrun. destruct (SchedulerCompass_core _ _ _ Hnew) as [H0 Hs0].
  destruct (exec_core evs s0 s H0 Hs0 Hv Hrun) as [H _]. exact H.
Qed.

End UpdateCore.

Lemma core_exclusive s : core (-1) s -> client_exclusivity s.
Proof.
  intros H. split.
  - intros k g c Hf Hc. pose proof (core_local _ _ H) as Hl.
    eapply Forall_forall in Hl; [|apply find_group_In; exact Hf]. apply Hl. exact Hc.
  - intros k1 g1 k2 g2 c Hf1 Hf2 Hne Hc1 Hc2.
    pose proof (occupancy_two _ _ _ _ _ c Hf1 Hf2 Hne) as Ho.
    pose proof (core_busy _ _ H c) as Hb.
    apply count_pos in Hc1. apply count_pos in Hc2. unfold cell in Ho. lia.
Qed.

Lemma core_deadlines_kept s : core (-1) s -> deadlines_kept s.
Proof.
  intros H k g Hf. pose proof (core_deadlines _ _ H) as Hd.
  pose proof (core_fresh _ _ H) as Hfr.
  eapply Forall_forall in Hd; [|apply find_group_In; exact Hf].
  eapply Forall_forall in Hfr; [|eapply find_group_key; exact Hf].
  destruct Hd as [E|D]; [cbn [fst] in E; lia|exact D].
Qed.

(** *** P1: client exclusivity *)



Lemma straggler_events_valid : Forall valid_event straggler_events.
Proof.
  unfold straggler_events, valid_event.
  repeat (apply Forall_cons; split; [cbn; repeat constructor; discriminate|]).
  apply Forall_nil. exact I.
Qed.


(** *** P2: deadlines *)




(** * Further properties *)

(** ** The scheduler's state between two events *)

Import CompassFacts.

Lemma count_members c g : count c (members g) = cell c g.
Proof.
  unfold members, cell. rewrite count_app. destruct (is_closed g); reflexivity.
Qed.







(** ** Deployment *)

Import DeploySpec.

Lemma fill_node_spec mk node N n : forall c,
  fill_node mk node N n c
  = ((fun i => mk_spawn node (mk i)) <$> seqZ c (Z.min (Z.of_nat n) (Z.max 0 (N - c))),
     c + Z.min (Z.of_nat n) (Z.max 0 (N - c))).
Proof.
  induction n as [|n IH]; intros c.
  - cbn [fill_node]. replace (Z.min (Z.of_nat 0) (Z.max 0 (N - c))) with 0 by lia.
    rewrite Z.add_0_r. reflexivity.
  - cbn [fill_node]. destruct (c <? N) eqn:E.
    + apply Z.ltb_lt in E. rewrite IH.
      replace (Z.min (Z.of_nat (S n)) (Z.max 0 (N - c)))
        with (Z.succ (Z.min (Z.of_nat n) (Z.max 0 (N - (c + 1))))) by lia.
      rewrite (seqZ_cons c) by lia. rewrite Z.pred_succ. cbn [fmap list_fmap].
      replace (Z.succ c) with (c + 1) by lia. f_equal. lia.
    + apply Z.ltb_ge in E.
      replace (Z.min (Z.of_nat (S n)) (Z.max 0 (N - c))) with 0 by lia.
      rewrite Z.add_0_r. reflexivity.
Qed.

Lemma fill_rest_spec mk cpn N : 1 <= cpn -> forall fuel node c,
  N - c <= Z.of_nat fuel ->
  fill_rest mk cpn N fuel node c
  = Some ((fun i => mk_spawn (node + (i - c) / cpn) (mk i)) <$> seqZ c (N - c)).
Proof.
  intros Hcpn. induction fuel as [|fuel IH]; intros node c Hf.
  - cbn [fill_rest]. replace (c <? N) with false by (symmetry; apply Z.ltb_ge; lia).
    rewrite seqZ_nil by lia. reflexivity.
  - cbn [fill_rest]. destruct (c <? N) eqn:E.
    2:{ apply Z.ltb_ge in E. rewrite seqZ_nil by lia. reflexivity. }
    apply Z.ltb_lt in E. rewrite fill_node_spec.
    set (k := Z.min (Z.of_nat (Z.to_nat cpn)) (Z.max 0 (N - c))).
    assert (Hk : 1 <= k <= cpn /\ k <= N - c) by lia.
    rewrite IH by lia. cbn [mbind option_bind]. f_equal.
    replace (seqZ c (N - c)) with (seqZ c (k + (N - (c + k)))) by (f_equal; lia).
    rewrite seqZ_app by lia. rewrite fmap_app. f_equal.
    + apply Forall_fmap_ext_1, Forall_seqZ. intros i Hi.
      rewrite Z.div_small by lia. rewrite Z.add_0_r. reflexivity.
    + apply Forall_fmap_ext_1, Forall_seqZ. intros i Hi. f_equal.
      replace (i - c) with (i - (c + k) + 1 * cpn) by lia.
      rewrite Z.div_add by lia. lia.
Qed.

Lemma distribute_spec mk1 mk2 cpn N :
  1 <= cpn ->
  distribute mk1 mk2 cpn N = Some (placed mk1 mk2 cpn <$> seqZ 0 N).
Proof.
  intros Hcpn. unfold distribute. rewrite fill_node_spec.
  set (k := Z.min (Z.of_nat (Z.to_nat (cpn - 1))) (Z.max 0 (N - 0))).
  assert (Hk : 0 <= k <= cpn - 1 /\ k <= Z.max 0 N /\ (k < cpn - 1 -> k = Z.max 0 N)) by lia.
  rewrite (fill_rest_spec mk2 cpn N Hcpn) by lia. cbn [mbind option_bind]. f_equal.
  destruct (decide (N <= 0)) as [HN|HN].
  - rewrite !seqZ_nil by lia. reflexivity.
  - replace (seqZ 0 N) with (seqZ 0 (k + (N - (0 + k)))) by (f_equal; lia).
    rewrite seqZ_app by lia. rewrite fmap_app. f_equal.
    + apply Forall_fmap_ext_1, Forall_seqZ. intros i Hi. unfold placed, node_of.
      replace (i <? cpn - 1) with true by (symmetry; apply Z.ltb_lt; lia). reflexivity.
    + apply Forall_fmap_ext_1, Forall_seqZ. intros i Hi. unfold placed, node_of.
      replace (i <? cpn - 1) with false by (symmetry; apply Z.ltb_ge; lia).
      f_equal. f_equal. f_equal. lia.
Qed.

(** X4.  For [clients_per_node >= 1] the two deployment loops of [main] end
    and create one client actor for each id 0, ..., [num_clients - 1], in this
    order (none when [num_clients <= 0]): the first [clients_per_node - 1] on
    Node-1 with the arguments of the first loop, the others
    [clients_per_node] per node from Node-2 on, with the arguments of the
    second loop. *)
Theorem deployment_creates_each_client_once
    (mk_node1 mk_other : Z -> client_args) (clients_per_node num_clients : Z)
    (Hcpn : 1 <= clients_per_node) :
  exists l,
    distribute mk_node1 mk_other clients_per_node num_clients = Some l
    /\ l = placed mk_node1 mk_other clients_per_node <$> seqZ 0 num_clients
    /\ length l = Z.to_nat num_clients
    /\ forall c, 0 <= c < num_clients ->
         l !! Z.to_nat c = Some (placed mk_node1 mk_other clients_per_node c).
Proof.
  eexists. split; [apply distribute_spec; exact Hcpn|]. split; [reflexivity|].
  split; [rewrite length_fmap, length_seqZ; reflexivity|].
  intros c Hc. rewrite list_lookup_fmap, lookup_seqZ_lt by lia.
  cbn. rewrite Z2Nat.id by lia. reflexivity.
Qed.

(** Scenario S1 (2 nodes, 2 clients per node): three clients, client 0 on
    Node-1 and clients 1 and 2 on Node-2. *)
Lemma deployment_creates_each_client_once_witness :
  exists l,
    distribute (fun c => mk_client_args c 3 10 1 (8 # 10) 0)
      (fun c => mk_client_args c 3 10 1 1 0) 2 3 = Some l
    /\ map (fun sp => (a_client_id (sp_args sp), sp_node sp, a_training_cost (sp_args sp))) l
       = [(0, 1, (8 # 10)%Q); (1, 2, 1%Q); (2, 2, 1%Q)].
Proof.
  destruct (deployment_creates_each_client_once
              (fun c => mk_client_args c 3 10 1 (8 # 10) 0)
              (fun c => mk_client_args c 3 10 1 1 0)
              2 3 ltac:(lia)) as (l & Hl & -> & _).
  eexists. split; [exact Hl|]. reflexivity.
Defined.

Lemma fmap_constant {A B} (g : A -> B) (v : B) (l : list A) :
  Forall (fun x => g x = v) l -> g <$> l = replicate (length l) v.
Proof.
  induction 1 as [|x l Hx _ IH]; [reflexivity|]. cbn. rewrite Hx, IH. reflexivity.
Qed.

Lemma node_of_full cpn (n : nat) :
  1 <= cpn ->
  node_of cpn <$> seqZ 0 (Z.of_nat (S n) * cpn - 1) = full_nodes (Z.of_nat (S n)) cpn.
Proof.
  intros Hcpn. unfold full_nodes. induction n as [|n IH].
  - replace (Z.of_nat 1 * cpn - 1) with (cpn - 1) by lia.
    replace (Z.of_nat 1 - 1) with 0 by lia. rewrite (seqZ_nil 2 0) by lia.
    cbn [fmap list_fmap mjoin list_join]. rewrite app_nil_r.
    rewrite fmap_constant with (v := 1).
    + rewrite length_seqZ. reflexivity.
    + apply Forall_seqZ. intros i Hi. unfold node_of.
      replace (i <? cpn - 1) with true by (symmetry; apply Z.ltb_lt; lia). reflexivity.
  - replace (Z.of_nat (S (S n)) * cpn - 1) with ((Z.of_nat (S n) * cpn - 1) + cpn) by lia.
    rewrite seqZ_app by nia. rewrite fmap_app, IH.
    replace (Z.of_nat (S (S n)) - 1) with (Z.of_nat (S n)) by lia.
    replace (Z.of_nat (S n) - 1) with (Z.of_nat n) by lia.
    rewrite seqZ_S, fmap_app, join_app. cbn [fmap list_fmap mjoin list_join].
    rewrite app_nil_r, <- app_assoc. f_equal. f_equal.
    rewrite fmap_constant with (v := 2 + Z.of_nat n).
    + rewrite length_seqZ. reflexivity.
    + apply Forall_seqZ. intros i Hi. unfold node_of.
      replace (i <? cpn - 1) with false by (symmetry; apply Z.ltb_ge; nia).
      f_equal. symmetry.
      apply Z.div_unique with (r := i - (cpn - 1) - cpn * Z.of_nat n); nia.
Qed.



(** X6.  With [clients_per_node <= 0] and [num_clients > 0] (both counts
    negative in the configuration) the loop [while (client_id < num_clients)]
    makes no progress: each round creates no actor and leaves [client_id],
    so no number of rounds ends it. *)
Theorem deployment_stalls_without_clients_per_node
    (mk_node1 mk_other : Z -> client_args) (clients_per_node num_clients : Z)
    (Hcpn : clients_per_node <= 0) (Hn : 0 < num_clients) :
  fill_node mk_node1 1 num_clients (Z.to_nat (clients_per_node - 1)) 0 = ([], 0)
  /\ (forall fuel node_index,
        fill_rest mk_other clients_per_node num_clients fuel node_index 0 = None)
  /\ distribute mk_node1 mk_other clients_per_node num_clients = None.
Proof.
  assert (H1 : fill_node mk_node1 1 num_clients (Z.to_nat (clients_per_node - 1)) 0
               = ([], 0)).
  { replace (Z.to_nat (clients_per_node - 1)) with 0%nat by lia. reflexivity. }
  assert (H2 : forall fuel node_index,
             fill_rest mk_other clients_per_node num_clients fuel node_index 0 = None).
  { induction fuel as [|fuel IH]; intros node; cbn [fill_rest];
      replace (0 <? num_clients) with true by (symmetry; apply Z.ltb_lt; lia);
      [reflexivity|].
    replace (Z.to_nat clients_per_node) with 0%nat by lia. cbn [fill_node].
    rewrite IH. reflexivity. }
  split; [exact H1|]. split; [exact H2|].
  unfold distribute. rewrite H1, H2. reflexivity.
Qed.

(** [num_nodes = -1] and [clients_per_node = -2] give one client and a
    deployment that does not end. *)
Lemma deployment_stalls_without_clients_per_node_witness :
  total_clients (mk_config (-1) (-2) 1 1 1 1 1 0 1 (2 # 10) (15 # 10) 0 0 1 JNull) = 1
  /\ distribute (fun c => mk_client_args c 1 1 1 1 0)
       (fun c => mk_client_args c 1 1 1 1 0) (-2) 1 = None.
Proof.
  split; [reflexivity|].
  exact (proj2 (proj2 (deployment_stalls_without_clients_per_node
                         (fun c => mk_client_args c 1 1 1 1 0)
                         (fun c => mk_client_args c 1 1 1 1 0) (-2) 1
                         ltac:(lia) ltac:(lia)))).
Defined.

(** ** Straggler rules, on any JSON value *)

Section Effects.
Variable N : Z.

(** What [parse_client_effects] keeps true of its map and of [applied]. *)
Let sound (st : acc) : Prop :=
  (forall c e, snd st !! c = Some e -> 0 <= c < N /\ (0 < e)%Q)
  /\ (fst st = true -> exists c, 0 <= c < N).

Lemma outcome_bind_Done {A B} (m : outcome A) (f : A -> outcome B) b :
  (m ≫= f) = Done b -> exists a, m = Done a /\ f a = Done b.
Proof. destruct m as [a|d]; cbn; [eauto|discriminate]. Qed.

Lemma xbt_assert_Done b d u : xbt_assert b d = Done u -> b = true.
Proof. destruct b; [reflexivity|discriminate]. Qed.

Lemma apply_to_client_sound e st c st' :
  (0 < e)%Q -> sound st -> apply_to_client N e st c = Done st' -> sound st'.
Proof.
  intros He [Hm _] H. unfold apply_to_client in H.
  apply outcome_bind_Done in H as (u & Hb & H). apply xbt_assert_Done in Hb.
  apply andb_true_iff in Hb as [H0 H1]. apply Z.leb_le in H0. apply Z.ltb_lt in H1.
  cbv zeta in H.
  assert (Hin : forall x (m' : gmap Z Q) c' e', (0 < x)%Q -> m' = <[c := x]> (snd st) ->
                  m' !! c' = Some e' -> 0 <= c' < N /\ (0 < e')%Q).
  { intros x m' c' e' Hx -> Hl. destruct (decide (c' = c)) as [->|Hne].
    - rewrite lookup_insert_eq in Hl. injection Hl as <-. split; [lia|exact Hx].
    - rewrite lookup_insert_ne in Hl by congruence. exact (Hm _ _ Hl). }
  destruct (snd st !! c) as [old|] eqn:E; injection H as <-; split; cbn [fst snd].
  - intros c' e'. apply Hin with (x := (old * e)%Q); [|reflexivity].
    destruct (Hm _ _ E) as [_ Ho]. apply Qmult_lt_0_compat; assumption.
  - intros _. exists c. lia.
  - intros c' e'. apply Hin with (x := e); [exact He|reflexivity].
  - intros _. exists c. lia.
Qed.

Lemma apply_clients_sound e vals : forall st st',
  (0 < e)%Q -> sound st -> apply_clients N e vals st = Done st' -> sound st'.
Proof.
  induction vals as [|v vals IH]; intros st st' He Hs H; cbn [apply_clients] in H.
  - injection H as <-. exact Hs.
  - apply outcome_bind_Done in H as (u & _ & H).
    apply outcome_bind_Done in H as (id & _ & H).
    apply outcome_bind_Done in H as (st1 & H1 & H).
    eapply IH; [exact He| |exact H]. eapply apply_to_client_sound; eassumption.
Qed.

Lemma apply_range_sound e n : forall c st st',
  (0 < e)%Q -> sound st -> apply_range N e n c st = Done st' -> sound st'.
Proof.
  induction n as [|n IH]; intros c st st' He Hs H; cbn [apply_range] in H.
  - injection H as <-. exact Hs.
  - apply outcome_bind_Done in H as (st1 & H1 & H).
    eapply IH; [exact He| |exact H]. eapply apply_to_client_sound; eassumption.
Qed.

Lemma apply_rule_sound effects rule effects' :
  sound (false, effects) -> apply_rule N effects rule = Done effects' ->
  sound (true, effects').
Proof.
  intros Hs H. unfold apply_rule in H.
  apply outcome_bind_Done in H as (u & _ & H).
  apply outcome_bind_Done in H as (e & _ & H).
  apply outcome_bind_Done in H as (u' & He & H). apply xbt_assert_Done in He.
  apply Qltb_lt in He. cbv zeta in H.
  apply outcome_bind_Done in H as (st1 & H1 & H).
  apply outcome_bind_Done in H as (st2 & H2 & H).
  apply outcome_bind_Done in H as (st3 & H3 & H).
  apply outcome_bind_Done in H as (u'' & Ha & H). apply xbt_assert_Done in Ha.
  injection H as <-.
  assert (S1 : sound st1).
  { destruct (contains rule "client"); [|injection H1 as <-; exact Hs].
    destruct (at_key rule "client") as [c|]; [|discriminate].
    apply outcome_bind_Done in H1 as (? & _ & H1).
    apply outcome_bind_Done in H1 as (id & _ & H1).
    eapply apply_to_client_sound; eassumption. }
  assert (S2 : sound st2).
  { destruct (contains rule "clients"); [|injection H2 as <-; exact S1].
    destruct (at_key rule "clients") as [[| | | | |vals|]|]; try discriminate.
    eapply apply_clients_sound; eassumption. }
  assert (S3 : sound st3).
  { destruct (contains rule "range"); [|injection H3 as <-; exact S2].
    destruct (at_key rule "range") as [rv|]; [|discriminate].
    apply outcome_bind_Done in H3 as ([a b] & _ & H3).
    apply outcome_bind_Done in H3 as (? & _ & H3).
    eapply apply_range_sound; eassumption. }
  destruct st3 as [b m]. cbn [fst snd] in *. subst b. exact S3.
Qed.

Lemma apply_rules_sound rules : forall effects effects',
  sound (false, effects) -> apply_rules N rules effects = Done effects' ->
  sound (false, effects') /\ (rules <> [] -> exists c, 0 <= c < N).
Proof.
  induction rules as [|r rules IH]; intros effects effects' Hs H; cbn [apply_rules] in H.
  - injection H as <-. split; [exact Hs|]. intros []; reflexivity.
  - apply outcome_bind_Done in H as (e1 & H1 & H).
    destruct (apply_rule_sound _ _ _ Hs H1) as [Hm Hc].
    destruct (IH e1 effects') as [Hs' _]; [|exact H|].
    + split; [exact Hm|discriminate].
    + split; [exact Hs'|]. intros _. apply Hc. reflexivity.
Qed.

Lemma parse_client_effects_sound rules effects :
  parse_client_effects rules N = Done effects ->
  sound (false, effects)
  /\ ((exists c, 0 <= c < N) \/ (effects = ∅ /\ (rules = JNull \/ rules = JArray []))).
Proof.
  assert (H0 : sound (false, (∅ : gmap Z Q))).
  { split; [|discriminate]. intros c e Hl. cbn [snd] in Hl. rewrite lookup_empty in Hl. discriminate. }
  intros H. unfold parse_client_effects in H.
  destruct rules as [| | | | |rs|]; cbn in H; try discriminate.
  - injection H as <-. split; [exact H0|]. right. auto.
  - destruct (apply_rules_sound rs ∅ effects H0 H) as [Hs Hc]. split; [exact Hs|].
    destruct rs as [|r rs]; [|left; apply Hc; discriminate].
    cbn in H. injection H as <-. right. auto.
Qed.

End Effects.



(** X8.  When there is no client ([total_clients <= 0], which [main]
    reaches with [num_nodes * clients_per_node <= 1]) the only straggler
    configurations [parse_client_effects] accepts are [null] and the empty
    array: every rule has to name a client and no id is valid. *)
Theorem no_client_no_rule
    (rules : json) (total_clients : Z) (effects : gmap Z Q)
    (Hnone : total_clients <= 0)
    (Hparse : parse_client_effects rules total_clients = Done effects) :
  effects = ∅ /\ (rules = JNull \/ rules = JArray []).
Proof.
  destruct (parse_client_effects_sound total_clients rules effects Hparse)
    as [_ [(c & Hc)|H]]; [lia|exact H].
Qed.

(** One node with one client per node leaves no client; the default
    configuration of [main], an empty array, is accepted. *)
Lemma no_client_no_rule_witness :
  total_clients (mk_config 1 1 1 1 1 1 1 0 1 (2 # 10) (15 # 10) 0 0 1 (JArray [])) = 0
  /\ exists effects, parse_client_effects (JArray []) 0 = Done effects /\ effects = ∅.
Proof.
  split; [reflexivity|]. eexists. split; [reflexivity|].
  exact (proj1 (no_client_no_rule (JArray []) 0 _ ltac:(lia) eq_refl)).
Defined.

(** ** FedAvg: the server *)

Lemma count_puts_app tr1 tr2 : count_puts (tr1 ++ tr2) = (count_puts tr1 + count_puts tr2)%nat.
Proof.
  induction tr1 as [|a tr1 IH]; [reflexivity|]. destruct a; cbn; rewrite IH; reflexivity.
Qed.

Lemma count_gets_app tr1 tr2 : count_gets (tr1 ++ tr2) = (count_gets tr1 + count_gets tr2)%nat.
Proof.
  induction tr1 as [|a tr1 IH]; [reflexivity|]. destruct a; cbn; rewrite IH; reflexivity.
Qed.

Lemma fedavg_collect_spec N speed n : forall inbox,
  let r := FedAvg.collect N speed n inbox in
  count_gets r.1 = Nat.min n (length inbox) /\ count_puts r.1 = 0%nat
  /\ r.2 = if decide (n <= length inbox)%nat then Some (drop n inbox) else None.
Proof.
  induction n as [|n IH]; intros inbox; cbn zeta.
  - cbn. rewrite drop_0. auto.
  - destruct inbox as [|c inbox]; cbn [FedAvg.collect].
    + cbn. auto.
    + specialize (IH inbox). cbn zeta in IH.
      destruct (FedAvg.collect N speed n inbox) as [tr r]. cbn [fst snd] in *.
      destruct IH as (Hg & Hp & Hr). cbn. rewrite Hg, Hp. split; [reflexivity|].
      split; [reflexivity|]. rewrite Hr.
      destruct (decide (n <= length inbox)%nat), (decide (S n <= S (length inbox))%nat);
        try reflexivity; lia.
Qed.

Lemma fedavg_broadcast_counts N cc speed :
  count_puts (FedAvg.broadcast N cc speed) = Z.to_nat N
  /\ count_gets (FedAvg.broadcast N cc speed) = 0%nat.
Proof.
  unfold FedAvg.broadcast.
  assert (H : forall n a,
            count_puts (flat_map (fun i => [Put (Z.of_nat i) (PDouble 1) (cc * 8);
                                            Execute ((5 # 100) * speed)]) (seq a n)) = n
            /\ count_gets (flat_map (fun i => [Put (Z.of_nat i) (PDouble 1) (cc * 8);
                                               Execute ((5 # 100) * speed)]) (seq a n))
               = 0%nat).
  { induction n as [|n IH]; intros a; [auto|]. cbn. destruct (IH (S a)) as [-> ->]. auto. }
  apply H.
Qed.

Lemma fedavg_bootstrap_counts N cc :
  count_puts (FedAvg.bootstrap N cc) = Z.to_nat N
  /\ count_gets (FedAvg.bootstrap N cc) = 0%nat.
Proof.
  unfold FedAvg.bootstrap.
  assert (H : forall n a,
            count_puts (map (fun i => Put (Z.of_nat i) (PDouble cc) 4) (seq a n)) = n
            /\ count_gets (map (fun i => Put (Z.of_nat i) (PDouble cc) 4) (seq a n))
               = 0%nat).
  { induction n as [|n IH]; intros a; [auto|]. cbn. destruct (IH (S a)) as [-> ->]. auto. }
  apply H.
Qed.

Lemma fedavg_rounds_spec N cc speed n : forall inbox,
  let r := FedAvg.rounds N cc speed n inbox in
  (r.2 = Returned <-> (n * Z.to_nat N <= length inbox)%nat)
  /\ count_gets r.1 = Nat.min (n * Z.to_nat N) (length inbox)
  /\ (r.2 = Returned -> count_puts r.1 = (n * Z.to_nat N)%nat).
Proof.
  induction n as [|n IH]; intros inbox; cbn zeta.
  - cbn. split; [split; [lia|reflexivity]|]. auto.
  - cbn [FedAvg.rounds].
    pose proof (fedavg_collect_spec N speed (Z.to_nat N) inbox) as Hc. cbn zeta in Hc.
    destruct (fedavg_broadcast_counts N cc speed) as [Hbp Hbg].
    destruct (FedAvg.collect N speed (Z.to_nat N) inbox) as [tr r].
    cbn [fst snd] in Hc. destruct Hc as (Hg & Hp & Hr).
    destruct (decide (Z.to_nat N <= length inbox)%nat) as [Hle|Hgt]; subst r.
    + specialize (IH (drop (Z.to_nat N) inbox)). cbn zeta in IH.
      destruct (FedAvg.rounds N cc speed n (drop (Z.to_nat N) inbox)) as [tr' st].
      cbn [fst snd] in *. rewrite length_drop in IH. destruct IH as (Hst & Hg' & Hp').
      rewrite !count_gets_app, !count_puts_app, Hbp, Hbg, Hg, Hp, Hg'.
      split; [rewrite Hst; lia|]. split; [lia|]. intros H. rewrite Hp' by exact H. lia.
    + cbn [fst snd]. rewrite count_gets_app, Hbg, Hg.
      split; [split; [discriminate|nia]|]. split; [nia|discriminate].
Qed.

(** X9.  The FedAvg server (for [client_count >= 0]) returns exactly when
    at least [client_count * epoch_count] replies reach its mailbox, whoever
    sent them; otherwise it receives all there are and waits for ever.  It
    never receives more than that, and when it returns it has put
    [client_count * (epoch_count + 1)] messages. *)
Theorem fedavg_server_returns_iff
    (N E : Z) (dataloader_cost comm_cost speed : Q) (inbox : list Z)
    (tr : list action) (st : status)
    (HN : 0 <= N)
    (Hrun : FedAvg.server N E dataloader_cost comm_cost speed inbox = Some (tr, st)) :
  (st = Returned <-> (Z.to_nat E * Z.to_nat N <= length inbox)%nat)
  /\ count_gets tr = Nat.min (Z.to_nat E * Z.to_nat N) (length inbox)
  /\ (st = Returned -> count_puts tr = (Z.to_nat N + Z.to_nat E * Z.to_nat N)%nat).
Proof.
  unfold FedAvg.server in Hrun.
  destruct (N <? 0); [discriminate|].
  pose proof (fedavg_rounds_spec N comm_cost speed (Z.to_nat E) inbox) as Hr.
  cbn zeta in Hr.
  destruct (FedAvg.rounds N comm_cost speed (Z.to_nat E) inbox) as [tr' st'].
  cbn [fst snd] in Hr. injection Hrun as <- <-. destruct Hr as (Hst & Hg & Hp).
  destruct (fedavg_bootstrap_counts N comm_cost) as [Hbp Hbg].
  cbn [count_gets count_puts]. rewrite count_gets_app, count_puts_app, Hbp, Hbg, Hg.
  split; [exact Hst|]. split; [reflexivity|]. intros H. rewrite Hp by exact H. reflexivity.
Qed.

(** Three clients and two epochs: with six replies the server returns after
    nine puts; with five it receives the five and waits. *)
Lemma fedavg_server_returns_iff_witness :
  (exists tr, FedAvg.server 3 2 1 1 1 [0; 1; 2; 2; 2; 0] = Some (tr, Returned)
              /\ count_gets tr = 6%nat /\ count_puts tr = 9%nat)
  /\ (exists tr, FedAvg.server 3 2 1 1 1 [0; 1; 2; 2; 2] = Some (tr, Blocked)
                 /\ count_gets tr = 5%nat).
Proof.
  split.
  - eexists. split; [vm_compute; reflexivity|].
    destruct (fedavg_server_returns_iff 3 2 1 1 1 [0; 1; 2; 2; 2; 0] _ Returned
                ltac:(lia) ltac:(vm_compute; reflexivity)) as (_ & Hg & Hp).
    split; [exact Hg|exact (Hp eq_refl)].
  - eexists. split; [vm_compute; reflexivity|]. vm_compute. reflexivity.
Defined.

(** ** The clients *)

Import ClientSpec.

Lemma fedavg_client_loop_control0 args hs X X' cc n : forall k k' inbox,
  a_control args = 0 ->
  FedAvg.client_loop args hs X cc n k inbox = FedAvg.client_loop args hs X' cc n k' inbox.
Proof.
  induction n as [|n IH]; intros k k' inbox H0; [reflexivity|].
  cbn [FedAvg.client_loop]. destruct inbox as [|m inbox]; [reflexivity|].
  unfold FedAvg.speed, perturbed_speed. rewrite H0. cbn [Z.eqb].
  rewrite (IH k k' inbox H0). reflexivity.
Qed.

Lemma fedavg_client_loop_control1 args hs X cc n : forall k inbox,
  a_control args <> 0 -> a_control args <> 2 ->
  FedAvg.client_loop args hs X cc n k inbox
  = FedAvg.client_loop (with_control 1 args) hs X cc n k inbox.
Proof.
  induction n as [|n IH]; intros k inbox H0 H2; [reflexivity|].
  cbn [FedAvg.client_loop]. destruct inbox as [|m inbox]; [reflexivity|].
  unfold FedAvg.speed, perturbed_speed. cbn [with_control a_control a_client_id
    a_num_clients a_training_cost Z.eqb].
  replace (a_control args =? 0) with false by (symmetry; apply Z.eqb_neq; exact H0).
  replace (a_control args =? 2) with false by (symmetry; apply Z.eqb_neq; exact H2).
  rewrite (IH (S k) inbox H0 H2). reflexivity.
Qed.

Lemma fedcompass_client_loop_control0 args hs X X' ms : forall inbox k k',
  a_control args = 0 ->
  FedCompass.client_loop args hs X ms k inbox = FedCompass.client_loop args hs X' ms k' inbox.
Proof.
  induction inbox as [|m inbox IH]; intros k k' H0; [reflexivity|].
  cbn [FedCompass.client_loop]. destruct (m <? 0); [reflexivity|].
  unfold FedCompass.client_speed, perturbed_speed. rewrite H0. cbn [Z.eqb].
  rewrite (IH k k' H0). reflexivity.
Qed.

Lemma fedcompass_client_loop_control1 args hs X ms : forall inbox k,
  a_control args <> 0 -> a_control args <> 2 ->
  FedCompass.client_loop args hs X ms k inbox
  = FedCompass.client_loop (with_control 1 args) hs X ms k inbox.
Proof.
  induction inbox as [|m inbox IH]; intros k H0 H2; [reflexivity|].
  cbn [FedCompass.client_loop]. destruct (m <? 0); [reflexivity|].
  unfold FedCompass.client_speed, perturbed_speed. cbn [with_control a_control a_client_id
    a_num_clients a_training_cost Z.eqb].
  replace (a_control args =? 0) with false by (symmetry; apply Z.eqb_neq; exact H0).
  replace (a_control args =? 2) with false by (symmetry; apply Z.eqb_neq; exact H2).
  rewrite (IH (S k) H0 H2). reflexivity.
Qed.

(** X10.  In both programs a client started with [control = 0] uses no
    random draw: what it does is the same for all values of [dist(gen)].  And
    [control] is only compared with 0 and 2: any other value (1, 3, -1, ...)
    makes the client behave as with [control = 1], host speed unperturbed and
    each training scaled by a draw. *)
Theorem control_selects_the_draws
    (args : client_args) (host_speed : Q) (X X' : nat -> Q)
    (inbox : list payload) (inbox' : list Z) :
  (a_control args = 0 ->
     FedAvg.client args host_speed X inbox = FedAvg.client args host_speed X' inbox
     /\ FedCompass.client args host_speed X inbox'
        = FedCompass.client args host_speed X' inbox')
  /\ (a_control args <> 0 -> a_control args <> 2 ->
        FedAvg.client args host_speed X inbox
        = FedAvg.client (with_control 1 args) host_speed X inbox
        /\ FedCompass.client args host_speed X inbox'
           = FedCompass.client (with_control 1 args) host_speed X inbox').
Proof.
  split.
  - intros H0. split.
    + unfold FedAvg.client, FedAvg.speed, FedAvg.draws_at_start, perturbed_speed.
      rewrite H0. cbn [Z.eqb]. destruct inbox as [|[n|cc] inbox]; try reflexivity.
      rewrite (fedavg_client_loop_control0 args host_speed X X' cc _ 0%nat 0%nat inbox H0).
      reflexivity.
    + unfold FedCompass.client, FedCompass.client_speed, FedCompass.draws_at_start,
        perturbed_speed.
      rewrite H0. cbn [Z.eqb]. destruct inbox' as [|ms inbox']; [reflexivity|].
      rewrite (fedcompass_client_loop_control0 args host_speed X X' ms inbox' 0%nat 0%nat H0).
      reflexivity.
  - intros H0 H2. split.
    + unfold FedAvg.client, FedAvg.speed, FedAvg.draws_at_start, perturbed_speed.
      cbn [with_control a_control a_client_id a_rounds a_dataloader_cost Z.eqb].
      replace (a_control args =? 2) with false by (symmetry; apply Z.eqb_neq; exact H2).
      destruct inbox as [|[n|cc] inbox]; try reflexivity.
      rewrite (fedavg_client_loop_control1 args host_speed X cc _ 0%nat inbox H0 H2).
      reflexivity.
    + unfold FedCompass.client, FedCompass.client_speed, FedCompass.draws_at_start,
        perturbed_speed.
      cbn [with_control a_control a_client_id a_dataloader_cost Z.eqb].
      replace (a_control args =? 2) with false by (symmetry; apply Z.eqb_neq; exact H2).
      destruct inbox' as [|ms inbox']; [reflexivity|].
      rewrite (fedcompass_client_loop_control1 args host_speed X ms inbox' 0%nat H0 H2).
      reflexivity.
Qed.

Lemma fedcompass_client_loop_stops args hs X ms pre neg post : forall k,
  Forall (fun n => 0 <= n) pre -> neg < 0 ->
  let r := FedCompass.client_loop args hs X ms k (pre ++ neg :: post) in
  r = FedCompass.client_loop args hs X ms k (pre ++ [neg])
  /\ r.2 = Returned /\ count_puts r.1 = length pre
  /\ count_gets r.1 = S (length pre).
Proof.
  intros k Hpre Hneg. revert k.
  induction Hpre as [|n pre Hn _ IH]; intros k; cbn zeta.
  - cbn [app FedCompass.client_loop].
    replace (neg <? 0) with true by (symmetry; apply Z.ltb_lt; exact Hneg). cbn. auto.
  - cbn [app FedCompass.client_loop].
    replace (n <? 0) with false by (symmetry; apply Z.ltb_ge; exact Hn).
    destruct (a_control args =? 0);
      match goal with
      | |- context [FedCompass.client_loop args hs X ms ?k' (pre ++ neg :: post)] =>
          specialize (IH k'); cbn zeta in IH; destruct IH as (IH1 & IH2 & IH3 & IH4);
          rewrite <- IH1;
          destruct (FedCompass.client_loop args hs X ms k' (pre ++ neg :: post))
            as [tr st]
      end; cbn in *; rewrite IH3, IH4; auto.
Qed.

Lemma fedcompass_client_loop_blocks args hs X ms inbox : forall k,
  Forall (fun n => 0 <= n) inbox ->
  let r := FedCompass.client_loop args hs X ms k inbox in
  r.2 = Blocked /\ count_puts r.1 = length inbox.
Proof.
  intros k H. revert k. induction H as [|n inbox Hn _ IH]; intros k; cbn zeta.
  - cbn. auto.
  - cbn [FedCompass.client_loop].
    replace (n <? 0) with false by (symmetry; apply Z.ltb_ge; exact Hn).
    destruct (a_control args =? 0);
      match goal with
      | |- context [FedCompass.client_loop args hs X ms ?k' inbox] =>
          specialize (IH k'); cbn zeta in IH; destruct IH as (IH1 & IH2);
          destruct (FedCompass.client_loop args hs X ms k' inbox) as [tr st]
      end; cbn in *; rewrite IH2; auto.
Qed.

(** X11.  A FedCompass client replies once for each step count it receives
    (a count of 0 included) until the first negative one, on which it
    returns without replying, whatever the negative value and whatever comes
    after it in the mailbox; if no negative count ever comes it replies to
    all it gets and then waits for ever. *)
Theorem fedcompass_client_stops_at_first_negative
    (args : client_args) (host_speed : Q) (X : nat -> Q) (model_size : Z) :
  (forall pre neg post,
     Forall (fun n => 0 <= n) pre -> neg < 0 ->
     let r := FedCompass.client args host_speed X (model_size :: pre ++ neg :: post) in
     r = FedCompass.client args host_speed X (model_size :: pre ++ [neg])
     /\ r.2 = Returned /\ count_puts r.1 = length pre)
  /\ (forall inbox,
        Forall (fun n => 0 <= n) inbox ->
        let r := FedCompass.client args host_speed X (model_size :: inbox) in
        r.2 = Blocked /\ count_puts r.1 = length inbox)
  /\ (FedCompass.client args host_speed X []).2 = Blocked.
Proof.
  split; [|split; [|reflexivity]].
  - intros pre neg post Hpre Hneg. cbn zeta. unfold FedCompass.client.
    pose proof (fedcompass_client_loop_stops args host_speed X model_size pre neg post
                  (FedCompass.draws_at_start args) Hpre Hneg) as H. cbn zeta in H.
    destruct H as (H1 & H2 & H3 & _). rewrite <- H1.
    destruct (FedCompass.client_loop args host_speed X model_size
                (FedCompass.draws_at_start args) (pre ++ neg :: post)) as [tr st].
    cbn in *. auto.
  - intros inbox Hin. cbn zeta. unfold FedCompass.client.
    pose proof (fedcompass_client_loop_blocks args host_speed X model_size inbox
                  (FedCompass.draws_at_start args) Hin) as H. cbn zeta in H.
    destruct (FedCompass.client_loop args host_speed X model_size
                (FedCompass.draws_at_start args) inbox) as [tr st].
    cbn in *. exact H.
Qed.

(** ** The scheduler's counters and sends *)

Section Ledger.
Variable P : params.

Lemma server_grows_refl a : server_grows a a.
Proof. split; [lia|]. split; auto. Qed.

Lemma server_grows_trans a b c : server_grows a b -> server_grows b c -> server_grows a c.
Proof.
  intros (H1 & H2 & H3) (K1 & K2 & K3). split; [lia|]. split; auto.
Qed.

Lemma ledger_refl s : ledger P s s.
Proof.
  split; [reflexivity|apply server_grows_refl|]. exists []. rewrite app_nil_r. auto.
Qed.

Lemma ledger_trans s1 s2 s3 : ledger P s1 s2 -> ledger P s2 s3 -> ledger P s1 s3.
Proof.
  intros [I1 S1 (tr1 & T1 & Q1)] [I2 S2 (tr2 & T2 & Q2)].
  split; [congruence|eapply server_grows_trans; eassumption|].
  exists (tr1 ++ tr2). split; [rewrite T2, T1, app_assoc; reflexivity|].
  intros H. rewrite count_puts_app, Q1 by exact H. rewrite Q2 by (rewrite I1; exact H).
  reflexivity.
Qed.

Lemma ledger_same s s' :
  iter s' = iter s -> server s' = server s -> trace s' = trace s -> ledger P s s'.
Proof.
  intros I S T. split; [exact I|rewrite S; apply server_grows_refl|].
  exists []. rewrite app_nil_r. auto.
Qed.

Lemma suspend_fields base s :
  iter (suspend base s) = iter s /\ server (suspend base s) = server s
  /\ trace (suspend base s) = trace s.
Proof. unfold suspend. destruct (slack s); auto. Qed.

Lemma execute_fields x s :
  iter (execute P x s) = iter s /\ server (execute P x s) = server s
  /\ trace (execute P x s) = trace s ++ [Execute (x * host_speed P)].
Proof.
  unfold execute.
  destruct (suspend_fields x (log (Execute (x * host_speed P)) s)) as (-> & -> & ->).
  auto.
Qed.

Lemma get_fields n s :
  iter (get P n s) = iter s /\ server (get P n s) = server s
  /\ trace (get P n s) = trace s ++ [Get (num_clients P) (PInt n)].
Proof.
  unfold get.
  destruct (suspend_fields 0 (log (Get (num_clients P) (PInt n)) s)) as (-> & -> & ->).
  auto.
Qed.

Lemma put_fields m n b s :
  iter (put m n b s) = iter s /\ server (put m n b s) = server s
  /\ trace (put m n b s) = trace s ++ [Put m (PInt n) b].
Proof.
  unfold put.
  destruct (suspend_fields 0 (log (Put m (PInt n) b) s)) as (-> & -> & ->).
  auto.
Qed.

Lemma ledger_execute x s : ledger P s (execute P x s).
Proof.
  destruct (execute_fields x s) as (I & S & T).
  split; [exact I|rewrite S; apply server_grows_refl|].
  exists [Execute (x * host_speed P)]. split; [exact T|reflexivity].
Qed.

Lemma ledger_get n s : ledger P s (get P n s).
Proof.
  destruct (get_fields n s) as (I & S & T).
  split; [exact I|rewrite S; apply server_grows_refl|].
  exists [Get (num_clients P) (PInt n)]. split; [exact T|reflexivity].
Qed.

Lemma ledger_with_server f s :
  server_grows (server s) (f (server s)) -> ledger P s (with_server f s).
Proof.
  intros H. split; [reflexivity|exact H|]. exists []. rewrite app_nil_r. auto.
Qed.

Lemma ledger_server_update s : ledger P s (server_update P s).
Proof.
  unfold server_update. eapply ledger_trans; [apply ledger_execute|].
  apply ledger_with_server. split; cbn; [lia|]. split; auto.
Qed.

Lemma ledger_server_single_buffer s : ledger P s (server_single_buffer P s).
Proof.
  unfold server_single_buffer. eapply ledger_trans; [apply ledger_execute|].
  apply ledger_with_server. split; cbn; [lia|]. split; auto.
Qed.

Lemma ledger_server_update_all s : ledger P s (server_update_all P s).
Proof.
  unfold server_update_all. eapply ledger_trans; [apply ledger_execute|].
  apply ledger_with_server. split; cbn; [lia|]. split; auto.
Qed.

Lemma ledger_server_update_group g s : ledger P s (server_update_group P g s).
Proof.
  unfold server_update_group.
  destruct (group_pseudo_grad (server s) !! g) eqn:E; [apply ledger_refl|].
  eapply ledger_trans; [apply ledger_execute|].
  apply ledger_with_server.
  rewrite (proj1 (proj2 (execute_fields (1 # 100) s))).
  split; cbn; [lia|]. rewrite delete_id by exact E. split; auto.
Qed.

(** What [buffer] leaves in the model server. *)
Lemma server_buffer_server g s :
  server (server_buffer P g s)
  = mk_Server (global_step (server s)) (general_buffer_size (server s))
      (<[g := 1]> (group_pseudo_grad (server s))).
Proof.
  unfold server_buffer, with_server. cbn [server set_server].
  rewrite (proj1 (proj2 (execute_fields (1 # 100) _))). cbn [server set_server].
  destruct (group_pseudo_grad (server s) !! g) as [n|] eqn:E; cbn.
  - rewrite lookup_insert_eq, insert_insert_eq. reflexivity.
  - rewrite E. reflexivity.
Qed.

Lemma ledger_server_buffer g s : ledger P s (server_buffer P g s).
Proof.
  split.
  - unfold server_buffer, with_server. cbn [iter set_server].
    rewrite (proj1 (execute_fields (1 # 100) _)). reflexivity.
  - rewrite server_buffer_server. split; cbn; [lia|]. split.
    + intros g' H. destruct (decide (g' = g)) as [->|Hne].
      * rewrite lookup_insert_eq. eauto.
      * rewrite lookup_insert_ne by congruence. exact H.
    + intros H g' n. cbn. destruct (decide (g' = g)) as [->|Hne].
      * rewrite lookup_insert_eq. congruence.
      * rewrite lookup_insert_ne by congruence. apply H.
  - exists [Execute ((1 # 100) * host_speed P)]. split; [|reflexivity].
    unfold server_buffer, with_server. cbn [trace set_server].
    rewrite (proj2 (proj2 (execute_fields (1 # 100) _))). reflexivity.
Qed.

(** Steps that touch neither [iter], nor the model server, nor the trace. *)
Let silent (s s' : state) : Prop :=
  iter s' = iter s /\ server s' = server s /\ trace s' = trace s.

Lemma silent_ledger s s' : silent s s' -> ledger P s s'.
Proof. intros (I & S & T). apply ledger_same; assumption. Qed.

Lemma silent_trans s1 s2 s3 : silent s1 s2 -> silent s2 s3 -> silent s1 s3.
Proof. intros (I & S & T) (I' & S' & T'). repeat split; congruence. Qed.

Lemma spawn_aggregation_silent o t s s' :
  spawn_aggregation o t s = Some s' -> silent s s'.
Proof.
  unfold spawn_aggregation. intros H. apply bind_Some in H as (g & _ & H).
  injection H as <-. repeat split.
Qed.

Lemma _join_group_silent c s b s' : _join_group P c s = Some (b, s') -> silent s s'.
Proof.
  unfold _join_group. intros H. cbv zeta in H.
  apply bind_Some in H as ([ag ast] & _ & H).
  destruct (negb (ag =? -1)).
  - apply bind_Some in H as (ci & _ & H). apply bind_Some in H as (G & _ & H).
    injection H as _ <-. repeat split.
  - injection H as _ <-. repeat split.
Qed.

Lemma _create_group_silent c s s' : _create_group P c s = Some s' -> silent s s'.
Proof.
  unfold _create_group. intros H. cbv zeta in H.
  apply bind_Some in H as (ci & _ & H). apply bind_Some in H as (n & _ & H).
  apply bind_Some in H as (s1 & Hs & H). apply spawn_aggregation_silent in Hs.
  injection H as <-. destruct Hs as (I & S & T). repeat split; assumption.
Qed.

Lemma _assign_group_silent c s s' : _assign_group P c s = Some s' -> silent s s'.
Proof.
  unfold _assign_group. intros H. cbv zeta in H.
  destruct (Nat.eqb (length (group_of_arrival s)) 0).
  - apply bind_Some in H as (ci & _ & H). apply bind_Some in H as (s1 & Hs & H).
    apply spawn_aggregation_silent in Hs. injection H as <-.
    destruct Hs as (I & S & T). repeat split; assumption.
  - destruct (_join_group P c s) as [[[|] s1]|] eqn:E; [| |discriminate].
    + injection H as <-. eapply _join_group_silent. exact E.
    + eapply silent_trans; [eapply _join_group_silent; exact E|].
      eapply _create_group_silent. exact H.
Qed.

Lemma assign_all_silent cs : forall s s', assign_all P cs s = Some s' -> silent s s'.
Proof.
  induction cs as [|c cs IH]; intros s s' H; cbn [assign_all] in H.
  - injection H as <-. repeat split.
  - apply bind_Some in H as (s1 & H1 & H).
    eapply silent_trans; [eapply _assign_group_silent; exact H1|apply IH; exact H].
Qed.

Lemma stamp_arrived_silent cs : forall acc s r,
  stamp_arrived cs acc s = Some r -> silent s r.2.
Proof.
  induction cs as [|c cs IH]; intros acc s r H; cbn [stamp_arrived] in H.
  - injection H as <-. repeat split.
  - apply bind_Some in H as (ci & _ & H). cbv zeta in H. apply IH in H.
    destruct H as (I & S & T). repeat split; assumption.
Qed.

Lemma _record_info_silent c s s' : _record_info P c s = Some s' -> silent s s'.
Proof.
  unfold _record_info. intros H. cbv zeta in H.
  apply bind_Some in H as (p & _ & H). apply bind_Some in H as (_ & _ & H).
  destruct p; injection H as <-; repeat split.
Qed.

(** What a send adds. *)
Lemma _send_model_fields c s s' :
  _send_model P c s = Some s' ->
  iter s' = iter s /\ server s' = server s
  /\ exists ci, deref s c = Some ci
       /\ trace s' = trace s ++ [Put c (PInt (local_steps ci))
                                   (inject_Z (Qtrunc (model_size P)));
                                 Execute ((47 # 1000) * host_speed P)].
Proof.
  unfold _send_model. intros H. apply bind_Some in H as (ci & Hd & H).
  cbv zeta in H. injection H as <-. unfold _send_global_model_to_client.
  cbn [iter server trace set_pending_clients].
  destruct (execute_fields (47 # 1000)
              (put c (local_steps ci) (inject_Z (Qtrunc (model_size P)))
                 (store c (mk_ClientInfo (step ci) (local_steps ci) (goa ci)
                             (total_steps ci + local_steps ci) (speed ci)
                             (start_time ci)) s))) as (-> & -> & ->).
  destruct (put_fields c (local_steps ci) (inject_Z (Qtrunc (model_size P)))
              (store c (mk_ClientInfo (step ci) (local_steps ci) (goa ci)
                          (total_steps ci + local_steps ci) (speed ci)
                          (start_time ci)) s)) as (-> & -> & ->).
  split; [reflexivity|]. split; [reflexivity|]. exists ci. split; [exact Hd|].
  rewrite <- app_assoc. reflexivity.
Qed.

Lemma send_all_fields cs : forall s s',
  send_all P cs s = Some s' ->
  iter s' = iter s /\ server s' = server s /\ exists tr, trace s' = trace s ++ tr.
Proof.
  induction cs as [|c cs IH]; intros s s' H; cbn [send_all] in H.
  - injection H as <-. split; [reflexivity|]. split; [reflexivity|].
    exists []. rewrite app_nil_r. reflexivity.
  - apply bind_Some in H as (s1 & H1 & H).
    apply _send_model_fields in H1 as (I1 & S1 & ci & _ & T1).
    apply IH in H as (I2 & S2 & tr & T2).
    split; [congruence|]. split; [congruence|]. eexists. rewrite T2, T1, <- app_assoc.
    reflexivity.
Qed.

(** The end of [_single_update] and of [_group_aggregation]: models are
    sent while [iter < num_global_epochs]. *)
Lemma send_or_finish_ledger s s' (send : option state) :
  (send = Some s' ->
   iter s' = iter s /\ server s' = server s /\ exists tr, trace s' = trace s ++ tr) ->
  (if iter s <? num_global_epochs P then send else Some (server_update_all P s)) = Some s' ->
  ledger P s s'.
Proof.
  intros Hsend H. destruct (iter s <? num_global_epochs P) eqn:E.
  - apply Z.ltb_lt in E. destruct (Hsend H) as (I & S & tr & T).
    split; [exact I|rewrite S; apply server_grows_refl|].
    exists tr. split; [exact T|]. intros Hq. lia.
  - injection H as <-. apply ledger_server_update_all.
Qed.

Lemma _group_aggregation_ledger g s s' :
  _group_aggregation P g s = Some s' -> ledger P s s'.
Proof.
  unfold _group_aggregation. intros H.
  destruct (find_group (group_of_arrival s) g) as [G|]; [|injection H as <-; apply ledger_refl].
  cbv zeta in H.
  apply bind_Some in H as ([cs s1] & Hst & H).
  apply bind_Some in H as (s2 & Has & H).
  apply bind_Some in H as (G' & _ & H).
  apply stamp_arrived_silent in Hst. cbn [snd] in Hst.
  apply assign_all_silent in Has.
  eapply ledger_trans; [apply ledger_server_update_group|].
  eapply ledger_trans; [apply silent_ledger; exact Hst|].
  eapply ledger_trans; [apply silent_ledger; exact Has|].
  match type of H with context [if ?b then set_group_of_arrival ?x s2 else s2] =>
    set (s3 := if b then set_group_of_arrival x s2 else s2) in * end.
  assert (Hc3 : ledger P s2 s3).
  { subst s3. destruct (_ =? _)%nat; [apply ledger_same; reflexivity|apply ledger_refl]. }
  eapply ledger_trans; [exact Hc3|].
  eapply send_or_finish_ledger; [|exact H]. apply send_all_fields.
Qed.

Lemma _single_update_ledger c b s s' :
  _single_update P c b s = Some s' -> ledger P s s'.
Proof.
  unfold _single_update. intros H. cbv zeta in H.
  match type of H with context [deref ?s0 c] => set (s1 := s0) in * end.
  assert (Hc1 : ledger P s s1).
  { subst s1. destruct b; [apply ledger_server_single_buffer|apply ledger_server_update]. }
  apply bind_Some in H as (ci & Hd & H).
  apply bind_Some in H as (s2 & Ha & H).
  apply _assign_group_silent in Ha.
  eapply ledger_trans; [exact Hc1|].
  eapply ledger_trans; [apply silent_ledger; exact Ha|].
  eapply send_or_finish_ledger; [|exact H].
  intros Hs. apply _send_model_fields in Hs as (I & S & ci' & _ & T). eauto.
Qed.

Lemma _group_update_ledger c g s s' :
  _group_update P c g s = Some s' -> ledger P s s'.
Proof.
  unfold _group_update. intros H. cbv zeta in H.
  apply bind_Some in H as (G & _ & H).
  destruct (Qle_bool (latest_arrival_time G) (clock s)).
  - apply bind_Some in H as (v & _ & H).
    apply _single_update_ledger in H.
    eapply ledger_trans; [|exact H].
    destruct (_ =? _)%nat; apply ledger_same; reflexivity.
  - apply bind_Some in H as (v & _ & H).
    match type of H with context [server_buffer P g ?s0] =>
      assert (Hc : ledger P s (server_buffer P g s0))
        by (eapply ledger_trans;
            [apply (ledger_same s s0); reflexivity|apply ledger_server_buffer]) end.
    destruct (_ =? _)%nat.
    + apply _group_aggregation_ledger in H. eapply ledger_trans; eassumption.
    + injection H as <-. exact Hc.
Qed.

Lemma _recv_fields c s :
  iter (_recv_local_model_from_client P c s) = iter s
  /\ server (_recv_local_model_from_client P c s) = server s
  /\ trace (_recv_local_model_from_client P c s)
     = trace s ++ [Get (num_clients P) (PInt c); Execute ((15 # 100) * host_speed P)].
Proof.
  unfold _recv_local_model_from_client. cbn [iter server trace set_pending_clients].
  destruct (execute_fields (15 # 100) (get P c s)) as (-> & -> & ->).
  destruct (get_fields c s) as (-> & -> & ->).
  rewrite <- app_assoc. auto.
Qed.

Lemma update_ledger c s s' :
  update P c s = Some s' ->
  iter s' = iter s + 1 /\ server_grows (server s) (server s')
  /\ exists tr, trace s' = trace s ++ tr
       /\ (num_global_epochs P <= iter s + 1 -> count_puts tr = 0%nat).
Proof.
  unfold update. intros H.
  apply bind_Some in H as (s1 & Hr & H).
  apply _record_info_silent in Hr. destruct Hr as (I1 & S1 & T1).
  destruct (_recv_fields c s) as (I0 & S0 & T0).
  unfold _update in H. cbv zeta in H.
  apply bind_Some in H as (ci & _ & H).
  assert (L2 : ledger P (set_iter (iter s1 + 1) s1) s').
  { destruct (goa ci =? -1);
      [eapply _single_update_ledger|eapply _group_update_ledger]; exact H. }
  destruct L2 as [I2 S2 (tr2 & T2 & Q2)].
  cbn [iter server trace set_iter] in *.
  split; [lia|]. split; [rewrite <- S0, <- S1; exact S2|].
  eexists. split; [rewrite T2, T1, T0, <- app_assoc; reflexivity|].
  intros Hq. rewrite count_puts_app, Q2 by lia. reflexivity.
Qed.

Lemma wake_ledger n sl s s' : wake P n sl s = Some s' -> ledger P s s'.
Proof.
  unfold wake. intros H. apply bind_Some in H as (z & _ & H). cbv zeta in H.
  apply _group_aggregation_ledger in H. eapply ledger_trans; [|exact H].
  apply ledger_same; reflexivity.
Qed.

Lemma replies_nonneg evs : 0 <= replies evs.
Proof. induction evs as [|[c sl|n sl] evs IH]; cbn [replies]; lia. Qed.

Lemma head_replies_range evs : 0 <= head_replies evs <= 1.
Proof. destruct evs as [|[c sl|n sl] evs]; cbn; lia. Qed.

Lemma exec_ledger evs : forall s s',
  exec P evs s = Some s' ->
  iter s' = iter s + replies evs /\ server_grows (server s) (server s')
  /\ exists tr, trace s' = trace s ++ tr
       /\ (num_global_epochs P <= iter s + head_replies evs -> count_puts tr = 0%nat).
Proof.
  induction evs as [|ev evs IH]; intros s s' H; cbn [exec] in H.
  - injection H as <-. cbn [replies]. split; [lia|]. split; [apply server_grows_refl|].
    exists []. rewrite app_nil_r. auto.
  - apply bind_Some in H as (s1 & Hh & H).
    apply IH in H as (I2 & S2 & tr2 & T2 & Q2).
    pose proof (head_replies_range evs) as Hhr.
    destruct ev as [c sl|n sl]; cbn [handle] in Hh; cbn [replies head_replies].
    + apply update_ledger in Hh as (I1 & S1 & tr1 & T1 & Q1).
      cbn [iter server trace set_slack] in *.
      split; [lia|]. split; [eapply server_grows_trans; eassumption|].
      exists (tr1 ++ tr2). split; [rewrite T2, T1, app_assoc; reflexivity|].
      intros Hq. rewrite count_puts_app, Q1, Q2 by lia. reflexivity.
    + apply wake_ledger in Hh as [I1 S1 (tr1 & T1 & Q1)].
      split; [lia|]. split; [eapply server_grows_trans; eassumption|].
      exists (tr1 ++ tr2). split; [rewrite T2, T1, app_assoc; reflexivity|].
      intros Hq. rewrite count_puts_app, Q1, Q2 by lia. reflexivity.
Qed.

End Ledger.

Lemma count_puts_inbox m tr : count_puts tr = 0%nat -> inbox_of m tr = [].
Proof.
  induction tr as [|a tr IH]; [reflexivity|]. destruct a as [f|mb p|mb p b]; cbn; auto.
  discriminate.
Qed.

Lemma SchedulerCompass_fields P pending tr0 s0 :
  SchedulerCompass P pending tr0 = Some s0 ->
  iter s0 = 0 /\ server s0 = mk_Server 0 0 ∅ /\ trace s0 = tr0.
Proof.
  intros Hnew. unfold SchedulerCompass in Hnew.
  apply bind_Some in Hnew as (_ & _ & Hnew).
  apply bind_Some in Hnew as (_ & _ & Hnew).
  apply bind_Some in Hnew as (_ & _ & Hnew).
  injection Hnew as <-. auto.
Qed.





Section GlobalStep.
Variable P : params.

Lemma suspend_client_info base s : client_info (suspend base s) = client_info s.
Proof. unfold suspend. destruct (slack s); reflexivity. Qed.

Lemma _recv_client_info c s :
  client_info (_recv_local_model_from_client P c s) = client_info s.
Proof.
  unfold _recv_local_model_from_client, execute, get. cbn [client_info set_pending_clients].
  rewrite suspend_client_info. unfold log at 1. cbn [client_info set_trace].
  rewrite suspend_client_info. reflexivity.
Qed.

Lemma server_update_group_global_step g s :
  global_step (server (server_update_group P g s))
  = global_step (server s)
    + match group_pseudo_grad (server s) !! g with None => 1 | Some _ => 0 end.
Proof.
  unfold server_update_group. destruct (group_pseudo_grad (server s) !! g); [lia|].
  unfold with_server. cbn [server set_server global_step].
  rewrite (proj1 (proj2 (execute_fields P (1 # 100) s))). reflexivity.
Qed.

Lemma send_or_finish_server s s' (send : option state) :
  iter s < num_global_epochs P ->
  (send = Some s' ->
   iter s' = iter s /\ server s' = server s /\ exists tr, trace s' = trace s ++ tr) ->
  (if iter s <? num_global_epochs P then send else Some (server_update_all P s)) = Some s' ->
  server s' = server s.
Proof.
  intros Hi Hsend H.
  replace (iter s <? num_global_epochs P) with true in H by (symmetry; apply Z.ltb_lt; lia).
  exact (proj1 (proj2 (Hsend H))).
Qed.

Lemma _group_aggregation_global_step g s s' :
  iter s < num_global_epochs P -> _group_aggregation P g s = Some s' ->
  global_step (server s')
  = global_step (server s)
    + match find_group (group_of_arrival s) g, group_pseudo_grad (server s) !! g with
      | Some _, None => 1
      | _, _ => 0
      end.
Proof.
  unfold _group_aggregation. intros Hi H.
  destruct (find_group (group_of_arrival s) g) as [G|]; [|injection H as <-; lia].
  cbv zeta in H.
  apply bind_Some in H as ([cs s1] & Hst & H).
  apply bind_Some in H as (s2 & Has & H).
  apply bind_Some in H as (G' & _ & H).
  apply stamp_arrived_silent in Hst as (I1 & S1 & _). cbn [snd] in I1, S1.
  apply assign_all_silent in Has as (I2 & S2 & _).
  cbn [iter server set_group_of_arrival] in I2, S2.
  pose proof (ledger_iter _ _ _ (ledger_server_update_group P g s)) as I0.
  match type of H with context [if ?b then set_group_of_arrival ?x s2 else s2] =>
    set (s3 := if b then set_group_of_arrival x s2 else s2) in * end.
  assert (H3 : iter s3 = iter s2 /\ server s3 = server s2)
    by (subst s3; destruct (_ =? _)%nat; auto).
  destruct H3 as [I3 S3].
  apply send_or_finish_server in H; [|lia|apply send_all_fields].
  rewrite H, S3, S2, S1, server_update_group_global_step. reflexivity.
Qed.

Lemma _single_update_global_step c b s s' :
  iter s < num_global_epochs P -> _single_update P c b s = Some s' ->
  global_step (server s') = global_step (server s) + (if b then 0 else 1)
  /\ general_buffer_size (server s')
     = general_buffer_size (server s) + (if b then 1 else 0).
Proof.
  unfold _single_update. intros Hi H. cbv zeta in H.
  match type of H with context [deref ?s0 c] => set (s1 := s0) in * end.
  assert (H1 : iter s1 = iter s
               /\ global_step (server s1) = global_step (server s) + (if b then 0 else 1)
               /\ general_buffer_size (server s1)
                  = general_buffer_size (server s) + (if b then 1 else 0)).
  { subst s1. destruct b; unfold server_single_buffer, server_update, with_server;
      cbn [iter server set_server global_step general_buffer_size];
      rewrite ?(proj1 (execute_fields P _ s)), ?(proj1 (proj2 (execute_fields P _ s)));
      repeat split; lia. }
  destruct H1 as (I1 & G1 & B1).
  apply bind_Some in H as (ci & Hd & H).
  apply bind_Some in H as (s2 & Ha & H).
  apply _assign_group_silent in Ha as (I2 & S2 & _). cbn [iter server] in I2, S2.
  apply send_or_finish_server in H.
  - rewrite H, S2. change (server (store c _ s1)) with (server s1). auto.
  - rewrite I2. change (iter (store c _ s1)) with (iter s1). lia.
  - intros Hs. apply _send_model_fields in Hs as (I & S & ci' & _ & T). eauto.
Qed.

Lemma _group_update_global_step c k s s' :
  iter s < num_global_epochs P -> _group_update P c k s = Some s' ->
  global_step (server s') = global_step (server s).
Proof.
  unfold _group_update. intros Hi H. cbv zeta in H.
  apply bind_Some in H as (G & Hf & H).
  destruct (Qle_bool (latest_arrival_time G) (clock s)).
  - apply bind_Some in H as (v & _ & H).
    apply _single_update_global_step in H as [H _].
    + rewrite H. destruct (_ =? _)%nat; cbn; lia.
    + destruct (_ =? _)%nat; exact Hi.
  - apply bind_Some in H as (v & _ & H).
    match type of H with context [server_buffer P k ?s0] => set (sA := s0) in * end.
    assert (HB : server (server_buffer P k sA)
                 = mk_Server (global_step (server s)) (general_buffer_size (server s))
                     (<[k := 1]> (group_pseudo_grad (server s))))
      by (rewrite server_buffer_server; reflexivity).
    destruct (_ =? _)%nat.
    + apply _group_aggregation_global_step in H.
      * rewrite H, HB. cbn [global_step group_pseudo_grad]. rewrite lookup_insert_eq.
        destruct (find_group (group_of_arrival (server_buffer P k sA)) k); lia.
      * rewrite (ledger_iter _ _ _ (ledger_server_buffer P k sA)). exact Hi.
    + injection H as <-. rewrite HB. reflexivity.
Qed.

End GlobalStep.

(** X14.  While the epochs are not over ([iter + 1 < num_global_epochs]),
    [update] advances the model server's [global_step] by one for the first
    reply of a client and not at all for a later reply: neither when the
    client is late for its group, nor when it arrives in time, nor when its
    arrival completes the group and [_group_aggregation] runs
    ([update_group] acts only for a group without counter, and [buffer] has
    just given it one). *)
Theorem global_step_counts_first_replies
    (P : params) (c : Z) (s s' : state)
    (Hiter : iter s + 1 < num_global_epochs P)
    (Hrun : update P c s = Some s') :
  match deref s c with
  | None => global_step (server s') = global_step (server s) + 1
  | Some ci => goa ci <> -1 -> global_step (server s') = global_step (server s)
  end.
Proof.
  unfold update in Hrun. apply bind_Some in Hrun as (s1 & Hr & H).
  destruct (_recv_fields P c s) as (I0 & S0 & _).
  pose proof (deref_info _ _ c (_recv_client_info P c s)) as D0.
  pose proof (_record_info_silent P c _ _ Hr) as (I1 & S1 & _).
  unfold _record_info in Hr. apply bind_Some in Hr as (p & Hslot & Hr). cbv zeta in Hr.
  apply bind_Some in Hr as (_ & _ & Hr).
  unfold _update in H. cbv zeta in H. apply bind_Some in H as (ci' & Hd' & H).
  change (deref (set_iter (iter s1 + 1) s1) c) with (deref s1 c) in Hd'.
  assert (Hi : iter (set_iter (iter s1 + 1) s1) < num_global_epochs P)
    by (cbn [iter set_iter]; lia).
  destruct p as [ci|]; injection Hr as <-.
  - assert (Hd : deref s c = Some ci) by (rewrite <- D0; apply deref_slot; exact Hslot).
    rewrite Hd. intros Hg.
    erewrite deref_store_eq in Hd' by exact Hslot. injection Hd' as <-.
    cbn [goa] in H. replace (goa ci =? -1) with false in H
      by (symmetry; apply Z.eqb_neq; exact Hg).
    apply _group_update_global_step in H; [|exact Hi].
    rewrite H. cbn [server set_iter]. rewrite <- S0. reflexivity.
  - assert (Hd : deref s c = None).
    { rewrite <- D0. unfold deref. rewrite Hslot. reflexivity. }
    rewrite Hd.
    erewrite deref_store_eq in Hd' by exact Hslot. injection Hd' as <-.
    cbn [goa Z.eqb] in H.
    apply _single_update_global_step in H as [H _]; [|exact Hi].
    rewrite H. cbn [server set_iter]. rewrite <- S0. reflexivity.
Qed.

(** One client and one step per round: the first reply brings [global_step]
    to 1; the second arrives in time, completes group 0, which is aggregated
    and replaced by group 1, and [global_step] is still 1. *)
Lemma global_step_counts_first_replies_witness :
  global_step (server s6_after_first) = 1
  /\ keys (group_of_arrival s6_after_first) = [0]
  /\ global_step (server s6_after_second) = global_step (server s6_second)
  /\ keys (group_of_arrival s6_after_second) = [1].
Proof.
  split; [vm_compute; reflexivity|]. split; [vm_compute; reflexivity|].
  split; [|vm_compute; reflexivity].
  assert (Hrun : update s6_params 0 s6_second = Some s6_after_second)
    by (vm_compute; reflexivity).
  assert (Hiter : iter s6_second + 1 < num_global_epochs s6_params)
    by (vm_compute; reflexivity).
  pose proof (global_step_counts_first_replies s6_params 0 s6_second s6_after_second
                Hiter Hrun) as H.
  assert (Hd : deref s6_second 0
               = Some (default new_ClientInfo (deref s6_second 0)))
    by (vm_compute; reflexivity).
  rewrite Hd in H. apply H. vm_compute. discriminate.
Defined.



(** ** [_join_group] *)

Lemma join_scan_picks P s c ci t gs : forall a r,
  deref s c = Some ci ->
  join_scan P s c t gs a = Some r ->
  (r = a /\ forall k g n, (k, g) ∈ gs -> steps_until t ci g = Some n ->
                          admissible P n -> n < a.2)
  \/ exists l1 g l2,
       gs = l1 ++ (r.1, g) :: l2
       /\ steps_until t ci g = Some r.2 /\ admissible P r.2 /\ a.2 <= r.2
       /\ (forall k g' n, (k, g') ∈ l1 -> steps_until t ci g' = Some n ->
                          admissible P n -> n <= r.2)
       /\ (forall k g' n, (k, g') ∈ l2 -> steps_until t ci g' = Some n ->
                          admissible P n -> n < r.2).
Proof.
  induction gs as [|[key group] gs IH]; intros a r Hd H; cbn [join_scan] in H.
  - injection H as <-. left. split; [reflexivity|]. intros k g n Hin.
    apply elem_of_nil in Hin. contradiction.
  - rewrite Hd in H. cbn [mbind option_bind] in H.
    apply bind_Some in H as (n0 & Hn0 & H).
    destruct ((n0 <? min_local_steps P) || (n0 <? a.2) || (n0 >? max_local_steps_bound P))
      eqn:E.
    + assert (Hskip : admissible P n0 -> n0 < a.2).
      { intros [H1 H2]. apply orb_true_iff in E as [E|E]; [|lia].
        apply orb_true_iff in E as [E|E]; lia. }
      destruct (IH a r Hd H) as [[-> Hall]|(l1 & g & l2 & -> & Hs & Ha & Hle & H1 & H2)].
      * left. split; [reflexivity|]. intros k g n Hin Hst Hadm.
        apply elem_of_cons in Hin as [Heq|Hin]; [|eapply Hall; eassumption].
        injection Heq as -> ->. unfold steps_until in Hst. rewrite Hn0 in Hst.
        injection Hst as <-. auto.
      * right. exists ((key, group) :: l1), g, l2. split; [reflexivity|].
        split; [exact Hs|]. split; [exact Ha|]. split; [exact Hle|]. split; [|exact H2].
        intros k g' n Hin Hst Hadm.
        apply elem_of_cons in Hin as [Heq|Hin]; [|eapply H1; eassumption].
        injection Heq as -> ->. unfold steps_until in Hst. rewrite Hn0 in Hst.
        injection Hst as <-. specialize (Hskip Hadm). lia.
    + apply orb_false_iff in E as [E E3]. apply orb_false_iff in E as [E1 E2].
      assert (Hadm0 : admissible P n0 /\ a.2 <= n0) by (unfold admissible; lia).
      destruct (IH (key, n0) r Hd H)
        as [[-> Hall]|(l1 & g & l2 & -> & Hs & Ha & Hle & H1 & H2)].
      * right. exists [], group, gs. cbn [fst snd app] in *.
        split; [reflexivity|]. split; [exact Hn0|]. split; [apply Hadm0|].
        split; [apply Hadm0|]. split; [|exact Hall].
        intros k g' n Hin. apply elem_of_nil in Hin. contradiction.
      * right. exists ((key, group) :: l1), g, l2. cbn [fst snd] in Hle.
        split; [reflexivity|].
        split; [exact Hs|]. split; [exact Ha|]. split; [lia|]. split; [|exact H2].
        intros k g' n Hin Hst Hadm.
        apply elem_of_cons in Hin as [Heq|Hin]; [|eapply H1; eassumption].
        injection Heq as -> ->. unfold steps_until in Hst. rewrite Hn0 in Hst.
        injection Hst as <-. exact Hle.
Qed.

(** X16.  The loop of [_join_group] picks, among the groups in which the
    client could do between [min_local_steps] and [max_local_steps_bound]
    steps before the expected arrival, one that allows the most steps, and of
    several such the one with the largest id; it picks none, leaving -1,
    exactly when no group allows an admissible number of steps. *)
Theorem join_group_takes_most_steps
    (P : params) (s : state) (c : Z) (ci : ClientInfo) (t : Q) (gs : groups)
    (r : Z * Z)
    (Hinfo : deref s c = Some ci)
    (Hscan : join_scan P s c t gs (-1, -1) = Some r) :
  (r = (-1, -1)
   /\ forall k g n, (k, g) ∈ gs -> steps_until t ci g = Some n -> ~ admissible P n)
  \/ exists before g after,
       gs = before ++ (r.1, g) :: after
       /\ steps_until t ci g = Some r.2 /\ admissible P r.2
       /\ (forall k g' n, (k, g') ∈ before -> steps_until t ci g' = Some n ->
                          admissible P n -> n <= r.2)
       /\ (forall k g' n, (k, g') ∈ after -> steps_until t ci g' = Some n ->
                          admissible P n -> n < r.2).
Proof.
  destruct (join_scan_picks P s c ci t gs (-1, -1) r Hinfo Hscan)
    as [[-> Hall]|(l1 & g & l2 & E & Hs & Ha & _ & H1 & H2)].
  - left. split; [reflexivity|]. intros k g n Hin Hst Hadm.
    specialize (Hall k g n Hin Hst Hadm). cbn [snd] in Hall.
    destruct Hadm as [Hmin _]. unfold min_local_steps in Hmin. lia.
  - right. exists l1, g, l2. auto.
Qed.

(** In the run with a straggler, at 20.09 s client 0 (speed 1.003) can do
    3 steps until group 1 is expected (24.03 s) and none until group 0, which
    has been aggregated: the loop picks group 1 with 3 steps. *)
Lemma join_group_takes_most_steps_witness :
  keys (group_of_arrival straggler_two_groups) = [0; 1]
  /\ join_scan straggler_params straggler_two_groups 0 (2009 # 100)
       (group_of_arrival straggler_two_groups) (-1, -1) = Some (1, 3)
  /\ exists before g after,
       group_of_arrival straggler_two_groups = before ++ (1, g) :: after
       /\ steps_until (2009 # 100)
            (default new_ClientInfo (deref straggler_two_groups 0)) g = Some 3.
Proof.
  split; [vm_compute; reflexivity|].
  assert (Hscan : join_scan straggler_params straggler_two_groups 0 (2009 # 100)
                    (group_of_arrival straggler_two_groups) (-1, -1) = Some (1, 3))
    by (vm_compute; reflexivity).
  split; [exact Hscan|].
  assert (Hinfo : deref straggler_two_groups 0
                  = Some (default new_ClientInfo (deref straggler_two_groups 0)))
    by (vm_compute; reflexivity).
  destruct (join_group_takes_most_steps straggler_params straggler_two_groups 0 _
              (2009 # 100) _ (1, 3) Hinfo Hscan)
    as [[E _]|(before & g & after & E & Hs & _)]; [discriminate E|].
  exists before, g, after. split; [exact E|exact Hs].
Defined.

(** ** Clients between two events *)



(** ** The FedCompass server *)

Lemma server_loop_past_the_epochs P validation_flag evs : forall g s,
  num_global_epochs P <= g -> server_loop P validation_flag evs g s = None.
Proof.
  induction evs as [|[c sl|n sl] evs IH]; intros g s Hg; cbn [server_loop];
    [reflexivity| |].
  - destruct (update P c (set_slack sl s)) as [s'|]; [|reflexivity].
    cbn [mbind option_bind]. cbv zeta.
    replace (g + 1 =? num_global_epochs P) with false by (symmetry; apply Z.eqb_neq; lia).
    apply IH. lia.
  - destruct (wake P n sl s) as [s'|]; [|reflexivity]. cbn [mbind option_bind].
    apply IH. exact Hg.
Qed.

(** X18.  The FedCompass server tests [global_step == num_epochs] only
    after an update has been counted, so with [epochs <= 0] the test never
    holds: no sequence of replies and deadlines brings the server out of its
    loop, to the cleanup and the termination messages. *)
Theorem fedcompass_server_needs_an_epoch
    (P : params) (dataloader_cost : Q) (validation_flag : bool) (evs : list event)
    (Hepochs : num_global_epochs P <= 0) :
  server_main P dataloader_cost validation_flag evs = None
  /\ forall s, server_loop P validation_flag evs 0 s = None.
Proof.
  assert (H : forall s, server_loop P validation_flag evs 0 s = None)
    by (intros s; apply server_loop_past_the_epochs; exact Hepochs).
  split; [|exact H]. unfold server_main.
  destruct (guard (0 ≤ num_clients P)) as [Hn|]; [|reflexivity]. cbn [mbind option_bind].
  cbv zeta.
  destruct (SchedulerCompass P _ _) as [s|]; [|reflexivity]. cbn [mbind option_bind].
  rewrite H. reflexivity.
Qed.

(** Scenario S5 with [epochs = 0]: the two replies do not end the loop. *)
Lemma fedcompass_server_needs_an_epoch_witness :
  server_main (mk_params 10 2 0 8 (2 # 10) (15 # 10) 1) 1 false s5_events = None
  /\ exists s, exec (mk_params 10 2 0 8 (2 # 10) (15 # 10) 1) s5_events
                 (default no_state
                    (SchedulerCompass (mk_params 10 2 0 8 (2 # 10) (15 # 10) 1) {[0; 1]} []))
               = Some s.
Proof.
  split.
  - exact (proj1 (fedcompass_server_needs_an_epoch (mk_params 10 2 0 8 (2 # 10) (15 # 10) 1)
                    1 false s5_events ltac:(vm_compute; discriminate))).
  - eexists. vm_compute. reflexivity.
Defined.

(** ** Groups and their deadline actors *)

Section Tidy.
Variable P : params.

(** Steps that touch neither the groups, nor the sleeping actors, nor
    [group_counter]. *)
Let kept (s s' : state) : Prop :=
  group_of_arrival s' = group_of_arrival s /\ sleepers s' = sleepers s
  /\ group_counter s' = group_counter s.

Lemma kept_refl s : kept s s.
Proof. repeat split. Qed.

Lemma kept_trans s1 s2 s3 : kept s1 s2 -> kept s2 s3 -> kept s1 s3.
Proof. intros (A & B & C) (A' & B' & C'). repeat split; congruence. Qed.

Lemma kept_suspend base s : kept s (suspend base s).
Proof. unfold suspend. destruct (slack s); repeat split. Qed.

Lemma kept_execute x s : kept s (execute P x s).
Proof. unfold execute. eapply kept_trans; [|apply kept_suspend]. repeat split. Qed.

Lemma kept_get n s : kept s (get P n s).
Proof. unfold get. eapply kept_trans; [|apply kept_suspend]. repeat split. Qed.

Lemma kept_put m n b s : kept s (put m n b s).
Proof. unfold put. eapply kept_trans; [|apply kept_suspend]. repeat split. Qed.

Lemma kept_with_server f s : kept s (with_server f s).
Proof. repeat split. Qed.

Lemma kept_server_update s : kept s (server_update P s).
Proof.
  unfold server_update. eapply kept_trans; [apply kept_execute|apply kept_with_server].
Qed.

Lemma kept_server_single_buffer s : kept s (server_single_buffer P s).
Proof.
  unfold server_single_buffer.
  eapply kept_trans; [apply kept_execute|apply kept_with_server].
Qed.

Lemma kept_server_update_all s : kept s (server_update_all P s).
Proof.
  unfold server_update_all. eapply kept_trans; [apply kept_execute|apply kept_with_server].
Qed.

Lemma kept_server_update_group g s : kept s (server_update_group P g s).
Proof.
  unfold server_update_group. destruct (group_pseudo_grad (server s) !! g);
    [apply kept_refl|].
  eapply kept_trans; [apply kept_execute|apply kept_with_server].
Qed.

Lemma kept_server_buffer g s : kept s (server_buffer P g s).
Proof.
  unfold server_buffer.
  eapply kept_trans; [apply kept_with_server|].
  eapply kept_trans; [apply kept_execute|apply kept_with_server].
Qed.

Lemma kept_send_model c s s' : _send_model P c s = Some s' -> kept s s'.
Proof.
  unfold _send_model. intros H. apply bind_Some in H as (ci & _ & H). cbv zeta in H.
  injection H as <-. unfold _send_global_model_to_client.
  match goal with
  | |- kept s (set_pending_clients _ (execute P ?x (put ?m ?n ?b ?s0))) =>
      apply (kept_trans s s0); [repeat split|];
      apply (kept_trans s0 (put m n b s0)); [apply kept_put|];
      apply (kept_trans _ (execute P x (put m n b s0))); [apply kept_execute|repeat split]
  end.
Qed.

Lemma kept_send_all cs : forall s s', send_all P cs s = Some s' -> kept s s'.
Proof.
  induction cs as [|c cs IH]; intros s s' H; cbn [send_all] in H.
  - injection H as <-. apply kept_refl.
  - apply bind_Some in H as (s1 & H1 & H).
    eapply kept_trans; [eapply kept_send_model; exact H1|apply IH; exact H].
Qed.

Lemma kept_stamp_arrived cs : forall acc s r, stamp_arrived cs acc s = Some r -> kept s r.2.
Proof.
  induction cs as [|c cs IH]; intros acc s r H; cbn [stamp_arrived] in H.
  - injection H as <-. apply kept_refl.
  - apply bind_Some in H as (ci & _ & H). cbv zeta in H. apply IH in H.
    eapply kept_trans; [|exact H]. repeat split.
Qed.

Lemma kept_record_info c s s' : _record_info P c s = Some s' -> kept s s'.
Proof.
  unfold _record_info. intros H. cbv zeta in H.
  apply bind_Some in H as (p & _ & H). apply bind_Some in H as (_ & _ & H).
  destruct p; injection H as <-; repeat split.
Qed.

Lemma kept_recv c s : kept s (_recv_local_model_from_client P c s).
Proof.
  unfold _recv_local_model_from_client.
  eapply kept_trans; [apply kept_get|]. eapply kept_trans; [apply kept_execute|].
  repeat split.
Qed.

Lemma tidy_kept x s s' : kept s s' -> tidy x s -> tidy x s'.
Proof.
  intros (A & B & C) [H0 H1 H2 H3 H4 H5].
  assert (Hids : sleeper_ids s' = sleeper_ids s) by (unfold sleeper_ids; rewrite B; reflexivity).
  split; rewrite ?A, ?C, ?Hids; try assumption.
  intros z g Hz. rewrite B in Hz. apply H5. exact Hz.
Qed.

Lemma tidy_exempt x y s : tidy x s -> x ∉ keys (group_of_arrival s) -> tidy y s.
Proof.
  intros [H0 H1 H2 H3 H4 H5] Hx. split; try assumption.
  apply Forall_forall. intros [k g] Hin. right.
  eapply Forall_forall in H4; [|exact Hin]. destruct H4 as [E|E]; [|exact E].
  cbn [fst] in E. subst k. exfalso. apply Hx. apply list_elem_of_fmap.
  exists (x, g). split; [reflexivity|exact Hin].
Qed.

Lemma tidy_weaken y s : tidy (-1) s -> tidy y s.
Proof.
  intros H. apply (tidy_exempt (-1)); [exact H|]. intros Hin.
  eapply Forall_forall in Hin; [|exact (tidy_fresh _ _ H)]. cbn in Hin. lia.
Qed.

(** The exempted group awaits a client after all. *)
Lemma tidy_settle x y g s :
  tidy x s -> find_group (group_of_arrival s) x = Some g -> clients g <> [] -> tidy y s.
Proof.
  intros [H0 H1 H2 H3 H4 H5] Hf Hne. split; try assumption.
  apply Forall_forall. intros [k g'] Hin. right.
  eapply Forall_forall in H4; [|exact Hin]. destruct H4 as [E|E]; [|exact E].
  cbn [fst snd] in *. subst k. apply In_find_group in Hin; [|exact H2].
  assert (g' = g) by congruence. subst g'. exact Hne.
Qed.

(** A change of group [k] that keeps its latest arrival time while it is
    open. *)
Lemma tidy_alter x f k g s :
  tidy x s -> find_group (group_of_arrival s) k = Some g ->
  (is_closed (f g) = false ->
   is_closed g = false /\ latest_arrival_time (f g) = latest_arrival_time g) ->
  (k = x \/ clients (f g) <> []) ->
  tidy x (set_group_of_arrival (alter_group f k (group_of_arrival s)) s).
Proof.
  intros [H0 H1 H2 H3 H4 H5] Hf Htime Hne.
  assert (HG : forall g0, (k, g0) ∈ group_of_arrival s -> g0 = g).
  { intros g0 Hin. apply In_find_group in Hin; [congruence|exact H2]. }
  split; cbn [group_of_arrival group_counter sleepers set_group_of_arrival];
    rewrite ?keys_alter; try assumption.
  - apply Forall_alter; [exact H4|]. intros g0 Hin _. rewrite (HG g0 Hin). exact Hne.
  - intros z g' Hz Hf' Hopen. destruct (decide (s_group z = k)) as [E|E].
    + rewrite E, (find_alter_eq f k _ g Hf) in Hf'. injection Hf' as <-.
      destruct (Htime Hopen) as [Ho ->]. apply (H5 z g Hz); [rewrite E; exact Hf|exact Ho].
    + rewrite find_alter_ne in Hf' by congruence. exact (H5 z g' Hz Hf' Hopen).
Qed.

Lemma tidy_erase k s :
  tidy k s -> tidy (-1) (set_group_of_arrival (erase_group k (group_of_arrival s)) s).
Proof.
  intros H. apply (tidy_exempt k); [|apply keys_erase_notin; exact (tidy_keys _ _ H)].
  destruct H as [H0 H1 H2 H3 H4 H5].
  split; cbn [group_of_arrival group_counter sleepers set_group_of_arrival];
    try assumption.
  - apply Forall_forall. intros k' Hk'. eapply Forall_forall in H1; [exact H1|].
    eapply keys_erase. exact Hk'.
  - apply NoDup_keys_erase. exact H2.
  - apply Forall_erase. exact H4.
  - intros z g Hz Hf Hopen. destruct (decide (s_group z = k)) as [E|E].
    + exfalso. rewrite E in Hf. apply find_group_key in Hf.
      exact (keys_erase_notin k _ H2 Hf).
    + rewrite find_erase_ne in Hf by congruence. exact (H5 z g Hz Hf Hopen).
Qed.

Lemma keys_put_fresh k g gs : k ∉ keys gs -> keys (put_group k g gs) ≡ₚ k :: keys gs.
Proof.
  intros Hk. unfold keys. rewrite (put_group_fresh k g gs Hk). reflexivity.
Qed.

Lemma tidy_founded x o c ci' g s :
  tidy x s -> clients g <> [] -> tidy x (founded o c ci' g s).
Proof.
  intros [H0 H1 H2 H3 H4 H5] Hne.
  assert (Hk : group_counter s ∉ keys (group_of_arrival s)).
  { intros Hin. eapply Forall_forall in H1; [|exact Hin]. cbn in H1. lia. }
  pose proof (keys_put_fresh _ g _ Hk) as Hperm.
  pose proof (put_group_fresh _ g _ Hk) as Hperm'.
  split; unfold founded;
    cbn [group_of_arrival group_counter sleepers set_group_of_arrival set_sleepers
         set_group_counter].
  - lia.
  - change (group_of_arrival (store c ci' _)) with
      (put_group (group_counter s) g (group_of_arrival s)).
    rewrite Hperm. apply Forall_cons. split; [lia|].
    eapply Forall_impl; [exact H1|]. cbn. intros k Hkk. lia.
  - change (group_of_arrival (store c ci' _)) with
      (put_group (group_counter s) g (group_of_arrival s)).
    rewrite Hperm. apply NoDup_cons. split; assumption.
  - unfold sleeper_ids.
    cbn [sleepers set_group_counter].
    change (sleepers (store c ci' _)) with
      (sleepers s ++ [mk_sleeper o (group_counter s) (clock s)
                        (latest_arrival_time g - clock s)]).
    rewrite map_app. apply Forall_app. split.
    + eapply Forall_impl; [exact H3|]. cbn. intros k Hkk. lia.
    + apply Forall_cons. split; [cbn; lia|apply Forall_nil; exact I].
  - change (group_of_arrival (store c ci' _)) with
      (put_group (group_counter s) g (group_of_arrival s)).
    rewrite Hperm'. apply Forall_cons. split; [right; exact Hne|exact H4].
  - change (group_of_arrival (store c ci' _)) with
      (put_group (group_counter s) g (group_of_arrival s)).
    change (sleepers (store c ci' _)) with
      (sleepers s ++ [mk_sleeper o (group_counter s) (clock s)
                        (latest_arrival_time g - clock s)]).
    intros z g' Hz Hf Hopen. apply elem_of_app in Hz as [Hz|Hz].
    + assert (Hlt : s_group z < group_counter s).
      { eapply Forall_forall in H3; [exact H3|]. unfold sleeper_ids.
        apply list_elem_of_fmap. exists z. split; [reflexivity|exact Hz]. }
      rewrite find_put_ne in Hf by lia. exact (H5 z g' Hz Hf Hopen).
    + apply list_elem_of_singleton in Hz. subst z. cbn [s_group] in Hf.
      rewrite find_put_eq in Hf. injection Hf as <-. unfold due. cbn. ring.
Qed.

Hypothesis HM : 1 <= max_local_steps P.

Lemma tidy_assign_group x c s s' :
  tidy x s -> _assign_group P c s = Some s' -> tidy x s'.
Proof.
  intros H Ha.
  apply (_assign_group_shape P HM) in Ha as (ci & n & Hd & Hn & Hcase).
  destruct Hcase as [(_ & -> & ->)|[->|(j & G & Hin & Hk & ->)]].
  - apply tidy_founded; [exact H|discriminate].
  - apply tidy_founded; [exact H|discriminate].
  - unfold joined.
    apply (tidy_kept x (set_group_of_arrival
                          (alter_group (push_client c) j (group_of_arrival s)) s));
      [repeat split|].
    apply tidy_alter with (g := G); [exact H| | |].
    + apply In_find_group; [exact (tidy_keys _ _ H)|exact Hin].
    + intros Ho. split; [exact Ho|reflexivity].
    + right. cbn. intros E. apply app_eq_nil in E as [_ E]. discriminate.
Qed.

Lemma tidy_assign_all x cs : forall s s',
  tidy x s -> assign_all P cs s = Some s' -> tidy x s'.
Proof.
  induction cs as [|c cs IH]; intros s s' H Ha; cbn [assign_all] in Ha.
  - injection Ha as <-. exact H.
  - apply bind_Some in Ha as (s1 & H1 & Ha).
    eapply IH; [|exact Ha]. eapply tidy_assign_group; eassumption.
Qed.

Lemma tidy_send_or_finish s s' (send : option state) :
  (send = Some s' -> kept s s') ->
  (if iter s <? num_global_epochs P then send else Some (server_update_all P s)) = Some s' ->
  kept s s'.
Proof.
  intros Hs H. destruct (iter s <? num_global_epochs P); [exact (Hs H)|].
  injection H as <-. apply kept_server_update_all.
Qed.

Lemma tidy_group_aggregation g s s' :
  tidy g s -> _group_aggregation P g s = Some s' -> tidy (-1) s'.
Proof.
  intros H Ha. unfold _group_aggregation in Ha.
  destruct (find_group (group_of_arrival s) g) as [G|] eqn:Hf.
  2:{ injection Ha as <-. apply (tidy_exempt g); [exact H|].
      apply find_group_None. exact Hf. }
  apply bind_Some in Ha as ([cs s2] & Hst & Ha). cbv zeta beta iota in Ha.
  apply bind_Some in Ha as (s4 & Hasg & Ha).
  apply bind_Some in Ha as (g' & Hg' & Ha).
  pose proof (kept_trans _ _ _ (kept_server_update_group g s)
                (kept_stamp_arrived _ _ _ _ Hst)) as K. cbn [snd] in K.
  pose proof (tidy_kept g _ _ K H) as H2.
  assert (Hf2 : find_group (group_of_arrival s2) g = Some G)
    by (rewrite (proj1 K); exact Hf).
  assert (H3 : tidy g (set_group_of_arrival
                         (alter_group close_group g (group_of_arrival s2)) s2)).
  { apply tidy_alter with (g := G); [exact H2|exact Hf2| |left; reflexivity].
    intros Ho. exfalso. revert Ho. unfold is_closed. cbn. discriminate. }
  pose proof (tidy_assign_all g _ _ _ H3 Hasg) as H4.
  match type of Ha with context [if ?b then set_group_of_arrival ?x s4 else s4] =>
    set (s5 := if b then set_group_of_arrival x s4 else s4) in * end.
  assert (H5 : tidy (-1) s5).
  { subst s5. destruct (Nat.eqb (length (clients g')) 0) eqn:El.
    - apply tidy_erase. exact H4.
    - apply (tidy_settle g (-1) g'); [exact H4|exact Hg'|].
      intros E. rewrite E in El. discriminate. }
  eapply tidy_kept; [|exact H5].
  eapply tidy_send_or_finish; [|exact Ha]. apply kept_send_all.
Qed.

Lemma tidy_single_update c b s s' :
  tidy (-1) s -> _single_update P c b s = Some s' -> tidy (-1) s'.
Proof.
  intros H Hu. unfold _single_update in Hu. cbv zeta in Hu.
  match type of Hu with context [deref ?s0 c] => set (s1 := s0) in * end.
  assert (K1 : kept s s1).
  { subst s1. destruct b; [apply kept_server_single_buffer|apply kept_server_update]. }
  apply bind_Some in Hu as (ci & Hd & Hu).
  apply bind_Some in Hu as (s3 & Ha & Hu).
  apply tidy_assign_group with (x := -1) in Ha.
  - eapply tidy_kept; [|exact Ha]. eapply tidy_send_or_finish; [|exact Hu].
    apply kept_send_model.
  - eapply tidy_kept; [|exact H]. eapply kept_trans; [exact K1|]. repeat split.
Qed.

Lemma tidy_group_update c k s s' :
  tidy (-1) s -> _group_update P c k s = Some s' -> tidy (-1) s'.
Proof.
  intros H Hu. unfold _group_update in Hu. cbv zeta in Hu.
  apply bind_Some in Hu as (G & Hf & Hu).
  destruct (Qle_bool (latest_arrival_time G) (clock s)).
  - apply bind_Some in Hu as (v & _ & Hu).
    match type of Hu with context [alter_group ?f k _] => set (leave := f) in * end.
    assert (HA : tidy k (set_group_of_arrival
                           (alter_group leave k (group_of_arrival s)) s)).
    { apply tidy_alter with (g := G); [apply tidy_weaken; exact H|exact Hf| |left; reflexivity].
      intros Ho. split; [exact Ho|reflexivity]. }
    eapply tidy_single_update; [|exact Hu].
    destruct (Nat.eqb (length v) 0) eqn:El.
    + apply tidy_erase. exact HA.
    + apply (tidy_settle k (-1) (leave G)); [exact HA|apply find_alter_eq; exact Hf|].
      subst leave. cbn. intros E. rewrite E in El. discriminate.
  - apply bind_Some in Hu as (v & _ & Hu).
    match type of Hu with context [alter_group ?f k _] => set (arrive := f) in * end.
    assert (HA : tidy k (set_group_of_arrival
                           (alter_group arrive k (group_of_arrival s)) s)).
    { apply tidy_alter with (g := G); [apply tidy_weaken; exact H|exact Hf| |left; reflexivity].
      intros Ho. split; [exact Ho|reflexivity]. }
    pose proof (tidy_kept k _ _ (kept_server_buffer k _) HA) as HB.
    destruct (Nat.eqb (length v) 0) eqn:El.
    + eapply tidy_group_aggregation; [exact HB|exact Hu].
    + injection Hu as <-. apply (tidy_settle k (-1) (arrive G)); [exact HB| |].
      * rewrite (proj1 (kept_server_buffer k _)). apply find_alter_eq. exact Hf.
      * subst arrive. cbn. intros E. rewrite E in El. discriminate.
Qed.

Lemma tidy_update c s s' : tidy (-1) s -> update P c s = Some s' -> tidy (-1) s'.
Proof.
  intros H Hu. unfold update in Hu. apply bind_Some in Hu as (s1 & Hr & Hu).
  pose proof (tidy_kept (-1) _ _ (kept_trans _ _ _ (kept_recv c s) (kept_record_info _ _ _ Hr))
                H) as H1.
  unfold _update in Hu. cbv zeta in Hu. apply bind_Some in Hu as (ci & _ & Hu).
  assert (H2 : tidy (-1) (set_iter (iter s1 + 1) s1))
    by (eapply tidy_kept; [|exact H1]; repeat split).
  destruct (goa ci =? -1);
    [eapply tidy_single_update|eapply tidy_group_update]; eassumption.
Qed.

Lemma tidy_wake n sl s s' : tidy (-1) s -> wake P n sl s = Some s' -> tidy (-1) s'.
Proof.
  intros H Hw. unfold wake in Hw. apply bind_Some in Hw as (z & Hz & Hw). cbv zeta in Hw.
  eapply tidy_group_aggregation; [|exact Hw]. apply tidy_weaken.
  destruct H as [H0 H1 H2 H3 H4 H5].
  split; cbn [group_of_arrival group_counter sleepers set_slack set_clock set_sleepers];
    try assumption.
  - unfold sleeper_ids. cbn [sleepers set_slack set_clock set_sleepers].
    apply Forall_forall. intros k Hk. eapply Forall_forall in H3; [exact H3|].
    unfold sleeper_ids. eapply elem_of_sublist; [exact Hk|].
    change (map s_group (delete n (sleepers s))) with (s_group <$> delete n (sleepers s)).
    rewrite list_fmap_delete. apply sublist_delete.
  - intros z' g Hz'. apply H5. eapply elem_of_sublist; [exact Hz'|apply sublist_delete].
Qed.

Lemma tidy_exec evs : forall s s', tidy (-1) s -> exec P evs s = Some s' -> tidy (-1) s'.
Proof.
  induction evs as [|ev evs IH]; intros s s' H He; cbn [exec] in He.
  - injection He as <-. exact H.
  - apply bind_Some in He as (s1 & Hh & He). eapply IH; [|exact He].
    destruct ev as [c sl|n sl]; cbn [handle] in Hh.
    + eapply tidy_update; [|exact Hh]. eapply tidy_kept; [|exact H]. repeat split.
    + eapply tidy_wake; eassumption.
Qed.

Lemma run_tidy pending tr0 s0 evs s :
  SchedulerCompass P pending tr0 = Some s0 -> exec P evs s0 = Some s -> tidy (-1) s.
Proof.
  intros Hnew Hrun. eapply tidy_exec; [|exact Hrun].
  unfold SchedulerCompass in Hnew.
  apply bind_Some in Hnew as (_ & _ & Hnew).
  apply bind_Some in Hnew as (_ & _ & Hnew).
  apply bind_Some in Hnew as (_ & _ & Hnew).
  injection Hnew as <-. split; cbn; try constructor; try lia.
  intros z g Hz. apply elem_of_nil in Hz. contradiction.
Qed.

End Tidy.





Lemma fastest_defined s l : forall acc,
  (forall c, c ∈ l -> exists ci, deref s c = Some ci /\ (0 < speed ci)%Q) ->
  (forall a, acc = Some a -> (0 < a)%Q) ->
  exists r, fastest s l acc = Some r
    /\ (forall a, r = Some a -> (0 < a)%Q)
    /\ (l <> [] \/ is_Some acc -> is_Some r).
Proof.
  induction l as [|c l IH]; intros acc Hl Hacc; cbn [fastest].
  - exists acc. split; [reflexivity|]. split; [exact Hacc|]. intros [E|E]; [congruence|exact E].
  - destruct (Hl c) as (ci & Hd & Hsp); [left|]. rewrite Hd. cbn [mbind option_bind].
    cbv zeta.
    destruct (IH (Some match acc with
                       | Some a => if Qltb (speed ci) a then speed ci else a
                       | None => speed ci
                       end)) as (r & Hr & Hpos & Hsome).
    + intros c' Hc'. apply Hl. right. exact Hc'.
    + intros a [= <-]. destruct acc as [a0|]; [|exact Hsp].
      destruct (Qltb (speed ci) a0); [exact Hsp|]. apply Hacc. reflexivity.
    + exists r. split; [exact Hr|]. split; [exact Hpos|]. intros _. apply Hsome.
      right. eauto.
Qed.



(** ** The configuration [main] reads *)

Import Settings.

Lemma to_int_id n : in_int n = true -> to_int n = n.
Proof.
  unfold in_int, to_int, INT_MIN, INT_MAX. intros H.
  apply andb_true_iff in H as [H1 H2]. apply Z.leb_le in H1, H2.
  rewrite Z.mod_small by lia. lia.
Qed.

Lemma to_long_id n : in_long n = true -> to_long n = n.
Proof.
  unfold in_long, to_long. intros H.
  apply andb_true_iff in H as [H1 H2]. apply Z.leb_le in H1. apply Z.ltb_lt in H2.
  rewrite Z.mod_small by lia. lia.
Qed.

Lemma reading_bind_Read {A B} (f : A -> reading B) (m : reading A) b :
  m ≫= f = Read b -> exists a, m = Read a /\ f a = Read b.
Proof. destruct m; cbn; try discriminate. eauto. Qed.

Lemma at_Read j k v : at_ j k = Read v -> contains j k = true.
Proof.
  destruct j; cbn; try discriminate. destruct (assoc kv k); [reflexivity | discriminate].
Qed.

Lemma at_get_Read {A} j k (get : json -> reading A) x :
  at_ j k ≫= get = Read x -> contains j k = true.
Proof. intros H. apply reading_bind_Read in H as (v & H & _). exact (at_Read _ _ _ H). Qed.

Ltac read_inv H :=
  repeat match type of H with
         | _ ≫= _ = Read _ =>
             let a := fresh "a" in let Ha := fresh "Ha" in
             apply reading_bind_Read in H as (a & Ha & H)
         end;
  repeat match goal with
         | Ha : at_ _ _ ≫= _ = Read _ |- _ => apply at_get_Read in Ha
         end.

Ltac entries H :=
  repeat match type of H with
         | Forall _ (_ :: _) => let E := fresh "E" in apply Forall_cons in H as [E H]
         end;
  unfold holds, lacks in *; cbn [fst snd] in *.

Ltac read_entries kv :=
  unfold straggler_rules, at_, value_int, value_double, contains, at_key;
  repeat match goal with H : assoc kv _ = _ |- _ => rewrite H; clear H end;
  cbn; rewrite ?to_int_id, ?to_long_id by assumption; cbn.

(** X22.  FedCompass: [main] checks no value it reads.  From any object
    that holds the required keys with integers that fit their types and any
    costs, whatever other keys it has, the settings are read as they stand:
    all of them when the optional keys are there too, and with [q_ratio]
    0.2, [lambda] 1.5, [validation_cost] 0, [validation_flag] 0, [control] 0
    and no straggler rule when the optional keys are missing. *)
Theorem fedcompass_reads_without_checks (c : fedcompass_settings)
    (kv : list (string * json)) :
  in_int (fc_num_nodes c) = true -> in_int (fc_num_clients_per_node c) = true ->
  in_int (fc_max_local_steps c) = true -> in_long (fc_num_epochs c) = true ->
  in_int (fc_validation_flag c) = true -> in_int (fc_control c) = true ->
  Forall (holds kv) (fedcompass_required c) ->
  (Forall (holds kv) (fedcompass_optional c) -> fedcompass_read (JObject kv) = Read c) /\
  (Forall (lacks kv) (fedcompass_optional c) ->
   fedcompass_read (JObject kv) = Read (fedcompass_defaults c)).
Proof.
  intros H1 H2 H3 H4 H5 H6 Hr.
  unfold fedcompass_required, entry in Hr. entries Hr.
  split; intros Ho; unfold fedcompass_optional, entry in Ho; entries Ho;
    unfold fedcompass_read; read_entries kv.
  - destruct c; reflexivity.
  - reflexivity.
Qed.

Lemma fedcompass_reads_without_checks_witness :
  fedcompass_read
    (JObject (fedcompass_optional fedcompass_example ++
              fedcompass_required fedcompass_example)) = Read fedcompass_example /\
  fedcompass_read
    (JObject (entry "seed" (JInt 1) :: fedcompass_required fedcompass_example)) =
  Read (fedcompass_defaults fedcompass_example).
Proof.
  split.
  - apply (fedcompass_reads_without_checks fedcompass_example);
      try reflexivity; repeat constructor.
  - apply (fedcompass_reads_without_checks fedcompass_example);
      try reflexivity; repeat constructor.
Defined.

(** X23.  FedCompass: a configuration without one of [num_nodes],
    [clients_per_node], [max_local_steps], [epochs], [dataloader_cost],
    [aggregation_cost], [training_cost], [model_size] is never read to the
    end: [main] stops on an exception it does not catch (or on an earlier
    conversion that is undefined). *)
Theorem fedcompass_requires_its_keys (config : json) (k : string) :
  In k fedcompass_required_keys -> contains config k = false ->
  is_read (fedcompass_read config) = false.
Proof.
  intros Hk Hc. destruct (fedcompass_read config) as [c| |] eqn:H; try reflexivity.
  exfalso. unfold fedcompass_read in H. read_inv H.
  cbn in Hk. intuition (subst; congruence).
Qed.

Lemma fedcompass_requires_its_keys_witness :
  is_read
    (fedcompass_read
       (JObject (fedcompass_optional fedcompass_example ++
                 take 7 (fedcompass_required fedcompass_example)))) = false.
Proof.
  apply (fedcompass_requires_its_keys _ "model_size").
  - cbn. tauto.
  - reflexivity.
Defined.

(** X24.  FedAvg: [main] checks no value it reads.  From any object that
    holds the required keys with integers that fit [int] and any costs,
    whatever other keys it has, the settings are read as they stand: all of
    them when [control] and [stragglers] are there too, and with [control] 0
    and no straggler rule when they are missing. *)
Theorem fedavg_reads_without_checks (c : fedavg_settings) (kv : list (string * json)) :
  in_int (fa_num_nodes c) = true -> in_int (fa_nclients_pernode c) = true ->
  in_int (fa_nepochs c) = true -> in_int (fa_control c) = true ->
  Forall (holds kv) (fedavg_required c) ->
  (Forall (holds kv) (fedavg_optional c) -> fedavg_read (JObject kv) = Read c) /\
  (Forall (lacks kv) (fedavg_optional c) ->
   fedavg_read (JObject kv) = Read (fedavg_defaults c)).
Proof.
  intros H1 H2 H3 H4 Hr.
  unfold fedavg_required, entry in Hr. entries Hr.
  split; intros Ho; unfold fedavg_optional, entry in Ho; entries Ho;
    unfold fedavg_read; read_entries kv.
  - destruct c; reflexivity.
  - reflexivity.
Qed.

Lemma fedavg_reads_without_checks_witness :
  fedavg_read
    (JObject (fedavg_optional fedavg_example ++ fedavg_required fedavg_example)) =
  Read fedavg_example /\
  fedavg_read (JObject (entry "model_size" (JFloat 1) :: fedavg_required fedavg_example)) =
  Read (fedavg_defaults fedavg_example).
Proof.
  split.
  - apply (fedavg_reads_without_checks fedavg_example); try reflexivity; repeat constructor.
  - apply (fedavg_reads_without_checks fedavg_example); try reflexivity; repeat constructor.
Defined.

(** X25.  FedAvg: a configuration without one of [num_nodes],
    [clients_per_node], [epochs], [dataloader_cost], [aggregation_cost],
    [training_cost], [comm_cost] is never read to the end: [main] stops on an
    exception it does not catch (or on an earlier conversion that is
    undefined). *)
Theorem fedavg_requires_its_keys (config : json) (k : string) :
  In k fedavg_required_keys -> contains config k = false ->
  is_read (fedavg_read config) = false.
Proof.
  intros Hk Hc. destruct (fedavg_read config) as [c| |] eqn:H; try reflexivity.
  exfalso. unfold fedavg_read in H. read_inv H.
  cbn in Hk. intuition (subst; congruence).
Qed.

Lemma fedavg_requires_its_keys_witness :
  is_read
    (fedavg_read
       (JObject (fedavg_optional fedavg_example ++
                 drop 1 (fedavg_required fedavg_example)))) = false.
Proof.
  apply (fedavg_requires_its_keys _ "num_nodes").
  - cbn. tauto.
  - reflexivity.
Defined.

(** * The scheduler with its suspension points *)

Import FedCompass Actors ActorFacts.

#[local] Arguments Qplus : simpl never.
#[local] Arguments Qminus : simpl never.
#[local] Arguments Qmult : simpl never.
#[local] Arguments Qdiv : simpl never.
#[local] Arguments Qle_bool : simpl never.
#[local] Arguments Qeq_bool : simpl never.
#[local] Arguments Qltb : simpl never.
#[local] Arguments inject_Z : simpl never.
#[local] Arguments static_cast_int : simpl never.
#[local] Arguments fdiv_to_int : simpl never.
#[local] Arguments Qtrunc : simpl never.
#[local] Arguments store : simpl never.
#[local] Arguments deref : simpl never.
#[local] Arguments slot : simpl never.
#[local] Arguments erase_remove : simpl never.
#[local] Arguments CompassSpec.is_closed : simpl never.
#[local] Arguments CompassSpec.cell : simpl never.
#[local] Arguments round64 : simpl never.

Section Sat.
Variables G R : state -> state -> Prop.
Hypothesis G_trans : forall s1 s2 s3, G s1 s2 -> G s2 s3 -> G s1 s3.

Lemma sat_start {A} (Q : A -> state -> Prop) s s1 r :
  G s s1 -> sat G R Q s1 r -> sat G R Q s r.
Proof using G_trans.
  intros H Hr. destruct Hr as [s1 a s2 H1 H2|s1|s1 w s2 k H1 H2].
  - apply sat_ret; eauto.
  - apply sat_stuck.
  - apply sat_yield; eauto.
Qed.

Lemma sat_post {A} (Q Q' : A -> state -> Prop) s r :
  (forall a s1, Q a s1 -> Q' a s1) -> sat G R Q s r -> sat G R Q' s r.
Proof using G_trans.
  intros HQ Hr. induction Hr as [s a s1 H1 H2|s|s w s1 k H1 H2 IH].
  - apply sat_ret; auto.
  - apply sat_stuck.
  - apply sat_yield; auto.
Qed.

Lemma sat_run_bind {A B} (Q : A -> state -> Prop) (Q' : B -> state -> Prop)
    (f : A -> task B) s r :
  sat G R Q s r -> (forall a s1, Q a s1 -> sat G R Q' s1 (f a s1)) ->
  sat G R Q' s (run_bind f r).
Proof using G_trans.
  intros Hr Hf. induction Hr as [s a s1 H1 H2|s|s w s1 k H1 H2 IH]; cbn [run_bind].
  - eapply sat_start; [exact H1|]. apply Hf. exact H2.
  - apply sat_stuck.
  - apply sat_yield; [exact H1|]. intros v s' Hs'. apply IH. exact Hs'.
Qed.

Lemma sat_bind {A B} (Q : A -> state -> Prop) (Q' : B -> state -> Prop)
    (m : task A) (f : A -> task B) s :
  sat G R Q s (m s) -> (forall a s1, Q a s1 -> sat G R Q' s1 (f a s1)) ->
  sat G R Q' s ((m ≫= f : task B) s).
Proof using G_trans. apply sat_run_bind. Qed.

(** A fact that neither the task nor the others undo holds at the end. *)
Lemma sat_frame {A} (F : state -> Prop) (Q : A -> state -> Prop) s r :
  (forall s s', F s -> G s s' -> F s') -> (forall s s', F s -> R s s' -> F s') ->
  F s -> sat G R Q s r -> sat G R (fun a s1 => Q a s1 /\ F s1) s r.
Proof using G_trans.
  intros HG HR HF Hr. induction Hr as [s a s1 H1 H2|s|s w s1 k H1 H2 IH].
  - apply sat_ret; [exact H1|]. split; [exact H2|]. eapply HG; eassumption.
  - apply sat_stuck.
  - apply sat_yield; [exact H1|]. intros v s' Hs'. apply IH; [exact Hs'|].
    eapply HR; [|exact Hs']. eapply HG; eassumption.
Qed.

Lemma sat_modify (Q : unit -> state -> Prop) f s :
  G s (f s) -> Q tt (f s) -> sat G R Q s (modify f s).
Proof using G_trans. intros. apply sat_ret; assumption. Qed.

Lemma sat_mret {A} (Q : A -> state -> Prop) (a : A) s :
  G s s -> Q a s -> sat G R Q s ((mret a : task A) s).
Proof using G_trans. intros. apply sat_ret; auto. Qed.

Lemma sat_attempt (Q : unit -> state -> Prop) f s :
  (forall s', f s = Some s' -> G s s' /\ Q tt s') -> sat G R Q s (attempt f s).
Proof using G_trans.
  intros H. unfold attempt. destruct (f s) as [s'|]; [|apply sat_stuck].
  destruct (H s' eq_refl). apply sat_ret; assumption.
Qed.

Lemma sat_inspect {A} (Q : A -> state -> Prop) (f : state -> option A) s :
  G s s -> (forall a, f s = Some a -> Q a s) -> sat G R Q s (inspect f s).
Proof using G_trans.
  intros Hs H. unfold inspect. destruct (f s) as [a|]; [|apply sat_stuck].
  apply sat_ret; auto.
Qed.

(** The state the task is resumed on is its new starting point. *)
Lemma sat_pause (Q : Z -> state -> Prop) w s :
  G s s -> (forall v s', R s s' -> G s' s' /\ Q v s') -> sat G R Q s (pause w s).
Proof using G_trans.
  intros Hs H. apply sat_yield; [exact Hs|]. intros v s' Hs'.
  destruct (H v s' Hs'). apply sat_ret; auto.
Qed.

Lemma sat_branch {A} (Q : A -> state -> Prop) (f : state -> task A) s :
  sat G R Q s (f s s) -> sat G R Q s (branch f s).
Proof using G_trans. auto. Qed.

End Sat.

(** ** Dispatched step counts (C2) *)

Section Bounds.
Variable P : params.
Variable fl : Q -> Q.
Hypothesis Hmin : Actors.min_local_steps P fl <= max_local_steps P.
Hypothesis Hmax : max_local_steps P <= Actors.max_local_steps_bound P fl.

Local Abbreviation in_bounds := (ActorFacts.in_bounds P fl).
Local Abbreviation assigned := (ActorFacts.assigned P fl).
Local Abbreviation guarantee := (ActorFacts.guarantee P fl).
Local Abbreviation rely := (ActorFacts.rely P fl).

Lemma min_steps_pos : 1 <= Actors.min_local_steps P fl.
Proof. unfold Actors.min_local_steps. lia. Qed.

Lemma grows_refl ok s : grows P fl ok s s.
Proof. split; [exists []; rewrite app_nil_r; split; [reflexivity|constructor]|auto]. Qed.

Lemma grows_trans ok s1 s2 s3 :
  grows P fl ok s1 s2 -> grows P fl ok s2 s3 -> grows P fl ok s1 s3.
Proof.
  intros [(t1 & E1 & F1) A1] [(t2 & E2 & F2) A2]. split; [|auto].
  exists (t1 ++ t2). rewrite E2, E1, app_assoc. split; [reflexivity|].
  apply Forall_app; auto.
Qed.

Lemma guarantee_rely s s' : guarantee s s' -> rely s s'.
Proof.
  intros [(tr & E & F) A]. split; [|exact A]. exists tr. split; [exact E|].
  eapply Forall_impl; [exact F|]. cbn. auto.
Qed.

(** Changes that leave the trace and the records alone. *)
Lemma grows_same ok s s' :
  trace s' = trace s -> client_info s' = client_info s -> grows P fl ok s s'.
Proof.
  intros Et Ec. split.
  - exists []. rewrite app_nil_r. split; [exact Et|constructor].
  - intros c (ci & Hd & Hb). exists ci. split; [|exact Hb].
    unfold deref, slot in *. rewrite Ec. exact Hd.
Qed.

Lemma grows_log ok a s : ok a -> grows P fl ok s (log a s).
Proof.
  intros Ha. split.
  - exists [a]. split; [reflexivity|repeat constructor; exact Ha].
  - intros c H. exact H.
Qed.

Lemma grows_store ok c ci' s x :
  slot s c = Some x -> (assigned s c -> in_bounds (local_steps ci')) ->
  grows P fl ok s (store c ci' s).
Proof.
  intros Hs Hok. split.
  - exists []. rewrite app_nil_r. split; [reflexivity|constructor].
  - intros c' (cj & Hj & Hb). destruct (decide (c = c')) as [<-|Hne].
    + exists ci'. split; [eapply deref_store_eq; exact Hs|].
      apply Hok. exists cj. auto.
    + exists cj. split; [|exact Hb]. rewrite deref_store_ne; [exact Hj| |exact Hne].
      eapply slot_nonneg. exact Hs.
Qed.

Lemma assigned_store c ci' s x :
  slot s c = Some x -> in_bounds (local_steps ci') -> assigned (store c ci' s) c.
Proof. intros Hs Hb. exists ci'. split; [eapply deref_store_eq; exact Hs|exact Hb]. Qed.

Lemma assigned_rely s s' c : assigned s c -> rely s s' -> assigned s' c.
Proof. intros H [_ A]. auto. Qed.

Lemma assigned_guarantee s s' c : assigned s c -> guarantee s s' -> assigned s' c.
Proof. intros H [_ A]. auto. Qed.

Let G_refl := grows_refl (good P fl).
Let G_trans := grows_trans (good P fl).

Local Abbreviation SAT := (sat guarantee rely).
Local Abbreviation any := (fun (_ : unit) (_ : state) => True).

Ltac sat_seq := eapply (sat_bind _ _ G_trans (fun _ _ => True)); [|intros ? ? _].
Ltac sat_then Q := eapply (sat_bind _ _ G_trans Q); [|intros ? ? ?].
Ltac sat_by lem := apply (lem _ _ G_trans); try apply G_refl.

Lemma sat_execute x s : SAT any s (Actors.execute P x s).
Proof.
  unfold Actors.execute. sat_seq; [sat_by sat_modify; [apply grows_log; exact I|exact I]|].
  sat_seq; [sat_by sat_pause; auto using G_refl|].
  apply sat_ret; [apply G_refl|exact I].
Qed.

Lemma sat_with_server f s : SAT any s (modify (with_server f) s).
Proof. sat_by sat_modify; [apply grows_same; reflexivity|exact I]. Qed.

Lemma sat_server_update s : SAT any s (Actors.server_update P s).
Proof. unfold Actors.server_update. sat_seq; [apply sat_execute|apply sat_with_server]. Qed.

Lemma sat_server_single_buffer s : SAT any s (Actors.server_single_buffer P s).
Proof.
  unfold Actors.server_single_buffer. sat_seq; [apply sat_execute|apply sat_with_server].
Qed.

Lemma sat_server_update_all s : SAT any s (Actors.server_update_all P s).
Proof.
  unfold Actors.server_update_all. sat_seq; [apply sat_execute|apply sat_with_server].
Qed.

Lemma sat_server_buffer g s : SAT any s (Actors.server_buffer P g s).
Proof.
  unfold Actors.server_buffer. sat_seq; [apply sat_with_server|].
  sat_seq; [apply sat_execute|apply sat_with_server].
Qed.

Lemma sat_server_update_group g s : SAT any s (Actors.server_update_group P g s).
Proof.
  unfold Actors.server_update_group.
  destruct (group_pseudo_grad (server s) !! g).
  - apply sat_ret; [apply G_refl|exact I].
  - sat_seq; [apply sat_execute|apply sat_with_server].
Qed.

Lemma sat_pending f s :
  SAT any s (modify (fun s => set_pending_clients (f s) s) s).
Proof. sat_by sat_modify; [apply grows_same; reflexivity|exact I]. Qed.

Lemma sat_recv s :
  SAT (fun _ _ => True) s (Actors._recv_local_model_from_client P s).
Proof.
  unfold Actors._recv_local_model_from_client.
  sat_seq; [sat_by sat_pause; auto using G_refl|].
  sat_seq; [sat_by sat_modify; [apply grows_log; exact I|exact I]|].
  sat_seq; [apply sat_execute|].
  sat_seq; [apply sat_pending|].
  apply sat_ret; [apply G_refl|exact I].
Qed.

Lemma _record_info_grows c s s' :
  Actors._record_info P fl c s = Some s' -> guarantee s s'.
Proof.
  unfold Actors._record_info. intros H. cbv zeta in H.
  destruct (slot s c) as [p|] eqn:Hs; [|discriminate H]. cbn in H.
  case_guard; [|discriminate H]. cbn in H.
  destruct p as [ci|]; injection H as <-.
  - eapply grows_store; [exact Hs|]. intros (cj & Hj & Hb).
    apply deref_slot in Hj. rewrite Hs in Hj. injection Hj as ->. exact Hb.
  - eapply grows_store; [exact Hs|]. intros (cj & Hj & _).
    apply deref_slot in Hj. rewrite Hs in Hj. discriminate Hj.
Qed.

Lemma join_scan_bounds s c t gs : forall a r,
  Actors.join_scan P fl s c t gs a = Some r -> r = a \/ in_bounds r.2.
Proof.
  induction gs as [|[key g] gs IH]; intros a r H; cbn in H.
  - left. congruence.
  - destruct (deref s c) as [ci|]; [|discriminate H]. cbn in H.
    destruct (fdiv_to_int fl _ _) as [k|]; [|discriminate H]. cbn in H.
    destruct ((k <? Actors.min_local_steps P fl) || (k <? a.2)
              || (k >? Actors.max_local_steps_bound P fl)) eqn:E.
    + apply IH. exact H.
    + apply IH in H as [->|H]; [|right; exact H]. right. cbn.
      apply orb_false_iff in E as [E E3]. apply orb_false_iff in E as [E1 E2].
      unfold ActorFacts.in_bounds. lia.
Qed.

Lemma _join_group_grows c s b s' :
  Actors._join_group P fl c s = Some (b, s') ->
  guarantee s s' /\ (b = true -> assigned s' c) /\ (b = false -> s' = s).
Proof.
  unfold Actors._join_group. intros H.
  destruct (Actors.join_scan P fl s c (clock s) (group_of_arrival s) (-1, -1))
    as [[g k]|] eqn:Hj; [|discriminate H]. cbn in H.
  destruct (g =? -1) eqn:Hg; cbn in H.
  - injection H as <- <-. split; [apply G_refl|]. split; [discriminate|reflexivity].
  - destruct (deref s c) as [ci|] eqn:Hd; [|discriminate H]. cbn in H.
    match type of H with context [find_group ?m ?g] => destruct (find_group m g) end;
      [|discriminate H]. cbn in H. injection H as <- <-.
    apply join_scan_bounds in Hj as [E|Hb]; [injection E as -> ->; discriminate Hg|].
    cbn in Hb. apply deref_slot in Hd.
    split; [|split; [intros _|discriminate]].
    + eapply G_trans; [|apply grows_same; reflexivity].
      apply (grows_store _ c (mk_ClientInfo (step ci) k g (total_steps ci) (speed ci)
                                (clock s)) s _ Hd). intros _. exact Hb.
    + destruct (assigned_store c (mk_ClientInfo (step ci) k g (total_steps ci) (speed ci)
                                   (clock s)) s _ Hd Hb) as (cj & Hj & Hbj).
      exists cj. split; [exact Hj|exact Hbj].
Qed.

Lemma sat_same f s :
  (forall s, trace (f s) = trace s) -> (forall s, client_info (f s) = client_info s) ->
  SAT any s (modify f s).
Proof. intros Ht Hc. sat_by sat_modify; [apply grows_same; auto|exact I]. Qed.

Lemma spawn_aggregation_grows o t s s' :
  Actors.spawn_aggregation fl o t s = Some s' -> guarantee s s'.
Proof.
  unfold Actors.spawn_aggregation. intros H.
  destruct (find_group _ _); [|discriminate H]. injection H as <-.
  apply grows_same; reflexivity.
Qed.

Lemma sat_found o c n t g s :
  in_bounds n -> SAT (fun _ s1 => assigned s1 c) s (found fl o c n t g s).
Proof.
  intros Hb. unfold found.
  sat_seq; [apply sat_same; reflexivity|].
  sat_seq; [sat_by sat_attempt; intros s' H; split;
            [eapply spawn_aggregation_grows; exact H|exact I]|].
  sat_seq; [sat_by sat_pause; auto using G_refl|].
  sat_then (fun ci s1 => deref s1 c = Some ci); [sat_by sat_inspect; auto|].
  apply deref_slot in H.
  sat_then (fun (_ : unit) s1 => assigned s1 c).
  - sat_by sat_modify.
    + eapply grows_store; [exact H|]. intros _. exact Hb.
    + eapply assigned_store; [exact H|exact Hb].
  - sat_by sat_modify; [apply grows_same; reflexivity|].
    destruct H0 as (cj & Hj & Hbj). exists cj. split; [exact Hj|exact Hbj].
Qed.

Lemma create_scan_le s t v gs : forall a r,
  Actors.create_scan P fl s t v gs a = Some r -> a <= r <= Z.max a (max_local_steps P).
Proof.
  induction gs as [|[key g] gs IH]; intros a r H; cbn in H.
  - injection H as <-. lia.
  - destruct (Qltb t (latest_arrival_time g)); [|apply IH in H; lia].
    destruct (fastest s (clients g ++ arrived_clients g) None) as [[f|]|];
      try discriminate H. cbn in H.
    destruct (static_cast_int _) as [n|]; [|discriminate H]. cbn in H.
    destruct (fdiv_to_int fl _ _) as [k|]; [|discriminate H]. cbn in H.
    destruct (k <=? max_local_steps P) eqn:Hk; apply IH in H; lia.
Qed.

Lemma sat_create_group c s :
  SAT (fun _ s1 => assigned s1 c) s (Actors._create_group P fl c s).
Proof.
  unfold Actors._create_group. cbv zeta.
  destruct (deref s c) as [ci|]; [|apply sat_stuck]. cbn.
  destruct (Actors.create_scan P fl s (clock s) (speed ci) (group_of_arrival s) (-1))
    as [a|] eqn:Ha; [|apply sat_stuck]. cbn.
  apply create_scan_le in Ha. pose proof min_steps_pos.
  apply sat_found. unfold ActorFacts.in_bounds.
  destruct ((0 <=? a) && (a <? Actors.min_local_steps P fl)) eqn:E1.
  - replace (Actors.min_local_steps P fl <? 0) with false
      by (symmetry; apply Z.ltb_ge; lia). lia.
  - destruct (a <? 0) eqn:E2; [lia|].
    apply Z.ltb_ge in E2. apply andb_false_iff in E1. lia.
Qed.

Lemma sat_assign_group c s :
  SAT (fun _ s1 => assigned s1 c) s (Actors._assign_group P fl c s).
Proof.
  unfold Actors._assign_group. cbv zeta.
  destruct (length (group_of_arrival s) =? 0)%nat.
  - destruct (deref s c) as [ci|]; [|apply sat_stuck].
    apply sat_found. unfold ActorFacts.in_bounds. lia.
  - destruct (Actors._join_group P fl c s) as [[[|] s1]|] eqn:Hj; [| |apply sat_stuck].
    + apply _join_group_grows in Hj as (Hg & Ha & _). apply sat_ret; auto.
    + apply _join_group_grows in Hj as (_ & _ & ->); [|reflexivity].
      apply sat_create_group.
Qed.

Lemma sat_send_global c n s :
  in_bounds n -> SAT any s (Actors._send_global_model_to_client P c n s).
Proof.
  intros Hb. unfold Actors._send_global_model_to_client.
  sat_seq; [sat_by sat_modify; [apply grows_log; exact Hb|exact I]|].
  sat_seq; [sat_by sat_pause; auto using G_refl|].
  sat_seq; [apply sat_execute|apply sat_pending].
Qed.

Lemma sat_send_model c s : assigned s c -> SAT any s (Actors._send_model P c s).
Proof.
  intros (cj & Hj & Hb). unfold Actors._send_model.
  sat_then (fun ci s1 => s1 = s /\ ci = cj).
  { sat_by sat_inspect. intros a Ha. split; [reflexivity|congruence]. }
  destruct H as [-> ->]. apply deref_slot in Hj.
  sat_seq; [|apply sat_send_global; exact Hb].
  sat_by sat_modify; [|exact I]. eapply grows_store; [exact Hj|]. intros _. exact Hb.
Qed.

Lemma sat_assign_all cs : forall s,
  SAT (fun _ s1 => Forall (assigned s1) cs.*1) s (Actors.assign_all P fl cs s).
Proof.
  induction cs as [|[c v] cs IH]; intros s; cbn [Actors.assign_all fmap list_fmap].
  - apply sat_ret; [apply G_refl|constructor].
  - sat_then (fun (_ : unit) s1 => assigned s1 c); [apply sat_assign_group|].
    eapply (sat_post _ _ G_trans);
      [|apply (sat_frame _ _ G_trans (fun s2 => assigned s2 c)); [| |exact H|apply IH]].
    + cbn. intros _ s2 [H1 H2]. constructor; assumption.
    + intros s2 s3 H1 H2. eapply assigned_guarantee; eassumption.
    + intros s2 s3 H1 H2. eapply assigned_rely; eassumption.
Qed.

Lemma sat_send_all cs : forall s,
  Forall (assigned s) cs.*1 -> SAT any s (Actors.send_all P cs s).
Proof.
  induction cs as [|[c v] cs IH]; intros s Hs; cbn [Actors.send_all].
  - apply sat_ret; [apply G_refl|exact I].
  - cbn in Hs. apply Forall_cons in Hs as [Hc Hs].
    sat_then (fun (_ : unit) s1 => Forall (assigned s1) cs.*1); [|apply IH; exact H].
    eapply (sat_post _ _ G_trans);
      [|apply (sat_frame _ _ G_trans (fun s1 => Forall (assigned s1) cs.*1));
                       [| |exact Hs|apply sat_send_model; exact Hc]].
    + cbn. intros _ s2 [_ H2]. exact H2.
    + intros s2 s3 H1 H2. eapply Forall_impl; [exact H1|].
      intros c' Hc'. eapply assigned_guarantee; eassumption.
    + intros s2 s3 H1 H2. eapply Forall_impl; [exact H1|].
      intros c' Hc'. eapply assigned_rely; eassumption.
Qed.

Lemma stamp_arrived_grows cs : forall acc s l s',
  stamp_arrived cs acc s = Some (l, s') -> guarantee s s'.
Proof.
  induction cs as [|c cs IH]; intros acc s l s' H; cbn in H.
  - injection H as <- <-. apply G_refl.
  - destruct (deref s c) as [ci|] eqn:Hd; [|discriminate H]. cbn in H.
    apply IH in H. eapply G_trans; [|exact H]. apply deref_slot in Hd.
    eapply grows_store; [exact Hd|]. intros (cj & Hj & Hb).
    apply deref_slot in Hj. rewrite Hd in Hj. injection Hj as ->. exact Hb.
Qed.

Lemma sat_stamp cs s : SAT (fun _ _ => True) s (stamp cs s).
Proof.
  unfold stamp. destruct (stamp_arrived cs [] s) as [[l s']|] eqn:E; [|apply sat_stuck].
  apply sat_ret; [eapply stamp_arrived_grows; exact E|exact I].
Qed.

Lemma Forall_assigned_same (l : list Z) s s' :
  client_info s' = client_info s -> Forall (assigned s) l -> Forall (assigned s') l.
Proof.
  intros E H. eapply Forall_impl; [exact H|]. intros c (ci & Hd & Hb).
  exists ci. split; [|exact Hb]. unfold deref, slot in *. rewrite E. exact Hd.
Qed.

Lemma sat_group_aggregation g s : SAT any s (Actors._group_aggregation P fl g s).
Proof.
  unfold Actors._group_aggregation.
  destruct (find_group (group_of_arrival s) g); [|apply sat_ret; [apply G_refl|exact I]].
  sat_seq; [apply sat_server_update_group|].
  sat_seq; [sat_by sat_inspect; auto|].
  sat_seq; [apply sat_stamp|]. cbv zeta.
  sat_seq; [apply sat_same; reflexivity|].
  sat_then (fun (_ : unit) s1 => Forall (assigned s1) (sort_by_speed a1).*1);
    [apply sat_assign_all|].
  sat_then (fun (_ : GOA) s1 => Forall (assigned s1) (sort_by_speed a1).*1);
    [sat_by sat_inspect; auto|].
  sat_then (fun (_ : unit) s1 => Forall (assigned s1) (sort_by_speed a1).*1).
  - sat_by sat_modify.
    + destruct (length (clients a4) =? 0)%nat; apply grows_same; reflexivity.
    + destruct (length (clients a4) =? 0)%nat; [|exact H0].
      eapply Forall_assigned_same; [|exact H0]. reflexivity.
  - sat_by sat_branch. destruct (iter s6 <? num_global_epochs P).
    + apply sat_send_all. exact H1.
    + apply sat_server_update_all.
Qed.

Lemma sat_single_update c b s : SAT any s (Actors._single_update P fl c b s).
Proof.
  unfold Actors._single_update.
  sat_seq; [destruct b; [apply sat_server_single_buffer|apply sat_server_update]|].
  sat_then (fun ci s1 => deref s1 c = Some ci); [sat_by sat_inspect; auto|].
  sat_seq.
  { sat_by sat_modify; [|exact I]. pose proof H as Hs. apply deref_slot in Hs.
    eapply grows_store; [exact Hs|]. intros (cj & Hj & Hb). cbn.
    rewrite H in Hj. injection Hj as ->. exact Hb. }
  sat_then (fun (_ : unit) s1 => assigned s1 c); [apply sat_assign_group|].
  sat_by sat_branch. destruct (iter s3 <? num_global_epochs P).
  - apply sat_send_model. exact H0.
  - apply sat_server_update_all.
Qed.

Lemma sat_group_update c g s : SAT any s (Actors._group_update P fl c g s).
Proof.
  unfold Actors._group_update. cbv zeta.
  destruct (find_group (group_of_arrival s) g) as [g0|]; [|apply sat_stuck].
  destruct (erase_remove (clients g0) c) as [v|]; [|apply sat_stuck].
  destruct (Qle_bool (latest_arrival_time g0) (clock s)).
  - eapply (sat_start _ _ G_trans); [|apply sat_single_update].
    destruct (length v =? 0)%nat; apply grows_same; reflexivity.
  - match goal with
    | |- sat _ _ _ ?s0 (_ ?s') =>
        apply (sat_start _ _ G_trans _ s0 s'); [apply grows_same; reflexivity|]
    end.
    sat_seq; [apply sat_server_buffer|].
    sat_seq; [sat_by sat_inspect; auto|].
    destruct (length (clients a0) =? 0)%nat.
    + apply sat_group_aggregation.
    + apply sat_ret; [apply G_refl|exact I].
Qed.

Lemma sat_update s : SAT any s (Actors.update P fl s).
Proof.
  unfold Actors.update.
  sat_seq; [apply sat_recv|].
  sat_seq; [sat_by sat_attempt; intros s' H; split;
            [eapply _record_info_grows; exact H|exact I]|].
  unfold Actors._update.
  sat_seq; [apply sat_same; reflexivity|].
  sat_seq; [sat_by sat_inspect; auto|].
  destruct (goa a2 =? -1); [apply sat_single_update|apply sat_group_update].
Qed.

Lemma sat_turn_loop validation_flag gs s :
  SAT any s (turn P fl validation_flag (PLoop gs) s).
Proof.
  cbn [turn]. sat_seq; [apply sat_update|].
  destruct (validation_flag || (gs + 1 =? num_global_epochs P));
    [apply sat_execute|apply sat_ret; [apply G_refl|exact I]].
Qed.

Lemma sat_turn_drain validation_flag s :
  SAT any s (turn P fl validation_flag PDrain s).
Proof.
  cbn [turn].
  sat_seq; [sat_by sat_pause; auto using G_refl|].
  sat_seq; [sat_by sat_modify; [apply grows_log; exact I|exact I]|].
  sat_seq; [apply sat_execute|apply sat_pending].
Qed.

Lemma rely_refl s : rely s s.
Proof. apply grows_refl. Qed.

Lemma rely_trans s1 s2 s3 : rely s1 s2 -> rely s2 s3 -> rely s1 s3.
Proof. apply grows_trans. Qed.

Lemma patient_rely sp s s' : patient P fl sp s -> rely s s' -> patient P fl sp s'.
Proof. intros H Hr v s2 H2. apply H. eapply rely_trans; eassumption. Qed.

Lemma good_not_stop a : good P fl a -> is_stop a = false.
Proof.
  destruct a as [|m p|m [n|x] b]; try reflexivity. cbn. intros [H _].
  pose proof min_steps_pos. apply Z.eqb_neq. lia.
Qed.

Lemma filter_stop_good tr : Forall (good P fl) tr -> List.filter is_stop tr = [].
Proof.
  induction 1 as [|a tr Ha _ IH]; [reflexivity|]. cbn.
  rewrite (good_not_stop a Ha). exact IH.
Qed.

(** The trace part of [dispatching] after a stretch of scheduler code. *)
Lemma trace_guarantee tr0 s s' n :
  (exists tr, trace s = tr0 ++ tr
     /\ Forall (fun a => good P fl a \/ is_stop a = true) tr
     /\ length (List.filter is_stop tr) = n) ->
  guarantee s s' ->
  exists tr, trace s' = tr0 ++ tr
    /\ Forall (fun a => good P fl a \/ is_stop a = true) tr
    /\ length (List.filter is_stop tr) = n.
Proof.
  intros (tr & E & F & L) [(tr' & E' & F') _].
  exists (tr ++ tr'). rewrite E', E, app_assoc. split; [reflexivity|]. split.
  - apply Forall_app. split; [exact F|]. eapply Forall_impl; [exact F'|]. cbn. auto.
  - rewrite List.filter_app, length_app, (filter_stop_good tr' F'), L. cbn. lia.
Qed.

Lemma sat_inv_yield {A} (Q : A -> state -> Prop) s w s1 k :
  SAT Q s (Yield w s1 k) ->
  guarantee s s1 /\ forall v s', rely s1 s' -> SAT Q s' (k v s').
Proof. intros H. inversion H; subst. auto. Qed.

Lemma sat_inv_ret {A} (Q : A -> state -> Prop) s a s1 :
  SAT Q s (Ret a s1) -> guarantee s s1 /\ Q a s1.
Proof. intros H. inversion H; subst. auto. Qed.

Lemma guarantee_set_clock t s : guarantee s (set_clock t s).
Proof. apply grows_same; reflexivity. Qed.

Lemma Forall_patient_rely ws s s' :
  Forall (fun sp => patient P fl sp s) ws -> rely s s' ->
  Forall (fun sp => patient P fl sp s') ws.
Proof.
  intros H Hr. eapply Forall_impl; [exact H|]. intros sp Hsp. cbn in Hsp.
  exact (patient_rely sp s s' Hsp Hr).
Qed.

(** A stretch of scheduler code run by an aggregation actor. *)
Lemma worker_dispatching tr0 c s ws :
  dispatching P fl tr0 c -> guarantee (shared c) s ->
  Forall (fun sp => patient P fl sp s) ws ->
  dispatching P fl tr0 (mk_config s (server_at c) ws).
Proof.
  intros [Ht Hs Hw] Hg Hws. split; cbn [shared server_at workers].
  - eapply trace_guarantee; eassumption.
  - intros ph sp E. destruct (Hs ph sp E) as [Hp Hi]. split; [|exact Hi].
    eapply patient_rely; [exact Hp|]. apply guarantee_rely. exact Hg.
  - exact Hws.
Qed.

Lemma fire_worker_dispatching vf tr0 i t c c' :
  dispatching P fl tr0 c -> fire P fl vf (LWorker i t) c = Some c' ->
  dispatching P fl tr0 c'.
Proof.
  intros Hc H. cbn [fire] in H.
  destruct (workers c !! i) as [sp|] eqn:Hi; [|discriminate H]. cbn in H.
  case_guard; [|discriminate H]. cbn in H.
  pose proof (dispatching_workers _ _ _ _ Hc) as Hw.
  pose proof (proj1 (Forall_lookup _ _) Hw i sp Hi 0 (set_clock t (shared c))
                (guarantee_rely _ _ (guarantee_set_clock t _))) as Hr.
  destruct (sp_resume sp 0 (set_clock t (shared c))) as [[] s| |w s k]; [| discriminate H |];
    injection H as <-.
  - apply sat_inv_ret in Hr as [Hg _].
    assert (Hg' : guarantee (shared c) s)
      by (eapply G_trans; [apply guarantee_set_clock|exact Hg]).
    apply worker_dispatching; [exact Hc|exact Hg'|].
    eapply Forall_patient_rely; [|apply guarantee_rely; exact Hg'].
    apply Forall_delete. exact Hw.
  - apply sat_inv_yield in Hr as [Hg Hk].
    assert (Hg' : guarantee (shared c) s)
      by (eapply G_trans; [apply guarantee_set_clock|exact Hg]).
    apply worker_dispatching; [exact Hc|exact Hg'|].
    apply Forall_insert.
    + eapply Forall_patient_rely; [exact Hw|apply guarantee_rely; exact Hg'].
    + intros v s' Hs'. cbn. apply Hk. exact Hs'.
Qed.

Lemma fire_wake_dispatching vf tr0 n c c' :
  dispatching P fl tr0 c -> fire P fl vf (LWake n) c = Some c' ->
  dispatching P fl tr0 c'.
Proof.
  intros Hc H. cbn [fire] in H.
  destruct (sleepers (shared c) !! n) as [z|] eqn:Hz; [|discriminate H]. cbn in H.
  case_guard; [|discriminate H]. cbn in H.
  pose proof (dispatching_workers _ _ _ _ Hc) as Hw.
  match type of H with
  | context [Actors._group_aggregation P fl ?g ?s0] =>
      pose proof (sat_group_aggregation g s0) as Hr;
      assert (Hg0 : guarantee (shared c) s0) by (apply grows_same; reflexivity);
      destruct (Actors._group_aggregation P fl g s0) as [[] s| |w s k];
      [| discriminate H |]; injection H as <-
  end.
  - apply sat_inv_ret in Hr as [Hg _].
    assert (Hg' : guarantee (shared c) s) by (eapply G_trans; eassumption).
    apply worker_dispatching; [exact Hc|exact Hg'|].
    eapply Forall_patient_rely; [exact Hw|apply guarantee_rely; exact Hg'].
  - apply sat_inv_yield in Hr as [Hg Hk].
    assert (Hg' : guarantee (shared c) s) by (eapply G_trans; eassumption).
    apply worker_dispatching; [exact Hc|exact Hg'|].
    apply Forall_app. split.
    + eapply Forall_patient_rely; [exact Hw|apply guarantee_rely; exact Hg'].
    + constructor; [|constructor]. intros v s' Hs'. cbn. apply Hk. exact Hs'.
Qed.

Lemma stops_phase ph sp sp' : stops P (Some (ph, sp)) = stops P (Some (ph, sp')).
Proof. destruct ph; reflexivity. Qed.

Lemma next_cases ph s :
  match next P ph s with
  | PLoop _ | PDrain => (exists g, ph = PLoop g) \/ ph = PDrain
  | PStop i =>
      ((exists g, ph = PLoop g) \/ ph = PDrain) /\ i = 0 /\ 0 < num_clients P
      \/ exists j, ph = PStop j /\ i = j + 1 /\ i < num_clients P
  | PEnd =>
      ((exists g, ph = PLoop g) \/ ph = PDrain) /\ num_clients P <= 0
      \/ (exists j, ph = PStop j /\ num_clients P <= j + 1) \/ ph = PEnd
  end.
Proof.
  assert (Ha : match after_drain P s with
               | PDrain => True
               | PStop i => i = 0 /\ 0 < num_clients P
               | PEnd => num_clients P <= 0
               | PLoop _ => False
               end).
  { unfold after_drain. destruct (decide (pending_clients s = ∅)); [|exact I].
    destruct (0 <? num_clients P) eqn:E; [apply Z.ltb_lt in E|apply Z.ltb_ge in E]; auto. }
  destruct ph as [g| |j|]; cbn [next].
  - destruct (g + 1 =? num_global_epochs P); [|left; eauto].
    destruct (after_drain P s);
      [destruct Ha|left; eauto|left; split; [left; eauto|exact Ha]
      |left; split; [left; eauto|exact Ha]].
  - destruct (after_drain P s);
      [destruct Ha|right; reflexivity|left; split; [right; reflexivity|exact Ha]
      |left; split; [right; reflexivity|exact Ha]].
  - destruct (j + 1 <? num_clients P) eqn:E;
      [apply Z.ltb_lt in E|apply Z.ltb_ge in E].
    + right. exists j. auto.
    + right. left. exists j. auto.
  - auto.
Qed.

Lemma fire_server_dispatching vf tr0 t v c c' :
  dispatching P fl tr0 c -> fire P fl vf (LServer t v) c = Some c' ->
  dispatching P fl tr0 c'.
Proof.
  intros Hc H. cbn [fire] in H.
  destruct (server_at c) as [[ph sp]|] eqn:Hsv; [|discriminate H]. cbn in H.
  case_guard; [|discriminate H]. cbn in H.
  destruct Hc as [Ht Hs Hw]. destruct (Hs ph sp Hsv) as [Hp Hph].
  pose proof (Hp v (set_clock t (shared c))
                (guarantee_rely _ _ (guarantee_set_clock t _))) as Hr.
  rewrite Hsv in Ht.
  destruct (sp_resume sp v (set_clock t (shared c))) as [[] s| |w s k];
    [| discriminate H |].
  - apply sat_inv_ret in Hr as [Hg _].
    assert (Hg' : guarantee (shared c) s)
      by (eapply G_trans; [apply guarantee_set_clock|exact Hg]).
    pose proof (trace_guarantee _ _ _ _ Ht Hg') as Ht'.
    pose proof (next_cases ph s) as Hn. unfold enter in H.
    destruct (next P ph s) as [g| |i|] eqn:En.
    + pose proof (sat_turn_loop vf g s) as Hturn.
      destruct (turn P fl vf (PLoop g) s) as [| |w s1 k]; try discriminate H.
      injection H as <-. apply sat_inv_yield in Hturn as [Hg1 Hk].
      assert (Hg2 : guarantee (shared c) s1) by (eapply G_trans; eassumption).
      split; cbn [shared server_at workers].
      * replace (stops P (Some (PLoop g, _))) with (stops P (Some (ph, sp)))
          by (destruct Hn as [[g' ->]| ->]; reflexivity).
        eapply trace_guarantee; eassumption.
      * intros ph' sp' E. injection E as <- <-. split; [|exact I].
        intros v' s' Hs'. cbn. apply Hk. exact Hs'.
      * eapply Forall_patient_rely; [exact Hw|apply guarantee_rely; exact Hg2].
    + pose proof (sat_turn_drain vf s) as Hturn.
      destruct (turn P fl vf PDrain s) as [| |w s1 k]; try discriminate H.
      injection H as <-. apply sat_inv_yield in Hturn as [Hg1 Hk].
      assert (Hg2 : guarantee (shared c) s1) by (eapply G_trans; eassumption).
      split; cbn [shared server_at workers].
      * replace (stops P (Some (PDrain, _))) with (stops P (Some (ph, sp)))
          by (destruct Hn as [[g' ->]| ->]; reflexivity).
        eapply trace_guarantee; eassumption.
      * intros ph' sp' E. injection E as <- <-. split; [|exact I].
        intros v' s' Hs'. cbn. apply Hk. exact Hs'.
      * eapply Forall_patient_rely; [exact Hw|apply guarantee_rely; exact Hg2].
    + cbn in H. injection H as <-.
      assert (Hr1 : rely (shared c) (log (Put i (PInt (-1)) 0) s)).
      { eapply rely_trans; [apply guarantee_rely; exact Hg'|].
        apply grows_log. right. reflexivity. }
      split; cbn [shared server_at workers].
      * destruct Ht' as (tr & E & F & L).
        exists (tr ++ [Put i (PInt (-1)) 0]). split; [|split].
        -- unfold log. cbn. rewrite E, app_assoc. reflexivity.
        -- apply Forall_app. split; [exact F|].
           constructor; [right; reflexivity|constructor].
        -- rewrite List.filter_app, length_app, L. cbn.
           destruct Hn as [([[g' ->]| ->] & -> & _)|(j & -> & -> & _)]; cbn; lia.
      * intros ph' sp' E. injection E as <- <-. split.
        -- intros v' s' Hs'. cbn. apply sat_execute.
        -- destruct Hn as [(_ & -> & Hn)|(j & -> & -> & Hn)]; lia.
      * eapply Forall_patient_rely; [exact Hw|exact Hr1].
    + cbn in H. injection H as <-.
      split; cbn [shared server_at workers].
      * destruct Ht' as (tr & E & F & L). exists tr. split; [exact E|]. split; [exact F|].
        rewrite L. cbn.
        destruct Hn as [([[g' ->]| ->] & Hn)|[(j & -> & Hn)| ->]]; cbn; lia.
      * intros ph' sp' E. discriminate E.
      * eapply Forall_patient_rely; [exact Hw|apply guarantee_rely; exact Hg'].
  - injection H as <-. apply sat_inv_yield in Hr as [Hg Hk].
    assert (Hg' : guarantee (shared c) s)
      by (eapply G_trans; [apply guarantee_set_clock|exact Hg]).
    split; cbn [shared server_at workers].
    + rewrite (stops_phase ph _ sp). eapply trace_guarantee; eassumption.
    + intros ph' sp' E. injection E as <- <-. split; [|exact Hph].
      intros v' s' Hs'. cbn. apply Hk. exact Hs'.
    + eapply Forall_patient_rely; [exact Hw|apply guarantee_rely; exact Hg'].
Qed.

Lemma boot_dispatching vf pending tr c0 :
  boot P fl vf pending tr = Some c0 -> dispatching P fl tr c0.
Proof.
  unfold boot. intros H.
  destruct (Actors.SchedulerCompass P fl pending tr) as [s|] eqn:Hs; [|discriminate H].
  cbn [mbind option_bind] in H. unfold enter in H.
  pose proof (sat_turn_loop vf 0 s) as Hturn.
  destruct (turn P fl vf (PLoop 0) s) as [| |w s1 k]; try (cbn in H; discriminate H).
  cbn in H. injection H as <-. apply sat_inv_yield in Hturn as [Hg Hk].
  assert (Et : trace s = tr).
  { unfold Actors.SchedulerCompass in Hs.
    do 3 (apply bind_Some in Hs as (? & _ & Hs)).
    injection Hs as <-. reflexivity. }
  split; cbn [shared server_at workers].
  - eapply trace_guarantee; [|exact Hg]. exists []. rewrite app_nil_r.
    split; [exact Et|]. split; [constructor|reflexivity].
  - intros ph sp E. injection E as <- <-. split; [|exact I].
    intros v s' Hs'. cbn. apply Hk. exact Hs'.
  - constructor.
Qed.

Lemma fire_dispatching vf tr0 l c c' :
  dispatching P fl tr0 c -> fire P fl vf l c = Some c' -> dispatching P fl tr0 c'.
Proof.
  destruct l as [t v|i t|n].
  - apply fire_server_dispatching.
  - apply fire_worker_dispatching.
  - apply fire_wake_dispatching.
Qed.

Lemma play_dispatching vf tr0 ls : forall c c',
  dispatching P fl tr0 c -> play P fl vf ls c = Some c' -> dispatching P fl tr0 c'.
Proof.
  induction ls as [|l ls IH]; intros c c' Hc H; cbn in H.
  - injection H as <-. exact Hc.
  - destruct (fire P fl vf l c) as [c1|] eqn:E; [|discriminate H]. cbn in H.
    eapply IH; [|exact H]. eapply fire_dispatching; eassumption.
Qed.

End Bounds.

Lemma defined_default {A} (d : A) (o : option A) :
  defined o = true -> o = Some (default d o).
Proof. destruct o; [reflexivity|discriminate]. Qed.

(** C2, as stated, fails.  With [q_ratio = 0.58] and [max_local_steps = 50]
    the product of the two doubles is rounded to 28.999999999999996, so the
    constructor sets [min_local_steps] to 28 where the floor of the exact
    product is 29; in the run [p58_labels] client 0 joins group 1 for 28
    steps and 28 is dispatched. *)
Lemma step_count_below_claimed_minimum :
  (c0 ← boot p58_params round64 false {[0; 1]} [];
   c ← play p58_params round64 false p58_labels c0;
   Some (CompassSpec.dispatched (trace (shared c)))) = Some [50; 50; 28]
  /\ Actors.min_local_steps p58_params round64 = 28
  /\ claimed_min_local_steps (58 # 100) 50 = 29
  /\ ~ steps_as_claimed (58 # 100) 50 [50; 50; 28].
Proof.
  split; [vm_compute; reflexivity|]. split; [vm_compute; reflexivity|].
  split; [vm_compute; reflexivity|].
  intros H. unfold steps_as_claimed in H.
  apply Forall_cons in H as [_ H]. apply Forall_cons in H as [_ H].
  apply Forall_cons in H as [[H _] _]. vm_compute in H. apply H. reflexivity.
Qed.

(** C2, amended.  Whatever the rounding [fl] of the machine, if the bounds
    the constructor computes satisfy
    [min_local_steps <= max_local_steps <= max_local_steps_bound], then in
    every run of the server and the aggregation actors, however they
    interleave at their suspension points, every integer put into a client's
    mailbox after the broadcast is a step count within
    [[min_local_steps, max_local_steps_bound]] or a termination message [-1],
    and there are exactly as many termination messages as [server]'s final
    loop has sent. *)
Theorem dispatched_steps_within_bounds
    (P : params) (fl : Q -> Q) (validation_flag : bool)
    (pending : gset Z) (tr : list action) (ls : list label) (c0 c : config)
    (Hmin : Actors.min_local_steps P fl <= max_local_steps P)
    (Hmax : max_local_steps P <= Actors.max_local_steps_bound P fl)
    (Hboot : boot P fl validation_flag pending tr = Some c0)
    (Hplay : play P fl validation_flag ls c0 = Some c) :
  exists sent, trace (shared c) = tr ++ sent
    /\ Forall (fun a => good P fl a \/ is_stop a = true) sent
    /\ length (List.filter is_stop sent) = stops P (server_at c).
Proof.
  apply (dispatching_trace P fl tr c).
  eapply play_dispatching; [exact Hmin|exact Hmax| |exact Hplay].
  eapply boot_dispatching; [exact Hmin|exact Hmax|exact Hboot].
Qed.

Lemma dispatched_steps_within_bounds_witness :
  CompassSpec.dispatched (trace (shared p58_end)) = [50; 50; 28]
  /\ exists sent, trace (shared p58_end) = [] ++ sent
       /\ Forall (fun a => good p58_params round64 a \/ is_stop a = true) sent
       /\ length (List.filter is_stop sent) = stops p58_params (server_at p58_end).
Proof.
  split; [vm_compute; reflexivity|].
  apply (dispatched_steps_within_bounds p58_params round64 false {[0; 1]} []
           p58_labels p58_start p58_end).
  - vm_compute. discriminate.
  - vm_compute. discriminate.
  - apply defined_default. vm_compute. reflexivity.
  - apply defined_default. vm_compute. reflexivity.
Defined.

(** ** The speed estimates (C4) *)

Section Speeds.
Variable P : params.
Variable fl : Q -> Q.

Local Abbreviation KEEP := (sat speeds_kept anyhow).
Local Abbreviation any := (fun (_ : unit) (_ : state) => True).

Lemma keeps_speed_refl o : keeps_speed o o.
Proof. destruct o; cbn; auto. Qed.

Lemma keeps_speed_trans o1 o2 o3 :
  keeps_speed o1 o2 -> keeps_speed o2 o3 -> keeps_speed o1 o3.
Proof. destruct o1, o2, o3; cbn; try tauto; congruence. Qed.

Lemma speeds_kept_refl s : speeds_kept s s.
Proof. split; [reflexivity|]. intros c. apply keeps_speed_refl. Qed.

Lemma speeds_kept_trans s1 s2 s3 :
  speeds_kept s1 s2 -> speeds_kept s2 s3 -> speeds_kept s1 s3.
Proof.
  intros [E1 H1] [E2 H2]. split; [congruence|].
  intros c. eapply keeps_speed_trans; eauto.
Qed.

Lemma speeds_kept_same s s' :
  clock s' = clock s -> client_info s' = client_info s -> speeds_kept s s'.
Proof.
  intros Ec Ei. split; [exact Ec|]. intros c. unfold deref, slot. rewrite Ei.
  apply keeps_speed_refl.
Qed.

Lemma speeds_kept_store c ci ci' s :
  deref s c = Some ci -> speed ci' = speed ci -> speeds_kept s (store c ci' s).
Proof.
  intros Hd Hs. split; [reflexivity|]. intros c'.
  pose proof Hd as Hsl. apply deref_slot in Hsl.
  destruct (decide (c = c')) as [<-|Hne].
  - rewrite Hd, (deref_store_eq _ _ _ _ Hsl). exact Hs.
  - rewrite deref_store_ne; [apply keeps_speed_refl| |exact Hne].
    eapply slot_nonneg. exact Hsl.
Qed.

Let K_refl := speeds_kept_refl.
Let K_trans := speeds_kept_trans.

Ltac keep_seq := eapply (sat_bind _ _ K_trans (fun _ _ => True)); [|intros ? ? _].
Ltac keep_then Q := eapply (sat_bind _ _ K_trans Q); [|intros ? ? ?].
Ltac keep_by lem := apply (lem _ _ K_trans); try apply K_refl.
Ltac keep_pause := keep_by sat_pause; intros; split; [apply K_refl|exact I].
Ltac keep_same := keep_by sat_modify; [apply speeds_kept_same; reflexivity|exact I].

Lemma keep_execute x s : KEEP any s (Actors.execute P x s).
Proof.
  unfold Actors.execute. keep_seq; [keep_same|].
  keep_seq; [keep_pause|]. apply sat_ret; [apply K_refl|exact I].
Qed.

Lemma keep_server_update s : KEEP any s (Actors.server_update P s).
Proof. unfold Actors.server_update. keep_seq; [apply keep_execute|keep_same]. Qed.

Lemma keep_server_single_buffer s : KEEP any s (Actors.server_single_buffer P s).
Proof. unfold Actors.server_single_buffer. keep_seq; [apply keep_execute|keep_same]. Qed.

Lemma keep_server_update_all s : KEEP any s (Actors.server_update_all P s).
Proof. unfold Actors.server_update_all. keep_seq; [apply keep_execute|keep_same]. Qed.

Lemma keep_server_buffer g s : KEEP any s (Actors.server_buffer P g s).
Proof.
  unfold Actors.server_buffer. keep_seq; [keep_same|].
  keep_seq; [apply keep_execute|keep_same].
Qed.

Lemma keep_server_update_group g s : KEEP any s (Actors.server_update_group P g s).
Proof.
  unfold Actors.server_update_group.
  destruct (group_pseudo_grad (server s) !! g).
  - apply sat_ret; [apply K_refl|exact I].
  - keep_seq; [apply keep_execute|keep_same].
Qed.

Lemma _join_group_keeps c s b s' :
  Actors._join_group P fl c s = Some (b, s') -> speeds_kept s s'.
Proof.
  unfold Actors._join_group. intros H.
  destruct (Actors.join_scan P fl s c (clock s) (group_of_arrival s) (-1, -1))
    as [[g k]|]; [|discriminate H]. cbn in H.
  destruct (negb (g =? -1)).
  - destruct (deref s c) as [ci|] eqn:Hd; [|discriminate H]. cbn in H.
    match type of H with context [find_group ?m ?g] => destruct (find_group m g) end;
      [|discriminate H]. cbn in H. injection H as <- <-.
    match goal with
    | |- speeds_kept _ (set_group_of_arrival _ ?s1) => apply (K_trans _ s1)
    end; [eapply speeds_kept_store; [exact Hd|reflexivity]|].
    apply speeds_kept_same; reflexivity.
  - injection H as <- <-. apply K_refl.
Qed.

Lemma keep_found o c n t g s : KEEP any s (found fl o c n t g s).
Proof.
  unfold found. keep_seq; [keep_same|].
  keep_seq.
  { keep_by sat_attempt. intros s' H. split; [|exact I].
    unfold Actors.spawn_aggregation in H.
    destruct (find_group _ _); [|discriminate H]. injection H as <-.
    apply speeds_kept_same; reflexivity. }
  keep_seq; [keep_pause|].
  keep_then (fun ci s1 => deref s1 c = Some ci); [keep_by sat_inspect; auto|].
  keep_seq; [|keep_same].
  keep_by sat_modify; [|exact I]. eapply speeds_kept_store; [exact H|reflexivity].
Qed.

Lemma keep_create_group c s : KEEP any s (Actors._create_group P fl c s).
Proof.
  unfold Actors._create_group. cbv zeta.
  destruct (deref s c) as [ci|]; [|apply sat_stuck]. cbn.
  destruct (Actors.create_scan P fl s (clock s) (speed ci) (group_of_arrival s) (-1));
    [|apply sat_stuck]. cbn. apply keep_found.
Qed.

Lemma keep_assign_group c s : KEEP any s (Actors._assign_group P fl c s).
Proof.
  unfold Actors._assign_group. cbv zeta.
  destruct (length (group_of_arrival s) =? 0)%nat.
  - destruct (deref s c) as [ci|]; [|apply sat_stuck]. apply keep_found.
  - destruct (Actors._join_group P fl c s) as [[[|] s1]|] eqn:Hj; [| |apply sat_stuck].
    + apply sat_ret; [eapply _join_group_keeps; exact Hj|exact I].
    + eapply (sat_start _ _ K_trans); [eapply _join_group_keeps; exact Hj|].
      apply keep_create_group.
Qed.

Lemma keep_send_model c s : KEEP any s (Actors._send_model P c s).
Proof.
  unfold Actors._send_model.
  keep_then (fun ci s1 => deref s1 c = Some ci); [keep_by sat_inspect; auto|].
  keep_seq.
  { keep_by sat_modify; [|exact I]. eapply speeds_kept_store; [exact H|reflexivity]. }
  unfold Actors._send_global_model_to_client.
  keep_seq; [keep_same|]. keep_seq; [keep_pause|].
  keep_seq; [apply keep_execute|keep_same].
Qed.

Lemma keep_assign_all cs : forall s, KEEP any s (Actors.assign_all P fl cs s).
Proof.
  induction cs as [|[c v] cs IH]; intros s; cbn [Actors.assign_all].
  - apply sat_ret; [apply K_refl|exact I].
  - keep_seq; [apply keep_assign_group|apply IH].
Qed.

Lemma keep_send_all cs : forall s, KEEP any s (Actors.send_all P cs s).
Proof.
  induction cs as [|[c v] cs IH]; intros s; cbn [Actors.send_all].
  - apply sat_ret; [apply K_refl|exact I].
  - keep_seq; [apply keep_send_model|apply IH].
Qed.

Lemma stamp_arrived_keeps cs : forall acc s l s',
  stamp_arrived cs acc s = Some (l, s') -> speeds_kept s s'.
Proof.
  induction cs as [|c cs IH]; intros acc s l s' H; cbn in H.
  - injection H as <- <-. apply K_refl.
  - destruct (deref s c) as [ci|] eqn:Hd; [|discriminate H]. cbn in H.
    apply IH in H. eapply K_trans; [|exact H].
    eapply speeds_kept_store; [exact Hd|reflexivity].
Qed.

End Speeds.
